(** * opentype.js geometry core: BoundingBox, Path and its SVG codec, Glyph, GlyphSet

    A shallow embedding of [src/bbox.ts], [src/path.ts], [src/glyph.ts] and
    [src/glyphset.ts], and the properties of them that the specification
    states.

    JavaScript numbers are kept behind the interface [Number]: the code of
    [BoundingBox], of the command buffer of a [Path] with its bounding box and
    [optimizeCommands], and of [Glyph] with [getPath] is written once against
    that interface and read in three number models,
    - [float], IEEE 754 binary64, which is what the program runs on;
    - [real], exact real arithmetic with a NaN, the arithmetic the
      comments of the source reason in;
    - [rat], exact rational arithmetic with a NaN, in which the decimal strings
      of the SVG codec can be computed. *)

From stdpp Require Import gmap list.
From Stdlib Require Import ZArith QArith Qcanon Qround Reals Lra Lia Floats.
From Stdlib Require Import Ascii String.
From Stdlib Require Import Ranalysis1 Rtopology.
From Stdlib Require Lqa.

Set Warnings "-register-all".

Close Scope Qc_scope.
Close Scope Q_scope.
Close Scope R_scope.
Close Scope string_scope.

(** ** JavaScript numbers *)

Declare Scope js_scope.
Delimit Scope js_scope with js.

Class Number (T : Type) : Type := {
  NaN : T;
  (** [isNaN(v)] *)
  isNaN : T -> bool;
  (** an integer literal of the source *)
  lit : Z -> T;
  add : T -> T -> T;
  sub : T -> T -> T;
  mul : T -> T -> T;
  div : T -> T -> T;
  (** unary minus *)
  neg : T -> T;
  (** [a < b]; false as soon as one side is NaN *)
  ltb : T -> T -> bool;
  (** [a <= b]; false as soon as one side is NaN *)
  leb : T -> T -> bool;
  (** [a === b] on numbers; false as soon as one side is NaN *)
  eqb : T -> T -> bool;
  (** [Math.sqrt] *)
  sqrt : T -> T;
  (** [Math.abs] *)
  abs : T -> T;
}.

Infix "+" := add : js_scope.
Infix "-" := sub : js_scope.
Infix "*" := mul : js_scope.
Infix "/" := div : js_scope.
Notation "- x" := (neg x) : js_scope.
Infix "<?" := ltb : js_scope.
Infix "<=?" := leb : js_scope.
Infix "=?" := eqb : js_scope.

(** [a > b] is [b < a] and [a >= b] is [b <= a]. *)
Definition gtb {T} `{Number T} (a b : T) : bool := ltb b a.
Definition geb {T} `{Number T} (a b : T) : bool := leb b a.
Infix ">?" := gtb (at level 70) : js_scope.
Infix ">=?" := geb (at level 70) : js_scope.

(** [Math.pow(v, n)] for the literal exponents 2 and 3 that the source uses,
    as the product of [n] factors. *)
Fixpoint pow {T} `{Number T} (v : T) (n : nat) : T :=
  match n with
  | O => lit 1
  | S O => v
  | S m => mul (pow v m) v
  end.

(** What every number model below satisfies and the proofs about
    [BoundingBox] rely on: a comparison that answers [true] has two numbers
    in front of it, and NaN is contagious. *)
Class NumberLaws (T : Type) `{Number T} : Prop := {
  isNaN_NaN : isNaN NaN = true;
  ltb_number : forall a b, ltb a b = true -> isNaN a = false /\ isNaN b = false;
  add_NaN_l : forall a b, isNaN a = true -> isNaN (add a b) = true;
  add_NaN_r : forall a b, isNaN b = true -> isNaN (add a b) = true;
  mul_NaN_l : forall a b, isNaN a = true -> isNaN (mul a b) = true;
  mul_NaN_r : forall a b, isNaN b = true -> isNaN (mul a b) = true;
}.

(** *** binary64 *)

Module Float64.

Definition of_Z (z : Z) : float :=
  match z with
  | Z0 => 0%float
  | Zpos _ => PrimFloat.of_uint63 (Uint63.of_Z z)
  | Zneg p => PrimFloat.opp (PrimFloat.of_uint63 (Uint63.of_Z (Zpos p)))
  end.

#[global] Instance float_Number : Number float := {|
  NaN := PrimFloat.nan;
  isNaN := PrimFloat.is_nan;
  lit := of_Z;
  add := PrimFloat.add;
  sub := PrimFloat.sub;
  mul := PrimFloat.mul;
  div := PrimFloat.div;
  neg := PrimFloat.opp;
  ltb := PrimFloat.ltb;
  leb := PrimFloat.leb;
  eqb := PrimFloat.eqb;
  sqrt := PrimFloat.sqrt;
  abs := PrimFloat.abs;
|}.

(** From 2^52 on every binary64 number is an integer; below it, adding and
    taking away 2^52 rounds to an integer. *)
Definition two52 : float := 0x1p52%float.

(** [Math.floor] *)
Definition floor (x : float) : float :=
  if PrimFloat.ltb (PrimFloat.abs x) two52 then
    if PrimFloat.eqb x 0 then x
    else
      let t := if PrimFloat.ltb x 0
               then PrimFloat.add (PrimFloat.sub x two52) two52
               else PrimFloat.sub (PrimFloat.add x two52) two52 in
      if PrimFloat.ltb x t then PrimFloat.sub t 1 else t
  else x.

(** [Math.round]: half-way cases go up, and a negative number that rounds
    to zero gives -0. *)
Definition round (x : float) : float :=
  if PrimFloat.ltb (PrimFloat.abs x) two52 then
    let f := floor x in
    let r := if PrimFloat.leb 0.5 (PrimFloat.sub x f) then PrimFloat.add f 1 else f in
    if PrimFloat.eqb r 0 && PrimFloat.ltb x 0 then PrimFloat.opp 0 else r
  else x.

End Float64.

(** *** exact reals with a NaN

    There are no infinities in this model: a division by zero and the square
    root of a negative number are NaN. *)

Module Real.

Inductive real : Type :=
| RNaN
| Fin (r : R).

Definition lift1 (f : R -> R) (a : real) : real :=
  match a with Fin x => Fin (f x) | RNaN => RNaN end.

Definition lift2 (f : R -> R -> R) (a b : real) : real :=
  match a, b with Fin x, Fin y => Fin (f x y) | _, _ => RNaN end.

Definition rdiv (a b : real) : real :=
  match a, b with
  | Fin x, Fin y => if Req_dec_T y 0 then RNaN else Fin (x / y)
  | _, _ => RNaN
  end.

Definition rsqrt (a : real) : real :=
  match a with
  | Fin x => if Rlt_dec x 0 then RNaN else Fin (R_sqrt.sqrt x)
  | RNaN => RNaN
  end.

Definition rltb (a b : real) : bool :=
  match a, b with
  | Fin x, Fin y => if Rlt_dec x y then true else false
  | _, _ => false
  end.

Definition rleb (a b : real) : bool :=
  match a, b with
  | Fin x, Fin y => if Rle_dec x y then true else false
  | _, _ => false
  end.

Definition reqb (a b : real) : bool :=
  match a, b with
  | Fin x, Fin y => if Req_dec_T x y then true else false
  | _, _ => false
  end.

#[global] Instance real_Number : Number real := {|
  NaN := RNaN;
  isNaN := fun a => match a with RNaN => true | Fin _ => false end;
  lit := fun z => Fin (IZR z);
  add := lift2 Rplus;
  sub := lift2 Rminus;
  mul := lift2 Rmult;
  div := rdiv;
  neg := lift1 Ropp;
  ltb := rltb;
  leb := rleb;
  eqb := reqb;
  sqrt := rsqrt;
  abs := lift1 Rabs;
|}.

End Real.

(** *** exact rationals with a NaN

    The model in which the SVG codec is run: a number is a rational in lowest
    terms, so [===] is equality, and its decimal digits can be computed.
    As in [real] there are no infinities. [Math.sqrt] rounds down at the
    sixteenth decimal and is exact on the square of a rational. *)

Module Rat.

Inductive rat : Type :=
| QNaN
| Rat (q : Qc).

Definition of_Z (z : Z) : rat := Rat (Q2Qc (inject_Z z)).

Definition lift1 (f : Qc -> Qc) (a : rat) : rat :=
  match a with Rat x => Rat (f x) | QNaN => QNaN end.

Definition lift2 (f : Qc -> Qc -> Qc) (a b : rat) : rat :=
  match a, b with Rat x, Rat y => Rat (f x y) | _, _ => QNaN end.

Definition Qc_eqb (x y : Qc) : bool :=
  match Qccompare x y with Eq => true | _ => false end.

Definition Qc_ltb (x y : Qc) : bool :=
  match Qccompare x y with Lt => true | _ => false end.

Definition Qc_leb (x y : Qc) : bool :=
  match Qccompare x y with Gt => false | _ => true end.

Definition qdiv (a b : rat) : rat :=
  match a, b with
  | Rat x, Rat y => if Qc_eqb y (Q2Qc 0) then QNaN else Rat (Qcdiv x y)
  | _, _ => QNaN
  end.

Definition Qc_sqrt (x : Qc) : Qc :=
  let n := Qnum (this x) in
  let d := Zpos (Qden (this x)) in
  Q2Qc (Qmake (Z.sqrt (n * d * 10 ^ 32)) (Z.to_pos (d * 10 ^ 16))).

Definition qsqrt (a : rat) : rat :=
  match a with
  | Rat x => if Qc_ltb x (Q2Qc 0) then QNaN else Rat (Qc_sqrt x)
  | QNaN => QNaN
  end.

Definition qltb (a b : rat) : bool :=
  match a, b with Rat x, Rat y => Qc_ltb x y | _, _ => false end.

Definition qleb (a b : rat) : bool :=
  match a, b with Rat x, Rat y => Qc_leb x y | _, _ => false end.

Definition qeqb (a b : rat) : bool :=
  match a, b with Rat x, Rat y => Qc_eqb x y | _, _ => false end.

Definition qabs (a : rat) : rat :=
  match a with
  | Rat x => if Qc_ltb x (Q2Qc 0) then Rat (Qcopp x) else Rat x
  | QNaN => QNaN
  end.

#[global] Instance rat_Number : Number rat := {|
  NaN := QNaN;
  isNaN := fun a => match a with QNaN => true | Rat _ => false end;
  lit := of_Z;
  add := lift2 Qcplus;
  sub := lift2 Qcminus;
  mul := lift2 Qcmult;
  div := qdiv;
  neg := lift1 Qcopp;
  ltb := qltb;
  leb := qleb;
  eqb := qeqb;
  sqrt := qsqrt;
  abs := qabs;
|}.

(** [Math.floor] and [Math.round] (half-way cases go up). *)
Definition floor (a : rat) : rat :=
  match a with Rat x => of_Z (Qfloor (this x)) | QNaN => QNaN end.

Definition round (a : rat) : rat :=
  match a with
  | Rat x => of_Z (Qfloor (this x + (1 # 2))%Q)
  | QNaN => QNaN
  end.

(** The decimal fraction [n / 10^k]. *)
Definition decimal (n : Z) (k : nat) : Qc :=
  Q2Qc (Qmake n (Z.to_pos (10 ^ Z.of_nat k))).

End Rat.

(** ** Exceptions *)

(** The outcome of a call that may [throw new Error(message)]. *)
Inductive result (A : Type) : Type :=
| Ok (a : A)
| Throw (message : string).
Arguments Ok {A}.
Arguments Throw {A}.

(** ** src/check.ts *)

Module Check.

(** [fail(message)] *)
Definition fail {A : Type} (message : string) : result A := Throw message.

(** [argument(predicate, message)], exported as [assert] too. *)
Definition argument (predicate : bool) (message : string) : result unit :=
  if negb predicate then fail message else Ok tt.

End Check.

(** ** src/bbox.ts *)

Module BBox.
Section BoundingBox.

Context {T : Type} `{Number T}.
Local Open Scope js_scope.

(** [derive(v0, v1, v2, v3, t)]: the cubic in Bernstein form. *)
Definition derive (v0 v1 v2 v3 t : T) : T :=
  pow (lit 1 - t) 3 * v0 +
  lit 3 * pow (lit 1 - t) 2 * t * v1 +
  lit 3 * (lit 1 - t) * pow t 2 * v2 +
  pow t 3 * v3.

Record BoundingBox : Type := mkBox { x1 : T; y1 : T; x2 : T; y2 : T }.

(** [new BoundingBox()] *)
Definition new : BoundingBox :=
  {| x1 := NaN; y1 := NaN; x2 := NaN; y2 := NaN |}.

Definition isEmpty (b : BoundingBox) : bool :=
  isNaN (x1 b) || isNaN (y1 b) || isNaN (x2 b) || isNaN (y2 b).

Definition set_x1 (v : T) (b : BoundingBox) := mkBox v (y1 b) (x2 b) (y2 b).
Definition set_x2 (v : T) (b : BoundingBox) := mkBox (x1 b) (y1 b) v (y2 b).
Definition set_y1 (v : T) (b : BoundingBox) := mkBox (x1 b) v (x2 b) (y2 b).
Definition set_y2 (v : T) (b : BoundingBox) := mkBox (x1 b) (y1 b) (x2 b) v.

(** The half of [addPoint] guarded by [typeof x === 'number']. *)
Definition widenX (x : T) (b : BoundingBox) : BoundingBox :=
  let b := if isNaN (x1 b) || isNaN (x2 b) then set_x2 x (set_x1 x b) else b in
  let b := if x <? x1 b then set_x1 x b else b in
  let b := if x >? x2 b then set_x2 x b else b in
  b.

(** The half of [addPoint] guarded by [typeof y === 'number']. *)
Definition widenY (y : T) (b : BoundingBox) : BoundingBox :=
  let b := if isNaN (y1 b) || isNaN (y2 b) then set_y2 y (set_y1 y b) else b in
  let b := if y <? y1 b then set_y1 y b else b in
  let b := if y >? y2 b then set_y2 y b else b in
  b.

(** [addPoint(x, y)]; [None] is the [null] that [addX] and [addY] pass. *)
Definition addPoint (x y : option T) (b : BoundingBox) : BoundingBox :=
  let b := match x with Some x => widenX x b | None => b end in
  let b := match y with Some y => widenY y b | None => b end in
  b.

Definition addX (x : T) (b : BoundingBox) : BoundingBox := addPoint (Some x) None b.
Definition addY (y : T) (b : BoundingBox) : BoundingBox := addPoint None (Some y) b.

(** One pass of a [for (let i = 0; i <= 1; i++)] loop of [addBezier] over
    the coordinates [v0 v1 v2 v3] of one axis; [addV] is [addX] in the
    first loop and [addY] in the second. *)
Definition bezierPass (addV : T -> BoundingBox -> BoundingBox)
    (v0 v1 v2 v3 : T) (box : BoundingBox) : BoundingBox :=
  let b := lit 6 * v0 - lit 12 * v1 + lit 6 * v2 in
  let a := lit (-3) * v0 + lit 9 * v1 - lit 9 * v2 + lit 3 * v3 in
  let c := lit 3 * v1 - lit 3 * v0 in
  if a =? lit 0 then
    if b =? lit 0 then box
    else
      let t := - c / b in
      if (lit 0 <? t) && (t <? lit 1) then addV (derive v0 v1 v2 v3 t) box
      else box
  else
    let b2ac := pow b 2 - lit 4 * a * c in
    if b2ac <? lit 0 then box
    else
      let t1 := (- b + sqrt b2ac) / (lit 2 * a) in
      let box :=
        if (lit 0 <? t1) && (t1 <? lit 1) then addV (derive v0 v1 v2 v3 t1) box
        else box in
      let t2 := (- b - sqrt b2ac) / (lit 2 * a) in
      if (lit 0 <? t2) && (t2 <? lit 1) then addV (derive v0 v1 v2 v3 t2) box
      else box.

(** [addBezier(x0, y0, x1, y1, x2, y2, x, y)]: each loop runs its body for
    [i = 0] and [i = 1]. *)
Definition addBezier (x0 y0 cx1 cy1 cx2 cy2 x y : T) (b : BoundingBox)
  : BoundingBox :=
  let b := addPoint (Some x0) (Some y0) b in
  let b := addPoint (Some x) (Some y) b in
  let b := bezierPass addX x0 cx1 cx2 x b in
  let b := bezierPass addX x0 cx1 cx2 x b in
  let b := bezierPass addY y0 cy1 cy2 y b in
  let b := bezierPass addY y0 cy1 cy2 y b in
  b.

(** [addQuad(x0, y0, x1, y1, x, y)] *)
Definition addQuad (x0 y0 qx1 qy1 x y : T) (b : BoundingBox) : BoundingBox :=
  let cp1x := x0 + lit 2 / lit 3 * (qx1 - x0) in
  let cp1y := y0 + lit 2 / lit 3 * (qy1 - y0) in
  let cp2x := cp1x + lit 1 / lit 3 * (x - x0) in
  let cp2y := cp1y + lit 1 / lit 3 * (y - y0) in
  addBezier x0 y0 cp1x cp1y cp2x cp2y x y b.

(** The quadratic curve that [addQuad] is given, in Bernstein form. *)
Definition quadratic (v0 v1 v2 t : T) : T :=
  pow (lit 1 - t) 2 * v0 + lit 2 * (lit 1 - t) * t * v1 + pow t 2 * v2.

(** The calls that add to a box. *)
Inductive Operation : Type :=
| AddPoint (x y : option T)
| AddX (x : T)
| AddY (y : T)
| AddBezier (x0 y0 cx1 cy1 cx2 cy2 x y : T)
| AddQuad (x0 y0 qx1 qy1 x y : T).

Definition apply (b : BoundingBox) (op : Operation) : BoundingBox :=
  match op with
  | AddPoint x y => addPoint x y b
  | AddX x => addX x b
  | AddY y => addY y b
  | AddBezier x0 y0 cx1 cy1 cx2 cy2 x y => addBezier x0 y0 cx1 cy1 cx2 cy2 x y b
  | AddQuad x0 y0 qx1 qy1 x y => addQuad x0 y0 qx1 qy1 x y b
  end.

(** A sequence of calls, first call first. *)
Definition applyAll (ops : list Operation) (b : BoundingBox) : BoundingBox :=
  fold_left apply ops b.

Definition number (v : T) : bool := negb (isNaN v).

(** Whether a call hands over a number as an x coordinate of a point, and
    as a y coordinate. *)
Definition givesX (op : Operation) : bool :=
  match op with
  | AddPoint (Some x) _ => number x
  | AddPoint None _ => false
  | AddX x => number x
  | AddY _ => false
  | AddBezier x0 _ _ _ _ _ x _ => number x0 || number x
  | AddQuad x0 _ _ _ x _ => number x0 || number x
  end.

Definition givesY (op : Operation) : bool :=
  match op with
  | AddPoint _ (Some y) => number y
  | AddPoint _ None => false
  | AddX _ => false
  | AddY y => number y
  | AddBezier _ y0 _ _ _ _ _ y => number y0 || number y
  | AddQuad _ y0 _ _ _ y => number y0 || number y
  end.

End BoundingBox.

Arguments BoundingBox T : clear implicits.

End BBox.

(** ** src/path.ts: the command buffer and its geometry *)

Module Path.

(** A [PathCommand]: the object [{ type, x, y, x1, y1, x2, y2 }] with the
    fields its [type] comes with. *)
Inductive PathCommand (T : Type) : Type :=
| MoveTo (x y : T)                  (* type 'M' *)
| LineTo (x y : T)                  (* type 'L' *)
| QuadTo (x1 y1 x y : T)            (* type 'Q' *)
| CurveTo (x1 y1 x2 y2 x y : T)     (* type 'C' *)
| Close.                            (* type 'Z' *)
Arguments MoveTo {T}. Arguments LineTo {T}. Arguments QuadTo {T}.
Arguments CurveTo {T}. Arguments Close {T}.

(** The descriptor stored in [_image]. *)
Record Image (T : Type) : Type := mkImage {
  image : nat;
  image_x : T;
  image_y : T;
  image_width : T;
  image_height : T;
}.
Arguments mkImage {T}.

Inductive Path (T : Type) : Type := mkPath {
  commands : list (PathCommand T);
  fill : option string;
  stroke : option string;
  strokeWidth : T;
  unitsPerEm : option T;
  _layers : option (list (Path T));
  _image : option (Image T);
}.
Arguments mkPath {T}.
Arguments commands {T}. Arguments fill {T}. Arguments stroke {T}.
Arguments strokeWidth {T}. Arguments unitsPerEm {T}.
Arguments _layers {T}. Arguments _image {T}.

Section Commands.

Context {T : Type} `{Number T}.
Local Open Scope js_scope.

(** [new Path()] *)
Definition new : Path T :=
  {| commands := []; fill := Some "black"%string; stroke := None;
     strokeWidth := lit 1; unitsPerEm := None;
     _layers := None; _image := None |}.

Definition set_commands (cs : list (PathCommand T)) (p : Path T) : Path T :=
  mkPath cs (fill p) (stroke p) (strokeWidth p) (unitsPerEm p) (_layers p) (_image p).

Definition push (c : PathCommand T) (p : Path T) : Path T :=
  set_commands (commands p ++ [c]) p.

Definition moveTo (x y : T) := push (MoveTo x y).
Definition lineTo (x y : T) := push (LineTo x y).
Definition curveTo (x1 y1 x2 y2 x y : T) := push (CurveTo x1 y1 x2 y2 x y).
Definition bezierCurveTo (x1 y1 x2 y2 x y : T) := curveTo x1 y1 x2 y2 x y.
Definition quadTo (x1 y1 x y : T) := push (QuadTo x1 y1 x y).
Definition quadraticCurveTo (x1 y1 x y : T) := quadTo x1 y1 x y.
Definition close := push Close.
Definition closePath := close.

(** [extend(pathOrCommands)] on an array of commands. *)
Definition extend (cs : list (PathCommand T)) (p : Path T) : Path T :=
  fold_left (fun p c => push c p) cs p.

(** What [extend] can be given: an array of commands, a [Path], a
    [BoundingBox], or another object, which has a [commands] property or
    has none. The array and the path are not the receiver's own. *)
Inductive Extension : Type :=
| OfCommands (cs : list (PathCommand T))
| OfPath (q : Path T)
| OfBox (b : BBox.BoundingBox T)
| OfObject (cs : option (list (PathCommand T))).

(** [extend(pathOrCommands)] *)
Definition extendWith (pathOrCommands : Extension) (p : Path T) : Path T :=
  match pathOrCommands with
  | OfCommands cs => extend cs p
  | OfPath q => extend (commands q) p
  | OfBox b =>
      let p := moveTo (BBox.x1 b) (BBox.y1 b) p in
      let p := lineTo (BBox.x2 b) (BBox.y1 b) p in
      let p := lineTo (BBox.x2 b) (BBox.y2 b) p in
      let p := lineTo (BBox.x1 b) (BBox.y2 b) p in
      close p
  | OfObject (Some cs) => extend cs p
  | OfObject None => p
  end.

(** The fields [x], [y] of a command; [None] is [undefined]. *)
Definition cmd_x (c : PathCommand T) : option T :=
  match c with
  | MoveTo x _ | LineTo x _ | QuadTo _ _ x _ | CurveTo _ _ _ _ x _ => Some x
  | Close => None
  end.

Definition cmd_y (c : PathCommand T) : option T :=
  match c with
  | MoveTo _ y | LineTo _ y | QuadTo _ _ _ y | CurveTo _ _ _ _ _ y => Some y
  | Close => None
  end.

(** [a === b] on two fields: two [undefined] are equal, a number and
    [undefined] are not. *)
Definition field_eqb (a b : option T) : bool :=
  match a, b with
  | Some u, Some v => u =? v
  | None, None => true
  | _, _ => false
  end.

(** The state of the loop of [getBoundingBox]. *)
Record Cursor : Type := mkCursor {
  box : BBox.BoundingBox T;
  startX : T; startY : T; prevX : T; prevY : T;
}.

Definition boundingStep (s : Cursor) (cmd : PathCommand T) : Cursor :=
  match cmd with
  | MoveTo x y => mkCursor (BBox.addPoint (Some x) (Some y) (box s)) x y x y
  | LineTo x y => mkCursor (BBox.addPoint (Some x) (Some y) (box s)) (startX s) (startY s) x y
  | QuadTo x1 y1 x y =>
      mkCursor (BBox.addQuad (prevX s) (prevY s) x1 y1 x y (box s)) (startX s) (startY s) x y
  | CurveTo x1 y1 x2 y2 x y =>
      mkCursor (BBox.addBezier (prevX s) (prevY s) x1 y1 x2 y2 x y (box s))
               (startX s) (startY s) x y
  | Close => mkCursor (box s) (startX s) (startY s) (startX s) (startY s)
  end.

(** [getBoundingBox()], on the commands of the path. *)
Definition getBoundingBox (cs : list (PathCommand T)) : BBox.BoundingBox T :=
  let s := fold_left boundingStep cs
             (mkCursor BBox.new (lit 0) (lit 0) (lit 0) (lit 0)) in
  if BBox.isEmpty (box s) then BBox.addPoint (Some (lit 0)) (Some (lit 0)) (box s)
  else box s.

(** *** optimizeCommands *)

(** [nextCommand.command]: a [PathCommand] has a [type] and no [command]
    property, so the read is [undefined] on every command. *)
Definition command_property (c : PathCommand T) : option ascii := None.

(** [!nextCommand || nextCommand.command === 'Z'] *)
Definition nothingFollows (next : option (PathCommand T)) : bool :=
  match next with
  | None => true
  | Some c =>
      match command_property c with
      | Some t => Ascii.eqb t "Z"
      | None => false
      end
  end.

(** [subpath[0].type = 'M']; the guard of the only assignment makes
    [subpath[0]] a line. *)
Definition retype_M (c : PathCommand T) : PathCommand T :=
  match c with LineTo x y => MoveTo x y | c => c end.

Definition is_M (c : option (PathCommand T)) : bool :=
  match c with Some (MoveTo _ _) => true | _ => false end.

Definition is_L (c : option (PathCommand T)) : bool :=
  match c with Some (LineTo _ _) => true | _ => false end.

(** The state of the loop: the finished subpaths, the one being filled
    ([subpaths[subpaths.length - 1]]) and the start point. *)
Record Subpaths : Type := mkSubpaths {
  finished : list (list (PathCommand T));
  subpath : list (PathCommand T);
  sx : T; sy : T;
}.

Definition optimizeStep (s : Subpaths) (cmd : PathCommand T)
    (nextCommand : option (PathCommand T)) : Subpaths :=
  let firstCommand := subpath s !! 0%nat in
  let secondCommand := subpath s !! 1%nat in
  let previousCommand := last (subpath s) in
  let pushed := subpath s ++ [cmd] in
  match cmd with
  | MoveTo x y => mkSubpaths (finished s) pushed x y
  | LineTo x y =>
      if nothingFollows nextCommand then
        if negb ((abs (x - sx s) >? lit 1) || (abs (y - sy s) >? lit 1))
        then mkSubpaths (finished s) (subpath s) (sx s) (sy s)
        else mkSubpaths (finished s) pushed (sx s) (sy s)
      else if match previousCommand with
              | Some p => field_eqb (cmd_x p) (Some x) && field_eqb (cmd_y p) (Some y)
              | None => false
              end
      then mkSubpaths (finished s) (subpath s) (sx s) (sy s)
      else mkSubpaths (finished s) pushed (sx s) (sy s)
  | Close =>
      let closed :=
        match firstCommand, secondCommand, previousCommand with
        | Some f, Some _, Some p =>
            if is_M firstCommand && is_L secondCommand && is_L previousCommand
               && field_eqb (cmd_x p) (cmd_x f) && field_eqb (cmd_y p) (cmd_y f)
            then match tail pushed with
                 | c :: rest => retype_M c :: rest
                 | [] => []
                 end
            else pushed
        | _, _, _ => pushed
        end in
      match nextCommand with
      | Some _ => mkSubpaths (finished s ++ [closed]) [] (sx s) (sy s)
      | None => mkSubpaths (finished s) closed (sx s) (sy s)
      end
  | _ => mkSubpaths (finished s) pushed (sx s) (sy s)
  end.

Fixpoint optimizeLoop (cs : list (PathCommand T)) (s : Subpaths) : Subpaths :=
  match cs with
  | [] => s
  | cmd :: rest => optimizeLoop rest (optimizeStep s cmd (head rest))
  end.

Definition optimizeCommands (cs : list (PathCommand T)) : list (PathCommand T) :=
  let s := optimizeLoop cs (mkSubpaths [] [] (lit 0) (lit 0)) in
  List.concat (finished s ++ [subpath s]).

End Commands.
End Path.

(** ** src/path.ts: the SVG codec, in the rational number model *)

Module SVG.
Import Rat Path.
Local Open Scope js_scope.

Abbreviation Command := (PathCommand rat).

(** *** Decimal digits *)

Definition digit (d : Z) : ascii := ascii_of_nat (48 + Z.to_nat d).

Fixpoint digits_fuel (fuel : nat) (n : Z) : list ascii :=
  match fuel with
  | O => []
  | S f =>
      if (n <? 10)%Z then [digit n]
      else digits_fuel f (n / 10) ++ [digit (n mod 10)]
  end.

(** The decimal digits of [n >= 0], most significant first. *)
Definition digits (n : Z) : list ascii :=
  digits_fuel (S (Z.to_nat (Z.log2 n))) n.

(** The digits without the zeros at their end. *)
Fixpoint significant (ds : list ascii) : list ascii :=
  match ds with
  | [] => []
  | d :: rest =>
      match significant rest with
      | [] => if Ascii.eqb d "0" then [] else [d]
      | kept => d :: kept
      end
  end.

(** The exponent notation of the integer with the decimal digits [ds]:
    the first digit, a point and the other significant digits if there are
    any, and [e+] with the exponent. *)
Definition exponential (ds : list ascii) : list ascii :=
  let exponent :=
    "e"%char :: "+"%char :: digits (Z.of_nat (List.length ds - 1)) in
  match significant ds with
  | [] => exponent
  | [d] => d :: exponent
  | d :: rest => d :: "."%char :: rest ++ exponent
  end.

(** ['' + a] for an integer [a >= 0]: its digits below 10^21, the exponent
    notation from there on. *)
Definition naturalToString (a : Z) : list ascii :=
  if (a <? 10 ^ 21)%Z then digits a else exponential (digits a).

(** ['' + n] for an integer [n]. *)
Definition integerToString (n : Z) : list ascii :=
  if (n <? 0)%Z then "-"%char :: naturalToString (- n) else naturalToString n.

Definition isDigit (c : ascii) : bool :=
  (48 <=? nat_of_ascii c)%nat && (nat_of_ascii c <=? 57)%nat.

Definition digitValue (c : ascii) : Z := Z.of_nat (nat_of_ascii c - 48).

(** The number a run of decimal digits writes. *)
Definition digitsValue (ds : list ascii) : Z :=
  fold_left (fun acc c => (10 * acc + digitValue c)%Z) ds 0%Z.

Fixpoint takeDigits (s : list ascii) : list ascii * list ascii :=
  match s with
  | c :: r =>
      if isDigit c then let '(ds, rest) := takeDigits r in (c :: ds, rest)
      else ([], s)
  | [] => ([], [])
  end.

(** [parseFloat(s)] on the strings the tokenizer of [fromSVG] builds: an
    optional ['-'], digits, and at most one ['.']. *)
Definition parseFloat (s : list ascii) : rat :=
  let '(negative, body) :=
    match s with
    | "-"%char :: r => (true, r)
    | _ => (false, s)
    end in
  let '(ip, rest) := takeDigits body in
  let fp := match rest with
            | "."%char :: r => fst (takeDigits r)
            | _ => []
            end in
  match ip, fp with
  | [], [] => QNaN
  | _, _ =>
      let v := Qcplus (Q2Qc (inject_Z (digitsValue ip)))
                      (decimal (digitsValue fp) (List.length fp)) in
      Rat (if negative then Qcopp v else v)
  end.

(** *** roundDecimal *)

(** The power [10^k] as a number. *)
Definition ten_to (k : nat) : rat := of_Z (10 ^ Z.of_nat k).

(** [Number(decimalPart + 'e+' + places)]: the decimal point moves
    [places] digits to the right. A [decimalPart] in (0, 10^-6) is written
    by [+] in exponent notation, the text with a second exponent appended is
    not a number, and the result is NaN. *)
Definition shiftLeft (decimalPart : rat) (places : nat) : rat :=
  match decimalPart with
  | Rat d =>
      if Qc_ltb (Q2Qc 0) d && Qc_ltb d (decimal 1 6) then QNaN
      else decimalPart * ten_to places
  | QNaN => QNaN
  end.

(** [+(n + 'e-' + places)] *)
Definition shiftRight (n : rat) (places : nat) : rat := n / ten_to places.

(** [roundDecimal(float, places)]. The cache [decimalRoundingCache] stores
    the value computed for [(places, decimalPart)] and nothing else, so a
    hit returns what the computation returns. *)
Definition roundDecimal (float : rat) (places : option nat) : rat :=
  match places with
  | None => float
  | Some places =>
      let integerPart := floor float in
      let decimalPart := float - integerPart in
      let roundedDecimalPart := shiftRight (round (shiftLeft decimalPart places)) places in
      integerPart + roundedDecimalPart
  end.

(** *** toPathData *)

Record PathOptions : Type := mkOptions {
  decimalPlaces : option nat;
  optimize : option bool;
  flipY : option bool;
  flipYBase : option rat;
  scale : option rat;
  x : option rat;
  y : option rat;
}.

(** The options object with no property set. *)
Definition noOptions : PathOptions := mkOptions None None None None None None None.

(** The value of a property after [Object.assign({}, defaults, options)]. *)
Definition assigned {A} (default : A) (given : option A) : A :=
  match given with Some v => v | None => default end.

(** What [createSVGOutputOptions] returns: [decimalPlaces], [optimize]
    (as a truth value), [flipY] and [flipYBase]. *)
Record OutputOptions : Type := mkOutput {
  out_decimalPlaces : option nat;
  out_optimize : bool;
  out_flipY : bool;
  out_flipYBase : option rat;
}.

Definition createSVGOutputOptions (options : nat + PathOptions) : OutputOptions :=
  match options with
  | inl n => mkOutput (Some n) false false None
  | inr o =>
      mkOutput (Some (assigned 2%nat (decimalPlaces o)))
               (assigned true (optimize o))
               (assigned true (flipY o))
               (flipYBase o)
  end.

(** [v.toFixed(places)]. From 10^21 on the result is ['' + v]; a binary64
    number of that size is an integer, and the model writes the integer
    part. *)
Definition toFixed (v : rat) (places : nat) : list ascii :=
  match v with
  | QNaN => list_ascii_of_string "NaN"
  | Rat q =>
      let negative := Qc_ltb q (Q2Qc 0) in
      let a := if negative then Qcopp q else q in
      let n := Qfloor (this a * inject_Z (10 ^ Z.of_nat places) + (1 # 2))%Q in
      let m := digits n in
      let m := repeat "0"%char (S places - List.length m) ++ m in
      let k := List.length m in
      let body :=
        if Qc_leb (Q2Qc (inject_Z (10 ^ 21))) a then naturalToString (Qfloor (this a))
        else
          match places with
          | O => m
          | _ => firstn (k - places) m ++ "."%char :: skipn (k - places) m
          end in
      if negative then "-"%char :: body else body
  end.

Definition floatToString (places : option nat) (v : rat) : list ascii :=
  let rounded := roundDecimal v places in
  if round v =? rounded then
    match rounded with
    | Rat q => integerToString (Qfloor (this q))
    | QNaN => list_ascii_of_string "NaN"
    end
  else toFixed rounded (assigned 0%nat places).

(** [packValues(...args)], with [i > 0] carried as [first = false]. *)
Fixpoint packFrom (places : option nat) (first : bool) (args : list rat) : list ascii :=
  match args with
  | [] => []
  | v :: rest =>
      (if (v >=? lit 0) && negb first then [" "%char] else [])
      ++ floatToString places v ++ packFrom places false rest
  end.

Definition packValues (places : option nat) (args : list rat) : list ascii :=
  packFrom places true args.

Definition flipped (flipY : bool) (flipYBase : rat) (v : rat) : rat :=
  if flipY then flipYBase - v else v.

Definition commandData (o : OutputOptions) (flipYBase : rat) (cmd : Command)
  : list ascii :=
  let fl := flipped (out_flipY o) flipYBase in
  let pk := packValues (out_decimalPlaces o) in
  match cmd with
  | MoveTo x y => "M"%char :: pk [x; fl y]
  | LineTo x y => "L"%char :: pk [x; fl y]
  | CurveTo x1 y1 x2 y2 x y => "C"%char :: pk [x1; fl y1; x2; fl y2; x; fl y]
  | QuadTo x1 y1 x y => "Q"%char :: pk [x1; fl y1; x; fl y]
  | Close => ["Z"%char]
  end.

(** [JSON.parse(JSON.stringify(commands))]: a new array of new objects with
    the same [type] and the same coordinates. ([JSON.stringify] writes a NaN
    as [null]; what is proved of the values below is proved of commands
    whose coordinates are numbers.) *)
Definition jsonCopy (cs : list Command) : list Command := cs.

(** [toPathData(options)], as the list of the characters of the result. *)
Definition pathData (options : nat + PathOptions) (p : Path rat) : list ascii :=
  let opt := createSVGOutputOptions options in
  let commandsCopy :=
    if out_optimize opt then optimizeCommands (jsonCopy (commands p))
    else commands p in
  let flipYBase :=
    match out_flipY opt, out_flipYBase opt with
    | true, None =>
        let tempPath := extend commandsCopy new in
        let boundingBox := getBoundingBox (commands tempPath) in
        BBox.y1 boundingBox + BBox.y2 boundingBox
    | _, Some b => b
    | false, None => QNaN
    end in
  flat_map (commandData opt flipYBase) commandsCopy.

Definition toPathData (options : nat + PathOptions) (p : Path rat) : string :=
  string_of_list_ascii (pathData options p).

(** *** fromSVG *)

(** What [createSVGParsingOptions] returns, and whether the caller gave a
    [flipYBase] ([options?.flipYBase === undefined]). *)
Record ParsingOptions : Type := mkParsing {
  in_decimalPlaces : option nat;
  in_optimize : bool;
  in_flipY : bool;
  in_flipYBase : rat;
  in_scale : rat;
  in_x : rat;
  in_y : rat;
}.

Definition createSVGParsingOptions (o : PathOptions) : ParsingOptions :=
  mkParsing (Some (assigned 2%nat (decimalPlaces o)))
            (assigned true (optimize o))
            (assigned true (flipY o))
            (assigned (lit 0) (flipYBase o))
            (assigned (lit 1) (scale o))
            (assigned (lit 0) (x o))
            (assigned (lit 0) (y o)).

Definition isSign (c : ascii) : bool :=
  Ascii.eqb c "-" || Ascii.eqb c "+".

(** ['MmLlQqCcZzHhVv'.indexOf(token) > -1] *)
Definition isCommand (c : ascii) : bool :=
  existsb (Ascii.eqb c) (list_ascii_of_string "MmLlQqCcZzHhVv").

(** [' ,\t\n\r\f\v'.indexOf(token) > -1] *)
Definition isSeparator (c : ascii) : bool :=
  existsb (Nat.eqb (nat_of_ascii c)) [32; 44; 9; 10; 13; 12; 11]%nat.

Definition toUpperCase (c : ascii) : ascii :=
  let n := nat_of_ascii c in
  if (97 <=? n)%nat && (n <=? 122)%nat then ascii_of_nat (n - 32) else c.

(** [s.indexOf(c)]; [None] is -1. *)
Fixpoint indexOf (c : ascii) (s : list ascii) : option nat :=
  match s with
  | [] => None
  | d :: r => if Ascii.eqb d c then Some O else option_map S (indexOf c r)
  end.

(** The variables the loop of [fromSVG] works on: [command.type], the
    array [buffer], kept as its last element [lastBuffer] and the ones
    before it [buffers] (the array is never empty), and [this.commands]. *)
Record Tokenizer : Type := mkTokenizer {
  commandType : option ascii;
  buffers : list (list ascii);
  lastBuffer : list ascii;
  parsed : list Command;
}.

(** [parseBuffer(buffer)] *)
Definition parseBuffer (places : option nat) (b : list (list ascii)) : list rat :=
  map (fun s => roundDecimal (parseFloat s) places)
      (filter (fun s => negb (Nat.eqb (List.length s) 0)) b).

(** The groups of [n] numbers that a loop [for (i = 0; i < length; i += n)]
    visits. *)
Fixpoint groups_fuel {A} (fuel n : nat) (l : list A) : list (list A) :=
  match fuel with
  | O => []
  | S f =>
      match l with
      | [] => []
      | _ => firstn n l :: groups_fuel f n (skipn n l)
      end
  end.

Definition groups {A} (n : nat) (l : list A) : list (list A) :=
  groups_fuel (List.length l) n l.

(** [parsedBuffer[i + k]] inside a group; past the end the read is
    [undefined], which every use adds to a number. *)
Definition at_ (g : list rat) (k : nat) : rat := nth k g QNaN.

(** [v || 0] on a field of the last command. *)
Definition orZero (v : option rat) : rat :=
  match v with
  | Some (Rat q) => Rat q
  | _ => lit 0
  end.

(** The cursor [x], [y] and [this.commands] inside [applyCommand]. *)
Record Pen : Type := mkPen { px : rat; py : rat; drawn : list Command }.

Definition from (relative : bool) (v : rat) : rat :=
  if relative then v else lit 0.

Definition applyGroup (commandType : ascii) (relative : bool)
    (s : Pen) (ig : nat * list rat) : Pen :=
  let '(i, g) := ig in
  let bx := from relative (px s) in
  let by_ := from relative (py s) in
  if Ascii.eqb commandType "M" then
    let x := bx + at_ g 0 in
    let y := by_ + at_ g 1 in
    mkPen x y (drawn s ++ [if Nat.eqb i 0 then MoveTo x y else LineTo x y])
  else if Ascii.eqb commandType "L" then
    let x := bx + at_ g 0 in
    let y := by_ + at_ g 1 in
    mkPen x y (drawn s ++ [LineTo x y])
  else if Ascii.eqb commandType "V" then
    let y := by_ + at_ g 0 in
    mkPen (px s) y (drawn s ++ [LineTo (px s) y])
  else if Ascii.eqb commandType "H" then
    let x := bx + at_ g 0 in
    mkPen x (py s) (drawn s ++ [LineTo x (py s)])
  else if Ascii.eqb commandType "C" then
    let x1 := bx + at_ g 0 in
    let y1 := by_ + at_ g 1 in
    let x2 := bx + at_ g 2 in
    let y2 := by_ + at_ g 3 in
    let x := bx + at_ g 4 in
    let y := by_ + at_ g 5 in
    mkPen x y (drawn s ++ [CurveTo x1 y1 x2 y2 x y])
  else if Ascii.eqb commandType "Q" then
    let x1 := bx + at_ g 0 in
    let y1 := by_ + at_ g 1 in
    let x := bx + at_ g 2 in
    let y := by_ + at_ g 3 in
    mkPen x y (drawn s ++ [QuadTo x1 y1 x y])
  else s.

(** The step [i += n] of the loop of each command type. *)
Definition groupSize (commandType : ascii) : nat :=
  if Ascii.eqb commandType "M" then 2
  else if Ascii.eqb commandType "L" then 2
  else if Ascii.eqb commandType "C" then 6
  else if Ascii.eqb commandType "Q" then 4
  else 1.

Definition isClose (c : option Command) : bool :=
  match c with Some Close => true | _ => false end.

(** [applyCommand()] *)
Definition applyCommand (places : option nat) (t : Tokenizer) : Tokenizer :=
  match commandType t with
  | None => t
  | Some type =>
      let commandType := toUpperCase type in
      let relative := negb (Ascii.eqb (toUpperCase type) type) in
      let parsedBuffer := parseBuffer places (buffers t ++ [lastBuffer t]) in
      if Nat.eqb (List.length parsedBuffer) 0 && negb (Ascii.eqb commandType "Z")
      then mkTokenizer (Some type) [] [] (parsed t)
      else
        let lastCmd := last (parsed t) in
        let x := match lastCmd with Some c => orZero (cmd_x c) | None => lit 0 end in
        let y := match lastCmd with Some c => orZero (cmd_y c) | None => lit 0 end in
        if Ascii.eqb commandType "Z" then
          mkTokenizer (Some type) [] []
            (if Nat.eqb (List.length (parsed t)) 0 || negb (isClose lastCmd)
             then parsed t ++ [Close] else parsed t)
        else
          let gs := groups (groupSize commandType) parsedBuffer in
          let pen := fold_left (applyGroup commandType relative)
                       (combine (seq 0 (List.length gs)) gs)
                       (mkPen x y (parsed t)) in
          mkTokenizer (Some type) [] [] (drawn pen)
  end.

(** ['Unexpected character: ' + token + ' at offset ' + i] *)
Definition unexpected (token : ascii) (i : nat) : string :=
  ("Unexpected character: " ++ String token (" at offset "
     ++ string_of_list_ascii (integerToString (Z.of_nat i))))%string.

(** One turn of the loop over [pathData]: [None] when [isUnexpected] has
    been set. *)
Definition tokenStep (places : option nat) (t : Tokenizer) (token : ascii)
  : option Tokenizer :=
  let last_ := lastBuffer t in
  if isDigit token then
    Some (mkTokenizer (commandType t) (buffers t) (last_ ++ [token]) (parsed t))
  else if isSign token then
    let type :=
      match commandType t with
      | None => if Nat.eqb (List.length (parsed t)) 0 then Some "L"%char else None
      | Some c => Some c
      end in
    if Ascii.eqb token "-" then
      match type with
      | None => None
      | Some _ =>
          match indexOf "-" last_ with
          | Some (S _) => None
          | _ =>
              if negb (Nat.eqb (List.length last_) 0)
              then Some (mkTokenizer type (buffers t ++ [last_]) ["-"%char] (parsed t))
              else Some (mkTokenizer type (buffers t) [token] (parsed t))
          end
      end
    else
      match type with
      | None => None
      | Some _ =>
          if negb (Nat.eqb (List.length last_) 0) then None
          else Some (mkTokenizer type (buffers t) last_ (parsed t))
      end
  else if isCommand token then
    match commandType t with
    | Some _ =>
        let t' := applyCommand places t in
        Some (mkTokenizer (Some token) (buffers t') (lastBuffer t') (parsed t'))
    | None => Some (mkTokenizer (Some token) (buffers t) last_ (parsed t))
    end
  else if isSeparator token then
    Some (mkTokenizer (commandType t) (buffers t ++ [last_]) [] (parsed t))
  else if Ascii.eqb token "." then
    match commandType t, indexOf "." last_ with
    | Some _, None =>
        Some (mkTokenizer (commandType t) (buffers t) (last_ ++ [token]) (parsed t))
    | _, _ => None
    end
  else None.

(** The loop [for (let i = 0; i < pathData.length; i++)], from offset [i]. *)
Fixpoint tokenize (places : option nat) (pathData : list ascii) (i : nat)
    (t : Tokenizer) : result Tokenizer :=
  match pathData with
  | [] => Ok t
  | token :: rest =>
      match tokenStep places t token with
      | Some t' => tokenize places rest (S i) t'
      | None => Throw (unexpected token i)
      end
  end.

(** The last loop of [fromSVG], on one command. *)
Definition place (opt : ParsingOptions) (flipYBase : rat) (cmd : Command) : Command :=
  let tx v := in_x opt + v * in_scale opt in
  let ty v := in_y opt + flipped (in_flipY opt) flipYBase v * in_scale opt in
  match cmd with
  | MoveTo x y => MoveTo (tx x) (ty y)
  | LineTo x y => LineTo (tx x) (ty y)
  | QuadTo x1 y1 x y => QuadTo (tx x1) (ty y1) (tx x) (ty y)
  | CurveTo x1 y1 x2 y2 x y => CurveTo (tx x1) (ty y1) (tx x2) (ty y2) (tx x) (ty y)
  | Close => Close
  end.

(** [fromSVG(pathData, options)] on a string, called on the path [p]. *)
Definition fromSVG (pathData : string) (options : PathOptions) (p : Path rat)
  : result (Path rat) :=
  let opt := createSVGParsingOptions options in
  match tokenize (in_decimalPlaces opt) (list_ascii_of_string pathData) 0
          (mkTokenizer None [] [] []) with
  | Throw message => Throw message
  | Ok t =>
      let t := applyCommand (in_decimalPlaces opt) t in
      let commands :=
        if in_optimize opt then optimizeCommands (parsed t) else parsed t in
      let flipYBase :=
        match in_flipY opt, flipYBase options with
        | true, None =>
            let boundingBox := getBoundingBox commands in
            BBox.y1 boundingBox + BBox.y2 boundingBox
        | _, _ => in_flipYBase opt
        end in
      Ok (set_commands (map (place opt flipYBase) commands) p)
  end.

(** [Path.fromSVG(pathData, options)] *)
Definition Path_fromSVG (pathData : string) (options : PathOptions)
  : result (Path rat) :=
  fromSVG pathData options new.

End SVG.

(** ** src/glyph.ts *)

Module Glyph.
Import Path.
Local Open Scope string_scope.
Local Open Scope list_scope.
Local Open Scope js_scope.

Definition nonEmpty (s : option string) : bool :=
  match s with
  | Some s => negb (String.eqb s EmptyString)
  | None => false
  end.

Section Deferred.

Context {T : Type} `{Number T}.

(** The truth value of a number: 0, -0 and NaN are false. *)
Definition truthy (v : T) : bool := negb (isNaN v) && negb (v =? lit 0).

(** What a path producer can read and write: everything but the private
    variable [_path] of the accessor. *)
Variable World : Type.

(** The variable [_path] that [getPathDefinition] closes over: a function
    that has not been called yet, or a path. The function is called with no
    argument; it returns a value for [_path], a path or again a function, or
    it throws. *)
Inductive PathSlot : Type :=
| Producer (f : World -> result PathSlot * World)
| Resolved (p : Path T).

Record Glyph : Type := mkGlyph {
  index : nat;
  name : option string;
  unicode : option Z;
  unicodes : list Z;
  xMin : option T;
  yMin : option T;
  xMax : option T;
  yMax : option T;
  advanceWidth : option T;
  leftSideBearing : option T;
  (** the property [unitsPerEm] that the accessor looks for on the glyph *)
  glyph_unitsPerEm : option T;
  _path : PathSlot;
}.

Record GlyphOptions : Type := mkGlyphOptions {
  o_index : option nat;
  o_name : option string;
  o_unicode : option Z;
  o_unicodes : option (list Z);
  o_xMin : option T;
  o_yMin : option T;
  o_xMax : option T;
  o_yMax : option T;
  o_advanceWidth : option T;
  o_leftSideBearing : option T;
  o_path : option PathSlot;
}.

(** The double quote, and the message of the constructor. *)
Definition dq : string := String (ascii_of_nat 34) EmptyString.

Definition reserved : string :=
  ("The unicode value " ++ dq ++ "0" ++ dq ++ " is reserved for the glyph name "
     ++ dq ++ ".null" ++ dq ++ " and cannot be used by any other glyph.")%string.

(** [n === s] for a name [n] that may be absent. *)
Definition name_is (n : option string) (s : string) : bool :=
  match n with Some m => String.eqb m s | None => false end.

(** The first statement group of the constructor: [this.name] and
    [this.unicode]. *)
Definition resolveIdentity (options : GlyphOptions) : option string * option Z :=
  if name_is (o_name options) ".notdef"
  then (Some ".notdef"%string, None)
  else if name_is (o_name options) ".null"
  then (Some ".null"%string, Some 0%Z)
  else ((if nonEmpty (o_name options) then o_name options else None),
        o_unicode options).

(** [new Glyph(options)] *)
Definition new (options : GlyphOptions) : result Glyph :=
  let index := default 0%nat (o_index options) in
  let '(name, unicode) := resolveIdentity options in
  if match unicode with Some u => (u =? 0)%Z | None => false end
     && negb (name_is name ".null")
  then Throw reserved
  else
    let unicodes :=
      match o_unicodes options with
      | Some us => us
      | None => match unicode with Some u => [u] | None => [] end
      end in
    Ok {| index := index; name := name; unicode := unicode; unicodes := unicodes;
          xMin := o_xMin options; yMin := o_yMin options;
          xMax := o_xMax options; yMax := o_yMax options;
          advanceWidth := o_advanceWidth options;
          leftSideBearing := o_leftSideBearing options;
          glyph_unitsPerEm := None;
          _path := default (Resolved Path.new) (o_path options) |}.

Definition set_path (s : PathSlot) (g : Glyph) : Glyph :=
  mkGlyph (index g) (name g) (unicode g) (unicodes g) (xMin g) (yMin g) (xMax g)
          (yMax g) (advanceWidth g) (leftSideBearing g) (glyph_unitsPerEm g) s.

(** [addUnicode(unicode)] *)
Definition addUnicode (u : Z) (g : Glyph) : Glyph :=
  mkGlyph (index g) (name g)
          (if Nat.eqb (List.length (unicodes g)) 0 then Some u else unicode g)
          (unicodes g ++ [u])
          (xMin g) (yMin g) (xMax g) (yMax g) (advanceWidth g) (leftSideBearing g)
          (glyph_unitsPerEm g) (_path g).

Definition set_unitsPerEm (u : option T) (p : Path T) : Path T :=
  mkPath (commands p) (fill p) (stroke p) (strokeWidth p) u (_layers p) (_image p).

Definition truthyField (v : option T) : bool :=
  match v with Some q => truthy q | None => false end.

(** The statement under the call of the producer: a path that has come
    without [unitsPerEm] takes the one of the glyph, if the glyph has one;
    a value that is no path is left as it is. *)
Definition inheritUnitsPerEm (g : Glyph) (v : PathSlot) : PathSlot :=
  match v with
  | Resolved p =>
      if negb (truthyField (unitsPerEm p)) && truthyField (glyph_unitsPerEm g)
      then Resolved (set_unitsPerEm (glyph_unitsPerEm g) p)
      else v
  | Producer _ => v
  end.

(** A glyph in its surroundings. *)
Record State : Type := mkState {
  glyph : Glyph;
  world : World;
}.

(** The [get] of the accessor [path]: reading [glyph.path]. The value
    returned is the content of [_path]. A call that throws leaves [_path]
    the function it was. *)
Definition readPath (s : State) : result PathSlot * State :=
  match _path (glyph s) with
  | Producer f =>
      match f (world s) with
      | (Ok v, w) =>
          let v := inheritUnitsPerEm (glyph s) v in
          (Ok v, mkState (set_path v (glyph s)) w)
      | (Throw m, w) => (Throw m, mkState (glyph s) w)
      end
  | Resolved p => (Ok (Resolved p), s)
  end.

(** [n] reads of [glyph.path] one after the other, each in a [try], and
    what each returned or threw. *)
Fixpoint readPaths (n : nat) (s : State) : list (result PathSlot) * State :=
  match n with
  | O => ([], s)
  | S m =>
      let '(p, s) := readPath s in
      let '(ps, s) := readPaths m s in
      (p :: ps, s)
  end.

End Deferred.

Arguments PathSlot : clear implicits.
Arguments Glyph : clear implicits.
Arguments GlyphOptions : clear implicits.
Arguments State : clear implicits.
Arguments Producer {T World}. Arguments Resolved {T World}.
Arguments mkGlyph {T World}. Arguments mkGlyphOptions {T World}.
Arguments index {T World}. Arguments name {T World}. Arguments unicode {T World}.
Arguments unicodes {T World}. Arguments advanceWidth {T World}.
Arguments leftSideBearing {T World}. Arguments _path {T World}.
Arguments glyph_unitsPerEm {T World}.
Arguments new {T _ World}. Arguments addUnicode {T World}.
Arguments resolveIdentity {T World}.
Arguments mkState {T World}. Arguments glyph {T World}. Arguments world {T World}.
Arguments readPath {T _ World}. Arguments readPaths {T _ World}.
Arguments set_path {T World}. Arguments inheritUnitsPerEm {T _ World}.

(** *** getPath *)

Section GetPath.

Context {T : Type} `{Number T}.

(** [Math.round], which the hinted branch applies to [x] and [y]. *)
Variable round : T -> T.

Variable World : Type.

Abbreviation Command := (PathCommand T).

(** [glyph.path] as the accessor returns it to [getPath]. *)
Variable pathOf : Glyph T World -> Path T.

(** The variation settings, the points a hinting engine returns and the
    colours of a palette: values that [getPath] passes on unread. *)
Variables Variation HintedPoints Color : Type.

Record RenderOptions : Type := mkRender {
  xScale : option T;
  yScale : option T;
  hinting : option bool;
  drawSVG : option bool;
  drawLayers : option bool;
  r_fill : option string;
  usePalette : option nat;
  colorFormat : option string;
  variation : option Variation;
}.

Definition noRenderOptions : RenderOptions :=
  mkRender None None None None None None None None None.

Definition over {A} (given default : option A) : option A :=
  match given with Some v => Some v | None => default end.

(** [Object.assign({}, defaults, options)] *)
Definition assign (defaults options : RenderOptions) : RenderOptions :=
  mkRender (over (xScale options) (xScale defaults))
           (over (yScale options) (yScale defaults))
           (over (hinting options) (hinting defaults))
           (over (drawSVG options) (drawSVG defaults))
           (over (drawLayers options) (drawLayers defaults))
           (over (r_fill options) (r_fill defaults))
           (over (usePalette options) (usePalette defaults))
           (over (colorFormat options) (colorFormat defaults))
           (over (variation options) (variation defaults)).

Definition with_fill (c : string) (o : RenderOptions) : RenderOptions :=
  mkRender (xScale o) (yScale o) (hinting o) (drawSVG o) (drawLayers o) (Some c)
           (usePalette o) (colorFormat o) (variation o).

Record HintingEngine : Type := mkHinting {
  exec : Glyph T World -> T -> RenderOptions -> option HintedPoints;
  getCommands : HintedPoints -> list Command;
}.

Record Layer : Type := mkLayer {
  layer_glyph : Glyph T World;
  paletteIndex : nat;
}.

Record SvgImage : Type := mkSvgImage {
  svg_image : nat;
  svg_width : T;
  svg_height : T;
  svg_leftSideBearing : T;
  svg_baseline : T;
}.

(** The font, as far as [getPath] looks into it. *)
Record Font : Type := mkFont {
  defaultRenderOptions : option RenderOptions;
  font_variation : option (Glyph T World -> option Variation -> Glyph T World);
  font_hinting : option HintingEngine;
  font_layers : nat -> option (list Layer);
  font_svgImages : nat -> option SvgImage;
}.

(** [getPaletteColor] and [formatColor] of [./tables/cpal], and the test
    [color === 'currentColor']. *)
Variable getPaletteColor : Font -> nat -> option nat -> Color.
Variable formatColor : Color -> string -> string.
Variable isCurrentColor : Color -> bool.

Definition needsFont_layers : string :=
  "The font object is required to read the colr/cpal tables in order to get the layers.".

Definition needsFont_svg : string :=
  "The font object is required to read the svg table in order to get the image.".

Definition getLayers (this : Glyph T World) (font : option Font)
  : result (option (list Layer)) :=
  match font with
  | None => Throw needsFont_layers
  | Some f => Ok (font_layers f (index this))
  end.

Definition getSvgImage (this : Glyph T World) (font : option Font)
  : result (option SvgImage) :=
  match font with
  | None => Throw needsFont_svg
  | Some f => Ok (font_svgImages f (index this))
  end.

Definition isTrue (b : option bool) : bool := default false b.

(** [v || 1000] *)
Definition orThousand (v : option T) : T :=
  match v with
  | Some q => if truthy q then q else lit 1000
  | None => lit 1000
  end.

(** The body of the last loop of [getPath] on one command; [closes] is
    [p.stroke && p.strokeWidth]. *)
Definition emit (x y xScale yScale : T) (closes : bool) (cmd : Command)
  : list Command :=
  let tx v := x + v * xScale in
  let ty v := y + (- v) * yScale in
  match cmd with
  | MoveTo cx cy => [MoveTo (tx cx) (ty cy)]
  | LineTo cx cy => [LineTo (tx cx) (ty cy)]
  | QuadTo cx1 cy1 cx cy => [QuadTo (tx cx1) (ty cy1) (tx cx) (ty cy)]
  | CurveTo cx1 cy1 cx2 cy2 cx cy =>
      [CurveTo (tx cx1) (ty cy1) (tx cx2) (ty cy2) (tx cx) (ty cy)]
  | Close => if closes then [Close] else []
  end.

(** The layers of the result, each the [getPath] of a layer glyph; the
    first call that throws ends the loop. *)
Fixpoint collect (each : Layer -> option (result (Path T))) (layers : list Layer)
  : option (result (list (Path T))) :=
  match layers with
  | [] => Some (Ok [])
  | l :: rest =>
      match each l with
      | None => None
      | Some (Throw m) => Some (Throw m)
      | Some (Ok p) =>
          match collect each rest with
          | None => None
          | Some (Throw m) => Some (Throw m)
          | Some (Ok ps) => Some (Ok (p :: ps))
          end
      end
  end.

(** [Object.assign({}, font && font.defaultRenderOptions, options)] *)
Definition renderOptionsOf (font : option Font) (options : RenderOptions)
  : RenderOptions :=
  assign match font with
         | Some f => default noRenderOptions (defaultRenderOptions f)
         | None => noRenderOptions
         end
         options.

(** [scale]: [1 / (this.path.unitsPerEm || 1000) * fontSize] *)
Definition scaleOf (this : Glyph T World) (fontSize : T) : T :=
  lit 1 / orThousand (unitsPerEm (pathOf this)) * fontSize.

(** [useGlyph]: the glyph itself, or what the variation engine of the font
    makes of it. *)
Definition useGlyphOf (this : Glyph T World) (renderOptions : RenderOptions)
    (font : option Font) : Glyph T World :=
  match font with
  | Some f =>
      match font_variation f with
      | Some getTransform => getTransform this (variation renderOptions)
      | None => this
      end
  | None => this
  end.

(** [hPoints], with the engine that returned them. *)
Definition hPointsOf (useGlyph : Glyph T World) (fontSize : T)
    (renderOptions : RenderOptions) (font : option Font)
  : option (HintingEngine * HintedPoints) :=
  if isTrue (hinting renderOptions) then
    match font with
    | Some f =>
        match font_hinting f with
        | Some h =>
            option_map (fun pts => (h, pts)) (exec h useGlyph fontSize renderOptions)
        | None => None
        end
    | None => None
    end
  else None.

(** The colour of a layer. *)
Definition layerColor (renderOptions : RenderOptions) (f : Font) (layer : Layer)
  : string :=
  let color := getPaletteColor f (paletteIndex layer) (usePalette renderOptions) in
  if isCurrentColor color
  then (if nonEmpty (r_fill renderOptions)
        then default "black" (r_fill renderOptions) else "black")
  else formatColor color (if nonEmpty (colorFormat renderOptions)
                          then default "rgba" (colorFormat renderOptions)
                          else "rgba").

(** The path the last statements of [getPath] build from [commands]. *)
Definition outline (this : Glyph T World) (renderOptions : RenderOptions)
    (scale x y xScale yScale : T) (commands : list Command) : Path T :=
  let fill := if nonEmpty (r_fill renderOptions) then r_fill renderOptions
              else fill (pathOf this) in
  let stroke := stroke (pathOf this) in
  let strokeWidth := strokeWidth (pathOf this) * scale in
  let closes := nonEmpty stroke && truthy strokeWidth in
  mkPath (flat_map (emit x y xScale yScale closes) commands)
         fill stroke strokeWidth None None None.

(** [getPath(x, y, fontSize, options, font)]. A glyph whose layers lead
    back to itself never returns; [fuel] bounds the depth of the calls and
    [None] is a call that needs more. *)
Fixpoint getPath (fuel : nat) (this : Glyph T World) (x y fontSize : T)
    (options : RenderOptions) (font : option Font) : option (result (Path T)) :=
  match fuel with
  | O => None
  | S fuel =>
      let renderOptions := renderOptionsOf font options in
      let scale := scaleOf this fontSize in
      let useGlyph := useGlyphOf this renderOptions font in
      let hPoints := hPointsOf useGlyph fontSize renderOptions font in
      let '(commands, x, y, xScale, yScale) :=
        match hPoints with
        | Some (h, pts) => (getCommands h pts, round x, round y, lit 1, lit 1)
        | None =>
            (Path.commands (pathOf useGlyph), x, y,
             default scale (xScale renderOptions),
             default scale (yScale renderOptions))
        end in
      let p := Path.new in
      let layered :=
        if isTrue (drawLayers renderOptions) then
          match getLayers this font, font with
          | Throw m, _ => Some (Throw m)
          | Ok (Some (l :: ls)), Some f =>
              let each (layer : Layer) :=
                getPath fuel (layer_glyph layer) x y fontSize
                        (with_fill (layerColor renderOptions f layer) renderOptions) font in
              match collect each (l :: ls) with
              | None => None
              | Some (Throw m) => Some (Throw m)
              | Some (Ok ps) =>
                  Some (Ok (mkPath [] (fill p) (stroke p) (strokeWidth p) None (Some ps) None))
              end
          | Ok _, _ =>
              Some (Ok (outline this renderOptions scale x y xScale yScale commands))
          end
        else Some (Ok (outline this renderOptions scale x y xScale yScale commands)) in
      if isTrue (drawSVG renderOptions) then
        match getSvgImage this font with
        | Throw m => Some (Throw m)
        | Ok (Some svgImage) =>
            let layer :=
              mkPath [] (fill p) (stroke p) (strokeWidth p) None None
                (Some (mkImage (svg_image svgImage)
                         (x + svg_leftSideBearing svgImage * scale)
                         (y - svg_baseline svgImage * scale)
                         (svg_width svgImage * scale)
                         (svg_height svgImage * scale))) in
            Some (Ok (mkPath [] (fill p) (stroke p) (strokeWidth p) None (Some [layer]) None))
        | Ok None => layered
        end
      else layered
  end.

End GetPath.

Arguments RenderOptions : clear implicits.
Arguments HintingEngine : clear implicits.
Arguments Layer : clear implicits.
Arguments SvgImage : clear implicits.
Arguments Font : clear implicits.


(** *** getContours *)

Section Contours.

(** A point of [points]: an object of which [getContours] reads the
    property [lastPointOfContour], as a truth value. *)
Variable Point : Type.
Variable lastPointOfContour : Point -> bool.

Definition pointsLeft : string :=
  "There are still points left in the current contour.".

(** The variables [contours] and [currentContour] of the loop. *)
Record Contours : Type := mkContours {
  contours : list (list Point);
  currentContour : list Point;
}.

Definition contourStep (s : Contours) (pt : Point) : Contours :=
  let current := currentContour s ++ [pt] in
  if lastPointOfContour pt then mkContours (contours s ++ [current]) []
  else mkContours (contours s) current.

(** [getContours(transformedPoints)] on a glyph whose property [points] is
    [points]: [None] is [undefined] for [points] and [null] for
    [transformedPoints]. *)
Definition getContours (points transformedPoints : option (list Point))
  : result (list (list Point)) :=
  match points, transformedPoints with
  | None, None => Ok []
  | _, _ =>
      let pts := match transformedPoints with
                 | Some t => t
                 | None => default [] points
                 end in
      let s := fold_left contourStep pts (mkContours [] []) in
      match Check.argument (Nat.eqb (List.length (currentContour s)) 0) pointsLeft with
      | Ok _ => Ok (contours s)
      | Throw m => Throw m
      end
  end.

End Contours.

End Glyph.

(** ** src/glyphset.ts *)

Module GlyphSet.
Local Open Scope string_scope.
Local Open Scope list_scope.

Section GlyphSet.

(** The numbers of a glyph are stored and handed on, never computed with. *)
Variable T : Type.
Variable World : Type.

Abbreviation Glyph := (Glyph.Glyph T World).

(** Glyph objects live in a heap; a reference is a [loc]. *)
Definition loc : Type := nat.
Definition Heap : Type := gmap loc Glyph.

(** An entry of [glyphs]: a glyph, or a loader [() => IGlyph] that has not
    been called yet. A loader builds or finds its glyph in the heap, or
    throws. *)
Inductive Entry : Type :=
| Loader (f : Heap -> result loc * Heap)
| Loaded (g : loc).

(** The fields [glyphs] and [length] of a [GlyphSet]. *)
Record Glyphs : Type := mkGlyphs {
  glyphs : gmap nat Entry;
  length : nat;
}.

Record HMetrics : Type := mkHMetrics {
  hm_advanceWidth : T;
  hm_leftSideBearing : T;
}.

(** The font, as far as [get] looks into it. [_push] is the hook of the
    low-memory mode; it works on the glyph set. *)
Record Font : Type := mkFont {
  _push : option (nat -> Glyphs -> Glyphs);
  _IndexToUnicodeMap : nat -> option (list Z);
  cffEncoding : option (nat -> option string);
  glyphNames : option (nat -> option string);
  _hmtxTableData : nat -> option HMetrics;
}.

(** A glyph set among the glyph objects. *)
Record State : Type := mkState {
  set : Glyphs;
  heap : Heap;
}.

(** [push(index, loader)] *)
Definition push (index : nat) (loader : Entry) (s : Glyphs) : Glyphs :=
  mkGlyphs (<[index := loader]> (glyphs s)) (S (length s)).

(** [if (typeof this.glyphs[index] === 'function')
      this.glyphs[index] = this.glyphs[index]();]
    When the loader throws nothing is assigned. *)
Definition materialize (index : nat) (s : State) : result unit * State :=
  match glyphs (set s) !! index with
  | Some (Loader f) =>
      match f (heap s) with
      | (Ok g, h) =>
          (Ok tt,
           mkState (mkGlyphs (<[index := Loaded g]> (glyphs (set s))) (length (set s))) h)
      | (Throw m, h) => (Throw m, mkState (set s) h)
      end
  | _ => (Ok tt, s)
  end.

Definition set_name (n : option string) (g : Glyph) : Glyph :=
  Glyph.mkGlyph (Glyph.index g) n (Glyph.unicode g) (Glyph.unicodes g)
    (Glyph.xMin _ g) (Glyph.yMin _ g) (Glyph.xMax _ g) (Glyph.yMax _ g)
    (Glyph.advanceWidth g) (Glyph.leftSideBearing g) (Glyph.glyph_unitsPerEm g)
    (Glyph._path g).

Definition set_metrics (m : HMetrics) (g : Glyph) : Glyph :=
  Glyph.mkGlyph (Glyph.index g) (Glyph.name g) (Glyph.unicode g) (Glyph.unicodes g)
    (Glyph.xMin _ g) (Glyph.yMin _ g) (Glyph.xMax _ g) (Glyph.yMax _ g)
    (Some (hm_advanceWidth m)) (Some (hm_leftSideBearing m))
    (Glyph.glyph_unitsPerEm g) (Glyph._path g).

(** The message of the [TypeError] that a property access on [undefined]
    throws. *)
Definition typeError : string := "TypeError".

(** [glyph.f(...)] or [glyph.p = v] on the value [glyph] of
    [this.glyphs[index]], which throws when [glyph] is [undefined]. *)
Definition update (glyph : option loc) (f : Glyph -> Glyph) (h : Heap)
  : result unit * Heap :=
  match glyph with
  | Some l =>
      match h !! l with
      | Some g => (Ok tt, <[l := f g]> h)
      | None => (Throw typeError, h)
      end
  | None => (Throw typeError, h)
  end.

(** Statements in sequence: the first exception ends the sequence. *)
Definition andThen (first : result unit * Heap)
    (next : Heap -> result unit * Heap) : result unit * Heap :=
  match first with
  | (Ok _, h) => next h
  | (Throw m, h) => (Throw m, h)
  end.

(** The statements of the low-memory branch after the loader has run. *)
Definition identify (font : Font) (index : nat) (glyph : option loc) (h : Heap)
  : result unit * Heap :=
  let unicodes := default [] (_IndexToUnicodeMap font index) in
  andThen
    (fold_left (fun r u => andThen r (update glyph (Glyph.addUnicode u)))
               unicodes (Ok tt, h))
    (fun h =>
       andThen
         match cffEncoding font, glyphNames font with
         | Some charset, _ => update glyph (set_name (charset index)) h
         | None, Some glyphIndexToName =>
             update glyph (set_name (glyphIndexToName index)) h
         | None, None => (Ok tt, h)
         end
         (fun h =>
            match _hmtxTableData font index with
            | Some m => update glyph (set_metrics m) h
            | None => (Throw typeError, h)
            end)).

Definition entryValue (e : option Entry) : option loc :=
  match e with
  | Some (Loaded g) => Some g
  | _ => None
  end.

(** [get(index)]: the value returned, a glyph or [undefined], or the
    exception, and the state the call leaves. *)
Definition get (font : Font) (index : nat) (s : State) : result (option loc) * State :=
  match _push font, glyphs (set s) !! index with
  | Some push_, None =>
      let s := mkState (push_ index (set s)) (heap s) in
      match materialize index s with
      | (Ok _, s) =>
          let glyph := entryValue (glyphs (set s) !! index) in
          match identify font index glyph (heap s) with
          | (Ok _, h) =>
              let s := mkState (set s) h in
              (Ok (entryValue (glyphs (set s) !! index)), s)
          | (Throw m, h) => (Throw m, mkState (set s) h)
          end
      | (Throw m, s) => (Throw m, s)
      end
  | _, _ =>
      match materialize index s with
      | (Ok _, s) => (Ok (entryValue (glyphs (set s) !! index)), s)
      | (Throw m, s) => (Throw m, s)
      end
  end.

(** [n] calls of [get(index)] one after the other, each in a [try], and
    what each returned or threw. *)
Fixpoint gets (font : Font) (index : nat) (n : nat) (s : State)
  : list (result (option loc)) * State :=
  match n with
  | O => ([], s)
  | S m =>
      let '(v, s) := get font index s in
      let '(vs, s) := gets font index m s in
      (v :: vs, s)
  end.

End GlyphSet.

(** *** The constructor and the iterator *)

Section Constructor.

Context {T : Type} `{Number T}.
Variable World : Type.

(** [(glyph.path as any).unitsPerEm = font.unitsPerEm] on the glyph
    [glyphs[i]]. The read of [glyph.path] calls a producer that has not been
    called, in the world [w]; the assignment writes to the path that the
    read returns, which is the path of the glyph from then on, and leaves a
    function alone. *)
Definition stamp (unitsPerEm : option T) (glyph : loc) (h : Heap T World) (w : World)
  : result unit * Heap T World * World :=
  match h !! glyph with
  | Some g =>
      match Glyph.readPath (Glyph.mkState g w) with
      | (Ok (Glyph.Resolved p), s) =>
          (Ok tt,
           <[glyph := Glyph.set_path (Glyph.Resolved (Glyph.set_unitsPerEm unitsPerEm p))
                        (Glyph.glyph s)]> h,
           Glyph.world s)
      | (Ok (Glyph.Producer _), s) => (Ok tt, <[glyph := Glyph.glyph s]> h, Glyph.world s)
      | (Throw m, s) => (Throw m, <[glyph := Glyph.glyph s]> h, Glyph.world s)
      end
  | None => (Throw typeError, h, w)
  end.

(** The loop of the constructor, from the index [i] on. *)
Fixpoint fill (unitsPerEm : option T) (i : nat) (gs : list loc)
    (entries : gmap nat (Entry T World)) (h : Heap T World) (w : World)
  : result (gmap nat (Entry T World)) * Heap T World * World :=
  match gs with
  | [] => (Ok entries, h, w)
  | glyph :: rest =>
      match stamp unitsPerEm glyph h w with
      | (Ok _, h, w) =>
          fill unitsPerEm (S i) rest (<[i := Loaded T World glyph]> entries) h w
      | (Throw m, h, w) => (Throw m, h, w)
      end
  end.

(** [new GlyphSet(font, glyphs)]: [unitsPerEm] is [font.unitsPerEm], and
    [None] for [glyphs] is an argument that is no array. The font itself is
    handed to [get] and [next]. *)
Definition new (unitsPerEm : option T) (glyphs : option (list loc))
    (h : Heap T World) (w : World) : result (Glyphs T World) * Heap T World * World :=
  match glyphs with
  | Some gs =>
      match fill unitsPerEm 0 gs ∅ h w with
      | (Ok entries, h, w) => (Ok (mkGlyphs T World entries (List.length gs)), h, w)
      | (Throw m, h, w) => (Throw m, h, w)
      end
  | None => (Ok (mkGlyphs T World ∅ 0), h, w)
  end.

(** What [next()] returns: [{ value: undefined, done: true }] or
    [{ value: v, done: false }]. *)
Inductive IteratorResult : Type :=
| Done
| Value (v : option loc).

(** The call of [next()] that brings the counter of the iterator to [n];
    the first call brings it to 0. *)
Definition next (font : Font T World) (n : nat) (s : State T World)
  : result IteratorResult * State T World :=
  if (length T World (set T World s) <=? n)%nat then (Ok Done, s)
  else
    match get T World font n s with
    | (Ok v, s) => (Ok (Value v), s)
    | (Throw m, s) => (Throw m, s)
    end.

(** The values that a loop [for (const glyph of glyphSet)] is given, from
    the call of [next()] that brings the counter to [n] on. [get] can make
    the set longer, so the loop need not end: [fuel] bounds its turns and
    [None] is a loop that needs more. *)
Fixpoint iterate (font : Font T World) (fuel n : nat) (s : State T World)
  : option (result (list (option loc))) * State T World :=
  match fuel with
  | O => (None, s)
  | S fuel =>
      match next font n s with
      | (Ok Done, s) => (Some (Ok []), s)
      | (Ok (Value v), s) =>
          match iterate font fuel (S n) s with
          | (Some (Ok vs), s) => (Some (Ok (v :: vs)), s)
          | r => r
          end
      | (Throw m, s) => (Some (Throw m), s)
      end
  end.

End Constructor.
End GlyphSet.

(** ** src/path.ts: [toPathData] on objects

    [optimizeCommands] assigns to the [type] of a command it is given, so
    what [toPathData] leaves of its receiver depends on which objects it hands
    to it. Here commands and paths are objects in a store, an array is the
    list of the references it holds, and [toPathData] is followed reference
    by reference. *)

Module Objects.
Import Rat Path SVG.
Local Open Scope js_scope.

Definition loc : Type := nat.

Record PathObject : Type := mkPathObject {
  po_commands : list loc;
  po_fill : option string;
  po_stroke : option string;
  po_strokeWidth : rat;
  po_unitsPerEm : option rat;
}.

Record Store : Type := mkStore {
  commandObjects : gmap loc Command;
  pathObjects : gmap loc PathObject;
}.

(** The commands a list of references stands for. *)
Definition values (o : gmap loc Command) (ls : list loc) : list Command :=
  omap (fun l => o !! l) ls.

(** A new command object. *)
Definition alloc (v : Command) (o : gmap loc Command) : loc * gmap loc Command :=
  let l := fresh (dom o) in (l, <[l := v]> o).

(** [JSON.parse(JSON.stringify(commands))]: a new object for each element. *)
Fixpoint jsonCopy (ls : list loc) (o : gmap loc Command)
  : list loc * gmap loc Command :=
  match ls with
  | [] => ([], o)
  | l :: rest =>
      match o !! l with
      | Some v =>
          let '(l', o) := alloc v o in
          let '(rest', o) := jsonCopy rest o in
          (l' :: rest', o)
      | None => jsonCopy rest o
      end
  end.

Record Subpaths : Type := mkSubpaths {
  finished : list (list loc);
  subpath : list loc;
  sx : rat; sy : rat;
}.

(** The body of the loop of [optimizeCommands] on the reference [cmd]. *)
Definition optimizeStep (o : gmap loc Command) (s : Subpaths) (cmd : loc)
    (next : option loc) : Subpaths * gmap loc Command :=
  let read (r : option loc) : option Command := r ≫= (fun l => o !! l) in
  let firstCommand := read (subpath s !! 0%nat) in
  let secondCommand := read (subpath s !! 1%nat) in
  let previousCommand := read (last (subpath s)) in
  let nextCommand := read next in
  let pushed := subpath s ++ [cmd] in
  match o !! cmd with
  | Some (MoveTo x y) => (mkSubpaths (finished s) pushed x y, o)
  | Some (LineTo x y) =>
      if nothingFollows nextCommand then
        if negb ((abs (x - sx s) >? lit 1) || (abs (y - sy s) >? lit 1))
        then (mkSubpaths (finished s) (subpath s) (sx s) (sy s), o)
        else (mkSubpaths (finished s) pushed (sx s) (sy s), o)
      else if match previousCommand with
              | Some p => field_eqb (cmd_x p) (Some x) && field_eqb (cmd_y p) (Some y)
              | None => false
              end
      then (mkSubpaths (finished s) (subpath s) (sx s) (sy s), o)
      else (mkSubpaths (finished s) pushed (sx s) (sy s), o)
  | Some Close =>
      let '(closed, o) :=
        match firstCommand, secondCommand, previousCommand with
        | Some f, Some _, Some p =>
            if is_M firstCommand && is_L secondCommand && is_L previousCommand
               && field_eqb (cmd_x p) (cmd_x f) && field_eqb (cmd_y p) (cmd_y f)
            then match tail pushed with
                 | l0 :: rest =>
                     (l0 :: rest,
                      match o !! l0 with
                      | Some c => <[l0 := retype_M c]> o
                      | None => o
                      end)
                 | [] => ([], o)
                 end
            else (pushed, o)
        | _, _, _ => (pushed, o)
        end in
      match next with
      | Some _ => (mkSubpaths (finished s ++ [closed]) [] (sx s) (sy s), o)
      | None => (mkSubpaths (finished s) closed (sx s) (sy s), o)
      end
  | _ => (mkSubpaths (finished s) pushed (sx s) (sy s), o)
  end.

Fixpoint optimizeLoop (cs : list loc) (s : Subpaths) (o : gmap loc Command)
  : Subpaths * gmap loc Command :=
  match cs with
  | [] => (s, o)
  | cmd :: rest =>
      let '(s, o) := optimizeStep o s cmd (head rest) in
      optimizeLoop rest s o
  end.

Definition optimizeCommands (cs : list loc) (o : gmap loc Command)
  : list loc * gmap loc Command :=
  let '(s, o) := optimizeLoop cs (mkSubpaths [] [] (lit 0) (lit 0)) o in
  (List.concat (finished s ++ [subpath s]), o).

(** [toPathData(options)] called on the path object [this]: the string
    returned and the store the call leaves; [None] when [this] is not a path
    of the store. *)
Definition toPathData (this : loc) (options : nat + PathOptions) (st : Store)
  : option (string * Store) :=
  match pathObjects st !! this with
  | None => None
  | Some p =>
      let opt := createSVGOutputOptions options in
      let '(commandsCopy, objs) :=
        if out_optimize opt then
          let '(copy, o) := jsonCopy (po_commands p) (commandObjects st) in
          optimizeCommands copy o
        else (po_commands p, commandObjects st) in
      let '(flipYBase, paths) :=
        match out_flipY opt, out_flipYBase opt with
        | true, None =>
            let tempPath := fresh (dom (pathObjects st)) in
            let extended :=
              mkPathObject ([] ++ commandsCopy) (Some "black"%string) None (lit 1) None in
            let boundingBox := getBoundingBox (values objs (po_commands extended)) in
            (BBox.y1 boundingBox + BBox.y2 boundingBox,
             <[tempPath := extended]> (pathObjects st))
        | _, Some b => (b, pathObjects st)
        | false, None => (QNaN, pathObjects st)
        end in
      Some (string_of_list_ascii
              (flat_map (commandData opt flipYBase) (values objs commandsCopy)),
            mkStore objs paths)
  end.

End Objects.

(** * Properties *)

(** ** The number models satisfy the laws *)

#[global] Instance real_NumberLaws : NumberLaws Real.real.
Proof.
  split; simpl; try reflexivity.
  - intros [|x] [|y]; simpl; try discriminate; auto.
  - intros [|x] b; simpl; [reflexivity | discriminate].
  - intros [|x] [|y]; simpl; try reflexivity; discriminate.
  - intros [|x] b; simpl; [reflexivity | discriminate].
  - intros [|x] [|y]; simpl; try reflexivity; discriminate.
Defined.

#[global] Instance rat_NumberLaws : NumberLaws Rat.rat.
Proof.
  split; simpl; try reflexivity.
  - intros [|x] [|y]; simpl; try discriminate; auto.
  - intros [|x] b; simpl; [reflexivity | discriminate].
  - intros [|x] [|y]; simpl; try reflexivity; discriminate.
  - intros [|x] b; simpl; [reflexivity | discriminate].
  - intros [|x] [|y]; simpl; try reflexivity; discriminate.
Defined.

(** ** BoundingBox: when a box is empty *)

Module BoxFacts.
Section Emptiness.
Import BBox.
Context {T : Type} `{NumberLaws T}.
Local Open Scope js_scope.

(** Both x fields hold a number; none does. *)
Definition hasX (b : BoundingBox T) : bool := number (x1 b) && number (x2 b).
Definition hasY (b : BoundingBox T) : bool := number (y1 b) && number (y2 b).
Definition evenX (b : BoundingBox T) : Prop := isNaN (x1 b) = isNaN (x2 b).
Definition evenY (b : BoundingBox T) : Prop := isNaN (y1 b) = isNaN (y2 b).

Lemma isEmpty_has b : isEmpty b = negb (hasX b && hasY b).
Proof.
  unfold isEmpty, hasX, hasY, number.
  destruct (isNaN (x1 b)), (isNaN (y1 b)), (isNaN (x2 b)), (isNaN (y2 b)); reflexivity.
Qed.

Lemma ltb_false_l a b : isNaN a = true -> ltb a b = false.
Proof.
  intros Ha. destruct (ltb a b) eqn:E; [|reflexivity].
  apply ltb_number in E as [E _]. congruence.
Qed.

Lemma ltb_false_r a b : isNaN b = true -> ltb a b = false.
Proof.
  intros Hb. destruct (ltb a b) eqn:E; [|reflexivity].
  apply ltb_number in E as [_ E]. congruence.
Qed.

Ltac nan_cases :=
  simpl;
  repeat match goal with
  | |- context [ltb ?a ?b] => let L := fresh "L" in destruct (ltb a b) eqn:L; simpl
  end;
  repeat match goal with
  | L : ltb _ _ = true |- _ => apply ltb_number in L; destruct L
  end;
  repeat match goal with
  | E : isNaN ?a = _ |- _ => rewrite E in *
  end;
  simpl; try (split; congruence); try congruence; auto.

Lemma widenX_has x b :
  evenX b -> evenX (widenX x b) /\ hasX (widenX x b) = hasX b || number x.
Proof.
  unfold evenX, hasX, number, widenX, gtb. destruct b as [a1 c1 a2 c2]; simpl. intros E.
  destruct (isNaN a1) eqn:N1, (isNaN a2) eqn:N2; try discriminate;
    destruct (isNaN x) eqn:Nx; nan_cases.
Qed.

Lemma widenY_has y b :
  evenY b -> evenY (widenY y b) /\ hasY (widenY y b) = hasY b || number y.
Proof.
  unfold evenY, hasY, number, widenY, gtb. destruct b as [a1 c1 a2 c2]; simpl. intros E.
  destruct (isNaN c1) eqn:N1, (isNaN c2) eqn:N2; try discriminate;
    destruct (isNaN y) eqn:Ny; nan_cases.
Qed.

Lemma widenX_frame x b : y1 (widenX x b) = y1 b /\ y2 (widenX x b) = y2 b.
Proof.
  unfold widenX.
  repeat match goal with |- context [if ?c then _ else _] => destruct c end; auto.
Qed.

Lemma widenY_frame y b : x1 (widenY y b) = x1 b /\ x2 (widenY y b) = x2 b.
Proof.
  unfold widenY.
  repeat match goal with |- context [if ?c then _ else _] => destruct c end; auto.
Qed.

(** The shape of a box: on each axis both fields are numbers or both are
    NaN, and [hx], [hy] tell which. *)
Definition Shape (b : BoundingBox T) (hx hy : bool) : Prop :=
  evenX b /\ evenY b /\ hasX b = hx /\ hasY b = hy.

Lemma new_shape : Shape new false false.
Proof.
  unfold Shape, evenX, evenY, hasX, hasY, number. simpl. rewrite isNaN_NaN. auto.
Qed.

Lemma widenX_shape x b hx hy :
  Shape b hx hy -> Shape (widenX x b) (hx || number x) hy.
Proof.
  intros (EX & EY & HX & HY). destruct (widenX_has x b EX) as [EX' HX'].
  destruct (widenX_frame x b) as [F1 F2].
  unfold Shape, evenY, hasY. rewrite F1, F2, HX', HX. auto.
Qed.

Lemma widenY_shape y b hx hy :
  Shape b hx hy -> Shape (widenY y b) hx (hy || number y).
Proof.
  intros (EX & EY & HX & HY). destruct (widenY_has y b EY) as [EY' HY'].
  destruct (widenY_frame y b) as [F1 F2].
  unfold Shape, evenX, hasX. rewrite F1, F2, HY', HY. auto.
Qed.

Definition given (v : option T) : bool :=
  match v with Some v => number v | None => false end.

Lemma addPoint_shape x y b hx hy :
  Shape b hx hy -> Shape (addPoint x y b) (hx || given x) (hy || given y).
Proof.
  intros Hb. unfold addPoint.
  destruct x as [x|], y as [y|]; simpl; rewrite ?orb_false_r;
    auto using widenX_shape, widenY_shape.
Qed.

Lemma derive_NaN v0 v1 v2 v3 t :
  isNaN v0 = true -> isNaN (derive v0 v1 v2 v3 t) = true.
Proof.
  intros N. unfold derive.
  do 3 apply add_NaN_l. apply mul_NaN_r. exact N.
Qed.

(** A pass of [addBezier] along an axis does not change the shape of a box
    that already holds the start value of the curve. *)
Lemma bezierPass_shape (addV : T -> BoundingBox T -> BoundingBox T)
    (P : BoundingBox T -> Prop) v0 v1 v2 v3 b :
  (forall t b, P b -> P (addV (derive v0 v1 v2 v3 t) b)) ->
  P b -> P (bezierPass addV v0 v1 v2 v3 b).
Proof.
  intros Hadd Hb. unfold bezierPass.
  repeat match goal with |- context [if ?c then _ else _] => destruct c end; auto.
Qed.

Lemma passX_shape v0 v1 v2 v3 b hx hy :
  (number v0 = true -> hx = true) ->
  Shape b hx hy -> Shape (bezierPass addX v0 v1 v2 v3 b) hx hy.
Proof.
  intros Hv Hb. apply (bezierPass_shape addX (fun b => Shape b hx hy)); [|exact Hb].
  intros t b' Hb'. unfold addX, addPoint.
  apply (widenX_shape (derive v0 v1 v2 v3 t)) in Hb'.
  replace (hx || number (derive v0 v1 v2 v3 t)) with hx in Hb'; [exact Hb'|].
  unfold number in *. destruct (isNaN v0) eqn:N.
  - rewrite derive_NaN by exact N. destruct hx; reflexivity.
  - rewrite Hv by reflexivity. reflexivity.
Qed.

Lemma passY_shape v0 v1 v2 v3 b hx hy :
  (number v0 = true -> hy = true) ->
  Shape b hx hy -> Shape (bezierPass addY v0 v1 v2 v3 b) hx hy.
Proof.
  intros Hv Hb. apply (bezierPass_shape addY (fun b => Shape b hx hy)); [|exact Hb].
  intros t b' Hb'. unfold addY, addPoint.
  apply (widenY_shape (derive v0 v1 v2 v3 t)) in Hb'.
  replace (hy || number (derive v0 v1 v2 v3 t)) with hy in Hb'; [exact Hb'|].
  unfold number in *. destruct (isNaN v0) eqn:N.
  - rewrite derive_NaN by exact N. destruct hy; reflexivity.
  - rewrite Hv by reflexivity. reflexivity.
Qed.

Lemma addBezier_shape x0 y0 cx1 cy1 cx2 cy2 x y b hx hy :
  Shape b hx hy ->
  Shape (addBezier x0 y0 cx1 cy1 cx2 cy2 x y b)
        (hx || (number x0 || number x)) (hy || (number y0 || number y)).
Proof.
  intros Hb. unfold addBezier.
  apply (addPoint_shape (Some x0) (Some y0)) in Hb.
  apply (addPoint_shape (Some x) (Some y)) in Hb. simpl in Hb.
  rewrite <- !orb_assoc in Hb.
  do 2 (apply passY_shape; [intros ->; simpl; rewrite ?orb_true_r; reflexivity|]).
  do 2 (apply passX_shape; [intros ->; simpl; rewrite ?orb_true_r; reflexivity|]).
  exact Hb.
Qed.

Lemma apply_shape op b hx hy :
  Shape b hx hy -> Shape (apply b op) (hx || givesX op) (hy || givesY op).
Proof.
  intros Hb. destruct op as [x y | x | y | x0 y0 cx1 cy1 cx2 cy2 x y | x0 y0 qx1 qy1 x y]; simpl.
  - replace (givesX (AddPoint x y)) with (given x) by (destruct x; reflexivity).
    replace (givesY (AddPoint x y)) with (given y) by (destruct x, y; reflexivity).
    apply addPoint_shape, Hb.
  - pose proof (addPoint_shape (Some x) None b hx hy Hb) as Hs.
    simpl in Hs. rewrite (orb_false_r hy) in *. exact Hs.
  - pose proof (addPoint_shape None (Some y) b hx hy Hb) as Hs.
    simpl in Hs. rewrite (orb_false_r hx) in *. exact Hs.
  - apply addBezier_shape, Hb.
  - apply addBezier_shape, Hb.
Qed.

Lemma applyAll_shape ops b hx hy :
  Shape b hx hy ->
  Shape (applyAll ops b) (hx || existsb givesX ops) (hy || existsb givesY ops).
Proof.
  revert b hx hy. induction ops as [|op ops IH]; intros b hx hy Hb; simpl.
  - rewrite !orb_false_r. exact Hb.
  - rewrite !orb_assoc. apply IH, apply_shape, Hb.
Qed.

Lemma shape_isEmpty b hx hy : Shape b hx hy -> isEmpty b = negb (hx && hy).
Proof. intros (_ & _ & <- & <-). apply isEmpty_has. Qed.

Lemma nonEmpty_shape b : isEmpty b = false -> Shape b true true.
Proof.
  rewrite isEmpty_has. unfold Shape, evenX, evenY, hasX, hasY, number.
  destruct (isNaN (x1 b)), (isNaN (x2 b)), (isNaN (y1 b)), (isNaN (y2 b));
    simpl; intros; try discriminate; auto.
Qed.

(** C5, amended. A box built from a new one by add operations is non-empty
    exactly when some operation has handed it a number as an x coordinate
    and some operation a number as a y coordinate; and no sequence of add
    operations makes a non-empty box empty. *)
Theorem isEmpty_tracks_both_axes :
  (forall ops : list (Operation (T:=T)),
     isEmpty (applyAll ops new) = negb (existsb givesX ops && existsb givesY ops))
  /\ (forall (b : BoundingBox T) ops,
        isEmpty b = false -> isEmpty (applyAll ops b) = false).
Proof.
  split.
  - intros ops. apply (shape_isEmpty _ _ _ (applyAll_shape ops _ _ _ new_shape)).
  - intros b ops Hb.
    apply (shape_isEmpty _ _ _ (applyAll_shape ops _ _ _ (nonEmpty_shape b Hb))).
Qed.
End Emptiness.

Lemma isEmpty_tracks_both_axes_witness :
  BBox.isEmpty (BBox.applyAll [BBox.AddX (lit 3); BBox.AddY (lit 4)] (BBox.new (T := Rat.rat)))
  = negb (existsb BBox.givesX [BBox.AddX (lit 3); BBox.AddY (lit 4)]
          && existsb BBox.givesY [BBox.AddX (lit 3); BBox.AddY (lit 4)]).
Proof.
  exact (proj1 (isEmpty_tracks_both_axes (T := Rat.rat))
               [BBox.AddX (lit 3); BBox.AddY (lit 4)]).
Defined.

End BoxFacts.

(** ** BoundingBox: curves in exact arithmetic *)

Module RealCurve.
Local Open Scope R_scope.

Definition cubic (v0 v1 v2 v3 t : R) : R :=
  (1 - t) ^ 3 * v0 + 3 * (1 - t) ^ 2 * t * v1 + 3 * (1 - t) * t ^ 2 * v2 + t ^ 3 * v3.

Definition cubic' (v0 v1 v2 v3 t : R) : R :=
  (-3 * v0 + 9 * v1 - 9 * v2 + 3 * v3) * t ^ 2 + (6 * v0 - 12 * v1 + 6 * v2) * t + (3 * v1 - 3 * v0).

Lemma cubic_derivable_pt_lim v0 v1 v2 v3 x :
  derivable_pt_lim (cubic v0 v1 v2 v3) x (cubic' v0 v1 v2 v3 x).
Proof.
  intros eps Heps.
  set (a := -3 * v0 + 9 * v1 - 9 * v2 + 3 * v3).
  set (b := 6 * v0 - 12 * v1 + 6 * v2).
  (* (f(x+h) - f x)/h - f' x = h * (b/2 + a x + a h / 3) *)
  set (K := Rabs (b / 2 + a * x) + Rabs (a / 3) + 1).
  assert (HK : 0 < K) by (unfold K; pose proof (Rabs_pos (b / 2 + a * x)); pose proof (Rabs_pos (a / 3)); lra).
  assert (Hd : 0 < Rmin 1 (eps / K)).
  { apply Rmin_pos; [lra | apply Rdiv_lt_0_compat; assumption]. }
  exists (mkposreal _ Hd). intros h Hh Hlt. simpl in Hlt.
  replace ((cubic v0 v1 v2 v3 (x + h) - cubic v0 v1 v2 v3 x) / h - cubic' v0 v1 v2 v3 x)
    with (h * ((b / 2 + a * x) + a / 3 * h)).
  2:{ unfold cubic, cubic', a, b. field. assumption. }
  rewrite Rabs_mult.
  assert (H1 : Rabs h < 1) by (eapply Rlt_le_trans; [exact Hlt | apply Rmin_l]).
  assert (H2 : Rabs h < eps / K) by (eapply Rlt_le_trans; [exact Hlt | apply Rmin_r]).
  assert (H3 : Rabs (b / 2 + a * x + a / 3 * h) < K).
  { eapply Rle_lt_trans; [apply Rabs_triang|]. rewrite Rabs_mult. unfold K.
    pose proof (Rabs_pos (a / 3)). pose proof (Rabs_pos h). nra. }
  pose proof (Rabs_pos h). pose proof (Rabs_pos (b / 2 + a * x + a / 3 * h)).
  assert (Rabs h * Rabs (b / 2 + a * x + a / 3 * h) <= Rabs h * K) by nra.
  assert (Rabs h * K < eps).
  { apply (Rmult_lt_compat_r K) in H2; [|assumption].
    unfold Rdiv in H2. rewrite Rmult_assoc, Rinv_l, Rmult_1_r in H2; lra. }
  lra.
Qed.

Lemma cubic_derivable v0 v1 v2 v3 : derivable (cubic v0 v1 v2 v3).
Proof. intros x. exists (cubic' v0 v1 v2 v3 x). apply cubic_derivable_pt_lim. Qed.

(** A cubic on [0,1] stays below any bound on its two end values and on
    its values at the zeros of its derivative inside (0,1). *)
Lemma cubic_le_bound v0 v1 v2 v3 hi :
  v0 <= hi -> v3 <= hi ->
  (forall r, 0 < r < 1 -> cubic' v0 v1 v2 v3 r = 0 -> cubic v0 v1 v2 v3 r <= hi) ->
  forall t, 0 <= t <= 1 -> cubic v0 v1 v2 v3 t <= hi.
Proof.
  intros H0 H3 Hroot t Ht.
  destruct (continuity_ab_maj (cubic v0 v1 v2 v3) 0 1) as [M [HM HM01]].
  - lra.
  - intros c _. apply derivable_continuous_pt, cubic_derivable.
  - apply Rle_trans with (cubic v0 v1 v2 v3 M); [apply HM; exact Ht|].
    destruct (Req_dec M 0) as [->|HM0].
    { unfold cubic. replace ((1 - 0) ^ 3 * v0 + 3 * (1 - 0) ^ 2 * 0 * v1 + 3 * (1 - 0) * 0 ^ 2 * v2 + 0 ^ 3 * v3) with v0 by ring. exact H0. }
    destruct (Req_dec M 1) as [->|HM1].
    { unfold cubic. replace ((1 - 1) ^ 3 * v0 + 3 * (1 - 1) ^ 2 * 1 * v1 + 3 * (1 - 1) * 1 ^ 2 * v2 + 1 ^ 3 * v3) with v3 by ring. exact H3. }
    apply Hroot; [lra|].
    rewrite <- (derive_pt_eq_0 _ _ _ (cubic_derivable v0 v1 v2 v3 M) (cubic_derivable_pt_lim v0 v1 v2 v3 M)).
    apply deriv_maximum with 0 1; try lra.
    intros x Hx0 Hx1. apply HM. lra.
Qed.

Lemma cubic_ge_bound v0 v1 v2 v3 lo :
  lo <= v0 -> lo <= v3 ->
  (forall r, 0 < r < 1 -> cubic' v0 v1 v2 v3 r = 0 -> lo <= cubic v0 v1 v2 v3 r) ->
  forall t, 0 <= t <= 1 -> lo <= cubic v0 v1 v2 v3 t.
Proof.
  intros H0 H3 Hroot t Ht.
  assert (Hneg : forall s, cubic (- v0) (- v1) (- v2) (- v3) s = - cubic v0 v1 v2 v3 s)
    by (intros s; unfold cubic; ring).
  assert (Hneg' : forall s, cubic' (- v0) (- v1) (- v2) (- v3) s = - cubic' v0 v1 v2 v3 s)
    by (intros s; unfold cubic'; ring).
  enough (cubic (- v0) (- v1) (- v2) (- v3) t <= - lo) by (rewrite Hneg in *; lra).
  apply cubic_le_bound; [lra | lra | | exact Ht].
  intros r Hr Hz. rewrite Hneg' in Hz. rewrite Hneg.
  apply Ropp_le_contravar, Hroot; [exact Hr | lra].
Qed.
End RealCurve.

Module RealBox.
Import BBox Real RealCurve.
Local Open Scope R_scope.

Definition spansX (b : BoundingBox real) (v : R) : Prop :=
  exists lo hi, x1 b = Fin lo /\ x2 b = Fin hi /\ lo <= v <= hi.

Definition spansY (b : BoundingBox real) (v : R) : Prop :=
  exists lo hi, y1 b = Fin lo /\ y2 b = Fin hi /\ lo <= v <= hi.

Ltac crush_widen :=
  repeat match goal with
  | |- context [Rlt_dec ?a ?b] => destruct (Rlt_dec a b); simpl
  end;
  do 2 eexists; (split; [reflexivity | split; [reflexivity | lra]]).

Lemma widenX_spans_new b w : spansX (widenX (Fin w) b) w.
Proof.
  destruct b as [[|a1] c1 [|a2] c2]; unfold spansX, widenX; simpl; crush_widen.
Qed.

Lemma widenX_spans_mono b w v : spansX b v -> spansX (widenX (Fin w) b) v.
Proof.
  intros (lo & hi & H1 & H2 & Hv). destruct b as [a1 c1 a2 c2]; simpl in *; subst.
  unfold spansX, widenX; simpl; crush_widen.
Qed.

Lemma widenY_spans_new b w : spansY (widenY (Fin w) b) w.
Proof.
  destruct b as [c1 [|a1] c2 [|a2]]; unfold spansY, widenY; simpl; crush_widen.
Qed.

Lemma widenY_spans_mono b w v : spansY b v -> spansY (widenY (Fin w) b) v.
Proof.
  intros (lo & hi & H1 & H2 & Hv). destruct b as [a1 c1 a2 c2]; simpl in *; subst.
  unfold spansY, widenY; simpl; crush_widen.
Qed.

Lemma widenX_spansY b w v : spansY b v -> spansY (widenX w b) v.
Proof.
  intros (lo & hi & H1 & H2 & Hv). exists lo, hi. unfold widenX.
  repeat match goal with |- context [if ?c then _ else _] => destruct c end; simpl; auto.
Qed.

Lemma widenY_spansX b w v : spansX b v -> spansX (widenY w b) v.
Proof.
  intros (lo & hi & H1 & H2 & Hv). exists lo, hi. unfold widenY.
  repeat match goal with |- context [if ?c then _ else _] => destruct c end; simpl; auto.
Qed.

Lemma derive_real v0 v1 v2 v3 t :
  derive (Fin v0) (Fin v1) (Fin v2) (Fin v3) (Fin t) = Fin (cubic v0 v1 v2 v3 t).
Proof. unfold derive, cubic. simpl. f_equal. ring. Qed.

Local Arguments derive : simpl never.

Section Pass.
Variable addV : real -> BoundingBox real -> BoundingBox real.
Variable spans : BoundingBox real -> R -> Prop.
Hypothesis add_new : forall b w, spans (addV (Fin w) b) w.
Hypothesis add_mono : forall b w v, spans b v -> spans (addV (Fin w) b) v.

Lemma bezierPass_mono v0 v1 v2 v3 b v :
  spans b v -> spans (bezierPass addV (Fin v0) (Fin v1) (Fin v2) (Fin v3) b) v.
Proof.
  intros Hb. unfold bezierPass. simpl.
  repeat match goal with
  | |- context [Req_dec_T ?a ?b] => destruct (Req_dec_T a b); simpl
  | |- context [Rlt_dec ?a ?b] => destruct (Rlt_dec a b); simpl
  end; rewrite ?derive_real; auto.
Qed.

Lemma cubic_expand v0 v1 v2 v3 t :
  cubic v0 v1 v2 v3 t =
  v0 + (3 * v1 - 3 * v0) * t + (6 * v0 - 12 * v1 + 6 * v2) / 2 * t ^ 2
     + (-3 * v0 + 9 * v1 - 9 * v2 + 3 * v3) / 3 * t ^ 3.
Proof. unfold cubic. field. Qed.

Lemma bezierPass_roots v0 v1 v2 v3 b r :
  spans b v0 ->
  0 < r < 1 -> cubic' v0 v1 v2 v3 r = 0 ->
  spans (bezierPass addV (Fin v0) (Fin v1) (Fin v2) (Fin v3) b) (cubic v0 v1 v2 v3 r).
Proof.
  intros Hb0 Hr Hz. unfold cubic' in Hz. unfold bezierPass. simpl.
  pose proof (cubic_expand v0 v1 v2 v3 r) as Hexp.
  set (qa := -3 * v0 + 9 * v1 - 9 * v2 + 3 * v3) in *.
  set (qb := 6 * v0 - 12 * v1 + 6 * v2) in *.
  set (qc := 3 * v1 - 3 * v0) in *.
  destruct (Req_dec_T qa 0) as [Ha|Ha]; simpl.
  - destruct (Req_dec_T qb 0) as [Hb|Hb]; simpl.
    + replace (cubic v0 v1 v2 v3 r) with v0; [exact Hb0|].
      rewrite Hexp, Ha, Hb. rewrite Ha, Hb in Hz. nra.
    + assert (Ht : - qc / qb = r).
      { rewrite Ha in Hz. apply Rmult_eq_reg_r with qb; [|exact Hb].
        unfold Rdiv. rewrite Rmult_assoc, Rinv_l by exact Hb. lra. }
      rewrite Ht.
      destruct (Rlt_dec 0 r); [|lra]. destruct (Rlt_dec r 1); [|lra]. simpl.
      rewrite derive_real. apply add_new.
  - set (disc := qb * qb - 4 * qa * qc).
    assert (Hd : disc = (2 * qa * r + qb) * (2 * qa * r + qb)) by (unfold disc; nra).
    destruct (Rlt_dec disc 0) as [Hneg|Hpos]; simpl.
    { exfalso. pose proof (Rle_0_sqr (2 * qa * r + qb)) as Hs. unfold Rsqr in Hs. lra. }
    destruct (Req_dec_T (2 * qa) 0) as [H2a|H2a]; [lra|]. simpl.
    set (s := R_sqrt.sqrt disc).
    assert (Hs0 : 0 <= s) by apply sqrt_pos.
    assert (Hss : s * s = disc) by (apply sqrt_sqrt; lra).
    assert (Hcase : 2 * qa * r + qb = s \/ 2 * qa * r + qb = - s).
    { assert (Hprod : (2 * qa * r + qb - s) * (2 * qa * r + qb + s) = 0) by nra.
      destruct (Rmult_integral _ _ Hprod); [left | right]; lra. }
    destruct Hcase as [Hc|Hc].
    + assert (Ht : (- qb + s) / (2 * qa) = r).
      { apply Rmult_eq_reg_r with (2 * qa); [|exact H2a].
        unfold Rdiv. rewrite Rmult_assoc, Rinv_l by exact H2a. lra. }
      rewrite Ht.
      destruct (Rlt_dec 0 r); [|lra]. destruct (Rlt_dec r 1); [|lra]. simpl.
      rewrite derive_real.
      match goal with |- context [if ?c then _ else _] => destruct c end;
        rewrite ?derive_real; auto.
    + assert (Ht : (- qb - s) / (2 * qa) = r).
      { apply Rmult_eq_reg_r with (2 * qa); [|exact H2a].
        unfold Rdiv. rewrite Rmult_assoc, Rinv_l by exact H2a. lra. }
      rewrite Ht.
      destruct (Rlt_dec 0 r); [|lra]. destruct (Rlt_dec r 1); [|lra]. simpl.
      rewrite derive_real. apply add_new.
Qed.
End Pass.

Definition quad (v0 v1 v2 t : R) : R :=
  (1 - t) ^ 2 * v0 + 2 * (1 - t) * t * v1 + t ^ 2 * v2.

Lemma addX_spans_new b w : spansX (addX (Fin w) b) w.
Proof. apply widenX_spans_new. Qed.

Lemma addX_spans_mono b w v : spansX b v -> spansX (addX (Fin w) b) v.
Proof. apply widenX_spans_mono. Qed.

Lemma addY_spans_new b w : spansY (addY (Fin w) b) w.
Proof. apply widenY_spans_new. Qed.

Lemma addY_spans_mono b w v : spansY b v -> spansY (addY (Fin w) b) v.
Proof. apply widenY_spans_mono. Qed.

Lemma addX_spansY b w v : spansY b v -> spansY (addX (Fin w) b) v.
Proof. apply widenX_spansY. Qed.

Lemma addY_spansX b w v : spansX b v -> spansX (addY (Fin w) b) v.
Proof. apply widenY_spansX. Qed.

(** From a bound at the end values and at the interior critical values to
    a bound on the whole arc. *)
Lemma spans_arc (sp : BoundingBox real -> R -> Prop) (fld1 fld2 : BoundingBox real -> real) b v0 v1 v2 v3 :
  (forall v, sp b v <-> exists lo hi, fld1 b = Fin lo /\ fld2 b = Fin hi /\ lo <= v <= hi) ->
  sp b v0 -> sp b v3 ->
  (forall r, 0 < r < 1 -> cubic' v0 v1 v2 v3 r = 0 -> sp b (cubic v0 v1 v2 v3 r)) ->
  forall t, 0 <= t <= 1 -> sp b (cubic v0 v1 v2 v3 t).
Proof.
  intros Hsp H0 H3 Hroot t Ht.
  apply Hsp in H0 as (lo & hi & E1 & E2 & B0).
  apply Hsp in H3 as (lo3 & hi3 & E13 & E23 & B3).
  rewrite E1 in E13. rewrite E2 in E23. injection E13 as <-. injection E23 as <-.
  apply Hsp. exists lo, hi. split; [exact E1 | split; [exact E2 |]].
  split.
  - apply cubic_ge_bound; try tauto.
    intros r Hr Hz. destruct (proj1 (Hsp _) (Hroot r Hr Hz)) as (lo' & hi' & E1' & E2' & B').
    rewrite E1 in E1'. injection E1' as <-. tauto.
  - apply cubic_le_bound; try tauto.
    intros r Hr Hz. destruct (proj1 (Hsp _) (Hroot r Hr Hz)) as (lo' & hi' & E1' & E2' & B').
    rewrite E2 in E2'. injection E2' as <-. tauto.
Qed.

(** In exact arithmetic [addBezier] leaves a box that holds the whole arc. *)
Theorem addBezier_holds_arc b x0 y0 cx1 cy1 cx2 cy2 x y t :
  0 <= t <= 1 ->
  let b' := addBezier (Fin x0) (Fin y0) (Fin cx1) (Fin cy1) (Fin cx2) (Fin cy2) (Fin x) (Fin y) b in
  spansX b' (cubic x0 cx1 cx2 x t) /\ spansY b' (cubic y0 cy1 cy2 y t).
Proof.
  intros Ht b'. subst b'. unfold addBezier.
  set (b1 := addPoint (Some (Fin x0)) (Some (Fin y0)) b).
  set (b2 := addPoint (Some (Fin x)) (Some (Fin y)) b1).
  assert (X0 : spansX b2 x0).
  { unfold b2, b1, addPoint. apply widenY_spansX, widenX_spans_mono, widenY_spansX, widenX_spans_new. }
  assert (X3 : spansX b2 x).
  { unfold b2, addPoint. apply widenY_spansX, widenX_spans_new. }
  assert (Y0 : spansY b2 y0).
  { unfold b2, b1, addPoint. apply widenY_spans_mono, widenX_spansY, widenY_spans_new. }
  assert (Y3 : spansY b2 y).
  { unfold b2, addPoint. apply widenY_spans_new. }
  clearbody b2. clear b1.
  set (b3 := bezierPass addX (Fin x0) (Fin cx1) (Fin cx2) (Fin x) b2).
  set (b4 := bezierPass addX (Fin x0) (Fin cx1) (Fin cx2) (Fin x) b3).
  set (b5 := bezierPass addY (Fin y0) (Fin cy1) (Fin cy2) (Fin y) b4).
  set (b6 := bezierPass addY (Fin y0) (Fin cy1) (Fin cy2) (Fin y) b5).
  assert (upX : forall v, spansX b2 v -> spansX b6 v).
  { intros v Hv. unfold b6, b5, b4, b3.
    do 2 apply (bezierPass_mono addY spansX addY_spansX).
    do 2 apply (bezierPass_mono addX spansX addX_spans_mono). exact Hv. }
  assert (upX3 : forall v, spansX b3 v -> spansX b6 v).
  { intros v Hv. unfold b6, b5, b4.
    do 2 apply (bezierPass_mono addY spansX addY_spansX).
    apply (bezierPass_mono addX spansX addX_spans_mono). exact Hv. }
  assert (upY : forall v, spansY b2 v -> spansY b6 v).
  { intros v Hv. unfold b6, b5, b4, b3.
    do 2 apply (bezierPass_mono addY spansY addY_spans_mono).
    do 2 apply (bezierPass_mono addX spansY addX_spansY). exact Hv. }
  assert (Y04 : spansY b4 y0).
  { unfold b4, b3. do 2 apply (bezierPass_mono addX spansY addX_spansY). exact Y0. }
  split.
  - apply (spans_arc spansX (@x1 real) (@x2 real) b6 x0 cx1 cx2 x); [ | auto | auto | | exact Ht].
    + intros v. split; intros Hv; exact Hv.
    + intros r Hr Hz. apply upX3. unfold b3.
      apply (bezierPass_roots addX spansX addX_spans_new addX_spans_mono); assumption.
  - apply (spans_arc spansY (@y1 real) (@y2 real) b6 y0 cy1 cy2 y); [ | auto | auto | | exact Ht].
    + intros v. split; intros Hv; exact Hv.
    + intros r Hr Hz. unfold b6.
      apply (bezierPass_mono addY spansY addY_spans_mono). unfold b5.
      apply (bezierPass_roots addY spansY addY_spans_new addY_spans_mono); assumption.
Qed.

(** In exact arithmetic [addQuad] leaves a box that holds the whole
    quadratic arc. *)
Theorem addQuad_holds_arc b x0 y0 qx1 qy1 x y t :
  0 <= t <= 1 ->
  let b' := addQuad (Fin x0) (Fin y0) (Fin qx1) (Fin qy1) (Fin x) (Fin y) b in
  spansX b' (quad x0 qx1 x t) /\ spansY b' (quad y0 qy1 y t).
Proof.
  intros Ht b'. subst b'. unfold addQuad. simpl.
  destruct (Req_dec_T 3 0) as [E|_]; [lra|].
  assert (Hq : forall v0 v1 v2, quad v0 v1 v2 t =
    cubic v0 (v0 + 2 / 3 * (v1 - v0)) (v0 + 2 / 3 * (v1 - v0) + 1 / 3 * (v2 - v0)) v2 t).
  { intros. unfold quad, cubic. field. }
  rewrite !Hq. apply addBezier_holds_arc. exact Ht.
Qed.

(** Curve containment in exact arithmetic: whatever the box was, after
    [addBezier] it holds every point of the cubic, and after [addQuad] every
    point of the quadratic, for [t] from 0 to 1. *)
Theorem exact_boxes_hold_the_curve b x0 y0 cx1 cy1 cx2 cy2 x y t :
  0 <= t <= 1 ->
  (spansX (addBezier (Fin x0) (Fin y0) (Fin cx1) (Fin cy1) (Fin cx2) (Fin cy2) (Fin x) (Fin y) b)
          (cubic x0 cx1 cx2 x t)
   /\ spansY (addBezier (Fin x0) (Fin y0) (Fin cx1) (Fin cy1) (Fin cx2) (Fin cy2) (Fin x) (Fin y) b)
             (cubic y0 cy1 cy2 y t))
  /\ (spansX (addQuad (Fin x0) (Fin y0) (Fin cx1) (Fin cy1) (Fin x) (Fin y) b)
             (quad x0 cx1 x t)
      /\ spansY (addQuad (Fin x0) (Fin y0) (Fin cx1) (Fin cy1) (Fin x) (Fin y) b)
                (quad y0 cy1 y t)).
Proof.
  intros Ht. split.
  - apply (addBezier_holds_arc b x0 y0 cx1 cy1 cx2 cy2 x y t Ht).
  - apply (addQuad_holds_arc b x0 y0 cx1 cy1 x y t Ht).
Qed.

(** The curves through (0, 0), (2, 2), (1, 1) at [t = 2/3], where the
    quadratic is at its largest. *)
Lemma exact_boxes_hold_the_curve_witness :
  (spansX (addBezier (Fin 0) (Fin 0) (Fin 2) (Fin 2) (Fin 2) (Fin 2) (Fin 1) (Fin 1) new)
          (cubic 0 2 2 1 (2 / 3))
   /\ spansY (addBezier (Fin 0) (Fin 0) (Fin 2) (Fin 2) (Fin 2) (Fin 2) (Fin 1) (Fin 1) new)
             (cubic 0 2 2 1 (2 / 3)))
  /\ (spansX (addQuad (Fin 0) (Fin 0) (Fin 2) (Fin 2) (Fin 1) (Fin 1) new)
             (quad 0 2 1 (2 / 3))
      /\ spansY (addQuad (Fin 0) (Fin 0) (Fin 2) (Fin 2) (Fin 1) (Fin 1) new)
                (quad 0 2 1 (2 / 3))).
Proof.
  apply (exact_boxes_hold_the_curve new 0 0 2 2 2 2 1 1 (2 / 3)). lra.
Defined.
End RealBox.

(** ** BoundingBox in binary64 *)

Module Binary64.
Import BBox.
Local Open Scope float_scope.

(** C1. [addQuad(0, 0, 2, 2, 1, 1)] on a new box, computed in binary64 as the
    program computes it. The elevated control points are 1.3333333333333333
    and 1.6666666666666665, for which [a] is 1.7763568394002505e-15 and not
    0; the quadratic formula then yields t = 0.75 in place of 2/3, and the
    box ends at 1.3125 on both axes. The curve is at 1.328125 for t = 0.625.
    The same happens in [addBezier] called on the elevated control points.
    (Every [Math.pow] of this run has an exactly representable result.) *)
Theorem addQuad_binary64_misses_the_arc :
  let box := addQuad 0 0 2 2 1 1 new in
  let cp1 := 0 + 2 / 3 * (2 - 0) in
  let cp2 := cp1 + 1 / 3 * (1 - 0) in
  let box' := addBezier 0 0 cp1 cp1 cp2 cp2 1 1 new in
  box = mkBox 0 0 1.3125 1.3125
  /\ quadratic 0 2 1 0.625 = 1.328125
  /\ PrimFloat.ltb (x2 box) (quadratic 0 2 1 0.625) = true
  /\ PrimFloat.ltb (y2 box) (quadratic 0 2 1 0.625) = true
  /\ box' = mkBox 0 0 1.3125 1.3125
  /\ derive 0 cp1 cp2 1 0.625 = 1.328125.
Proof. vm_compute. repeat split; reflexivity. Qed.

(** After [addX(5)] alone a new box is still empty. *)
Lemma addX_leaves_the_box_empty :
  isEmpty (applyAll [AddX 5] new) = true
  /\ isEmpty (applyAll [AddY 5] new) = true
  /\ isEmpty (applyAll [AddPoint (Some 5) None] new) = true.
Proof. vm_compute. repeat split; reflexivity. Qed.

End Binary64.

(** ** Glyph and GlyphSet *)

Module GlyphFacts.
Import Path Glyph.
Local Open Scope string_scope.
Local Open Scope list_scope.

Section Construction.
Context {T : Type} `{Number T}.
Variable World : Type.
Implicit Types (options : GlyphOptions T World) (g : Glyph T World).

Lemma name_is_spec (n : option string) (s : string) :
  name_is n s = true <-> n = Some s.
Proof.
  destruct n as [m|]; simpl.
  - rewrite String.eqb_eq. split; [intros ->; reflexivity | intros [= ->]; reflexivity].
  - split; discriminate.
Qed.

Lemma name_is_false (n : option string) (s : string) :
  name_is n s = false <-> n <> Some s.
Proof.
  rewrite <- name_is_spec. destruct (name_is n s); split; congruence.
Qed.

(** What the constructor makes of [name] and [unicode]. *)
Lemma resolveIdentity_cases options :
  (o_name _ options = Some ".notdef" /\ resolveIdentity options = (Some ".notdef", None))
  \/ (o_name _ options = Some ".null" /\ resolveIdentity options = (Some ".null", Some 0%Z))
  \/ (o_name _ options <> Some ".notdef" /\ o_name _ options <> Some ".null"
      /\ fst (resolveIdentity options) <> Some ".null"
      /\ snd (resolveIdentity options) = o_unicode _ options).
Proof.
  unfold resolveIdentity.
  destruct (name_is (o_name _ options) ".notdef") eqn:E1.
  { left. apply name_is_spec in E1. auto. }
  destruct (name_is (o_name _ options) ".null") eqn:E2.
  { right; left. apply name_is_spec in E2. auto. }
  right; right. apply name_is_false in E1, E2. repeat split; auto.
  simpl. destruct (nonEmpty (o_name _ options)); congruence.
Qed.

(** The outcome of the constructor, by the name and the unicode given. *)
Lemma new_outcome options :
  (o_name _ options = Some ".notdef"
   /\ exists g, new options = Ok g /\ name g = Some ".notdef" /\ unicode g = None)
  \/ (o_name _ options = Some ".null"
      /\ exists g, new options = Ok g /\ name g = Some ".null" /\ unicode g = Some 0%Z)
  \/ (o_name _ options <> Some ".notdef" /\ o_name _ options <> Some ".null"
      /\ o_unicode _ options = Some 0%Z /\ new options = Throw reserved)
  \/ (o_name _ options <> Some ".notdef" /\ o_name _ options <> Some ".null"
      /\ o_unicode _ options <> Some 0%Z
      /\ exists g, new options = Ok g /\ unicode g = o_unicode _ options
                   /\ name g <> Some ".null").
Proof.
  unfold new.
  destruct (resolveIdentity_cases options) as [[N ->] | [[N ->] | (N1 & N2 & F & S)]]; simpl.
  - left. split; [exact N|]. eexists. repeat split.
  - right; left. split; [exact N|]. eexists. repeat split.
  - right; right.
    destruct (resolveIdentity options) as [nm uc]; simpl in *. subst uc.
    apply name_is_false in F. rewrite F. simpl.
    destruct (o_unicode _ options) as [u|]; simpl.
    + destruct (Z.eqb_spec u 0) as [->|Hu]; simpl.
      * left. auto.
      * right. repeat split; auto; [congruence|].
        eexists. repeat split. simpl. apply name_is_false, F.
    + right. split; [exact N1|]. split; [exact N2|]. split; [congruence|].
      eexists. split; [reflexivity|]. simpl. split; [reflexivity|].
      apply name_is_false, F.
Qed.

(** C3. The constructor throws exactly when it is given unicode 0 under a
    name other than [.notdef] and [.null], that is, when the unicode it has
    resolved is 0 and the name is not [.null]; under the name [.null] it
    succeeds, whatever unicode it is given, and the glyph has unicode 0; and
    it has no other way to fail. *)
Theorem new_throws_iff options :
  (new options = Throw reserved
   <-> o_unicode _ options = Some 0%Z
       /\ o_name _ options <> Some ".notdef" /\ o_name _ options <> Some ".null")
  /\ (new options = Throw reserved
      <-> snd (resolveIdentity options) = Some 0%Z
          /\ fst (resolveIdentity options) <> Some ".null")
  /\ (o_name _ options = Some ".null" ->
      exists g, new options = Ok g /\ unicode g = Some 0%Z /\ name g = Some ".null")
  /\ (new options = Throw reserved \/ exists g, new options = Ok g).
Proof.
  pose proof (resolveIdentity_cases options) as R.
  destruct (new_outcome options)
    as [(N & g & E & Hn & Hu) | [(N & g & E & Hn & Hu) | [(N1 & N2 & U & E) | (N1 & N2 & U & g & E & Hu & Hn)]]];
    rewrite E.
  - destruct R as [[_ ->] | [[N' _] | (N' & _)]]; try congruence. simpl.
    split; [split; [discriminate | intros (_ & C & _); congruence]|].
    split; [split; [discriminate | intros (C & _); discriminate]|].
    split; [intros C; congruence | right; eauto].
  - destruct R as [[N' _] | [[_ ->] | (_ & N' & _)]]; try congruence. simpl.
    split; [split; [discriminate | intros (_ & _ & C); congruence]|].
    split; [split; [discriminate | intros (_ & C); congruence]|].
    split; [intros _; eauto | right; eauto].
  - destruct R as [[N' _] | [[N' _] | (_ & _ & F & S)]]; try congruence.
    rewrite S. split; [split; auto|]. split; [split; auto|].
    split; [intros C; congruence | left; reflexivity].
  - destruct R as [[N' _] | [[N' _] | (_ & _ & F & S)]]; try congruence.
    rewrite S.
    split; [split; [discriminate | intros (C & _); congruence]|].
    split; [split; [discriminate | intros (C & _); congruence]|].
    split; [intros C; congruence | right; eauto].
Qed.

(** C9. Under the name [.notdef] the constructor succeeds and the glyph has
    no unicode; under [.null] it succeeds and the glyph has unicode 0, in both
    cases whatever unicode the options hold; under any other name a glyph
    that is constructed has the unicode of the options, and one is
    constructed unless that unicode is 0. *)
Theorem new_coerces_reserved_names options :
  (o_name _ options = Some ".notdef" ->
   exists g, new options = Ok g /\ name g = Some ".notdef" /\ unicode g = None)
  /\ (o_name _ options = Some ".null" ->
      exists g, new options = Ok g /\ name g = Some ".null" /\ unicode g = Some 0%Z)
  /\ (o_name _ options <> Some ".notdef" -> o_name _ options <> Some ".null" ->
      (forall g, new options = Ok g -> unicode g = o_unicode _ options)
      /\ (o_unicode _ options <> Some 0%Z -> exists g, new options = Ok g)).
Proof.
  destruct (new_outcome options)
    as [(N & g & E & Hn & Hu) | [(N & g & E & Hn & Hu) | [(N1 & N2 & U & E) | (N1 & N2 & U & g & E & Hu & Hn)]]];
    rewrite E; repeat split; intros; try congruence; eauto.
Qed.

(** C8. [addUnicode(0)] has no failing outcome: on every glyph it appends 0
    to [unicodes], makes 0 the primary unicode when the list was empty and
    leaves it otherwise, and leaves the name; so a glyph not named [.null]
    ends with unicode 0, a name and unicode that the constructor refuses. *)
Theorem addUnicode_0_is_not_checked g :
  unicodes (addUnicode 0 g) = unicodes g ++ [0%Z]
  /\ (unicodes g = [] -> unicode (addUnicode 0 g) = Some 0%Z)
  /\ (unicodes g <> [] -> unicode (addUnicode 0 g) = unicode g)
  /\ name (addUnicode 0 g) = name g
  /\ (name g <> Some ".null" -> unicodes g = [] ->
      unicode (addUnicode 0 g) = Some 0%Z /\ name (addUnicode 0 g) <> Some ".null"
      /\ forall options, o_name _ options = name g -> name g <> Some ".notdef" ->
           o_unicode _ options = unicode (addUnicode 0 g) ->
           new options = Throw reserved).
Proof.
  split; [reflexivity|].
  split; [intros E; unfold addUnicode; simpl; rewrite E; reflexivity|].
  split; [intros Hne; unfold addUnicode; simpl; destruct (unicodes g); [congruence | reflexivity]|].
  split; [reflexivity|].
  intros Hnull Hempty.
  assert (Hu : unicode (addUnicode 0 g) = Some 0%Z)
    by (unfold addUnicode; simpl; rewrite Hempty; reflexivity).
  split; [exact Hu|]. split; [exact Hnull|].
  intros options Ho Hnd Hgiven. rewrite Hu in Hgiven.
  destruct (new_outcome options)
    as [(N & _) | [(N & _) | [(_ & _ & _ & E) | (_ & _ & U & _)]]];
    [congruence | congruence | exact E | congruence].
Qed.
End Construction.

Section Memo.
Context {T : Type} `{Number T}.
Variable World : Type.
Implicit Types (s : State T World) (g : Glyph T World).

Lemma readPath_resolved s p :
  _path (glyph s) = Resolved p -> readPath s = (Ok (Resolved p), s).
Proof. unfold readPath. intros ->. reflexivity. Qed.

Lemma readPaths_resolved n s p :
  _path (glyph s) = Resolved p -> readPaths n s = (repeat (Ok (Resolved p)) n, s).
Proof.
  intros Hp. induction n as [|n IH]; simpl; [reflexivity|].
  rewrite (readPath_resolved s p Hp), IH. reflexivity.
Qed.

Lemma inheritUnitsPerEm_set_path slot g v :
  inheritUnitsPerEm (set_path slot g) v = inheritUnitsPerEm g v.
Proof. destruct v; reflexivity. Qed.

(** The read that finds a producer calls it; when the call returns, the
    read returns its value and has stored it. *)
Lemma readPath_producer f g w v w' :
  f w = (Ok v, w') ->
  readPath (mkState (set_path (Producer f) g) w)
  = (Ok (inheritUnitsPerEm g v), mkState (set_path (inheritUnitsPerEm g v) g) w').
Proof.
  intros E. unfold readPath. cbn [glyph world _path set_path]. rewrite E.
  rewrite inheritUnitsPerEm_set_path. reflexivity.
Qed.

(** When the call throws, the producer stays. *)
Lemma readPath_throws f g w m w' :
  f w = (Throw m, w') ->
  readPath (mkState (set_path (Producer f) g) w)
  = (Throw m, mkState (set_path (Producer f) g) w').
Proof.
  intros E. unfold readPath. cbn [glyph world _path set_path]. rewrite E. reflexivity.
Qed.

(** A path that [inheritUnitsPerEm] is given stays a path. *)
Lemma inheritUnitsPerEm_path g p :
  exists p', inheritUnitsPerEm g (Resolved p) = Resolved p'.
Proof.
  unfold inheritUnitsPerEm.
  destruct (negb (truthyField (unitsPerEm p)) && truthyField (glyph_unitsPerEm g)); eauto.
Qed.

Lemma readPaths_producer f g w p w' n :
  f w = (Ok (Resolved p), w') ->
  readPaths (S n) (mkState (set_path (Producer f) g) w)
  = (repeat (Ok (inheritUnitsPerEm g (Resolved p))) (S n),
     mkState (set_path (inheritUnitsPerEm g (Resolved p)) g) w').
Proof.
  intros E. cbn [readPaths]. rewrite (readPath_producer f g w _ w' E).
  destruct (inheritUnitsPerEm_path g p) as [p' ->].
  rewrite (readPaths_resolved n _ p') by reflexivity. reflexivity.
Qed.
End Memo.

Section GlyphSetMemo.
Variable T : Type.
Variable World : Type.
Import GlyphSet.

Implicit Types (s : State T World) (font : Font T World).

Lemma materialize_loaded index s g :
  glyphs _ _ (set _ _ s) !! index = Some (Loaded _ _ g) ->
  materialize _ _ index s = (Ok tt, s).
Proof. unfold materialize. intros ->. reflexivity. Qed.

Lemma materialize_absent index s :
  glyphs _ _ (set _ _ s) !! index = None -> materialize _ _ index s = (Ok tt, s).
Proof. unfold materialize. intros ->. reflexivity. Qed.

(** [materialize] on a loader: the loader is called on the heap; when it
    returns, its glyph is the entry, and when it throws, the loader stays. *)
Lemma materialize_loader index s f :
  glyphs _ _ (set _ _ s) !! index = Some (Loader _ _ f) ->
  materialize _ _ index s =
  match f (heap _ _ s) with
  | (Ok g, h) =>
      (Ok tt, mkState _ _ (mkGlyphs _ _ (<[index := Loaded _ _ g]> (glyphs _ _ (set _ _ s)))
                                    (length _ _ (set _ _ s))) h)
  | (Throw m, h) => (Throw m, mkState _ _ (set _ _ s) h)
  end.
Proof. unfold materialize. intros ->. reflexivity. Qed.

(** After a [materialize] that returns, the entry is absent or a glyph. *)
Lemma materialize_entry index s s' :
  materialize _ _ index s = (Ok tt, s') ->
  glyphs _ _ (set _ _ s') !! index = None
  \/ exists g, glyphs _ _ (set _ _ s') !! index = Some (Loaded _ _ g).
Proof.
  unfold materialize. destruct (glyphs _ _ (set _ _ s) !! index) as [[f|g]|] eqn:E.
  - destruct (f (heap _ _ s)) as [[g|m] h]; [|discriminate].
    intros [= <-]. right. exists g. cbn. apply lookup_insert_eq.
  - intros [= <-]. right. eauto.
  - intros [= <-]. left. exact E.
Qed.

Lemma update_absent (f : Glyph.Glyph T World -> Glyph.Glyph T World) h :
  fst (update _ _ None f h) = Throw typeError.
Proof. reflexivity. Qed.

Lemma andThen_throw r (k : Heap T World -> result unit * Heap T World) :
  (forall h, exists m, fst (k h) = Throw m) -> exists m, fst (andThen _ _ r k) = Throw m.
Proof.
  intros Hk. destruct r as [[[]|m] h]; simpl; [apply Hk | eauto].
Qed.

(** With no glyph at the index the low-memory branch throws. *)
Lemma identify_absent font index h :
  exists m, fst (identify _ _ font index None h) = Throw m.
Proof.
  unfold identify. apply andThen_throw. intros h1.
  apply andThen_throw. intros h2.
  destruct (_hmtxTableData _ _ font index); simpl; eauto.
Qed.

Lemma get_loaded font index s g :
  glyphs _ _ (set _ _ s) !! index = Some (Loaded _ _ g) ->
  get _ _ font index s = (Ok (Some g), s).
Proof.
  intros E. unfold get. rewrite E.
  destruct (_push _ _ font); rewrite (materialize_loaded index s g E), E; reflexivity.
Qed.

Lemma gets_loaded font index n s g :
  glyphs _ _ (set _ _ s) !! index = Some (Loaded _ _ g) ->
  gets _ _ font index n s = (repeat (Ok (Some g)) n, s).
Proof.
  intros E. induction n as [|n IH]; cbn [gets repeat]; [reflexivity|].
  rewrite (get_loaded font index s g E), IH. reflexivity.
Qed.

(** Once [get] has returned, the same call returns the same value and
    changes nothing. *)
Lemma get_again font index s v :
  fst (get _ _ font index s) = Ok v ->
  get _ _ font index (snd (get _ _ font index s))
  = (Ok v, snd (get _ _ font index s)).
Proof.
  unfold get at 1 3 4.
  destruct (_push _ _ font) as [push_|] eqn:P;
    [destruct (glyphs _ _ (set _ _ s) !! index) as [e|] eqn:E|].
  - (* an entry is there *)
    destruct (materialize _ _ index s) as [[[]|m] s1] eqn:M; [|discriminate].
    destruct (materialize_entry index s s1 M) as [N|[g L]].
    + exfalso. unfold materialize in M. rewrite E in M. destruct e as [f|g].
      * destruct (f (heap _ _ s)) as [[g|m] h]; [|discriminate].
        injection M as <-. cbn in N. rewrite lookup_insert_eq in N. discriminate.
      * injection M as <-. congruence.
    + cbn [fst snd]. rewrite L. cbn [entryValue]. intros [= <-].
      apply get_loaded. exact L.
  - (* the low-memory branch *)
    set (s0 := mkState _ _ (push_ index (set _ _ s)) (heap _ _ s)).
    destruct (materialize _ _ index s0) as [[[]|m] s1] eqn:M; [|discriminate].
    destruct (materialize_entry index s0 s1 M) as [N|[g L]].
    + rewrite N. cbn [entryValue].
      destruct (identify_absent font index (heap _ _ s1)) as [m Hm].
      destruct (identify _ _ font index None (heap _ _ s1)) as [[[]|m'] h]; cbn in *;
        discriminate.
    + rewrite L. cbn [entryValue].
      destruct (identify _ _ font index (Some g) (heap _ _ s1)) as [[[]|m] h];
        [|discriminate].
      cbn [fst snd set]. rewrite L. cbn [entryValue]. intros [= <-].
      apply get_loaded. exact L.
  - (* a font without [_push] *)
    destruct (materialize _ _ index s) as [[[]|m] s1] eqn:M; [|discriminate].
    cbn [fst snd]. intros [= <-].
    destruct (materialize_entry index s s1 M) as [N|[g L]].
    + rewrite N. cbn [entryValue]. unfold get. rewrite P.
      rewrite (materialize_absent index s1 N), N. reflexivity.
    + rewrite L. cbn [entryValue]. apply get_loaded. exact L.
Qed.

(** A loader stored at the index is called by [get]; the glyph it returns
    is stored and returned, and the heap is the one it leaves. *)
Lemma get_loader font index s f g h :
  glyphs _ _ (set _ _ s) !! index = Some (Loader _ _ f) ->
  f (heap _ _ s) = (Ok g, h) ->
  get _ _ font index s
  = (Ok (Some g),
     mkState _ _ (mkGlyphs _ _ (<[index := Loaded _ _ g]> (glyphs _ _ (set _ _ s)))
                           (length _ _ (set _ _ s))) h).
Proof.
  intros E F. unfold get. rewrite E, (materialize_loader index s f E), F.
  destruct (_push _ _ font); cbn [set glyphs]; rewrite lookup_insert_eq; reflexivity.
Qed.

(** A loader that throws stays in place. *)
Lemma get_throws font index s f m h :
  glyphs _ _ (set _ _ s) !! index = Some (Loader _ _ f) ->
  f (heap _ _ s) = (Throw m, h) ->
  get _ _ font index s = (Throw m, mkState _ _ (set _ _ s) h).
Proof.
  intros E F. unfold get. rewrite E, (materialize_loader index s f E), F.
  destruct (_push _ _ font); reflexivity.
Qed.

End GlyphSetMemo.


(** A glyph with nothing but a path. *)
Definition blank {T World} (slot : PathSlot T World) : Glyph T World :=
  mkGlyph 0 None None [] None None None None None None None slot.

(** A producer that returns the empty path and counts in the world. *)
Definition emptyPath : nat -> result (PathSlot float nat) * nat :=
  fun count => (Ok (Resolved Path.new), S count).


(** A producer that throws, and counts in the world. *)
Definition noOutline : nat -> result (PathSlot float nat) * nat :=
  fun count => (Throw "no outline", S count).


End GlyphFacts.

(** ** Glyph.getPath *)

Module OutlineFacts.
Import Path Glyph.
Local Open Scope list_scope.
Local Open Scope js_scope.

Section Outline.
Context {T : Type} `{Number T}.
Variable round : T -> T.
Variable World : Type.
Variable pathOf : Glyph T World -> Path T.
Variables Variation HintedPoints Color : Type.
Variable getPaletteColor :
  Font T World Variation HintedPoints -> nat -> option nat -> Color.
Variable formatColor : Color -> string -> string.
Variable isCurrentColor : Color -> bool.

(** A command with [fx] applied to its x coordinates and [fy] to its y
    coordinates. *)
Definition mapPoints (fx fy : T -> T) (cmd : PathCommand T) : PathCommand T :=
  match cmd with
  | MoveTo x y => MoveTo (fx x) (fy y)
  | LineTo x y => LineTo (fx x) (fy y)
  | QuadTo x1 y1 x y => QuadTo (fx x1) (fy y1) (fx x) (fy y)
  | CurveTo x1 y1 x2 y2 x y => CurveTo (fx x1) (fy y1) (fx x2) (fy y2) (fx x) (fy y)
  | Close => Close
  end.

Definition isCloseCommand (cmd : PathCommand T) : bool :=
  match cmd with Close => true | _ => false end.

Lemma emit_map_filter x y xs ys closes (cs : list (PathCommand T)) :
  flat_map (emit x y xs ys closes) cs =
  map (mapPoints (fun v => x + v * xs) (fun v => y + (- v) * ys))
      (filter (fun c => closes || negb (isCloseCommand c)) cs).
Proof.
  induction cs as [|c cs IH]; [reflexivity|].
  destruct c; destruct closes; cbn; rewrite ?IH; try reflexivity.
Qed.

Abbreviation getPath_ :=
  (getPath round World pathOf Variation HintedPoints Color getPaletteColor formatColor
           isCurrentColor).

(** C4, amended. When the hinting engine yields no points, no image and
    no layers apply, [getPath] returns a path whose commands are the source
    commands without the close commands, unless the source path has a stroke
    and a scaled stroke width other than 0, in which case they stay. Every
    x becomes [x + cmd.x * xScale] and every y [y + (-cmd.y) * yScale], control
    points included, the scales defaulting to
    [1 / (unitsPerEm || 1000) * fontSize], computed in this order; [fill] is
    the caller's or else the source's, [stroke] is the source's, [strokeWidth]
    the source's times the scale. The numbers are those of any number model,
    binary64 among them. *)
Theorem getPath_outline (fuel : nat) (this : Glyph T World) (x y fontSize : T)
    (options : RenderOptions T Variation)
    (font : option (Font T World Variation HintedPoints)) :
  let renderOptions := renderOptionsOf _ _ _ font options in
  let useGlyph := useGlyphOf _ _ _ this renderOptions font in
  let scale := lit 1 / orThousand (unitsPerEm (pathOf this)) * fontSize in
  let xScale := default scale (xScale _ renderOptions) in
  let yScale := default scale (yScale _ renderOptions) in
  let closes := nonEmpty (stroke (pathOf this))
                && truthy (strokeWidth (pathOf this) * scale) in
  hPointsOf _ _ _ useGlyph fontSize renderOptions font = None ->
  (isTrue (drawSVG _ renderOptions) = true ->
   exists f, font = Some f /\ font_svgImages _ _ _ f (index this) = None) ->
  (isTrue (drawLayers _ renderOptions) = true ->
   exists f, font = Some f
             /\ (font_layers _ _ _ f (index this) = None
                 \/ font_layers _ _ _ f (index this) = Some [])) ->
  exists p,
    getPath_ (S fuel) this x y fontSize options font = Some (Ok p)
    /\ commands p =
       map (mapPoints (fun v => x + v * xScale) (fun v => y + (- v) * yScale))
           (filter (fun c => closes || negb (isCloseCommand c))
                   (commands (pathOf useGlyph)))
    /\ fill p = (if nonEmpty (r_fill _ renderOptions) then r_fill _ renderOptions
                 else fill (pathOf this))
    /\ stroke p = stroke (pathOf this)
    /\ strokeWidth p = strokeWidth (pathOf this) * scale.
Proof.
  intros renderOptions useGlyph scale xScale yScale closes Hh Hsvg Hlay.
  exists (outline _ pathOf _ this renderOptions scale x y xScale yScale
            (commands (pathOf useGlyph))).
  split.
  - cbn [getPath]. fold renderOptions. fold useGlyph. rewrite Hh.
    unfold scaleOf. fold scale. fold xScale. fold yScale.
    destruct (isTrue (drawSVG _ renderOptions)) eqn:Dsvg;
      destruct (isTrue (drawLayers _ renderOptions)) eqn:Dlay;
      try (destruct (Hsvg eq_refl) as (f & Ef & Es));
      try (destruct (Hlay eq_refl) as (f' & Ef' & El));
      subst; try (injection Ef' as <-); cbn [getSvgImage getLayers];
      rewrite ?Es; try (destruct El as [El|El]; rewrite El); reflexivity.
  - unfold outline. simpl. split; [apply emit_map_filter|]. auto.
Qed.
End Outline.

(** [glyph.path] for a glyph whose path is in place; the glyphs below have
    no producer, for which the empty path stands in. *)
Definition resolvedPath {T} `{Number T} (g : Glyph T unit) : Path T :=
  match _path g with
  | Resolved p => p
  | Producer _ => Path.new
  end.

(** A triangle in the units of the font, in binary64. *)
Definition triangle : Glyph float unit :=
  mkGlyph 0 None None [] None None None None None None None
    (Resolved (set_commands
                 [MoveTo (lit 0) (lit 0); LineTo (lit 500) (lit 0);
                  LineTo (lit 250) (lit 700); Close]
                 Path.new)).

(** [getPath(x, y, fontSize)] in binary64, with no options and no font. *)
Definition getPath_plain (this : Glyph float unit) (x y fontSize : float)
  : option (result (Path float)) :=
  getPath Float64.round unit resolvedPath unit unit unit (fun _ _ _ => tt) (fun _ s => s)
          (fun _ => false) 1 this x y fontSize (noRenderOptions unit) None.

(** [triangle.getPath(0, 0, 72)]: the scale is [1 / 1000 * 72], which is
    0.07200000000000001 in binary64. *)
Lemma getPath_outline_witness :
  exists p,
    getPath_plain triangle (lit 0) (lit 0) (lit 72) = Some (Ok p)
    /\ commands p =
       map (mapPoints (fun v => lit 0 + v * (lit 1 / lit 1000 * lit 72))
                      (fun v => lit 0 + (- v) * (lit 1 / lit 1000 * lit 72)))
           (filter (fun c => false || negb (isCloseCommand c))
                   (commands (resolvedPath triangle)))
    /\ fill p = Some "black"%string
    /\ stroke p = None
    /\ strokeWidth p = lit 1 * (lit 1 / lit 1000 * lit 72).
Proof.
  apply (getPath_outline Float64.round unit resolvedPath unit unit unit (fun _ _ _ => tt)
           (fun _ s => s) (fun _ => false) 0 triangle (lit 0) (lit 0) (lit 72)
           (noRenderOptions unit) None).
  - reflexivity.
  - discriminate.
  - discriminate.
Defined.

(** The close command of the source is not in the result: four commands go
    in and three come out, with the coordinates that binary64 gives them. *)
Lemma getPath_drops_close :
  exists p,
    getPath_plain triangle (lit 0) (lit 0) (lit 72) = Some (Ok p)
    /\ List.length (commands (resolvedPath triangle)) = 4%nat
    /\ commands p = [MoveTo 0%float 0%float;
                     (* 36.00000000000001, 0 *)
                     LineTo 0x1.2000000000001p+5%float 0%float;
                     (* 18.000000000000004, -50.400000000000006 *)
                     LineTo 0x1.2000000000001p+4%float (-0x1.9333333333334p+5)%float]
       (* 0.07200000000000001 *)
    /\ strokeWidth p = 0x1.26e978d4fdf3cp-4%float.
Proof.
  eexists. split; [reflexivity|]. split; [reflexivity|]. split; vm_compute; reflexivity.
Qed.

End OutlineFacts.

(** ** fromSVG: the unexpected character *)

Module ParserFacts.
Import Rat Path SVG.
Local Open Scope list_scope.

(** The characters the tokenizer has a branch for. *)
Definition accepted (c : ascii) : bool :=
  isDigit c || isSign c || isCommand c || isSeparator c || Ascii.eqb c ".".

Lemma tokenStep_rejects places t c : accepted c = false -> tokenStep places t c = None.
Proof.
  unfold accepted, tokenStep. intros H.
  repeat (apply orb_false_iff in H; destruct H as [H ?]).
  repeat match goal with E : _ = false |- _ => rewrite E; clear E end.
  reflexivity.
Qed.

Lemma tokenize_app places pre rest i t :
  tokenize places (pre ++ rest) i t =
  match tokenize places pre i t with
  | Ok t' => tokenize places rest (i + List.length pre) t'
  | Throw m => Throw m
  end.
Proof.
  revert i t. induction pre as [|c pre IH]; intros i t; simpl.
  - rewrite Nat.add_0_r. reflexivity.
  - destruct (tokenStep places t c) as [t'|]; [|reflexivity].
    rewrite IH. replace (S i + List.length pre)%nat with (i + S (List.length pre))%nat by lia.
    reflexivity.
Qed.

(** A throw of the loop names a character of the text and its offset. *)
Lemma tokenize_throws places s i t m :
  tokenize places s i t = Throw m ->
  exists k c, s !! k = Some c /\ m = unexpected c (i + k).
Proof.
  revert i t. induction s as [|c s IH]; intros i t; simpl; [discriminate|].
  destruct (tokenStep places t c) as [t'|].
  - intros H. destruct (IH _ _ H) as (k & d & Hk & ->).
    exists (S k), d. split; [exact Hk|]. f_equal. lia.
  - intros [= <-]. exists 0%nat, c. split; [reflexivity|]. f_equal. lia.
Qed.

Lemma list_ascii_of_string_app (a b : string) :
  list_ascii_of_string (a ++ b)%string = list_ascii_of_string a ++ list_ascii_of_string b.
Proof. induction a as [|c a IH]; simpl; [reflexivity | rewrite IH; reflexivity]. Qed.

Lemma length_list_ascii_of_string (a : string) :
  List.length (list_ascii_of_string a) = String.length a.
Proof. induction a as [|c a IH]; simpl; [reflexivity | rewrite IH; reflexivity]. Qed.

(** [fromSVG] throws exactly what its loop throws. *)
Lemma fromSVG_tokenize s options p :
  match tokenize (in_decimalPlaces (createSVGParsingOptions options))
                 (list_ascii_of_string s) 0 (mkTokenizer None [] [] []) with
  | Throw m => fromSVG s options p = Throw m
  | Ok _ => exists q, fromSVG s options p = Ok q
  end.
Proof.
  unfold fromSVG.
  destruct (tokenize _ _ _ _); [eexists|]; reflexivity.
Qed.

End ParserFacts.

(** ** toPathData and its receiver *)

Module FrameFacts.
Import Rat Path SVG Objects.
Local Open Scope list_scope.

Implicit Types (o : gmap loc Command) (ls : list loc).

(** [o'] holds every object of [o] unchanged. *)
Definition extends o o' : Prop :=
  forall l v, o !! l = Some v -> o' !! l = Some v.

Lemma extends_refl o : extends o o.
Proof. intros l v H. exact H. Qed.

Lemma extends_trans o1 o2 o3 : extends o1 o2 -> extends o2 o3 -> extends o1 o3.
Proof. intros H12 H23 l v H. apply H23, H12, H. Qed.

Lemma alloc_fresh v o : o !! fst (alloc v o) = None.
Proof. unfold alloc. simpl. apply not_elem_of_dom, is_fresh. Qed.

Lemma alloc_extends v o : extends o (snd (alloc v o)).
Proof.
  intros l w H. unfold alloc. simpl.
  rewrite lookup_insert_ne; [exact H|].
  intros <-. pose proof (alloc_fresh v o) as F. unfold alloc in F. simpl in F. congruence.
Qed.

(** The copy is made of new objects and leaves the old ones. *)
Lemma jsonCopy_spec ls o :
  extends o (snd (jsonCopy ls o))
  /\ Forall (fun l => o !! l = None) (fst (jsonCopy ls o)).
Proof.
  revert o. induction ls as [|l ls IH]; intros o; cbn [jsonCopy].
  - split; [apply extends_refl | constructor].
  - destruct (o !! l) as [v|] eqn:E; [|apply IH].
    pose proof (alloc_fresh v o) as F. pose proof (alloc_extends v o) as X.
    destruct (alloc v o) as [l' o1]. simpl in F, X.
    destruct (IH o1) as [X1 F1]. destruct (jsonCopy ls o1) as [ls' o2]. simpl in *.
    split; [eapply extends_trans; eassumption|].
    constructor; [exact F|].
    eapply Forall_impl; [exact F1|]. simpl. intros k Hk.
    destruct (o !! k) as [w|] eqn:Ek; [|reflexivity].
    apply X in Ek. congruence.
Qed.

(** A step of the loop writes to objects it has been handed only, and
    keeps nothing else in the subpath. *)
Lemma optimizeStep_spec o s cmd next (all : list loc) :
  Forall (fun l => l ∈ all) (subpath s) -> cmd ∈ all ->
  Forall (fun l => l ∈ all) (subpath (fst (optimizeStep o s cmd next)))
  /\ (forall l, l ∉ all -> snd (optimizeStep o s cmd next) !! l = o !! l).
Proof.
  intros Hs Hc.
  assert (Hp : Forall (fun l => l ∈ all) (subpath s ++ [cmd]))
    by (apply Forall_app; split; [exact Hs | constructor; [exact Hc | constructor]]).
  unfold optimizeStep.
  destruct (o !! cmd) as [[x y|x y|x1 y1 x y|x1 y1 x2 y2 x y|]|]; simpl; auto.
  - repeat match goal with |- context [if ?c then _ else _] => destruct c end; simpl; auto.
  - set (r := match _ with Some f => _ | None => _ end).
    assert (Hr : Forall (fun l => l ∈ all) (fst r)
                 /\ (forall l, l ∉ all -> snd r !! l = o !! l)).
    { unfold r.
      repeat match goal with
      | |- context [match ?c with Some _ => _ | None => _ end] => destruct c; simpl; auto
      | |- context [if ?c then _ else _] => destruct c; simpl; auto
      end.
      assert (Ht : Forall (fun l => l ∈ all) (tail (subpath s ++ [cmd]))).
      { destruct (subpath s ++ [cmd]); simpl; [constructor|].
        apply Forall_cons in Hp as [_ Hp]. exact Hp. }
      destruct (tail (subpath s ++ [cmd])) as [|l0 rest]; simpl; auto.
      split; [exact Ht|].
      intros l Hl. destruct (o !! l0) eqn:E1; [|reflexivity].
      apply lookup_insert_ne. intros <-. apply Forall_cons in Ht as [Ht _]. contradiction. }
    destruct r as [closed o']. simpl in Hr. destruct Hr as [Hr1 Hr2].
    destruct next; simpl; auto.
Qed.

Lemma optimizeLoop_spec cs : forall o s (all : list loc),
  Forall (fun l => l ∈ all) (subpath s) -> Forall (fun l => l ∈ all) cs ->
  forall l, l ∉ all -> snd (optimizeLoop cs s o) !! l = o !! l.
Proof.
  induction cs as [|cmd cs IH]; intros o s all Hs Hcs l Hl; simpl; [reflexivity|].
  apply Forall_cons in Hcs as [Hc Hcs].
  destruct (optimizeStep_spec o s cmd (head cs) all Hs Hc) as [Hs' Ho'].
  destruct (optimizeStep o s cmd (head cs)) as [s' o']. simpl in *.
  rewrite (IH o' s' all Hs' Hcs l Hl). apply Ho', Hl.
Qed.

Lemma optimizeCommands_frame cs o l :
  l ∉ cs -> snd (optimizeCommands cs o) !! l = o !! l.
Proof.
  intros Hl. unfold optimizeCommands.
  pose proof (optimizeLoop_spec cs o (mkSubpaths [] [] (lit 0) (lit 0)) cs) as H.
  destruct (optimizeLoop cs _ o) as [s o']. simpl in *.
  apply H; [constructor | apply Forall_forall; auto | exact Hl].
Qed.

Lemma values_extends o o' ls :
  extends o o' -> Forall (fun l => is_Some (o !! l)) ls -> values o' ls = values o ls.
Proof.
  intros X. unfold values. induction 1 as [|l ls [v Hv] _ IH]; [reflexivity|].
  cbn [omap list_omap]. rewrite Hv, (X l v Hv). f_equal. exact IH.
Qed.

(** C10. [toPathData], called on a path object of the store with any
    options, leaves that object as it was ([commands], [fill], [stroke],
    [strokeWidth], [unitsPerEm]) and leaves every command object that was in
    the store, the receiver's among them, unchanged: what the optimization
    pass writes to are the objects of the copy. *)
Theorem toPathData_leaves_the_receiver (this : loc) (options : nat + PathOptions)
    (st : Store) (p : PathObject) :
  pathObjects st !! this = Some p ->
  exists d st',
    toPathData this options st = Some (d, st')
    /\ pathObjects st' !! this = Some p
    /\ (forall l v, commandObjects st !! l = Some v -> commandObjects st' !! l = Some v)
    /\ (Forall (fun l => is_Some (commandObjects st !! l)) (po_commands p) ->
        values (commandObjects st') (po_commands p)
        = values (commandObjects st) (po_commands p)).
Proof.
  intros Hp. unfold toPathData. rewrite Hp.
  set (opt := createSVGOutputOptions options).
  set (r := if out_optimize opt then _ else _).
  assert (Hr : extends (commandObjects st) (snd r)).
  { unfold r. destruct (out_optimize opt); [|apply extends_refl].
    destruct (jsonCopy_spec (po_commands p) (commandObjects st)) as [X F].
    destruct (jsonCopy (po_commands p) (commandObjects st)) as [copy o1]. simpl in X, F.
    intros l v Hl.
    rewrite optimizeCommands_frame; [apply X, Hl|].
    intros Hin. rewrite Forall_forall in F. rewrite (F l Hin) in Hl. discriminate. }
  destruct r as [commandsCopy objs]. simpl in Hr.
  set (q := match out_flipY opt, out_flipYBase opt with
            | true, None => _ | _, Some b => _ | false, None => _ end).
  assert (Hq : pathObjects st !! this = Some p -> snd q !! this = Some p).
  { unfold q. intros H.
    destruct (out_flipY opt), (out_flipYBase opt); simpl; try exact H.
    rewrite lookup_insert_ne; [exact H|].
    intros <-. pose proof (is_fresh (dom (pathObjects st))) as F.
    apply not_elem_of_dom in F. congruence. }
  destruct q as [flipYBase paths]. simpl in Hq.
  eexists _, _. split; [reflexivity|]. simpl.
  split; [apply Hq, Hp|]. split; [exact Hr|].
  apply values_extends, Hr.
Qed.

(** A path that the optimization pass rewrites: it starts at (0, 0), and
    its last line comes back there before the close. *)
Definition loopObjects : gmap loc Command :=
  list_to_map [(0%nat, MoveTo (lit 0) (lit 0)); (1%nat, LineTo (lit 5) (lit 0));
               (2%nat, LineTo (lit 0) (lit 0)); (3%nat, Close)].

Definition loopPath : PathObject :=
  mkPathObject [0; 1; 2; 3]%nat (Some "black"%string) None (lit 1) None.

Definition loopStore : Store :=
  mkStore loopObjects (list_to_map [(0%nat, loopPath)]).

(** [optimizeCommands] writes to the objects it is handed: the first line
    becomes the move. *)
Lemma optimizeCommands_writes_to_its_argument :
  loopObjects !! 1%nat = Some (LineTo (lit 5) (lit 0))
  /\ fst (optimizeCommands [0; 1; 2; 3]%nat loopObjects) = [1; 2; 3]%nat
  /\ snd (optimizeCommands [0; 1; 2; 3]%nat loopObjects) !! 1%nat
     = Some (MoveTo (lit 5) (lit 0)).
Proof. vm_compute. repeat split; reflexivity. Qed.

Lemma toPathData_leaves_the_receiver_witness :
  exists d st',
    toPathData 0%nat (inr noOptions) loopStore = Some (d, st')
    /\ pathObjects st' !! 0%nat = Some loopPath
    /\ (forall l v, commandObjects loopStore !! l = Some v ->
                    commandObjects st' !! l = Some v)
    /\ (Forall (fun l => is_Some (commandObjects loopStore !! l)) (po_commands loopPath) ->
        values (commandObjects st') (po_commands loopPath)
        = values (commandObjects loopStore) (po_commands loopPath)).
Proof.
  apply (toPathData_leaves_the_receiver 0%nat (inr noOptions) loopStore loopPath).
  reflexivity.
Defined.
End FrameFacts.

(** ** toPathData and fromSVG: the round trip

    [fromSVG] is run on the text that [toPathData] writes, in the rational
    number model: a coordinate is an exact decimal fraction, and so is every
    difference [flipYBase - y]. *)

Module RoundTrip.
Import Rat Path SVG BBox.
Local Open Scope list_scope.

(** *** Rationals in lowest terms *)

(** An integer as a rational. *)
Definition zq (z : Z) : Qc := Q2Qc (inject_Z z).

(** Push [this] through the operations, down to [Q]. *)
Ltac to_Q :=
  unfold zq, Qcdiv, Qcinv, Qcminus, Qcopp, Qcplus, Qcmult in *;
  cbn [this Q2Qc] in *;
  rewrite ?Qred_correct in *.

Lemma zq_add a b : zq (a + b) = (zq a + zq b)%Qc.
Proof. apply Qc_is_canon. to_Q. rewrite inject_Z_plus. reflexivity. Qed.

Lemma zq_mul a b : zq (a * b) = (zq a * zq b)%Qc.
Proof. apply Qc_is_canon. to_Q. rewrite inject_Z_mult. reflexivity. Qed.

Lemma zq_opp a : zq (- a) = (- zq a)%Qc.
Proof. apply Qc_is_canon. to_Q. rewrite inject_Z_opp. reflexivity. Qed.

Lemma zq_sub a b : zq (a - b) = (zq a - zq b)%Qc.
Proof. unfold Z.sub. rewrite zq_add, zq_opp. reflexivity. Qed.

Lemma zq_inj a b : zq a = zq b -> a = b.
Proof.
  intros H. apply (f_equal this) in H. unfold zq in H. cbn [this Q2Qc] in H.
  assert (E : (inject_Z a == inject_Z b)%Q) by (rewrite <- (Qred_correct (inject_Z a)), H; apply Qred_correct).
  apply inject_Z_injective, E.
Qed.

Lemma zq_lt a b : (zq a < zq b)%Qc <-> (a < b)%Z.
Proof. unfold Qclt. to_Q. rewrite <- Zlt_Qlt. reflexivity. Qed.

Lemma zq_le a b : (zq a <= zq b)%Qc <-> (a <= b)%Z.
Proof. unfold Qcle. to_Q. rewrite <- Zle_Qle. reflexivity. Qed.

Lemma Qc_ltb_lt a b : Qc_ltb a b = true <-> (a < b)%Qc.
Proof.
  unfold Qc_ltb. rewrite Qclt_alt. destruct (a ?= b)%Qc; split; congruence.
Qed.

Lemma Qc_eqb_eq a b : Qc_eqb a b = true <-> a = b.
Proof.
  unfold Qc_eqb. rewrite Qceq_alt. destruct (a ?= b)%Qc; split; congruence.
Qed.

Lemma Qc_leb_le a b : Qc_leb a b = true <-> (a <= b)%Qc.
Proof.
  unfold Qc_leb. rewrite Qcle_alt. destruct (a ?= b)%Qc; split; congruence.
Qed.

Lemma Qc_leb_ltb a b : Qc_leb a b = negb (Qc_ltb b a).
Proof.
  unfold Qc_leb, Qc_ltb, Qccompare. rewrite <- (Qcompare_antisym a b).
  destruct (Qcompare a b); reflexivity.
Qed.

Lemma floor_zq z : Qfloor (this (zq z)) = z.
Proof. unfold zq. cbn [this Q2Qc]. rewrite (Qfloor_comp _ _ (Qred_correct _)). apply Qfloor_Z. Qed.


(** *** Decimal fractions *)

Definition ten (n : nat) : Z := 10 ^ Z.of_nat n.

Lemma ten_pos n : (0 < ten n)%Z.
Proof. unfold ten. apply Z.pow_pos_nonneg; lia. Qed.

Lemma ten_S n : ten (S n) = (10 * ten n)%Z.
Proof. unfold ten. rewrite Nat2Z.inj_succ, Z.pow_succ_r by lia. reflexivity. Qed.

Lemma ten_add n m : ten (n + m) = (ten n * ten m)%Z.
Proof. unfold ten. rewrite Nat2Z.inj_add, Z.pow_add_r by lia. reflexivity. Qed.

Lemma ten_le n m : (n <= m)%nat -> (ten n <= ten m)%Z.
Proof. intros H. unfold ten. apply Z.pow_le_mono_r; lia. Qed.

Lemma zq_ten_neq n : zq (ten n) <> 0%Qc.
Proof. intros H. apply (zq_inj _ 0) in H. pose proof (ten_pos n). lia. Qed.

Lemma this_decimal k n : (this (decimal k n) == k # Z.to_pos (ten n))%Q.
Proof. unfold decimal. cbn [this Q2Qc]. apply Qred_correct. Qed.

Lemma decimal_zq k n : decimal k n = (zq k / zq (ten n))%Qc.
Proof.
  apply Qc_is_canon. rewrite this_decimal. to_Q.
  pose proof (ten_pos n) as P.
  unfold Qeq, Qmult, Qinv, inject_Z. cbn [Qnum Qden].
  destruct (ten n) as [|p|p] eqn:E; try lia. cbn. lia.
Qed.

Lemma floor_decimal k n : Qfloor (this (decimal k n)) = (k / ten n)%Z.
Proof.
  rewrite (Qfloor_comp _ _ (this_decimal k n)). unfold Qfloor.
  rewrite Z2Pos.id by apply ten_pos. reflexivity.
Qed.

Lemma decimal_lt a n b m :
  (decimal a n < decimal b m)%Qc <-> (a * ten m < b * ten n)%Z.
Proof.
  unfold Qclt. rewrite !this_decimal. unfold Qlt. cbn [Qnum Qden].
  rewrite !Z2Pos.id by apply ten_pos. reflexivity.
Qed.

Lemma decimal_0 n : decimal 0 n = 0%Qc.
Proof.
  rewrite decimal_zq. change (zq 0) with 0%Qc. field. apply zq_ten_neq.
Qed.

Lemma decimal_whole z n : decimal (z * ten n) n = zq z.
Proof. rewrite decimal_zq, zq_mul. field. apply zq_ten_neq. Qed.

Lemma decimal_split k n :
  decimal k n = (zq (k / ten n) + decimal (k mod ten n) n)%Qc.
Proof.
  pose proof (ten_pos n) as P.
  rewrite (Z.div_mod k (ten n)) at 1 by lia.
  rewrite !decimal_zq, zq_add, zq_mul. field. apply zq_ten_neq.
Qed.

Lemma floor_half m : Qfloor (this (zq m) + (1 # 2))%Q = m.
Proof.
  unfold zq. cbn [this Q2Qc].
  rewrite (Qfloor_comp _ (inject_Z m + (1 # 2))%Q) by (rewrite Qred_correct; reflexivity).
  unfold Qfloor, Qplus, inject_Z. cbn [Qnum Qden].
  replace (m * 2 + 1 * 1)%Z with (1 + m * 2)%Z by lia.
  rewrite Z.div_add by lia. reflexivity.
Qed.

(** A number with at most [n] decimals. *)
Definition grid (n : nat) (v : rat) : Prop := exists k, v = Rat (decimal k n).

(** A number with at most [n] decimals and an absolute value below 10^21,
    from where on a number is written in exponent notation. *)
Definition plainNumber (n : nat) (v : rat) : Prop :=
  exists k, v = Rat (decimal k n) /\ (Z.abs k < ten (21 + n))%Z.

Lemma plainNumber_grid n v : plainNumber n v -> grid n v.
Proof. intros (k & -> & _). exists k. reflexivity. Qed.

Lemma roundDecimal_grid n k :
  (n <= 6)%nat -> roundDecimal (Rat (decimal k n)) (Some n) = Rat (decimal k n).
Proof.
  intros Hn. pose proof (ten_pos n) as P.
  unfold roundDecimal, floor. rewrite floor_decimal. fold (zq (k / ten n)).
  cbn [sub add rat_Number lift2 of_Z].
  assert (D : (decimal k n - zq (k / ten n))%Qc = decimal (k mod ten n) n).
  { rewrite (decimal_split k n) at 1. ring. }
  unfold zq in D |- *. rewrite D. fold (zq (k / ten n)).
  assert (S : shiftLeft (Rat (decimal (k mod ten n) n)) n = Rat (zq (k mod ten n))).
  { unfold shiftLeft.
    destruct (Qc_ltb (Q2Qc 0) (decimal (k mod ten n) n) && Qc_ltb (decimal (k mod ten n) n) (decimal 1 6)) eqn:B.
    - exfalso. apply andb_true_iff in B as [B1 B2].
      apply Qc_ltb_lt in B1, B2. change (Q2Qc 0) with 0%Qc in B1.
      rewrite <- (decimal_0 n) in B1. apply decimal_lt in B1, B2.
      pose proof (ten_le n 6 Hn) as L6. pose proof (ten_pos 6) as P6.
      assert (M1 : (1 <= k mod ten n)%Z) by nia.
      assert (M2 : (ten 6 <= k mod ten n * ten 6)%Z) by nia.
      lia.
    - cbn [mul rat_Number lift2 ten_to of_Z]. f_equal. fold (zq (10 ^ Z.of_nat n)). fold (ten n).
      rewrite decimal_zq. field. apply zq_ten_neq. }
  rewrite S. unfold round. rewrite floor_half. unfold shiftRight, ten_to.
  cbn [div rat_Number qdiv of_Z]. fold (ten n). fold (zq (ten n)). fold (zq (k mod ten n)).
  change (Q2Qc 0) with 0%Qc.
  destruct (Qc_eqb (zq (ten n)) 0%Qc) eqn:E.
  { apply Qc_eqb_eq in E. apply zq_ten_neq in E. contradiction. }
  cbn [add rat_Number lift2]. f_equal.
  rewrite (decimal_split k n), (decimal_zq (k mod ten n)). reflexivity.
Qed.

(** *** Decimal digits *)

Definition digitStep (acc : Z) (c : ascii) : Z := (10 * acc + digitValue c)%Z.

Lemma digitsValue_from (ds : list ascii) (acc : Z) :
  fold_left digitStep ds acc = (acc * ten (List.length ds) + digitsValue ds)%Z.
Proof.
  unfold digitsValue. fold digitStep. revert acc.
  induction ds as [|c ds IH]; intros acc; simpl.
  - unfold ten. simpl. lia.
  - rewrite IH, (IH (digitStep 0 c)). unfold digitStep.
    change (ten (S (List.length ds))) with (ten (S (List.length ds))).
    rewrite ten_S. lia.
Qed.

Lemma digitsValue_app (a b : list ascii) :
  digitsValue (a ++ b) = (digitsValue a * ten (List.length b) + digitsValue b)%Z.
Proof.
  unfold digitsValue at 1. fold digitStep. rewrite fold_left_app.
  fold (digitsValue a). unfold digitsValue at 1. fold digitStep.
  apply digitsValue_from.
Qed.

Lemma digitValue_digit d : (0 <= d < 10)%Z -> digitValue (digit d) = d.
Proof.
  intros H. unfold digitValue, digit.
  rewrite nat_ascii_embedding by lia. lia.
Qed.

Lemma isDigit_digit d : (0 <= d < 10)%Z -> isDigit (digit d) = true.
Proof.
  intros H. unfold isDigit, digit. rewrite nat_ascii_embedding by lia.
  apply andb_true_iff. split; apply Nat.leb_le; lia.
Qed.

Lemma digits_fuel_spec fuel : forall n,
  (0 <= n < 2 ^ Z.of_nat fuel)%Z -> (0 < fuel)%nat ->
  digitsValue (digits_fuel fuel n) = n
  /\ Forall (fun c => isDigit c = true) (digits_fuel fuel n)
  /\ digits_fuel fuel n <> [].
Proof.
  induction fuel as [|fuel IH]; intros n Hn Hf.
  - lia.
  - cbn [digits_fuel]. destruct (Z.ltb_spec n 10) as [L|L].
    + split; [|split].
      * unfold digitsValue. simpl. rewrite digitValue_digit by lia. lia.
      * constructor; [apply isDigit_digit; lia | constructor].
      * discriminate.
    + assert (Hq : (0 <= n / 10 < 2 ^ Z.of_nat fuel)%Z).
      { rewrite Nat2Z.inj_succ, Z.pow_succ_r in Hn by lia.
        split; [apply Z.div_pos; lia|].
        apply Z.div_lt_upper_bound; lia. }
      assert (Hf' : (0 < fuel)%nat).
      { destruct fuel; [|lia]. simpl in Hq.
        assert (1 <= n / 10)%Z by (apply Z.div_le_lower_bound; lia). lia. }
      destruct (IH _ Hq Hf') as (V & D & N).
      pose proof (Z.mod_pos_bound n 10 ltac:(lia)) as M.
      split; [|split].
      * rewrite digitsValue_app, V. unfold digitsValue. simpl.
        rewrite digitValue_digit by lia. change (ten 1) with 10%Z.
        pose proof (Z.div_mod n 10 ltac:(lia)). lia.
      * apply Forall_app. split; [exact D|].
        constructor; [apply isDigit_digit; lia | constructor].
      * intros E. apply app_eq_nil in E as [_ E]. discriminate.
Qed.

Lemma digits_spec n :
  (0 <= n)%Z ->
  digitsValue (digits n) = n
  /\ Forall (fun c => isDigit c = true) (digits n)
  /\ digits n <> [].
Proof.
  intros Hn. apply digits_fuel_spec; [|lia]. split; [exact Hn|].
  rewrite Nat2Z.inj_succ, Z2Nat.id by apply Z.log2_nonneg.
  destruct (Z.eq_dec n 0) as [->|Hz]; [reflexivity|].
  apply Z.log2_spec. lia.
Qed.

Lemma digitsValue_zeros j (l : list ascii) :
  digitsValue (repeat "0"%char j ++ l) = digitsValue l.
Proof.
  rewrite digitsValue_app.
  assert (Z0 : digitsValue (repeat "0"%char j) = 0%Z).
  { induction j as [|j IH]; [reflexivity|].
    change (repeat "0"%char (S j)) with (["0"%char] ++ repeat "0"%char j).
    rewrite digitsValue_app, IH. reflexivity. }
  rewrite Z0. lia.
Qed.

Lemma digitsValue_nonneg (l : list ascii) : (0 <= digitsValue l)%Z.
Proof.
  induction l as [|c l IH] using rev_ind; [unfold digitsValue; simpl; lia|].
  rewrite digitsValue_app. unfold digitsValue at 2. simpl. unfold digitValue.
  change (ten 1) with 10%Z. lia.
Qed.

(** [takeDigits] stops at the first character that is no digit. *)
Lemma takeDigits_run (ds rest : list ascii) :
  Forall (fun c => isDigit c = true) ds ->
  match rest with [] => True | c :: _ => isDigit c = false end ->
  takeDigits (ds ++ rest) = (ds, rest).
Proof.
  intros D R. induction D as [|c ds Hc _ IH]; simpl.
  - destruct rest as [|c rest]; [reflexivity|]. simpl. rewrite R. reflexivity.
  - rewrite Hc, IH. reflexivity.
Qed.

(** *** Printing and reading a number *)

Lemma decimal_inj a b n : decimal a n = decimal b n -> a = b.
Proof.
  intros E. pose proof (ten_pos n) as P.
  assert (L1 : ~ (decimal a n < decimal b n)%Qc)
    by (intros L; apply Qclt_not_eq in L; congruence).
  assert (L2 : ~ (decimal b n < decimal a n)%Qc)
    by (intros L; apply Qclt_not_eq in L; congruence).
  rewrite decimal_lt in L1, L2. nia.
Qed.

Lemma decimal_add a b n : (decimal a n + decimal b n)%Qc = decimal (a + b) n.
Proof. rewrite !decimal_zq, zq_add. field. apply zq_ten_neq. Qed.

Lemma decimal_opp a n : (- decimal a n)%Qc = decimal (- a) n.
Proof. rewrite !decimal_zq, zq_opp. field. apply zq_ten_neq. Qed.

Lemma decimal_sub a b n : (decimal a n - decimal b n)%Qc = decimal (a - b) n.
Proof. rewrite !decimal_zq, zq_sub. field. apply zq_ten_neq. Qed.

Lemma decimal_neg a n : Qc_ltb (decimal a n) (Q2Qc 0) = (a <? 0)%Z.
Proof.
  change (Q2Qc 0) with 0%Qc. rewrite <- (decimal_0 n).
  destruct (Z.ltb_spec a 0) as [L|L].
  - apply Qc_ltb_lt, decimal_lt. pose proof (ten_pos n). nia.
  - destruct (Qc_ltb (decimal a n) (decimal 0 n)) eqn:E; [|reflexivity].
    apply Qc_ltb_lt, decimal_lt in E. pose proof (ten_pos n). nia.
Qed.

(** The characters of a number as [toPathData] writes it: a sign when it
    is negative, digits, and possibly a point and more digits. *)
Definition numeral (negative : bool) (whole fraction : list ascii) : list ascii :=
  (if negative then ["-"%char] else []) ++ whole ++ fraction.

Definition digitRun (ds : list ascii) : Prop := Forall (fun c => isDigit c = true) ds.

Definition fractionPart (fraction : list ascii) : Prop :=
  fraction = [] \/ exists ds, fraction = "."%char :: ds /\ digitRun ds.

Lemma digitRun_head (ds rest : list ascii) c :
  digitRun ds -> ds <> [] -> isDigit c = false -> forall tl, ds ++ rest <> c :: tl.
Proof.
  intros D N Hc tl E. destruct ds as [|d ds]; [congruence|].
  apply Forall_cons in D as [Hd _]. injection E as -> _. congruence.
Qed.

Lemma unsigned_text (s : list ascii) :
  (forall tl, s <> "-"%char :: tl) ->
  match s with "-"%char :: r => (true, r) | _ => (false, s) end = (false, s).
Proof.
  destruct s as [|c tl]; [reflexivity|]. intros H.
  destruct (Ascii.eqb_spec c "-") as [->|Hc]; [exfalso; exact (H tl eq_refl)|].
  destruct c as [[] [] [] [] [] [] [] []]; try reflexivity; congruence.
Qed.

Lemma takeDigits_all ds : digitRun ds -> takeDigits ds = (ds, []).
Proof.
  intros D. rewrite <- (app_nil_r ds) at 1. apply (takeDigits_run ds [] D I).
Qed.

Lemma parseFloat_numeral negative whole ds :
  digitRun whole -> whole <> [] -> digitRun ds ->
  parseFloat (numeral negative whole ("."%char :: ds)) =
  Rat (let v := (zq (digitsValue whole) + decimal (digitsValue ds) (List.length ds))%Qc in
       if negative then (- v)%Qc else v).
Proof.
  intros W N D. unfold parseFloat, numeral.
  destruct negative; cbn [app].
  - rewrite (takeDigits_run whole ("."%char :: ds) W) by reflexivity.
    cbn zeta. rewrite (takeDigits_all ds D). cbn [fst].
    destruct whole; [congruence|]. reflexivity.
  - rewrite unsigned_text by (apply digitRun_head; [assumption..|reflexivity]).
    rewrite (takeDigits_run whole ("."%char :: ds) W) by reflexivity.
    cbn zeta. rewrite (takeDigits_all ds D). cbn [fst].
    destruct whole; [congruence|]. reflexivity.
Qed.

Lemma parseFloat_whole negative whole :
  digitRun whole -> whole <> [] ->
  parseFloat (numeral negative whole []) =
  Rat (if negative then (- zq (digitsValue whole))%Qc else zq (digitsValue whole)).
Proof.
  intros W N. unfold parseFloat, numeral. rewrite app_nil_r.
  assert (Z0 : forall q, (q + decimal 0 0)%Qc = q).
  { intros q. rewrite decimal_0. ring. }
  destruct negative; cbn [app].
  - rewrite (takeDigits_all whole W). cbn zeta.
    destruct whole; [congruence|]. cbn [List.length]. 
    change (digitsValue []) with 0%Z. rewrite Z0. reflexivity.
  - rewrite unsigned_text.
    2:{ intros tl. rewrite <- (app_nil_r whole). apply digitRun_head; [assumption..|reflexivity]. }
    rewrite (takeDigits_all whole W). cbn zeta.
    destruct whole; [congruence|]. cbn [List.length].
    change (digitsValue []) with 0%Z. rewrite Z0. reflexivity.
Qed.

(** What [floatToString] writes for the grid number [k / 10^n]: a numeral
    that [parseFloat] reads back as the same number. *)
Definition written (n : nat) (k : Z) (s : list ascii) : Prop :=
  exists whole fraction,
    s = numeral (k <? 0)%Z whole fraction
    /\ digitRun whole /\ whole <> [] /\ fractionPart fraction
    /\ parseFloat s = Rat (decimal k n).

Lemma round_zq m : round (Rat (zq m)) = Rat (zq m).
Proof. unfold round. rewrite floor_half. reflexivity. Qed.

Lemma decimal_abs k n :
  (if (k <? 0)%Z then (- decimal k n)%Qc else decimal k n) = decimal (Z.abs k) n.
Proof.
  destruct (Z.ltb_spec k 0) as [L|L].
  - rewrite decimal_opp. f_equal. lia.
  - f_equal. lia.
Qed.

Lemma scaled_decimal k n :
  Qfloor (this (decimal k n) * inject_Z (10 ^ Z.of_nat n) + (1 # 2))%Q = k.
Proof.
  fold (ten n). pose proof (ten_pos n) as P.
  assert (E : (this (decimal k n) * inject_Z (ten n) + (1 # 2) == inject_Z k + (1 # 2))%Q).
  { rewrite this_decimal. apply Qplus_comp; [|reflexivity].
    unfold Qeq, Qmult, inject_Z. cbn [Qnum Qden].
    rewrite Pos.mul_1_r, Z2Pos.id by exact P. lia. }
  rewrite (Qfloor_comp _ _ E).
  unfold Qfloor, Qplus, inject_Z. cbn [Qnum Qden].
  replace (k * 2 + 1 * 1)%Z with (1 + k * 2)%Z by lia.
  rewrite Z.div_add by lia. reflexivity.
Qed.

Lemma whole_and_fraction a b n :
  (zq a + decimal b n)%Qc = decimal (a * ten n + b) n.
Proof. rewrite <- decimal_add, decimal_whole. reflexivity. Qed.

Lemma signed_abs k n :
  (if (k <? 0)%Z then (- decimal (Z.abs k) n)%Qc else decimal (Z.abs k) n) = decimal k n.
Proof.
  destruct (Z.ltb_spec k 0) as [L|L].
  - rewrite decimal_opp. f_equal. lia.
  - f_equal. lia.
Qed.

Lemma floatToString_grid n k :
  (n <= 6)%nat -> (Z.abs k < ten (21 + n))%Z ->
  written n k (floatToString (Some n) (Rat (decimal k n))).
Proof.
  intros Hn Hk. pose proof (ten_pos n) as P.
  rewrite ten_add in Hk. change (ten 21) with (10 ^ 21)%Z in Hk.
  unfold floatToString. rewrite (roundDecimal_grid n k Hn).
  destruct (round (Rat (decimal k n)) =? Rat (decimal k n))%js eqn:R.
  - (* an integer *)
    unfold round in R. cbn [eqb rat_Number qeqb of_Z] in R.
    apply Qc_eqb_eq in R. fold (zq (Qfloor (this (decimal k n) + (1 # 2))%Q)) in R.
    set (m := Qfloor (this (decimal k n) + (1 # 2))%Q) in R.
    rewrite <- R, floor_zq.
    assert (K : k = (m * ten n)%Z).
    { apply (decimal_inj _ _ n). rewrite decimal_whole. symmetry. exact R. }
    assert (S : (k <? 0)%Z = (m <? 0)%Z).
    { rewrite K. destruct (Z.ltb_spec m 0), (Z.ltb_spec (m * ten n) 0); try reflexivity; nia. }
    destruct (digits_spec (Z.abs m) (Z.abs_nonneg m)) as (V & D & N).
    exists (digits (Z.abs m)), []. rewrite S.
    assert (T : integerToString m = numeral (m <? 0)%Z (digits (Z.abs m)) []).
    { assert (B : (Z.abs m < 10 ^ 21)%Z) by nia.
      unfold integerToString, naturalToString, numeral. rewrite app_nil_r.
      destruct (Z.ltb_spec m 0) as [L|L]; cbn [app].
      - rewrite Z.abs_neq in * by lia.
        destruct (Z.ltb_spec (- m) (10 ^ 21)); [reflexivity | lia].
      - rewrite Z.abs_eq in * by lia.
        destruct (Z.ltb_spec m (10 ^ 21)); [reflexivity | lia]. }
    rewrite T. split; [reflexivity|]. split; [exact D|]. split; [exact N|].
    split; [left; reflexivity|].
    rewrite (parseFloat_whole _ _ D N), V. f_equal.
    rewrite <- !zq_opp, <- R.
    destruct (Z.ltb_spec m 0); f_equal; lia.
  - (* a fraction *)
    destruct n as [|n'].
    { exfalso. rewrite <- (Z.mul_1_r k) in R. change 1%Z with (ten 0) in R.
      rewrite decimal_whole, round_zq in R.
      cbn [eqb rat_Number qeqb] in R.
      assert (Qc_eqb (zq k) (zq k) = true) by (apply Qc_eqb_eq; reflexivity).
      congruence. }
    set (n := S n') in *.
    unfold toFixed, assigned. rewrite decimal_neg, decimal_abs, scaled_decimal.
    assert (B : Qc_leb (Q2Qc (inject_Z (10 ^ 21))) (decimal (Z.abs k) n) = false).
    { rewrite Qc_leb_ltb. apply negb_false_iff, Qc_ltb_lt.
      fold (zq (10 ^ 21)). rewrite <- (decimal_whole (10 ^ 21) n).
      apply decimal_lt. nia. }
    rewrite B.
    destruct (digits_spec (Z.abs k) (Z.abs_nonneg k)) as (V & D & N).
    set (m := repeat "0"%char (S n - List.length (digits (Z.abs k))) ++ digits (Z.abs k)).
    assert (Dm : digitRun m).
    { apply Forall_app. split; [|exact D].
      apply List.Forall_forall. intros c Hc. apply repeat_spec in Hc. subst c. reflexivity. }
    assert (Vm : digitsValue m = Z.abs k) by (unfold m; rewrite digitsValue_zeros; exact V).
    assert (Lm : (S n <= List.length m)%nat).
    { unfold m. rewrite length_app, repeat_length. lia. }
    set (j := (List.length m - n)%nat).
    assert (Em : m = firstn j m ++ skipn j m) by (symmetry; apply firstn_skipn).
    assert (Lw : List.length (firstn j m) = j) by (rewrite length_firstn; lia).
    assert (Ls : List.length (skipn j m) = n) by (rewrite length_skipn; lia).
    assert (Dw : digitRun (firstn j m)).
    { unfold digitRun. rewrite Em in Dm. apply Forall_app in Dm. tauto. }
    assert (Ds : digitRun (skipn j m)).
    { unfold digitRun. rewrite Em in Dm. apply Forall_app in Dm. tauto. }
    assert (Nw : firstn j m <> []).
    { intros E. rewrite E in Lw. simpl in Lw. lia. }
    exists (firstn j m), ("."%char :: skipn j m).
    assert (T : (if (k <? 0)%Z
                 then "-"%char :: firstn j m ++ "."%char :: skipn j m
                 else firstn j m ++ "."%char :: skipn j m)
                = numeral (k <? 0)%Z (firstn j m) ("."%char :: skipn j m)).
    { unfold numeral. destruct (k <? 0)%Z; reflexivity. }
    subst n. cbn match. fold m. fold j. rewrite T.
    split; [reflexivity|]. split; [exact Dw|]. split; [exact Nw|].
    split; [right; exists (skipn j m); split; [reflexivity | exact Ds]|].
    rewrite (parseFloat_numeral _ _ _ Dw Nw Ds). cbn zeta. f_equal.
    pose proof (digitsValue_app (firstn j m) (skipn j m)) as A.
    rewrite <- Em, Ls, Vm in A.
    rewrite Ls, whole_and_fraction, <- A.
    apply signed_abs.
Qed.

(** *** The tokenizer on a numeral *)

(** A numeral: an optional sign, digits, and possibly a point and digits. *)
Definition isNumeral (negative : bool) (s : list ascii) : Prop :=
  exists whole fraction,
    s = numeral negative whole fraction
    /\ digitRun whole /\ whole <> [] /\ fractionPart fraction.

Lemma written_isNumeral n k s : written n k s -> isNumeral (k <? 0)%Z s.
Proof.
  intros (whole & fraction & E & D & N & F & _). exists whole, fraction. tauto.
Qed.

Lemma isNumeral_nonempty negative s : isNumeral negative s -> s <> [].
Proof.
  intros (whole & fraction & -> & D & N & F). unfold numeral.
  destruct negative; [discriminate|]. cbn [app].
  destruct whole; [congruence | discriminate].
Qed.

Lemma indexOf_absent c (l : list ascii) :
  Forall (fun d => Ascii.eqb d c = false) l -> indexOf c l = None.
Proof.
  induction 1 as [|d l Hd _ IH]; [reflexivity|].
  cbn [indexOf]. rewrite Hd, IH. reflexivity.
Qed.

Lemma digit_is_no_mark c d :
  isDigit c = true -> isDigit d = false -> Ascii.eqb c d = false.
Proof.
  intros Hc Hd. destruct (Ascii.eqb_spec c d) as [->|]; congruence.
Qed.

Lemma digitRun_no_mark ds d :
  digitRun ds -> isDigit d = false -> Forall (fun c => Ascii.eqb c d = false) ds.
Proof.
  intros D Hd. eapply Forall_impl; [exact D|].
  intros c Hc. cbn beta in Hc. apply digit_is_no_mark; assumption.
Qed.

(** No minus sign after the first character of a numeral. *)
Lemma indexOf_minus negative s :
  isNumeral negative s ->
  match indexOf "-" s with Some (S _) => False | _ => True end.
Proof.
  intros (whole & fraction & -> & D & N & F). unfold numeral.
  destruct negative; cbn [app indexOf]; [exact I|].
  rewrite indexOf_absent; [exact I|].
  apply Forall_app. split; [apply digitRun_no_mark; [exact D | reflexivity]|].
  destruct F as [->|(ds & -> & Ds)]; [constructor|].
  constructor; [reflexivity|]. apply digitRun_no_mark; [exact Ds | reflexivity].
Qed.

Section Tokens.
Variable places : option nat.

Lemma tokenize_digits ds : digitRun ds -> forall i c bufs lastb ps,
  tokenize places ds i (mkTokenizer c bufs lastb ps) =
  Ok (mkTokenizer c bufs (lastb ++ ds) ps).
Proof.
  induction 1 as [|d ds Hd _ IH]; intros i c bufs lastb ps.
  - rewrite app_nil_r. reflexivity.
  - cbn [tokenize]. unfold tokenStep. rewrite Hd.
    cbn [commandType buffers lastBuffer parsed]. rewrite IH, <- app_assoc. reflexivity.
Qed.

(** The digits and the fraction of a numeral, read after its sign. *)
Lemma tokenize_unsigned whole fraction i c bufs lastb ps :
  digitRun whole -> fractionPart fraction ->
  indexOf "." lastb = None ->
  tokenize places (whole ++ fraction) i (mkTokenizer (Some c) bufs lastb ps) =
  Ok (mkTokenizer (Some c) bufs (lastb ++ whole ++ fraction) ps).
Proof.
  intros D F P. rewrite ParserFacts.tokenize_app, (tokenize_digits whole D).
  destruct F as [->|(ds & -> & Ds)].
  - rewrite app_nil_r. reflexivity.
  - cbn [tokenize]. unfold tokenStep.
    cbn [commandType buffers lastBuffer parsed isDigit isSign isCommand isSeparator].
    assert (Q : indexOf "." (lastb ++ whole) = None).
    { clear -P D. induction lastb as [|d l IH]; cbn [app].
      - apply indexOf_absent, digitRun_no_mark; [exact D | reflexivity].
      - cbn [indexOf] in P |- *. destruct (Ascii.eqb d "."); [discriminate|].
        destruct (indexOf "." l); [discriminate|]. rewrite IH; reflexivity. }
    change (isDigit ".") with false. cbv iota.
    change (isSign ".") with false. change (isCommand ".") with false.
    change (isSeparator ".") with false. cbv iota.
    change (Ascii.eqb "." ".") with true. cbv iota. rewrite Q.
    rewrite (tokenize_digits ds Ds), <- !app_assoc. reflexivity.
Qed.

(** The first number after a command letter. *)
Lemma tokenize_first negative s i c bufs ps :
  isNumeral negative s ->
  tokenize places s i (mkTokenizer (Some c) bufs [] ps) =
  Ok (mkTokenizer (Some c) bufs s ps).
Proof.
  intros (whole & fraction & -> & D & N & F). unfold numeral.
  destruct negative; cbn [app].
  - cbn [tokenize]. unfold tokenStep at 1.
    cbn [commandType buffers lastBuffer parsed].
    change (isDigit "-") with false. change (isSign "-") with true.
    change (Ascii.eqb "-" "-") with true. cbv iota. cbn [indexOf List.length Nat.eqb negb].
    apply (tokenize_unsigned whole fraction _ c bufs ["-"%char] ps D F). reflexivity.
  - apply (tokenize_unsigned whole fraction _ c bufs [] ps D F). reflexivity.
Qed.

(** A number after another one: a space stands between them unless the
    second one starts with a minus sign. *)
Lemma tokenize_next negative s negative' lastb i c bufs ps :
  isNumeral negative s -> isNumeral negative' lastb ->
  tokenize places ((if negative then [] else [" "%char]) ++ s) i
    (mkTokenizer (Some c) bufs lastb ps) =
  Ok (mkTokenizer (Some c) (bufs ++ [lastb]) s ps).
Proof.
  intros Hs Hl. pose proof (indexOf_minus _ _ Hl) as M.
  pose proof (isNumeral_nonempty _ _ Hl) as NE.
  destruct negative; cbn [app].
  - destruct Hs as (whole & fraction & -> & D & N & F). unfold numeral. cbn [app].
    cbn [tokenize]. unfold tokenStep at 1.
    cbn [commandType buffers lastBuffer parsed].
    change (isDigit "-") with false. change (isSign "-") with true.
    change (Ascii.eqb "-" "-") with true. cbv iota.
    assert (L : negb (Nat.eqb (List.length lastb) 0) = true)
      by (destruct lastb; [congruence | reflexivity]).
    rewrite L.
    destruct (indexOf "-" lastb) as [[|j]|]; try contradiction;
      apply (tokenize_unsigned whole fraction _ c (bufs ++ [lastb]) ["-"%char] ps D F);
      reflexivity.
  - cbn [tokenize]. unfold tokenStep at 1.
    cbn [commandType buffers lastBuffer parsed].
    change (isDigit " ") with false. change (isSign " ") with false.
    change (isCommand " ") with false. change (isSeparator " ") with true. cbv iota.
    apply (tokenize_first false s _ c (bufs ++ [lastb]) ps Hs).
Qed.

End Tokens.

(** *** The numbers of one command *)

Lemma geb_grid k n : (Rat (decimal k n) >=? lit 0)%js = negb (k <? 0)%Z.
Proof.
  unfold geb. cbn [leb rat_Number qleb lit of_Z].
  rewrite Qc_leb_ltb. f_equal. apply decimal_neg.
Qed.

Lemma filter_nonempty (l : list (list ascii)) :
  Forall (fun s => s <> []) l ->
  filter (fun s => negb (Nat.eqb (List.length s) 0)) l = l.
Proof.
  induction 1 as [|s l Hs _ IH]; [reflexivity|].
  rewrite filter_cons_True by (destruct s; [congruence | exact I]).
  rewrite IH. reflexivity.
Qed.

Section Numbers.
Variable n : nat.
Hypothesis Hn : (n <= 6)%nat.
Variable places : option nat.

Lemma parseBuffer_written (vs : list rat) :
  Forall (plainNumber n) vs ->
  parseBuffer (Some n) (map (floatToString (Some n)) vs) = vs.
Proof.
  intros G. unfold parseBuffer. rewrite filter_nonempty.
  - rewrite map_map. induction G as [|v vs (k & -> & Hk) _ IH]; [reflexivity|].
    cbn [map]. rewrite IH. f_equal.
    destruct (floatToString_grid n k Hn Hk) as (whole & fraction & _ & _ & _ & _ & ->).
    apply roundDecimal_grid, Hn.
  - apply Forall_map. eapply Forall_impl; [exact G|].
    intros v (k & -> & Hk). cbn beta.
    eapply isNumeral_nonempty, written_isNumeral, (floatToString_grid n k Hn Hk).
Qed.

Lemma tokenize_rest (vs : list rat) :
  Forall (plainNumber n) vs -> forall i c bufs lastb negative ps,
  isNumeral negative lastb ->
  exists bufs' last' negative',
    tokenize places (packFrom (Some n) false vs) i (mkTokenizer (Some c) bufs lastb ps)
    = Ok (mkTokenizer (Some c) bufs' last' ps)
    /\ bufs' ++ [last'] = bufs ++ [lastb] ++ map (floatToString (Some n)) vs
    /\ isNumeral negative' last'.
Proof.
  induction 1 as [|v vs (k & -> & Hk) _ IH]; intros i c bufs lastb negative ps L.
  - exists bufs, lastb, negative. split; [reflexivity|]. split; [reflexivity | exact L].
  - cbn [packFrom negb]. rewrite geb_grid, andb_true_r.
    pose proof (written_isNumeral _ _ _ (floatToString_grid n k Hn Hk)) as W.
    rewrite app_assoc, ParserFacts.tokenize_app.
    replace (if negb (k <? 0)%Z then [" "%char] else [])
      with (if (k <? 0)%Z then [] else [" "%char]) by (destruct (k <? 0)%Z; reflexivity).
    rewrite (tokenize_next places _ _ _ _ i c bufs ps W L).
    destruct (IH (i + List.length ((if (k <? 0)%Z then [] else [" "%char])
                     ++ floatToString (Some n) (Rat (decimal k n))))%nat
                 c (bufs ++ [lastb]) _ _ ps W)
      as (bufs' & last' & negative' & E & B & N).
    exists bufs', last', negative'. split; [exact E|]. split; [|exact N].
    rewrite B. cbn [map app]. rewrite <- !app_assoc. reflexivity.
Qed.

(** The text of the numbers of a command, read after the command letter:
    [parseBuffer] finds the numbers that were written. *)
Lemma tokenize_packValues (vs : list rat) i c ps :
  Forall (plainNumber n) vs ->
  exists bufs' last',
    tokenize places (packValues (Some n) vs) i (mkTokenizer (Some c) [] [] ps)
    = Ok (mkTokenizer (Some c) bufs' last' ps)
    /\ parseBuffer (Some n) (bufs' ++ [last']) = vs.
Proof.
  intros G. destruct G as [|v vs (k & -> & Hk) G].
  - exists [], []. split; reflexivity.
  - unfold packValues. cbn [packFrom negb]. rewrite andb_false_r. cbn [app].
    pose proof (written_isNumeral _ _ _ (floatToString_grid n k Hn Hk)) as W.
    rewrite ParserFacts.tokenize_app, (tokenize_first places _ _ i c [] ps W).
    destruct (tokenize_rest vs G (i + List.length (floatToString (Some n) (Rat (decimal k n))))%nat
                c [] _ _ ps W) as (bufs' & last' & negative' & E & B & _).
    exists bufs', last'. split; [exact E|].
    rewrite B. cbn [app].
    apply (parseBuffer_written (Rat (decimal k n) :: vs)).
    constructor; [exists k; split; [reflexivity | exact Hk] | exact G].
Qed.

End Numbers.

(** *** One command *)

(** The letter of a command, and its numbers in the order in which
    [toPathData] writes them. *)
Definition letter (c : Command) : ascii :=
  match c with
  | MoveTo _ _ => "M" | LineTo _ _ => "L" | QuadTo _ _ _ _ => "Q"
  | CurveTo _ _ _ _ _ _ => "C" | Close => "Z"
  end.

Definition coordinates (c : Command) : list rat :=
  match c with
  | MoveTo x y | LineTo x y => [x; y]
  | QuadTo x1 y1 x y => [x1; y1; x; y]
  | CurveTo x1 y1 x2 y2 x y => [x1; y1; x2; y2; x; y]
  | Close => []
  end.

(** The command mirrored in the line [y = base / 2]. *)
Definition flipCommand (base : rat) (c : Command) : Command :=
  let fl v := (base - v)%js in
  match c with
  | MoveTo x y => MoveTo x (fl y)
  | LineTo x y => LineTo x (fl y)
  | QuadTo x1 y1 x y => QuadTo x1 (fl y1) x (fl y)
  | CurveTo x1 y1 x2 y2 x y => CurveTo x1 (fl y1) x2 (fl y2) x (fl y)
  | Close => Close
  end.

(** Every coordinate of the command has at most [n] decimals. *)
Definition onGrid (n : nat) (c : Command) : Prop := Forall (grid n) (coordinates c).

(** Every coordinate of the command is written with its digits. *)
Definition writable (n : nat) (c : Command) : Prop :=
  Forall (plainNumber n) (coordinates c).

Lemma writable_onGrid n c : writable n c -> onGrid n c.
Proof.
  intros W. eapply Forall_impl; [exact W|]. intros v. apply plainNumber_grid.
Qed.

(** No close command follows a close command. *)
Fixpoint closesOnce (cs : list Command) : bool :=
  match cs with
  | Close :: Close :: _ => false
  | _ :: rest => closesOnce rest
  | [] => true
  end.

Lemma commandData_flipped o base c :
  out_flipY o = true ->
  commandData o base c =
  letter c :: packValues (out_decimalPlaces o) (coordinates (flipCommand base c)).
Proof. intros F. unfold commandData. rewrite F. destruct c; reflexivity. Qed.

Lemma grid_sub n a b : grid n a -> grid n b -> grid n (a - b)%js.
Proof.
  intros [k ->] [j ->]. exists (k - j)%Z.
  cbn [sub rat_Number lift2]. rewrite decimal_sub. reflexivity.
Qed.

Lemma onGrid_flip n base c : grid n base -> onGrid n c -> onGrid n (flipCommand base c).
Proof.
  intros B G. unfold onGrid in *.
  destruct c; cbn [coordinates flipCommand] in *;
    repeat match goal with
      | H : Forall _ (_ :: _) |- _ => apply Forall_cons in H as [? H]
      end;
    repeat (constructor; try assumption; try (apply grid_sub; assumption)).
Qed.

Lemma zero_add n v : grid n v -> (lit 0 + v)%js = v.
Proof.
  intros [k ->]. cbn [add rat_Number lift2 lit of_Z]. f_equal.
  change (Q2Qc (inject_Z 0)) with 0%Qc. ring.
Qed.

Lemma closesOnce_snoc cs c :
  closesOnce (cs ++ [c]) = true ->
  closesOnce cs = true /\ (c = Close -> last cs <> Some Close).
Proof.
  induction cs as [|a cs IH]; cbn [app].
  - intros _. split; [reflexivity | discriminate].
  - destruct cs as [|a' cs].
    + cbn [app closesOnce]. destruct a, c; cbn; intros H; split;
        try reflexivity; try discriminate; try exact H; congruence.
    + intros H.
      assert (H' : closesOnce ((a' :: cs) ++ [c]) = true
                   /\ closesOnce (a :: a' :: cs) = closesOnce (a' :: cs)).
      { destruct a; cbn [closesOnce app] in H |- *; try (split; [exact H | reflexivity]).
        destruct a'; cbn [closesOnce app] in H |- *;
          try (split; [exact H | reflexivity]). discriminate. }
      destruct H' as [H1 H2]. rewrite H2.
      destruct (IH H1) as [I1 I2]. split; [exact I1|].
      intros E. specialize (I2 E). rewrite last_cons.
      destruct (last (a' :: cs)) eqn:L; [exact I2|].
      apply last_None in L. discriminate.
Qed.

Lemma last_map {A B} (f : A -> B) (l : list A) :
  last (map f l) = option_map f (last l).
Proof.
  induction l as [|a l _] using rev_ind; [reflexivity|].
  rewrite map_app. cbn [map]. rewrite !last_snoc. reflexivity.
Qed.

Section OneCommand.
Variable n : nat.
Hypothesis Hn : (n <= 6)%nat.

Lemma applyCommand_shape t ty :
  commandType t = Some ty ->
  exists ps, applyCommand (Some n) t = mkTokenizer (Some ty) [] [] ps.
Proof.
  intros E. unfold applyCommand. rewrite E.
  repeat match goal with
    | |- context [if ?b then _ else _] => destruct b
    end; eexists; reflexivity.
Qed.

(** What [applyCommand] appends when the buffer holds the numbers of [c]. *)
Lemma applyCommand_written c bufs lastb ps :
  onGrid n c ->
  parseBuffer (Some n) (bufs ++ [lastb]) = coordinates c ->
  (c = Close -> last ps <> Some Close) ->
  applyCommand (Some n) (mkTokenizer (Some (letter c)) bufs lastb ps) =
  mkTokenizer (Some (letter c)) [] [] (ps ++ [c]).
Proof.
  intros G B Z. unfold applyCommand. cbn [commandType buffers lastBuffer parsed].
  rewrite B. unfold onGrid in G.
  destruct c; cbn [coordinates letter] in *;
    repeat match goal with
      | H : Forall _ (_ :: _) |- _ => apply Forall_cons in H as [? H]
      end.
  - cbv -[add lit app last]. rewrite !(zero_add n) by assumption. reflexivity.
  - cbv -[add lit app last]. rewrite !(zero_add n) by assumption. reflexivity.
  - cbv -[add lit app last]. rewrite !(zero_add n) by assumption. reflexivity.
  - cbv -[add lit app last]. rewrite !(zero_add n) by assumption. reflexivity.
  - cbn -[add lit last]. specialize (Z eq_refl).
    destruct ps as [|p ps]; [reflexivity|]. cbn [List.length Nat.eqb orb].
    destruct (last (p :: ps)) as [[]|]; try reflexivity. congruence.
Qed.

(** The command letter closes the command before it. *)
Lemma tokenStep_letter c t ps :
  applyCommand (Some n) t = mkTokenizer (commandType t) [] [] ps ->
  tokenStep (Some n) t (letter c) = Some (mkTokenizer (Some (letter c)) [] [] ps).
Proof.
  intros A. unfold tokenStep.
  assert (L : isDigit (letter c) = false /\ isSign (letter c) = false
              /\ isCommand (letter c) = true) by (destruct c; repeat split).
  destruct L as (-> & -> & ->). cbv iota.
  destruct (commandType t) as [ty|] eqn:E.
  - rewrite A. reflexivity.
  - unfold applyCommand in A. rewrite E in A. rewrite A. reflexivity.
Qed.

Variable base : rat.
Variable o : OutputOptions.
Hypothesis Hflip : out_flipY o = true.
Hypothesis Hplaces : out_decimalPlaces o = Some n.

(** The text of a path, read from the start: the tokenizer ends in a state
    from which [applyCommand] yields the mirrored commands. *)
Lemma tokenize_commands (cs : list Command) :
  Forall (fun c => writable n (flipCommand base c)) cs -> closesOnce cs = true ->
  exists t,
    tokenize (Some n) (flat_map (commandData o base) cs) 0 (mkTokenizer None [] [] [])
    = Ok t
    /\ applyCommand (Some n) t
       = mkTokenizer (commandType t) [] [] (map (flipCommand base) cs).
Proof.
  induction cs as [|c cs IH] using rev_ind; intros G Z.
  - eexists. split; reflexivity.
  - apply Forall_app in G as [G Gc]. apply Forall_cons in Gc as [Gc _].
    apply closesOnce_snoc in Z as [Z Zc].
    destruct (IH G Z) as (t & E & A).
    rewrite flat_map_app. cbn [flat_map]. rewrite app_nil_r.
    rewrite ParserFacts.tokenize_app, E.
    rewrite (commandData_flipped _ _ _ Hflip), Hplaces.
    cbn [tokenize]. rewrite (tokenStep_letter c t _ A).
    pose proof Gc as Gf. cbn beta in Gf.
    destruct (tokenize_packValues n Hn (Some n) (coordinates (flipCommand base c))
                (S (0 + List.length (flat_map (commandData o base) cs)))
                (letter c) (map (flipCommand base) cs) Gf)
      as (bufs' & last' & T & B).
    rewrite T. eexists. split; [reflexivity|].
    cbn [commandType].
    replace (letter c) with (letter (flipCommand base c)) by (destruct c; reflexivity).
    rewrite (applyCommand_written (flipCommand base c) bufs' last' _
               (writable_onGrid _ _ Gf) B).
    + rewrite map_app. reflexivity.
    + intros F. assert (C : c = Close) by (destruct c; try discriminate; reflexivity).
      specialize (Zc C). intros L. apply Zc.
      rewrite last_map in L. destruct (last cs) as [[]|]; try discriminate. reflexivity.
Qed.

End OneCommand.

(** *** optimizeCommands on the mirrored path *)

(** The path is empty or starts with a move. *)
Definition movesFirst (cs : list Command) : bool :=
  match cs with
  | [] | MoveTo _ _ :: _ => true
  | _ => false
  end.

(** Linear arithmetic on rationals in lowest terms, by way of [Q]. *)
Ltac qc_lra :=
  unfold Qclt, Qcle, Qcminus, Qcplus, Qcopp, Qcmult in *;
  cbn [this Q2Qc] in *;
  rewrite ?Qred_correct in *;
  Lqa.lra.

Lemma Qc_order (a b : Qc) : (a < b)%Qc \/ a = b \/ (b < a)%Qc.
Proof.
  destruct (Qccompare a b) eqn:E.
  - right. left. apply Qceq_alt. exact E.
  - left. apply Qclt_alt. exact E.
  - right. right. apply Qcgt_alt in E. exact E.
Qed.

Lemma Qc_ltb_flip b u v : Qc_ltb (b - u)%Qc (b - v)%Qc = Qc_ltb v u.
Proof.
  destruct (Qc_ltb v u) eqn:E.
  - apply Qc_ltb_lt in E. apply Qc_ltb_lt. qc_lra.
  - destruct (Qc_ltb (b - u)%Qc (b - v)%Qc) eqn:F; [|reflexivity].
    apply Qc_ltb_lt in F.
    assert (L : (v < u)%Qc) by qc_lra.
    apply Qc_ltb_lt in L. congruence.
Qed.

Lemma Qc_eqb_flip b u v : Qc_eqb (b - u)%Qc (b - v)%Qc = Qc_eqb u v.
Proof.
  destruct (Qc_eqb u v) eqn:E.
  - apply Qc_eqb_eq in E. subst v. apply Qc_eqb_eq. reflexivity.
  - destruct (Qc_eqb (b - u)%Qc (b - v)%Qc) eqn:F; [|reflexivity].
    apply Qc_eqb_eq in F.
    assert (L : u = v).
    { replace u with (b - (b - u))%Qc by ring. rewrite F. ring. }
    apply Qc_eqb_eq in L. congruence.
Qed.

Lemma qabs_opp d : qabs (Rat (- d)%Qc) = qabs (Rat d).
Proof.
  unfold qabs. change (Q2Qc 0) with 0%Qc.
  destruct (Qc_ltb (- d)%Qc 0%Qc) eqn:A, (Qc_ltb d 0%Qc) eqn:B.
  - apply Qc_ltb_lt in A, B. exfalso. qc_lra.
  - f_equal. ring.
  - reflexivity.
  - f_equal. destruct (Qc_order d 0%Qc) as [L|[->|L]].
    + apply Qc_ltb_lt in L. congruence.
    + reflexivity.
    + assert (L' : (- d < 0)%Qc) by qc_lra.
      apply Qc_ltb_lt in L'. congruence.
Qed.

Section Mirror.
Variable b : Qc.
Abbreviation base := (Rat b).
Local Open Scope js_scope.

Lemma eqb_flip u v : ((base - u) =? (base - v)) = (u =? v).
Proof.
  destruct u as [|u], v as [|v]; try reflexivity.
  cbn [sub eqb rat_Number lift2 qeqb]. apply Qc_eqb_flip.
Qed.

Lemma abs_flip u v : abs ((base - u) - (base - v)) = abs (u - v).
Proof.
  destruct u as [|u], v as [|v]; try reflexivity.
  cbn [sub abs rat_Number lift2]. rewrite <- (qabs_opp (u - v)).
  f_equal. f_equal. ring.
Qed.

Definition flipField (v : option rat) : option rat := option_map (fun v => base - v) v.

Lemma cmd_x_flip c : cmd_x (flipCommand base c) = cmd_x c.
Proof. destruct c; reflexivity. Qed.

Lemma cmd_y_flip c : cmd_y (flipCommand base c) = flipField (cmd_y c).
Proof. destruct c; reflexivity. Qed.

Lemma field_eqb_flip u v : field_eqb (flipField u) (flipField v) = field_eqb u v.
Proof.
  destruct u as [u|], v as [v|]; try reflexivity. cbn. apply eqb_flip.
Qed.

Definition flipSubpaths (s : Subpaths) : Subpaths :=
  mkSubpaths (map (map (flipCommand base)) (finished s))
             (map (flipCommand base) (subpath s))
             (sx s) (base - sy s).

Lemma lookup_map {A B} (f : A -> B) (l : list A) i :
  map f l !! i = option_map f (l !! i).
Proof.
  revert i. induction l as [|a l IH]; intros [|i]; try reflexivity. apply IH.
Qed.

Lemma retype_M_flip c : retype_M (flipCommand base c) = flipCommand base (retype_M c).
Proof. destruct c; reflexivity. Qed.

Lemma optimizeStep_flip s cmd next :
  optimizeStep (flipSubpaths s) (flipCommand base cmd) (option_map (flipCommand base) next)
  = flipSubpaths (optimizeStep s cmd next).
Proof.
  assert (N : nothingFollows (option_map (flipCommand base) next) = nothingFollows next)
    by (destruct next; reflexivity).
  destruct cmd as [x y | x y | x1 y1 x y | x1 y1 x2 y2 x y |];
    cbn [flipCommand]; unfold optimizeStep;
    cbn [flipSubpaths finished subpath sx sy].
  - unfold flipSubpaths. cbn [finished subpath sx sy]. rewrite map_app. reflexivity.
  - rewrite N, abs_flip, last_map.
    destruct (nothingFollows next).
    + destruct (negb _); unfold flipSubpaths; cbn [finished subpath sx sy];
        rewrite ?map_app; reflexivity.
    + assert (P : match option_map (flipCommand base) (last (subpath s)) with
                  | Some p => field_eqb (cmd_x p) (Some x) && field_eqb (cmd_y p) (Some (base - y))
                  | None => false
                  end
                  = match last (subpath s) with
                    | Some p => field_eqb (cmd_x p) (Some x) && field_eqb (cmd_y p) (Some y)
                    | None => false
                    end).
      { destruct (last (subpath s)) as [p|]; [|reflexivity]. cbn [option_map].
        rewrite cmd_x_flip, cmd_y_flip.
        change (Some (base - y)) with (flipField (Some y)).
        rewrite field_eqb_flip. reflexivity. }
      rewrite P. destruct (match last (subpath s) with Some _ => _ | None => _ end);
        unfold flipSubpaths; cbn [finished subpath sx sy]; rewrite ?map_app; reflexivity.
  - unfold flipSubpaths. cbn [finished subpath sx sy]. rewrite map_app. reflexivity.
  - unfold flipSubpaths. cbn [finished subpath sx sy]. rewrite map_app. reflexivity.
  - rewrite !lookup_map, last_map.
    set (closed := match subpath s !! 0%nat, subpath s !! 1%nat, last (subpath s) with
                   | Some f, Some _, Some p =>
                       if is_M (subpath s !! 0%nat) && is_L (subpath s !! 1%nat)
                          && is_L (last (subpath s))
                          && field_eqb (cmd_x p) (cmd_x f) && field_eqb (cmd_y p) (cmd_y f)
                       then match tail (subpath s ++ [Close]) with
                            | c :: rest => retype_M c :: rest
                            | [] => []
                            end
                       else subpath s ++ [Close]
                   | _, _, _ => subpath s ++ [Close]
                   end).
    assert (C : match option_map (flipCommand base) (subpath s !! 0%nat),
                      option_map (flipCommand base) (subpath s !! 1%nat),
                      option_map (flipCommand base) (last (subpath s)) with
                | Some f, Some _, Some p =>
                    if is_M (option_map (flipCommand base) (subpath s !! 0%nat))
                       && is_L (option_map (flipCommand base) (subpath s !! 1%nat))
                       && is_L (option_map (flipCommand base) (last (subpath s)))
                       && field_eqb (cmd_x p) (cmd_x f) && field_eqb (cmd_y p) (cmd_y f)
                    then match tail (map (flipCommand base) (subpath s) ++ [Close]) with
                         | c :: rest => retype_M c :: rest
                         | [] => []
                         end
                    else map (flipCommand base) (subpath s) ++ [Close]
                | _, _, _ => map (flipCommand base) (subpath s) ++ [Close]
                end = map (flipCommand base) closed).
    { change [Close] with (map (flipCommand base) [@Close rat]).
      rewrite <- map_app. subst closed.
      set (pushed := subpath s ++ [Close]).
      destruct (subpath s !! 0%nat) as [f|]; [|reflexivity].
      destruct (subpath s !! 1%nat) as [g|]; [|reflexivity].
      destruct (last (subpath s)) as [p|]; [|reflexivity].
      cbn [option_map].
      rewrite !cmd_x_flip, !cmd_y_flip, field_eqb_flip.
      replace (is_M (Some (flipCommand base f))) with (is_M (Some f)) by (destruct f; reflexivity).
      replace (is_L (Some (flipCommand base g))) with (is_L (Some g)) by (destruct g; reflexivity).
      replace (is_L (Some (flipCommand base p))) with (is_L (Some p)) by (destruct p; reflexivity).
      destruct (_ && _); [|reflexivity].
      destruct pushed as [|c0 [|c1 rest]]; try reflexivity.
      cbn [map tail]. rewrite retype_M_flip. reflexivity. }
    rewrite C.
    destruct next; unfold flipSubpaths; cbn [option_map finished subpath sx sy];
      rewrite ?map_app; reflexivity.
Qed.

Lemma optimizeLoop_flip cs : forall s,
  optimizeLoop (map (flipCommand base) cs) (flipSubpaths s)
  = flipSubpaths (optimizeLoop cs s).
Proof.
  induction cs as [|c cs IH]; intros s; [reflexivity|].
  cbn [map optimizeLoop]. rewrite <- IH. f_equal.
  replace (head (map (flipCommand base) cs)) with (option_map (flipCommand base) (head cs))
    by (destruct cs; reflexivity).
  apply optimizeStep_flip.
Qed.

(** [optimizeCommands] drops the same commands from a path that starts
    with a move and from its mirror image. *)
Lemma optimizeCommands_flip cs :
  movesFirst cs = true ->
  optimizeCommands (map (flipCommand base) cs)
  = map (flipCommand base) (optimizeCommands cs).
Proof.
  intros M. destruct cs as [|c cs]; [reflexivity|].
  destruct c as [x y | | | |]; try discriminate.
  unfold optimizeCommands. cbn [map optimizeLoop flipCommand].
  set (s0 := mkSubpaths [] [] (lit 0) (lit 0)).
  assert (E : optimizeStep s0 (MoveTo x (base - y)) (head (map (flipCommand base) cs))
              = flipSubpaths (optimizeStep s0 (MoveTo x y) (head cs))) by reflexivity.
  rewrite E, optimizeLoop_flip.
  cbn [flipSubpaths finished subpath]. cbv zeta.
  set (s := optimizeLoop cs _).
  rewrite concat_map, map_app. reflexivity.
Qed.

End Mirror.

(** *** The bounding box of the mirrored path *)

Lemma Qc_ltb_irrefl q : Qc_ltb q q = false.
Proof.
  destruct (Qc_ltb q q) eqn:E; [|reflexivity].
  apply Qc_ltb_lt in E. exfalso. qc_lra.
Qed.

(** The integer literals of [addBezier] as sums of ones, for [ring]. *)
Lemma literal_3 : Q2Qc (inject_Z 3) = (1 + 1 + 1)%Qc.
Proof. apply Qc_is_canon. reflexivity. Qed.

Lemma literal_minus_3 : Q2Qc (inject_Z (-3)) = (- (1 + 1 + 1))%Qc.
Proof. apply Qc_is_canon. reflexivity. Qed.

Lemma literal_6 : Q2Qc (inject_Z 6) = ((1 + 1) * (1 + 1 + 1))%Qc.
Proof. apply Qc_is_canon. reflexivity. Qed.

Lemma literal_9 : Q2Qc (inject_Z 9) = ((1 + 1 + 1) * (1 + 1 + 1))%Qc.
Proof. apply Qc_is_canon. reflexivity. Qed.

Lemma literal_12 : Q2Qc (inject_Z 12) = ((1 + 1) * (1 + 1) * (1 + 1 + 1))%Qc.
Proof. apply Qc_is_canon. reflexivity. Qed.

(** Write the literals of the goal as such sums. *)
Ltac literals :=
  rewrite ?literal_3, ?literal_minus_3, ?literal_6, ?literal_9, ?literal_12;
  change (Q2Qc (inject_Z 1)) with 1%Qc.

Lemma Qc_ltb_ge u v : Qc_ltb u v = false -> (v <= u)%Qc.
Proof.
  intros E. apply Qc_leb_le. rewrite Qc_leb_ltb, E. reflexivity.
Qed.

(** Decide the comparisons of the goal, innermost first, and close it by
    the order of the rationals. *)
Ltac order_cases :=
  repeat match goal with
    | |- context [Qc_ltb ?u ?v] =>
        lazymatch u with
        | context [if _ then _ else _] => fail
        | _ => lazymatch v with
               | context [if _ then _ else _] => fail
               | _ => destruct (Qc_ltb u v) eqn:?
               end
        end
    end;
  repeat match goal with
    | H : Qc_ltb _ _ = true |- _ => apply Qc_ltb_lt in H
    | H : Qc_ltb _ _ = false |- _ => apply Qc_ltb_ge in H
    end;
  try reflexivity; try (exfalso; qc_lra); try (apply Qcle_antisym; qc_lra).

Section MirrorBox.
Variable b : Qc.
Abbreviation base := (Rat b).
Local Open Scope js_scope.

(** The box mirrored in the line [y = base / 2]: its lower end is the
    mirror image of the upper end. *)
Definition flipBox (bx : BoundingBox rat) : BoundingBox rat :=
  mkBox (x1 bx) (base - y2 bx) (x2 bx) (base - y1 bx).

(** The state of the loop of [getBoundingBox] on the mirrored path. *)
Definition flipCursor (s : Cursor) : Cursor :=
  mkCursor (flipBox (box s)) (startX s) (base - startY s) (prevX s) (base - prevY s).

Local Arguments Qcminus : simpl never.
Local Arguments Qcplus : simpl never.
Local Arguments Qc_ltb : simpl never.

Lemma widenX_flip x bx : widenX x (flipBox bx) = flipBox (widenX x bx).
Proof.
  destruct bx as [a1 c1 a2 c2]. unfold widenX, flipBox, set_x1, set_x2, gtb.
  cbn [BBox.x1 BBox.x2 BBox.y1 BBox.y2].
  destruct (isNaN a1 || isNaN a2); cbn [BBox.x1 BBox.x2 BBox.y1 BBox.y2].
  - destruct (x <? x); cbn [BBox.x1 BBox.x2 BBox.y1 BBox.y2];
      destruct (x <? x); reflexivity.
  - destruct (x <? a1); cbn [BBox.x1 BBox.x2 BBox.y1 BBox.y2];
      destruct (a2 <? x); reflexivity.
Qed.

Lemma widenY_flip y bx :
  widenY (base - Rat y) (flipBox bx) = flipBox (widenY (Rat y) bx).
Proof.
  destruct bx as [a1 c1 a2 c2]. unfold widenY, flipBox, set_y1, set_y2, gtb.
  destruct c1 as [|c1], c2 as [|c2]; simpl;
    rewrite ?Qc_ltb_irrefl; simpl; rewrite ?Qc_ltb_irrefl; try reflexivity.
  rewrite !Qc_ltb_flip.
  destruct (Qc_ltb c2 y) eqn:U; simpl; rewrite ?Qc_ltb_flip;
    destruct (Qc_ltb y c1) eqn:L; simpl; rewrite ?Qc_ltb_flip, ?U, ?L; reflexivity.
Qed.

Lemma addPoint_flip x y bx :
  addPoint (Some x) (Some (base - Rat y)) (flipBox bx)
  = flipBox (addPoint (Some x) (Some (Rat y)) bx).
Proof.
  unfold addPoint. rewrite widenX_flip. apply widenY_flip.
Qed.

(** The parameters at which a pass of [addBezier] adds a point, in the
    order in which it adds them, from the coefficients [a], [b], [c] of the
    derivative. *)
Definition inside (t : rat) : list rat :=
  if (lit 0 <? t) && (t <? lit 1) then [t] else [].

Definition rootsOf (a b c : rat) : list rat :=
  if a =? lit 0 then
    if b =? lit 0 then []
    else inside (- c / b)
  else
    let b2ac := pow b 2 - lit 4 * a * c in
    if b2ac <? lit 0 then []
    else inside ((- b + sqrt b2ac) / (lit 2 * a))
         ++ inside ((- b - sqrt b2ac) / (lit 2 * a)).

Definition extrema (v0 v1 v2 v3 : rat) : list rat :=
  rootsOf (lit (-3) * v0 + lit 9 * v1 - lit 9 * v2 + lit 3 * v3)
          (lit 6 * v0 - lit 12 * v1 + lit 6 * v2)
          (lit 3 * v1 - lit 3 * v0).

Lemma bezierPass_extrema addV v0 v1 v2 v3 bx :
  bezierPass addV v0 v1 v2 v3 bx
  = fold_left (fun bx t => addV (derive v0 v1 v2 v3 t) bx) (extrema v0 v1 v2 v3) bx.
Proof.
  unfold bezierPass, extrema, rootsOf, inside. cbv zeta.
  repeat match goal with
    | |- context [if ?c then _ else _] =>
        lazymatch c with
        | context [if _ then _ else _] => fail
        | _ => destruct c eqn:?
        end
    end; reflexivity.
Qed.

Lemma inside_number t : inside t = [] \/ exists q, t = Rat q /\ inside t = [Rat q].
Proof.
  unfold inside. destruct ((lit 0 <? t) && (t <? lit 1)) eqn:E; [|left; reflexivity].
  right. destruct t as [|q]; [discriminate|]. exists q. split; reflexivity.
Qed.

Lemma Qc_eqb_opp a : Qc_eqb (- a)%Qc (Q2Qc 0) = Qc_eqb a (Q2Qc 0).
Proof.
  change (Q2Qc 0) with 0%Qc.
  destruct (Qc_eqb a 0%Qc) eqn:E.
  - apply Qc_eqb_eq in E. subst a. reflexivity.
  - destruct (Qc_eqb (- a)%Qc 0%Qc) eqn:F; [|reflexivity].
    apply Qc_eqb_eq in F. assert (L : a = 0%Qc).
    { replace a with (- - a)%Qc by ring. rewrite F. ring. }
    apply Qc_eqb_eq in L. congruence.
Qed.

Lemma qdiv_opp x y : qdiv (- x) (- y) = qdiv x y.
Proof.
  destruct x as [|x], y as [|y]; try reflexivity.
  cbn [neg rat_Number lift1 qdiv]. rewrite Qc_eqb_opp.
  destruct (Qc_eqb y (Q2Qc 0)) eqn:E; [reflexivity|]. f_equal.
  assert (N : y <> 0%Qc).
  { intros ->. change (Q2Qc 0) with 0%Qc in E.
    assert (T : Qc_eqb 0%Qc 0%Qc = true) by (apply Qc_eqb_eq; reflexivity). congruence. }
  field. split; [exact N|].
  intros F. apply N. replace y with (- - y)%Qc by ring. rewrite F. ring.
Qed.

Lemma rootsOf_flip p q r :
  rootsOf (- Rat p) (- Rat q) (- Rat r) = rev (rootsOf (Rat p) (Rat q) (Rat r)).
Proof.
  unfold rootsOf.
  assert (Ea : (- Rat p =? lit 0) = (Rat p =? lit 0)) by apply Qc_eqb_opp.
  assert (Eb : (- Rat q =? lit 0) = (Rat q =? lit 0)) by apply Qc_eqb_opp.
  rewrite Ea, Eb.
  assert (I : forall t, rev (inside t) = inside t).
  { intros t. unfold inside. destruct (_ && _); reflexivity. }
  destruct (Rat p =? lit 0).
  - destruct (Rat q =? lit 0); [reflexivity|].
    change (div (- - Rat r) (- Rat q)) with (qdiv (- (- Rat r)) (- Rat q)).
    rewrite qdiv_opp, I. reflexivity.
  - cbv zeta.
    assert (D : pow (- Rat q) 2 - lit 4 * - Rat p * - Rat r
                = pow (Rat q) 2 - lit 4 * Rat p * Rat r).
    { cbn [pow neg sub mul rat_Number lift1 lift2 lit of_Z]. f_equal. ring. }
    rewrite D.
    destruct (pow (Rat q) 2 - lit 4 * Rat p * Rat r <? lit 0); [reflexivity|].
    set (s := sqrt (pow (Rat q) 2 - lit 4 * Rat p * Rat r)).
    assert (T1 : (- - Rat q + s) / (lit 2 * - Rat p) = (- Rat q - s) / (lit 2 * Rat p)).
    { change ((- - Rat q + s) / (lit 2 * - Rat p)) with (qdiv (- - Rat q + s) (lit 2 * - Rat p)).
      replace (- - Rat q + s) with (- (- Rat q - s)).
      2:{ destruct s as [|s]; [reflexivity|].
          cbn [neg add sub rat_Number lift1 lift2]. f_equal. ring. }
      replace (lit 2 * - Rat p) with (- (lit 2 * Rat p)).
      2:{ cbn [neg mul rat_Number lift1 lift2 lit of_Z]. f_equal. ring. }
      apply qdiv_opp. }
    assert (T2 : (- - Rat q - s) / (lit 2 * - Rat p) = (- Rat q + s) / (lit 2 * Rat p)).
    { change ((- - Rat q - s) / (lit 2 * - Rat p)) with (qdiv (- - Rat q - s) (lit 2 * - Rat p)).
      replace (- - Rat q - s) with (- (- Rat q + s)).
      2:{ destruct s as [|s]; [reflexivity|].
          cbn [neg add sub rat_Number lift1 lift2]. f_equal. ring. }
      replace (lit 2 * - Rat p) with (- (lit 2 * Rat p)).
      2:{ cbn [neg mul rat_Number lift1 lift2 lit of_Z]. f_equal. ring. }
      apply qdiv_opp. }
    rewrite T1, T2, rev_app_distr, !I. reflexivity.
Qed.

Lemma extrema_flip v0 v1 v2 v3 :
  extrema (base - Rat v0) (base - Rat v1) (base - Rat v2) (base - Rat v3)
  = rev (extrema (Rat v0) (Rat v1) (Rat v2) (Rat v3)).
Proof.
  unfold extrema.
  cbn [neg add sub mul rat_Number lift1 lift2 lit of_Z].
  rewrite <- rootsOf_flip.
  cbn [neg rat_Number lift1].
  f_equal; f_equal; literals; ring.
Qed.

Lemma derive_flip v0 v1 v2 v3 t :
  derive (base - Rat v0) (base - Rat v1) (base - Rat v2) (base - Rat v3) (Rat t)
  = base - derive (Rat v0) (Rat v1) (Rat v2) (Rat v3) (Rat t).
Proof.
  unfold derive.
  cbn [pow neg add sub mul rat_Number lift1 lift2 lit of_Z].
  f_equal. literals. ring.
Qed.

(** A box whose y fields hold numbers. *)
Definition rangedY (bx : BoundingBox rat) : Prop :=
  exists lo hi, y1 bx = Rat lo /\ y2 bx = Rat hi.

Lemma widenY_ranged y bx : rangedY (widenY (Rat y) bx).
Proof.
  destruct bx as [a1 c1 a2 c2]. unfold widenY, rangedY, set_y1, set_y2, gtb.
  destruct c1 as [|c1], c2 as [|c2]; simpl; rewrite ?Qc_ltb_irrefl; simpl;
    rewrite ?Qc_ltb_irrefl; simpl; eauto.
  destruct (Qc_ltb y c1); simpl; destruct (Qc_ltb c2 y); simpl; eauto.
Qed.

Lemma widenX_ranged x bx : rangedY bx -> rangedY (widenX x bx).
Proof.
  unfold rangedY. destruct (BoxFacts.widenX_frame x bx) as [-> ->]. tauto.
Qed.

Lemma lower_comm u w lo :
  (if Qc_ltb u (if Qc_ltb w lo then w else lo) then u else if Qc_ltb w lo then w else lo)
  = (if Qc_ltb w (if Qc_ltb u lo then u else lo) then w else if Qc_ltb u lo then u else lo).
Proof. order_cases. Qed.

Lemma upper_comm u w hi :
  (if Qc_ltb (if Qc_ltb hi w then w else hi) u then u else if Qc_ltb hi w then w else hi)
  = (if Qc_ltb (if Qc_ltb hi u then u else hi) w then w else if Qc_ltb hi u then u else hi).
Proof. order_cases. Qed.

Lemma widenY_number y a1 lo a2 hi :
  widenY (Rat y) (mkBox a1 (Rat lo) a2 (Rat hi))
  = mkBox a1 (Rat (if Qc_ltb y lo then y else lo)) a2 (Rat (if Qc_ltb hi y then y else hi)).
Proof.
  unfold widenY, set_y1, set_y2, gtb. simpl.
  destruct (Qc_ltb y lo); simpl; destruct (Qc_ltb hi y); reflexivity.
Qed.

Lemma widenY_comm u w bx :
  rangedY bx ->
  widenY (Rat u) (widenY (Rat w) bx) = widenY (Rat w) (widenY (Rat u) bx).
Proof.
  destruct bx as [a1 c1 a2 c2]. intros (lo & hi & E1 & E2). simpl in E1, E2. subst c1 c2.
  rewrite !widenY_number, lower_comm, upper_comm. reflexivity.
Qed.

Lemma widenY_keeps_ranged y bx : rangedY bx -> rangedY (widenY y bx).
Proof.
  destruct y as [|y]; [|intros _; apply widenY_ranged].
  destruct bx as [a1 c1 a2 c2]. intros (lo & hi & E1 & E2). simpl in E1, E2. subst c1 c2.
  exists lo, hi. split; reflexivity.
Qed.

Lemma addX_flip d bx : addX d (flipBox bx) = flipBox (addX d bx).
Proof. apply widenX_flip. Qed.

Lemma addY_flip d bx : addY (base - Rat d) (flipBox bx) = flipBox (addY (Rat d) bx).
Proof. apply widenY_flip. Qed.

Lemma passX_flip v0 v1 v2 v3 bx :
  bezierPass addX v0 v1 v2 v3 (flipBox bx) = flipBox (bezierPass addX v0 v1 v2 v3 bx).
Proof.
  rewrite !bezierPass_extrema. revert bx.
  induction (extrema v0 v1 v2 v3) as [|t ts IH]; intros bx; [reflexivity|].
  cbn [fold_left]. rewrite addX_flip. apply IH.
Qed.

Lemma passX_ranged v0 v1 v2 v3 bx :
  rangedY bx -> rangedY (bezierPass addX v0 v1 v2 v3 bx).
Proof.
  apply (BoxFacts.bezierPass_shape addX rangedY).
  intros t bx' R. apply widenX_ranged. exact R.
Qed.

Lemma passY_ranged v0 v1 v2 v3 bx :
  rangedY bx -> rangedY (bezierPass addY v0 v1 v2 v3 bx).
Proof.
  apply (BoxFacts.bezierPass_shape addY rangedY).
  intros t bx' R. apply widenY_keeps_ranged. exact R.
Qed.

Lemma extrema_shape v0 v1 v2 v3 :
  extrema v0 v1 v2 v3 = []
  \/ (exists t, extrema v0 v1 v2 v3 = [Rat t])
  \/ (exists t u, extrema v0 v1 v2 v3 = [Rat t; Rat u]).
Proof.
  unfold extrema, rootsOf. cbv zeta.
  destruct (_ =? _).
  - destruct (_ =? _); [left; reflexivity|].
    destruct (inside_number (- (lit 3 * v1 - lit 3 * v0) / (lit 6 * v0 - lit 12 * v1 + lit 6 * v2)))
      as [->|(t & _ & ->)]; [left; reflexivity | right; left; eauto].
  - destruct (_ <? _); [left; reflexivity|].
    match goal with
    | |- context [inside ?t1 ++ inside ?t2] =>
        destruct (inside_number t1) as [->|(t & _ & ->)],
                 (inside_number t2) as [->|(u & _ & ->)]
    end; cbn [app]; eauto.
Qed.

Lemma derive_number v0 v1 v2 v3 t :
  exists d, derive (Rat v0) (Rat v1) (Rat v2) (Rat v3) (Rat t) = Rat d.
Proof. eexists. reflexivity. Qed.

Lemma passY_flip v0 v1 v2 v3 bx :
  rangedY bx ->
  bezierPass addY (base - Rat v0) (base - Rat v1) (base - Rat v2) (base - Rat v3) (flipBox bx)
  = flipBox (bezierPass addY (Rat v0) (Rat v1) (Rat v2) (Rat v3) bx).
Proof.
  intros R. rewrite !bezierPass_extrema, extrema_flip.
  destruct (extrema_shape (Rat v0) (Rat v1) (Rat v2) (Rat v3))
    as [->|[(t & ->)|(t & u & ->)]]; cbn [rev app fold_left].
  - reflexivity.
  - rewrite derive_flip. destruct (derive_number v0 v1 v2 v3 t) as [d ->].
    apply addY_flip.
  - rewrite !derive_flip.
    destruct (derive_number v0 v1 v2 v3 t) as [d ->].
    destruct (derive_number v0 v1 v2 v3 u) as [e ->].
    rewrite !addY_flip. f_equal. apply widenY_comm. exact R.
Qed.

Lemma addBezier_flip x0 y0 cx1 cy1 cx2 cy2 x y bx :
  addBezier x0 (base - Rat y0) cx1 (base - Rat cy1) cx2 (base - Rat cy2) x (base - Rat y)
    (flipBox bx)
  = flipBox (addBezier x0 (Rat y0) cx1 (Rat cy1) cx2 (Rat cy2) x (Rat y) bx).
Proof.
  unfold addBezier. cbv zeta. rewrite !addPoint_flip, !passX_flip.
  assert (R : rangedY (bezierPass addX x0 cx1 cx2 x
                (bezierPass addX x0 cx1 cx2 x
                   (addPoint (Some x) (Some (Rat y))
                      (addPoint (Some x0) (Some (Rat y0)) bx))))).
  { do 2 apply passX_ranged. apply widenY_ranged. }
  rewrite (passY_flip _ _ _ _ _ R).
  rewrite (passY_flip _ _ _ _ _ (passY_ranged _ _ _ _ _ R)). reflexivity.
Qed.

Lemma addQuad_flip x0 y0 qx1 qy1 x y bx :
  addQuad x0 (base - Rat y0) qx1 (base - Rat qy1) x (base - Rat y) (flipBox bx)
  = flipBox (addQuad x0 (Rat y0) qx1 (Rat qy1) x (Rat y) bx).
Proof.
  unfold addQuad. cbv zeta.
  assert (T2 : exists k, lit 2 / lit 3 = Rat k) by (eexists; reflexivity).
  assert (T1 : exists k, lit 1 / lit 3 = Rat k) by (eexists; reflexivity).
  destruct T2 as [k2 ->], T1 as [k1 ->].
  cbn [add sub mul rat_Number lift2].
  replace (b - y0 + k2 * (b - qy1 - (b - y0)))%Qc
    with (b - (y0 + k2 * (qy1 - y0)))%Qc by ring.
  replace (b - (y0 + k2 * (qy1 - y0)) + k1 * (b - y - (b - y0)))%Qc
    with (b - (y0 + k2 * (qy1 - y0) + k1 * (y - y0)))%Qc by ring.
  apply (addBezier_flip x0 y0 _ _ _ _ x y bx).
Qed.

End MirrorBox.

Section MirrorPath.
Variable n : nat.
Variable b : Qc.
Abbreviation base := (Rat b).
Local Open Scope js_scope.

(** The y coordinates that the loop of [getBoundingBox] carries along are
    numbers. *)
Definition tracked (s : Cursor) : Prop :=
  (exists u, startY s = Rat u) /\ (exists v, prevY s = Rat v).

Ltac grid_numbers :=
  repeat match goal with
    | H : Forall _ (_ :: _) |- _ => apply Forall_cons in H as [? H]
    | H : grid _ ?v |- _ => destruct H as [? ->]
    end.

Lemma boundingStep_tracked s c :
  onGrid n c -> tracked s -> tracked (boundingStep s c).
Proof.
  intros G (S & P). unfold onGrid in G.
  destruct c; cbn [coordinates boundingStep] in *; grid_numbers;
    unfold tracked; cbn [startY prevY]; eauto.
Qed.

Lemma boundingStep_flip s c :
  onGrid n c -> tracked s ->
  boundingStep (flipCursor b s) (flipCommand base c) = flipCursor b (boundingStep s c).
Proof.
  intros G ([u S] & [v P]). unfold onGrid in G.
  destruct s as [bx sX sY pX pY]. cbn [startY prevY] in S, P. subst sY pY.
  destruct c; cbn [coordinates] in G; grid_numbers;
    cbn [flipCommand boundingStep flipCursor box startX startY prevX prevY].
  - rewrite addPoint_flip. reflexivity.
  - rewrite addPoint_flip. reflexivity.
  - rewrite addQuad_flip. reflexivity.
  - rewrite addBezier_flip. reflexivity.
  - reflexivity.
Qed.

Lemma fold_boundingStep_flip cs : forall s,
  Forall (onGrid n) cs -> tracked s ->
  fold_left boundingStep (map (flipCommand base) cs) (flipCursor b s)
  = flipCursor b (fold_left boundingStep cs s).
Proof.
  induction cs as [|c cs IH]; intros s G T; [reflexivity|].
  apply Forall_cons in G as [Gc G]. cbn [map fold_left].
  rewrite (boundingStep_flip s c Gc T).
  apply IH; [exact G | apply boundingStep_tracked; assumption].
Qed.

Lemma boundingStep_full s c :
  isEmpty (box s) = false -> isEmpty (box (boundingStep s c)) = false.
Proof.
  intros E. apply BoxFacts.nonEmpty_shape in E.
  destruct c as [u v | u v | u1 v1 u v | u1 v1 u2 v2 u v |]; cbn [boundingStep box].
  - apply (BoxFacts.addPoint_shape (Some u) (Some v)) in E.
    apply BoxFacts.shape_isEmpty in E. exact E.
  - apply (BoxFacts.addPoint_shape (Some u) (Some v)) in E.
    apply BoxFacts.shape_isEmpty in E. exact E.
  - unfold addQuad. cbv zeta.
    match goal with
    | |- isEmpty (addBezier ?x0 ?y0 ?c1 ?d1 ?c2 ?d2 ?x ?y _) = false =>
        apply (BoxFacts.addBezier_shape x0 y0 c1 d1 c2 d2 x y) in E
    end.
    apply BoxFacts.shape_isEmpty in E. exact E.
  - apply (BoxFacts.addBezier_shape (prevX s) (prevY s) u1 v1 u2 v2 u v) in E.
    apply BoxFacts.shape_isEmpty in E. exact E.
  - apply BoxFacts.shape_isEmpty in E. exact E.
Qed.

Lemma fold_boundingStep_full cs : forall s,
  isEmpty (box s) = false -> isEmpty (box (fold_left boundingStep cs s)) = false.
Proof.
  induction cs as [|c cs IH]; intros s E; [exact E|].
  cbn [fold_left]. apply IH, boundingStep_full, E.
Qed.

Lemma isEmpty_flip bx : isEmpty bx = false -> isEmpty (flipBox b bx) = false.
Proof.
  destruct bx as [[|a1] [|c1] [|a2] [|c2]]; try discriminate. reflexivity.
Qed.

(** The bounding box of the mirror image of a path that starts with a move
    is the mirror image of its bounding box. *)
Lemma getBoundingBox_flip cs :
  Forall (onGrid n) cs -> movesFirst cs = true -> cs <> [] ->
  getBoundingBox (map (flipCommand base) cs) = flipBox b (getBoundingBox cs)
  /\ isEmpty (getBoundingBox cs) = false.
Proof.
  intros G M N. destruct cs as [|c cs]; [congruence|].
  destruct c as [u v | | | |]; try discriminate.
  apply Forall_cons in G as [Gc G]. unfold onGrid in Gc. cbn [coordinates] in Gc.
  apply Forall_cons in Gc as [[kx ->] Gc]. apply Forall_cons in Gc as [[ky ->] _].
  unfold getBoundingBox. cbn [map fold_left flipCommand].
  set (s0 := mkCursor new (lit 0) (lit 0) (lit 0) (lit 0)).
  set (s1 := boundingStep s0 (MoveTo (Rat (decimal kx n)) (Rat (decimal ky n)))).
  assert (E : boundingStep s0 (MoveTo (Rat (decimal kx n)) (base - Rat (decimal ky n)))
              = flipCursor b s1).
  { pose proof (addPoint_flip b (Rat (decimal kx n)) (decimal ky n) new) as A.
    change (flipBox b new) with (new (T := rat)) in A.
    unfold s1, s0. cbn [boundingStep flipCursor box startX startY prevX prevY].
    rewrite A. reflexivity. }
  assert (T : tracked s1) by (split; eexists; reflexivity).
  assert (F : isEmpty (box s1) = false).
  { pose proof (BoxFacts.addPoint_shape (Some (Rat (decimal kx n)))
                  (Some (Rat (decimal ky n))) new false false BoxFacts.new_shape) as Sh.
    apply BoxFacts.shape_isEmpty in Sh. exact Sh. }
  rewrite E, (fold_boundingStep_flip cs s1 G T).
  pose proof (fold_boundingStep_full cs s1 F) as F'.
  cbn [box flipCursor]. rewrite (isEmpty_flip _ F'), F'. split; [reflexivity | exact F'].
Qed.

End MirrorPath.

(** *** The round trip *)

(** The [flipYBase] that [toPathData] and [fromSVG] compute when none is
    given: [y1 + y2] of the bounding box. *)
Definition baseOf (cs : list Command) : rat :=
  (y1 (getBoundingBox cs) + y2 (getBoundingBox cs))%js.

(** [v] is a number with at most [n] decimals. *)
Definition decimals (n : nat) (v : rat) : bool :=
  match v with
  | Rat q => Qc_eqb (decimal (Qfloor (this q * inject_Z (10 ^ Z.of_nat n))%Q) n) q
  | QNaN => false
  end.

(** Every coordinate of every command has at most [n] decimals. *)
Definition drawnOnGrid (n : nat) (cs : list Command) : bool :=
  forallb (fun c => forallb (decimals n) (coordinates c)) cs.

(** [|v| < 10^21]: the number is written with its digits. *)
Definition below21 (v : rat) : bool := (abs v <? lit (10 ^ 21))%js.

(** Every number that [toPathData] writes for the path, an x coordinate or
    a difference [flipYBase - y], is below 10^21 in absolute value. *)
Definition writtenWithDigits (cs : list Command) : bool :=
  forallb (fun c => forallb below21 (coordinates (flipCommand (baseOf cs) c))) cs.

(** The options object in which only [decimalPlaces] and [optimize] may be
    set. *)
Definition plain (decimalPlaces : option nat) (optimize : option bool) : PathOptions :=
  mkOptions decimalPlaces optimize None None None None None.

Lemma decimals_grid n v : decimals n v = true -> grid n v.
Proof.
  destruct v as [|q]; [discriminate|]. cbn [decimals]. intros E.
  apply Qc_eqb_eq in E. eexists. rewrite E. reflexivity.
Qed.

Lemma forallb_Forall {A} (f : A -> bool) (P : A -> Prop) (l : list A) :
  (forall a, f a = true -> P a) -> forallb f l = true -> Forall P l.
Proof.
  intros I. induction l as [|a l IH]; cbn [forallb]; intros H; constructor.
  - apply I. apply andb_true_iff in H. tauto.
  - apply IH. apply andb_true_iff in H. tauto.
Qed.

Lemma drawnOnGrid_spec n cs : drawnOnGrid n cs = true -> Forall (onGrid n) cs.
Proof.
  apply forallb_Forall. intros c. apply forallb_Forall. apply decimals_grid.
Qed.

Lemma below21_plainNumber n v : grid n v -> below21 v = true -> plainNumber n v.
Proof.
  intros [k ->] B. exists k. split; [reflexivity|].
  unfold below21 in B. cbn [abs ltb rat_Number qabs qltb lit of_Z] in B.
  assert (E : (if Qc_ltb (decimal k n) (Q2Qc 0) then Rat (- decimal k n)%Qc
               else Rat (decimal k n)) = Rat (decimal (Z.abs k) n)).
  { rewrite decimal_neg, <- decimal_abs. destruct (k <? 0)%Z; reflexivity. }
  rewrite E in B. cbn [qltb] in B. apply Qc_ltb_lt in B.
  fold (zq (10 ^ 21)) in B. rewrite <- (decimal_whole (10 ^ 21) n) in B.
  apply decimal_lt in B. pose proof (ten_pos n) as P.
  rewrite ten_add. change (ten 21) with (10 ^ 21)%Z. nia.
Qed.

Lemma writtenWithDigits_spec n base cs :
  grid n base -> Forall (onGrid n) cs ->
  forallb (fun c => forallb below21 (coordinates (flipCommand base c))) cs = true ->
  Forall (fun c => writable n (flipCommand base c)) cs.
Proof.
  intros B G. induction G as [|c cs Gc _ IH]; cbn [forallb]; intros W; constructor.
  - apply andb_true_iff in W as [W _].
    pose proof (onGrid_flip n base c B Gc) as Gf. unfold onGrid, writable in *.
    induction Gf as [|v vs Gv _ IHv]; constructor.
    + cbn [forallb] in W. apply andb_true_iff in W as [W _].
      apply below21_plainNumber; assumption.
    + cbn [forallb] in W. apply andb_true_iff in W as [_ W]. apply IHv, W.
  - apply andb_true_iff in W as [_ W]. apply IH, W.
Qed.

Lemma commands_extend (cs : list Command) : forall p,
  commands (extend cs p) = commands p ++ cs.
Proof.
  unfold extend. induction cs as [|c cs IH]; intros p; cbn [fold_left].
  - rewrite app_nil_r. reflexivity.
  - rewrite IH. cbn [push set_commands commands]. rewrite <- app_assoc. reflexivity.
Qed.

Section Place.
Variable n : nat.
Variable b : Qc.
Abbreviation base := (Rat b).
Local Open Scope js_scope.

Definition defaultParsing (optimize : bool) : ParsingOptions :=
  mkParsing (Some n) optimize true (lit 0) (lit 1) (lit 0) (lit 0).

Lemma place_x v : grid n v -> lit 0 + v * lit 1 = v.
Proof.
  intros [k ->]. cbn [add mul rat_Number lift2 lit of_Z]. f_equal.
  change (Q2Qc (inject_Z 0)) with 0%Qc. change (Q2Qc (inject_Z 1)) with 1%Qc. ring.
Qed.

Lemma place_y v : grid n v -> lit 0 + (base - (base - v)) * lit 1 = v.
Proof.
  intros [k ->]. cbn [add sub mul rat_Number lift2 lit of_Z]. f_equal.
  change (Q2Qc (inject_Z 0)) with 0%Qc. change (Q2Qc (inject_Z 1)) with 1%Qc. ring.
Qed.

Lemma place_flip optimize c :
  onGrid n c -> place (defaultParsing optimize) base (flipCommand base c) = c.
Proof.
  intros G. unfold onGrid in G.
  destruct c; cbn [coordinates] in G;
    repeat match goal with
      | H : Forall _ (_ :: _) |- _ => apply Forall_cons in H as [? H]
      end;
    cbn [place flipCommand defaultParsing in_x in_y in_scale in_flipY flipped];
    rewrite ?place_y, ?place_x by assumption; reflexivity.
Qed.

Lemma map_place_flip optimize cs :
  Forall (onGrid n) cs ->
  map (place (defaultParsing optimize) base) (map (flipCommand base) cs) = cs.
Proof.
  induction 1 as [|c cs Hc _ IH]; [reflexivity|].
  cbn [map]. rewrite IH, place_flip by exact Hc. reflexivity.
Qed.

End Place.

(** The mirror image has the same [flipYBase]. *)
Lemma baseOf_flip n b cs :
  Forall (onGrid n) cs -> movesFirst cs = true ->
  baseOf cs = Rat b -> baseOf (map (flipCommand (Rat b)) cs) = Rat b.
Proof.
  intros G M B. destruct cs as [|c cs].
  - exact B.
  - destruct (getBoundingBox_flip n b (c :: cs) G M ltac:(discriminate)) as [E F].
    unfold baseOf in *. rewrite E.
    destruct (getBoundingBox (c :: cs)) as [[|a1] [|c1] [|a2] [|c2]]; try discriminate.
    cbn [flipBox BBox.y1 BBox.y2 add sub rat_Number lift2] in B |- *.
    injection B as B. f_equal. rewrite <- B. ring.
Qed.

Lemma pathData_plain decimalPlaces optimize (p : Path rat) :
  (assigned true optimize = true -> optimizeCommands (commands p) = commands p) ->
  pathData (inr (plain decimalPlaces optimize)) p
  = flat_map (commandData (mkOutput (Some (assigned 2%nat decimalPlaces))
                                    (assigned true optimize) true None)
                          (baseOf (commands p)))
             (commands p).
Proof.
  intros O. unfold pathData.
  cbn [createSVGOutputOptions plain SVG.decimalPlaces SVG.optimize SVG.flipY SVG.flipYBase
       out_optimize out_flipY out_flipYBase assigned].
  assert (C : (if assigned true optimize
               then optimizeCommands (jsonCopy (commands p)) else commands p) = commands p).
  { destruct (assigned true optimize); [apply O|]; reflexivity. }
  cbv zeta. rewrite C, commands_extend. reflexivity.
Qed.

(** In exact decimal arithmetic, [fromSVG] on the text that
    [toPathData] writes, both with the default [flipY] and no [flipYBase],
    [scale], [x] or [y], and with the same [decimalPlaces] (at most 6) and
    [optimize], gives back the commands of the path, coordinate for
    coordinate, when
    - every coordinate, and the sum [y1 + y2] of the bounding box, has at
      most [decimalPlaces] decimals,
    - every number that is written, an x coordinate or a difference
      [y1 + y2 - y], is below 10^21 in absolute value,
    - the path is empty or starts with a move, and no close command follows
      a close command,
    - [optimizeCommands] has nothing to drop, if [optimize] is on. *)
Theorem round_trip_on_the_grid (decimalPlaces : option nat) (optimize : option bool)
    (p q : Path rat) :
  (assigned 2%nat decimalPlaces <= 6)%nat ->
  drawnOnGrid (assigned 2%nat decimalPlaces) (commands p) = true ->
  decimals (assigned 2%nat decimalPlaces) (baseOf (commands p)) = true ->
  writtenWithDigits (commands p) = true ->
  movesFirst (commands p) = true ->
  closesOnce (commands p) = true ->
  (assigned true optimize = true -> optimizeCommands (commands p) = commands p) ->
  fromSVG (toPathData (inr (plain decimalPlaces optimize)) p)
          (plain decimalPlaces optimize) q
  = Ok (set_commands (commands p) q).
Proof.
  intros Hn G B W M Z O.
  set (n := assigned 2%nat decimalPlaces) in *.
  apply drawnOnGrid_spec in G. apply decimals_grid in B as [kb B].
  unfold writtenWithDigits in W. rewrite B in W.
  apply (writtenWithDigits_spec n _ _ (ex_intro _ kb eq_refl) G) in W.
  unfold toPathData, fromSVG.
  rewrite list_ascii_of_string_of_list_ascii, (pathData_plain _ _ _ O), B.
  fold n.
  change (createSVGParsingOptions (plain decimalPlaces optimize))
    with (defaultParsing n (assigned true optimize)).
  cbn [defaultParsing in_decimalPlaces in_optimize in_flipY in_flipYBase].
  destruct (tokenize_commands n Hn (Rat (decimal kb n))
              (mkOutput (Some n) (assigned true optimize) true None) eq_refl eq_refl
              (commands p) W Z) as (t & T & A).
  rewrite T. cbv zeta. rewrite A. cbn [parsed plain SVG.flipYBase].
  assert (C : (if assigned true optimize
               then optimizeCommands (map (flipCommand (Rat (decimal kb n))) (commands p))
               else map (flipCommand (Rat (decimal kb n))) (commands p))
              = map (flipCommand (Rat (decimal kb n))) (commands p)).
  { destruct (assigned true optimize) eqn:E; [|reflexivity].
    rewrite optimizeCommands_flip by exact M. rewrite O; reflexivity. }
  rewrite C.
  pose proof (baseOf_flip n (decimal kb n) (commands p) G M B) as F.
  unfold baseOf in F. rewrite F.
  fold (defaultParsing n (assigned true optimize)).
  rewrite (map_place_flip n (decimal kb n) _ _ G). reflexivity.
Qed.

(** *** Lines only *)

(** A path of moves, lines and close commands. *)
Definition polyline (cs : list Command) : bool :=
  forallb (fun c => match c with
                    | QuadTo _ _ _ _ | CurveTo _ _ _ _ _ _ => false
                    | _ => true
                    end) cs.

Lemma grid_decimals n v : grid n v -> decimals n v = true.
Proof.
  intros [k ->]. cbn [decimals]. apply Qc_eqb_eq. f_equal.
  fold (ten n). pose proof (ten_pos n) as P.
  assert (E : (this (decimal k n) * inject_Z (ten n) == inject_Z k)%Q).
  { rewrite this_decimal. unfold Qeq, Qmult, inject_Z. cbn [Qnum Qden].
    rewrite Pos.mul_1_r, Z2Pos.id by exact P. lia. }
  rewrite (Qfloor_comp _ _ E). apply Qfloor_Z.
Qed.

Lemma grid_add n u v : grid n u -> grid n v -> grid n (u + v)%js.
Proof.
  intros [k ->] [j ->]. exists (k + j)%Z.
  cbn [add rat_Number lift2]. rewrite decimal_add. reflexivity.
Qed.

Section Lines.
Variable n : nat.

(** The y fields of a box: both empty, or both on the grid. *)
Definition gridY (bx : BoundingBox rat) : Prop :=
  (y1 bx = QNaN /\ y2 bx = QNaN) \/ (grid n (y1 bx) /\ grid n (y2 bx)).

Lemma widenY_grid y bx :
  grid n y -> gridY bx -> grid n (y1 (widenY y bx)) /\ grid n (y2 (widenY y bx)).
Proof.
  intros Gy [[E1 E2]|[G1 G2]]; destruct bx as [a1 c1 a2 c2]; cbn [BBox.y1 BBox.y2] in *.
  - subst c1 c2. destruct Gy as [k ->].
    unfold widenY, set_y1, set_y2, gtb. simpl. rewrite !Qc_ltb_irrefl. simpl.
    rewrite !Qc_ltb_irrefl. simpl. split; eexists; reflexivity.
  - destruct Gy as [k ->], G1 as [k1 ->], G2 as [k2 ->].
    rewrite widenY_number. cbn [BBox.y1 BBox.y2].
    split; [destruct (Qc_ltb _ _) | destruct (Qc_ltb _ _)]; eexists; reflexivity.
Qed.

Lemma addPoint_grid u v bx :
  grid n v -> gridY bx ->
  grid n (y1 (addPoint (Some u) (Some v) bx)) /\ grid n (y2 (addPoint (Some u) (Some v) bx)).
Proof.
  intros Gv G. unfold addPoint. apply widenY_grid; [exact Gv|].
  unfold gridY. destruct (BoxFacts.widenX_frame u bx) as [-> ->]. exact G.
Qed.

Lemma boundingStep_grid s c :
  polyline [c] = true -> onGrid n c -> gridY (box s) -> gridY (box (boundingStep s c)).
Proof.
  intros P G B. unfold onGrid in G.
  destruct c as [u v | u v | | |]; try discriminate; cbn [boundingStep box coordinates] in *.
  - apply Forall_cons in G as [_ G]. apply Forall_cons in G as [Gv _].
    right. apply addPoint_grid; assumption.
  - apply Forall_cons in G as [_ G]. apply Forall_cons in G as [Gv _].
    right. apply addPoint_grid; assumption.
  - exact B.
Qed.

Lemma fold_boundingStep_grid cs : forall s,
  polyline cs = true -> Forall (onGrid n) cs -> gridY (box s) ->
  gridY (box (fold_left boundingStep cs s)).
Proof.
  induction cs as [|c cs IH]; intros s P G B; [exact B|].
  cbn [polyline forallb] in P. apply andb_true_iff in P as [Pc P].
  apply Forall_cons in G as [Gc G]. cbn [fold_left].
  apply IH; [exact P | exact G |].
  apply boundingStep_grid; [|exact Gc | exact B].
  cbn [polyline forallb]. rewrite Pc. reflexivity.
Qed.

(** In exact decimal arithmetic: on a path of lines whose coordinates have
    at most [n] decimals, the [flipYBase] that is computed has at most [n]
    decimals. *)
Lemma polyline_baseOf cs :
  polyline cs = true -> drawnOnGrid n cs = true -> decimals n (baseOf cs) = true.
Proof.
  intros P G. apply drawnOnGrid_spec in G. apply grid_decimals.
  unfold baseOf, getBoundingBox.
  set (s0 := mkCursor (BBox.new (T := rat)) (lit 0) (lit 0) (lit 0) (lit 0)).
  assert (B0 : gridY (box s0)) by (left; split; reflexivity).
  pose proof (fold_boundingStep_grid cs s0 P G B0) as B.
  set (bx := box (fold_left boundingStep cs s0)) in *.
  assert (Z : grid n (lit 0)) by (exists 0%Z; cbn [lit rat_Number of_Z]; rewrite decimal_0; reflexivity).
  destruct (isEmpty bx) eqn:E.
  - apply grid_add; apply (addPoint_grid (lit 0) (lit 0) bx Z B).
  - destruct B as [[E1 E2]|[G1 G2]]; [|apply grid_add; assumption].
    exfalso. unfold isEmpty in E. rewrite E1 in E.
    destruct (isNaN (x1 bx)); discriminate.
Qed.

End Lines.

(** A closed outline with a curve, a negative and a fractional coordinate. *)
Definition leaf : Path rat :=
  set_commands
    [MoveTo (Rat (decimal 150 2)) (lit (-2));
     LineTo (lit 10) (lit 0);
     QuadTo (lit 10) (lit 5) (lit 5) (Rat (decimal 1025 2));
     CurveTo (lit 4) (lit 10) (lit 0) (lit 6) (Rat (decimal (-75) 2)) (lit 3);
     Close]
    Path.new.

(** The round trip of [leaf], with the default options. *)
Lemma round_trip_on_the_grid_witness :
  fromSVG (toPathData (inr (plain None None)) leaf) (plain None None) Path.new
  = Ok (set_commands (commands leaf) Path.new).
Proof.
  apply (round_trip_on_the_grid None None leaf Path.new).
  - cbn. lia.
  - vm_compute. reflexivity.
  - vm_compute. reflexivity.
  - vm_compute. reflexivity.
  - reflexivity.
  - reflexivity.
  - intros _. vm_compute. reflexivity.
Defined.

(** The last line of this path ends within one unit of its start. *)
Definition almostClosed : Path rat :=
  set_commands
    [MoveTo (lit 0) (lit 0); LineTo (lit 10) (lit 0); LineTo (lit 10) (lit 10);
     LineTo (lit 0) (Rat (decimal 50 2))]
    Path.new.

(** C6 as stated fails on [almostClosed]: [optimizeCommands], which both
    functions run by default, drops the last line, and three commands come
    back for four. *)
Lemma round_trip_drops_a_line :
  exists q,
    fromSVG (toPathData (inr noOptions) almostClosed) noOptions Path.new = Ok q
    /\ List.length (commands almostClosed) = 4%nat
    /\ commands q = [MoveTo (lit 0) (lit 0); LineTo (lit 10) (lit 0); LineTo (lit 10) (lit 10)].
Proof.
  eexists. split; [vm_compute; reflexivity|]. split; reflexivity.
Qed.

(** The [flipYBase] of [almostClosed], a path of lines with at most two
    decimals. *)
Lemma polyline_baseOf_witness : decimals 2 (baseOf (commands almostClosed)) = true.
Proof.
  apply (polyline_baseOf 2 (commands almostClosed)); vm_compute; reflexivity.
Defined.

(** *** Numbers that are not read back *)

(** The lower end of this path lies 0.004 below zero. *)
Definition sunk : Path rat :=
  set_commands [MoveTo (lit 0) (Rat (decimal (-4) 3)); LineTo (lit 5) (lit 10)] Path.new.

(** The y coordinate of the line is written as [flipYBase - 10 = -0.004].
    [floatToString] rounds it to [0]; [packValues] tests the number before
    it is rounded, finds it negative and writes no space. [fromSVG] reads
    the one number 50. *)
Lemma packValues_joins_numbers :
  toPathData (inr noOptions) sunk = "M0 10L50"%string
  /\ exists q,
       fromSVG "M0 10L50" noOptions Path.new = Ok q
       /\ commands q = [MoveTo (lit 0) (lit 10); LineTo (lit 50) QNaN].
Proof.
  split; [vm_compute; reflexivity|].
  eexists. split; [vm_compute; reflexivity | reflexivity].
Qed.

(** A line to x = 10^21. *)
Definition far : Path rat :=
  set_commands [MoveTo (lit 0) (lit 0); LineTo (lit (10 ^ 21)) (lit 5)] Path.new.

(** The coordinate is written in exponent notation, which [fromSVG] does
    not read. *)
Lemma exponent_notation_is_not_read :
  toPathData (inr noOptions) far = "M0 5L1e+21 0"%string
  /\ fromSVG "M0 5L1e+21 0" noOptions Path.new
     = Throw "Unexpected character: e at offset 6".
Proof.
  split; vm_compute; reflexivity.
Qed.

(** A line to x = 5.0000001. *)
Definition hair : Path rat :=
  set_commands [MoveTo (lit 0) (lit 0); LineTo (Rat (decimal 50000001 7)) (lit 1)] Path.new.

(** [roundDecimal] moves the decimal point of the fractional part through
    its text. A fractional part below 10^-6 is written in exponent notation,
    the text with a second exponent appended is no number, and the result is
    NaN, which [toPathData] writes and [fromSVG] does not read. *)
Lemma roundDecimal_loses_small_fractions :
  roundDecimal (Rat (decimal 50000001 7)) (Some 2%nat) = QNaN
  /\ toPathData (inr noOptions) hair = "M0 1LNaN 0"%string
  /\ fromSVG "M0 1LNaN 0" noOptions Path.new
     = Throw "Unexpected character: N at offset 5".
Proof. repeat split; vm_compute; reflexivity. Qed.

(** *** The text of a closed outline *)

(** [moveTo(0, 0); lineTo(100, 0); lineTo(100, 100); close()] *)
Definition corner : Path rat :=
  close (lineTo (lit 100) (lit 100) (lineTo (lit 100) (lit 0) (moveTo (lit 0) (lit 0) Path.new))).

(** The same outline with the line back to the start written out. *)
Definition cornerAndBack : Path rat :=
  close (lineTo (lit 0) (lit 0) (lineTo (lit 100) (lit 100)
    (lineTo (lit 100) (lit 0) (moveTo (lit 0) (lit 0) Path.new)))).

(** The options [{ optimize, flipY: false }]. *)
Definition unflipped (optimize : bool) : PathOptions :=
  mkOptions None (Some optimize) (Some false) None None None None.

(** Without the flip and without the optimization the commands are written
    as they are, and a number as an argument is the same as these options
    with its decimal places. *)
Lemma toPathData_without_flip :
  toPathData (inr (unflipped false)) corner = "M0 0L100 0L100 100Z"%string
  /\ toPathData (inl 2%nat) corner = "M0 0L100 0L100 100Z"%string
  /\ toPathData (inr (unflipped false)) cornerAndBack = "M0 0L100 0L100 100L0 0Z"%string.
Proof. repeat split; vm_compute; reflexivity. Qed.

(** The optimization has nothing to do on [corner]. On [cornerAndBack],
    whose last line returns to the start, it removes the move and starts the
    outline at the end of the first line. *)
Lemma optimize_starts_at_the_first_line :
  toPathData (inr (unflipped true)) corner = "M0 0L100 0L100 100Z"%string
  /\ toPathData (inr (unflipped true)) cornerAndBack = "M100 0L100 100L0 0Z"%string.
Proof. split; vm_compute; reflexivity. Qed.

End RoundTrip.

(** ** BoundingBox: the order of the calls *)

Module OrderFacts.
Import Rat BBox RoundTrip.
Local Open Scope list_scope.
Local Open Scope js_scope.

Local Arguments Qcminus : simpl never.
Local Arguments Qcplus : simpl never.
Local Arguments Qc_ltb : simpl never.

(** One step of widening: a number handed to [addPoint] as an x or as a y
    coordinate. *)
Inductive Widen : Type :=
| WidenX (q : Qc)
| WidenY (q : Qc).

Definition widen (bx : BoundingBox rat) (w : Widen) : BoundingBox rat :=
  match w with
  | WidenX q => widenX (Rat q) bx
  | WidenY q => widenY (Rat q) bx
  end.

Lemma widenX_number x lo c1 hi c2 :
  widenX (Rat x) (mkBox (Rat lo) c1 (Rat hi) c2)
  = mkBox (Rat (if Qc_ltb x lo then x else lo)) c1 (Rat (if Qc_ltb hi x then x else hi)) c2.
Proof.
  unfold widenX, set_x1, set_x2, gtb. simpl.
  destruct (Qc_ltb x lo); simpl; destruct (Qc_ltb hi x); reflexivity.
Qed.

(** On a box with an empty axis the first number becomes both ends. *)
Lemma widenX_first x a1 c1 a2 c2 :
  isNaN a1 || isNaN a2 = true ->
  widenX (Rat x) (mkBox a1 c1 a2 c2) = mkBox (Rat x) c1 (Rat x) c2.
Proof.
  intros E. unfold widenX, set_x1, set_x2, gtb. cbn [BBox.x1 BBox.x2 BBox.y1 BBox.y2].
  rewrite E. simpl. rewrite !Qc_ltb_irrefl. simpl. rewrite Qc_ltb_irrefl. reflexivity.
Qed.

Lemma widenY_first y a1 c1 a2 c2 :
  isNaN c1 || isNaN c2 = true ->
  widenY (Rat y) (mkBox a1 c1 a2 c2) = mkBox a1 (Rat y) a2 (Rat y).
Proof.
  intros E. unfold widenY, set_y1, set_y2, gtb. cbn [BBox.x1 BBox.x2 BBox.y1 BBox.y2].
  rewrite E. simpl. rewrite !Qc_ltb_irrefl. simpl. rewrite Qc_ltb_irrefl. reflexivity.
Qed.

Lemma widenX_comm u w bx :
  widenX (Rat u) (widenX (Rat w) bx) = widenX (Rat w) (widenX (Rat u) bx).
Proof.
  destruct bx as [a1 c1 a2 c2].
  destruct (isNaN a1 || isNaN a2) eqn:E.
  - rewrite (widenX_first w a1 c1 a2 c2 E), (widenX_first u a1 c1 a2 c2 E).
    rewrite !widenX_number.
    f_equal; f_equal; order_cases.
  - destruct a1 as [|lo], a2 as [|hi]; try discriminate.
    rewrite !widenX_number, lower_comm, upper_comm. reflexivity.
Qed.

Lemma widenY_comm_any u w bx :
  widenY (Rat u) (widenY (Rat w) bx) = widenY (Rat w) (widenY (Rat u) bx).
Proof.
  destruct bx as [a1 c1 a2 c2].
  destruct (isNaN c1 || isNaN c2) eqn:E.
  - rewrite (widenY_first w a1 c1 a2 c2 E), (widenY_first u a1 c1 a2 c2 E).
    rewrite !widenY_number.
    f_equal; f_equal; order_cases.
  - destruct c1 as [|lo], c2 as [|hi]; try discriminate.
    rewrite !widenY_number, lower_comm, upper_comm. reflexivity.
Qed.

Lemma widenX_widenY u w bx :
  widenX (Rat u) (widenY (Rat w) bx) = widenY (Rat w) (widenX (Rat u) bx).
Proof.
  destruct bx as [a1 c1 a2 c2].
  destruct (isNaN a1 || isNaN a2) eqn:EX, (isNaN c1 || isNaN c2) eqn:EY.
  - rewrite (widenY_first w a1 c1 a2 c2 EY), (widenX_first u a1 c1 a2 c2 EX).
    rewrite (widenX_first u a1 _ a2 _ EX), (widenY_first w _ c1 _ c2 EY). reflexivity.
  - destruct c1 as [|lo], c2 as [|hi]; try discriminate.
    rewrite widenY_number, (widenX_first u a1 _ a2 _ EX), (widenX_first u a1 _ a2 _ EX).
    rewrite widenY_number. reflexivity.
  - destruct a1 as [|lo], a2 as [|hi]; try discriminate.
    rewrite (widenY_first w _ c1 _ c2 EY), !widenX_number.
    rewrite (widenY_first w _ c1 _ c2 EY). reflexivity.
  - destruct a1 as [|lo], a2 as [|hi]; try discriminate.
    destruct c1 as [|lo'], c2 as [|hi']; try discriminate.
    rewrite widenY_number, !widenX_number, widenY_number. reflexivity.
Qed.

Lemma widen_comm bx u w : widen (widen bx u) w = widen (widen bx w) u.
Proof.
  destruct u as [u|u], w as [w|w]; cbn [widen].
  - apply widenX_comm.
  - symmetry. apply widenX_widenY.
  - apply widenX_widenY.
  - apply widenY_comm_any.
Qed.

(** *** The calls as steps of widening *)

(** The number in [v]. *)
Definition num (v : rat) : Qc :=
  match v with Rat q => q | QNaN => Q2Qc 0 end.

(** The numbers that one pass of [addBezier] adds. *)
Definition passWidens (axis : Qc -> Widen) (v0 v1 v2 v3 : rat) : list Widen :=
  map (fun t => axis (num (derive v0 v1 v2 v3 t))) (extrema v0 v1 v2 v3).

Definition curveWidens (x0 y0 cx1 cy1 cx2 cy2 x y : rat) : list Widen :=
  [WidenX (num x0); WidenY (num y0); WidenX (num x); WidenY (num y)]
  ++ passWidens WidenX x0 cx1 cx2 x ++ passWidens WidenX x0 cx1 cx2 x
  ++ passWidens WidenY y0 cy1 cy2 y ++ passWidens WidenY y0 cy1 cy2 y.

(** The numbers that a call adds, in the order in which it adds them. *)
Definition widens (op : Operation) : list Widen :=
  match op with
  | AddPoint x y =>
      match x with Some v => [WidenX (num v)] | None => [] end
      ++ match y with Some v => [WidenY (num v)] | None => [] end
  | AddX x => [WidenX (num x)]
  | AddY y => [WidenY (num y)]
  | AddBezier x0 y0 cx1 cy1 cx2 cy2 x y => curveWidens x0 y0 cx1 cy1 cx2 cy2 x y
  | AddQuad x0 y0 qx1 qy1 x y =>
      let cp1x := x0 + lit 2 / lit 3 * (qx1 - x0) in
      let cp1y := y0 + lit 2 / lit 3 * (qy1 - y0) in
      let cp2x := cp1x + lit 1 / lit 3 * (x - x0) in
      let cp2y := cp1y + lit 1 / lit 3 * (y - y0) in
      curveWidens x0 y0 cp1x cp1y cp2x cp2y x y
  end.

(** Every argument of the call is a number. *)
Definition numeric (op : Operation) : bool :=
  let given v := match v with Some u => number u | None => true end in
  match op with
  | AddPoint x y => given x && given y
  | AddX x => number x
  | AddY y => number y
  | AddBezier x0 y0 cx1 cy1 cx2 cy2 x y =>
      forallb number [x0; y0; cx1; cy1; cx2; cy2; x; y]
  | AddQuad x0 y0 qx1 qy1 x y => forallb number [x0; y0; qx1; qy1; x; y]
  end.

Lemma fold_left_map {A B C} (f : A -> B -> A) (g : C -> B) (l : list C) : forall a,
  fold_left f (map g l) a = fold_left (fun a c => f a (g c)) l a.
Proof. induction l as [|c l IH]; intros a; [reflexivity | apply IH]. Qed.

Lemma fold_left_agree {A B} (f g : A -> B -> A) (P : B -> Prop) (l : list B) :
  Forall P l -> (forall a b, P b -> f a b = g a b) ->
  forall a, fold_left f l a = fold_left g l a.
Proof.
  intros H E. induction H as [|b l Hb _ IH]; intros a; [reflexivity|].
  cbn [fold_left]. rewrite (E a b Hb). apply IH.
Qed.

Lemma extrema_numbers v0 v1 v2 v3 :
  Forall (fun t => exists q, t = Rat q) (extrema v0 v1 v2 v3).
Proof.
  destruct (extrema_shape v0 v1 v2 v3) as [->|[(t & ->)|(t & u & ->)]];
    repeat constructor; eauto.
Qed.

Lemma pass_widens (addV : rat -> BoundingBox rat -> BoundingBox rat) (axis : Qc -> Widen)
    (v0 v1 v2 v3 : Qc) bx :
  (forall q b, addV (Rat q) b = widen b (axis q)) ->
  bezierPass addV (Rat v0) (Rat v1) (Rat v2) (Rat v3) bx
  = fold_left widen (passWidens axis (Rat v0) (Rat v1) (Rat v2) (Rat v3)) bx.
Proof.
  intros A. rewrite bezierPass_extrema. unfold passWidens. rewrite fold_left_map.
  apply (fold_left_agree _ _ _ _ (extrema_numbers _ _ _ _)).
  intros b t [q ->]. destruct (derive_number v0 v1 v2 v3 q) as [d ->]. apply A.
Qed.

Lemma addBezier_widens (x0 y0 cx1 cy1 cx2 cy2 x y : Qc) bx :
  addBezier (Rat x0) (Rat y0) (Rat cx1) (Rat cy1) (Rat cx2) (Rat cy2) (Rat x) (Rat y) bx
  = fold_left widen
      (curveWidens (Rat x0) (Rat y0) (Rat cx1) (Rat cy1) (Rat cx2) (Rat cy2) (Rat x) (Rat y))
      bx.
Proof.
  unfold addBezier, curveWidens. cbv zeta. rewrite !fold_left_app.
  rewrite <- !(pass_widens addY WidenY) by reflexivity.
  rewrite <- !(pass_widens addX WidenX) by reflexivity.
  reflexivity.
Qed.

Lemma apply_widens op bx : numeric op = true -> apply bx op = fold_left widen (widens op) bx.
Proof.
  destruct op as [u v | u | v | x0 y0 cx1 cy1 cx2 cy2 x y | x0 y0 qx1 qy1 x y];
    cbn [numeric forallb number]; intros N.
  - destruct u as [[|u]|], v as [[|v]|]; try discriminate; reflexivity.
  - destruct u as [|u]; [discriminate | reflexivity].
  - destruct v as [|v]; [discriminate | reflexivity].
  - destruct x0 as [|x0], y0 as [|y0], cx1 as [|cx1], cy1 as [|cy1],
             cx2 as [|cx2], cy2 as [|cy2], x as [|x], y as [|y]; try discriminate.
    apply addBezier_widens.
  - destruct x0 as [|x0], y0 as [|y0], qx1 as [|qx1], qy1 as [|qy1],
             x as [|x], y as [|y]; try discriminate.
    cbn [apply widens]. unfold addQuad. cbv zeta.
    assert (T2 : exists k, lit 2 / lit 3 = Rat k) by (eexists; reflexivity).
    assert (T1 : exists k, lit 1 / lit 3 = Rat k) by (eexists; reflexivity).
    destruct T2 as [k2 ->], T1 as [k1 ->].
    cbn [add sub mul rat_Number lift2]. apply addBezier_widens.
Qed.

Lemma applyAll_widens ops : forall bx,
  forallb numeric ops = true ->
  applyAll ops bx = fold_left widen (flat_map widens ops) bx.
Proof.
  unfold applyAll. induction ops as [|op ops IH]; intros bx N; [reflexivity|].
  cbn [forallb] in N. apply andb_true_iff in N as [Nop N].
  cbn [fold_left flat_map]. rewrite fold_left_app, <- (apply_widens op bx Nop).
  apply IH, N.
Qed.

Lemma fold_widen_permutation (l l' : list Widen) :
  Permutation l l' -> forall bx, fold_left widen l bx = fold_left widen l' bx.
Proof.
  induction 1 as [|w l l' _ IH|u w l|l l' l'' _ IH1 _ IH2]; intros bx; cbn [fold_left].
  - reflexivity.
  - apply IH.
  - rewrite widen_comm. reflexivity.
  - rewrite IH1. apply IH2.
Qed.

(** Order independence, in exact arithmetic: calls whose arguments are
    numbers leave the same box in whatever order they are made. *)
Theorem applyAll_in_any_order (ops ops' : list Operation) (bx : BoundingBox rat) :
  Permutation ops ops' ->
  forallb numeric ops = true ->
  applyAll ops bx = applyAll ops' bx.
Proof.
  intros P N.
  assert (N' : forallb numeric ops' = true).
  { apply forallb_forall. intros op Hop.
    apply (proj1 (forallb_forall numeric ops) N).
    apply (Permutation_in op (Permutation_sym P) Hop). }
  rewrite (applyAll_widens ops bx N), (applyAll_widens ops' bx N').
  apply fold_widen_permutation, Permutation_flat_map, P.
Qed.

(** A point, a quadratic and a cubic, added to a new box in two orders. *)
Lemma applyAll_in_any_order_witness :
  applyAll [AddPoint (Some (lit 7)) (Some (lit (-1)));
            AddQuad (lit 0) (lit 0) (lit 2) (lit 2) (lit 1) (lit 1);
            AddBezier (lit 0) (lit 0) (lit 1) (lit 3) (lit 2) (lit (-3)) (lit 3) (lit 0)]
           new
  = applyAll [AddBezier (lit 0) (lit 0) (lit 1) (lit 3) (lit 2) (lit (-3)) (lit 3) (lit 0);
              AddPoint (Some (lit 7)) (Some (lit (-1)));
              AddQuad (lit 0) (lit 0) (lit 2) (lit 2) (lit 1) (lit 1)]
             new.
Proof.
  apply applyAll_in_any_order.
  - apply Permutation_sym, (Permutation_cons_app [_; _] []). reflexivity.
  - reflexivity.
Defined.

End OrderFacts.

(** ** Numbers in the text of a path *)

Module TextFacts.
Import Rat Path SVG BBox RoundTrip.
Local Open Scope list_scope.

(** *** roundDecimal *)

(** The integer [k] with [k <= x < k + 1]. *)
Lemma Qfloor_unique (x : Q) (k : Z) :
  (inject_Z k <= x)%Q -> (x < inject_Z (k + 1))%Q -> Qfloor x = k.
Proof.
  intros L U.
  pose proof (Qfloor_le x) as L'. pose proof (Qlt_floor x) as U'.
  assert (A : (k < Qfloor x + 1)%Z).
  { rewrite Zlt_Qlt. eapply Qle_lt_trans; eassumption. }
  assert (B : (Qfloor x < k + 1)%Z).
  { rewrite Zlt_Qlt. eapply Qle_lt_trans; eassumption. }
  lia.
Qed.

Lemma Qfloor_shift (x : Q) (z : Z) : Qfloor (x + inject_Z z) = (Qfloor x + z)%Z.
Proof.
  apply Qfloor_unique.
  - rewrite inject_Z_plus. apply Qplus_le_compat; [apply Qfloor_le | apply Qle_refl].
  - replace (Qfloor x + z + 1)%Z with ((Qfloor x + 1) + z)%Z by lia.
    rewrite inject_Z_plus. apply Qplus_lt_le_compat; [apply Qlt_floor | apply Qle_refl].
Qed.

(** The fractional part of a number, [q - Math.floor(q)]. *)
Definition fraction (q : Qc) : Qc := (q - zq (Qfloor (this q)))%Qc.

(** The fractional part lies strictly between 0 and 10^-6. *)
Definition tiny (q : Qc) : bool :=
  Qc_ltb (Q2Qc 0) (fraction q) && Qc_ltb (fraction q) (decimal 1 6).

(** The multiple of 10^-n nearest to [q], the upper one of two. *)
Definition halfUp (q : Qc) (n : nat) : Qc :=
  decimal (Qfloor (this q * inject_Z (ten n) + (1 # 2))%Q) n.

Lemma halfUp_floor (q : Qc) (n : nat) :
  Qfloor (this (fraction q * zq (ten n))%Qc + (1 # 2))%Q
  = (Qfloor (this q * inject_Z (ten n) + (1 # 2))%Q - Qfloor (this q) * ten n)%Z.
Proof.
  set (fl := Qfloor (this q)).
  assert (E : (this (fraction q * zq (ten n))%Qc + (1 # 2)
               == (this q * inject_Z (ten n) + (1 # 2)) + inject_Z (- (fl * ten n)))%Q).
  { unfold fraction. fold fl. to_Q. rewrite inject_Z_opp, inject_Z_mult. ring. }
  rewrite (Qfloor_comp _ _ E), Qfloor_shift. lia.
Qed.

Lemma roundDecimal_value (q : Qc) (places : nat) :
  roundDecimal (Rat q) (Some places) = if tiny q then QNaN else Rat (halfUp q places).
Proof.
  pose proof (ten_pos places) as P.
  change (roundDecimal (Rat q) (Some places))
    with (Rat (zq (Qfloor (this q)))
          + shiftRight (round (shiftLeft (Rat (fraction q)) places)) places)%js.
  change (shiftLeft (Rat (fraction q)) places)
    with (if tiny q then QNaN else Rat (fraction q * zq (ten places))%Qc).
  destruct (tiny q); [reflexivity|].
  unfold round. rewrite halfUp_floor.
  set (K := Qfloor (this q * inject_Z (ten places) + (1 # 2))%Q).
  set (fl := Qfloor (this q)).
  change (shiftRight (of_Z (K - fl * ten places)) places)
    with (qdiv (Rat (zq (K - fl * ten places))) (Rat (zq (ten places)))).
  cbn [qdiv]. change (Q2Qc 0) with 0%Qc.
  destruct (Qc_eqb (zq (ten places)) 0%Qc) eqn:E.
  { apply Qc_eqb_eq in E. apply zq_ten_neq in E. contradiction. }
  cbn [add rat_Number lift2]. f_equal. unfold halfUp. fold K.
  rewrite decimal_zq, zq_sub, zq_mul. field. apply zq_ten_neq.
Qed.

Lemma halfUp_near (q : Qc) (places : nat) :
  (q - decimal 5 (S places) < halfUp q places)%Qc
  /\ (halfUp q places <= q + decimal 5 (S places))%Qc.
Proof.
  pose proof (ten_pos places) as P.
  unfold halfUp.
  set (K := Qfloor (this q * inject_Z (ten places) + (1 # 2))%Q).
  set (T := zq (ten places)).
  assert (T0 : (0 < T)%Qc) by (apply (zq_lt 0); exact P).
  assert (E : (this (q * T + decimal 5 1)%Qc
               == this q * inject_Z (ten places) + (1 # 2))%Q).
  { unfold T, decimal. to_Q. apply Qplus_comp; reflexivity. }
  assert (L : (zq K <= q * T + decimal 5 1)%Qc).
  { pose proof (Qfloor_le (this q * inject_Z (ten places) + (1 # 2))%Q) as L.
    fold K in L. unfold Qcle. rewrite E. unfold zq. cbn [this Q2Qc].
    rewrite Qred_correct. exact L. }
  assert (U : (q * T + decimal 5 1 < zq K + 1)%Qc).
  { pose proof (Qlt_floor (this q * inject_Z (ten places) + (1 # 2))%Q) as U.
    fold K in U. change 1%Qc with (zq 1). rewrite <- zq_add.
    unfold Qclt. rewrite E. unfold zq. cbn [this Q2Qc].
    rewrite Qred_correct. exact U. }
  assert (R : (decimal K places * T)%Qc = zq K).
  { rewrite decimal_zq. unfold T. field. apply zq_ten_neq. }
  assert (H5 : (decimal 5 (S places) * T)%Qc = decimal 5 1).
  { rewrite !decimal_zq, ten_S, zq_mul. unfold T. change (ten 1) with 10%Z.
    field. repeat split;
      first [apply zq_ten_neq | intros C; apply (zq_inj _ 0) in C; discriminate]. }
  split.
  + apply Qcnot_le_lt. intros C.
    apply (Qcmult_le_compat_r _ _ T) in C; [|apply Qclt_le_weak, T0].
    rewrite R in C.
    replace ((q - decimal 5 (S places)) * T)%Qc
      with (q * T - decimal 5 (S places) * T)%Qc in C by ring.
    rewrite H5 in C.
    assert (D : (decimal 5 1 + decimal 5 1)%Qc = 1%Qc) by (apply Qc_is_canon; reflexivity).
    assert (C' : (zq K + 1 <= q * T + decimal 5 1)%Qc).
    { rewrite <- D at 1.
      replace (zq K + (decimal 5 1 + decimal 5 1))%Qc
        with ((zq K + decimal 5 1) + decimal 5 1)%Qc by ring.
      replace (q * T + decimal 5 1)%Qc
        with ((q * T - decimal 5 1 + decimal 5 1) + decimal 5 1)%Qc by ring.
      apply Qcplus_le_compat; [|apply Qcle_refl].
      apply Qcplus_le_compat; [exact C | apply Qcle_refl]. }
    exact (Qcle_not_lt _ _ C' U).
  + apply (Qcmult_lt_0_le_reg_r _ _ T T0). rewrite R.
    replace ((q + decimal 5 (S places)) * T)%Qc
      with (q * T + decimal 5 (S places) * T)%Qc by ring.
    rewrite H5. exact L.
Qed.

(** *** packValues *)

Lemma decimal_5_le (n : nat) : (decimal 5 (S n) <= decimal 5 1)%Qc.
Proof.
  apply Qcnot_lt_le. intros C. apply decimal_lt in C.
  pose proof (ten_pos n) as P. rewrite ten_S in C. change (ten 1) with 10%Z in C. lia.
Qed.

Lemma this_half : (this (decimal 5 1) == 1 # 2)%Q.
Proof. reflexivity. Qed.

(** A negative number that is at most half of 10^-places away from 0. *)
Lemma small_negative (q : Qc) (places : nat) :
  (- decimal 5 (S places) <= q)%Qc -> (q < 0)%Qc ->
  roundDecimal (Rat q) (Some places) = Rat 0%Qc /\ round (Rat q) = Rat 0%Qc.
Proof.
  intros L U. pose proof (ten_pos places) as P.
  pose proof (decimal_5_le places) as H5.
  assert (L' : (- (1 # 2) <= this q)%Q).
  { assert (A : (- decimal 5 1 <= q)%Qc).
    { eapply Qcle_trans; [|exact L]. apply Qcopp_le_compat, H5. }
    unfold Qcle in A. to_Q. rewrite this_half in A. exact A. }
  assert (U' : (this q < 0)%Q) by exact U.
  assert (F : Qfloor (this q) = (-1)%Z).
  { apply Qfloor_unique.
    - change (inject_Z (-1)) with (- (1))%Q. Lqa.lra.
    - exact U'. }
  assert (Rd : round (Rat q) = Rat 0%Qc).
  { unfold round.
    replace (Qfloor (this q + (1 # 2))%Q) with 0%Z; [reflexivity|].
    symmetry. apply Qfloor_unique.
    - change (inject_Z 0) with 0%Q. Lqa.lra.
    - change (inject_Z (0 + 1)) with 1%Q. Lqa.lra. }
  split; [|exact Rd].
  rewrite roundDecimal_value.
  assert (Tq : tiny q = false).
  { unfold tiny. apply andb_false_iff. right.
    destruct (Qc_ltb (fraction q) (decimal 1 6)) eqn:E; [|reflexivity].
    exfalso. apply Qc_ltb_lt in E. unfold fraction in E. rewrite F in E.
    unfold Qclt in E. to_Q.
    assert (D : (this (decimal 1 6) == 1 # 1000000)%Q) by reflexivity.
    rewrite D in E.
    change (inject_Z (-1)) with (- (1))%Q in E. Lqa.lra. }
  rewrite Tq. f_equal. unfold halfUp.
  replace (Qfloor (this q * inject_Z (ten places) + (1 # 2))%Q) with 0%Z;
    [apply decimal_0|].
  set (T := zq (ten places)).
  assert (T0 : (0 < T)%Qc) by (apply (zq_lt 0); exact P).
  assert (H : (decimal 5 (S places) * T)%Qc = decimal 5 1).
  { rewrite !decimal_zq, ten_S, zq_mul. unfold T. change (ten 1) with 10%Z.
    field. repeat split;
      first [apply zq_ten_neq | intros C; apply (zq_inj _ 0) in C; discriminate]. }
  assert (A : (- decimal 5 1 <= q * T)%Qc).
  { rewrite <- H. replace (- (decimal 5 (S places) * T))%Qc
      with ((- decimal 5 (S places)) * T)%Qc by ring.
    apply Qcmult_le_compat_r; [exact L | apply Qclt_le_weak, T0]. }
  assert (B : (q * T < 0)%Qc).
  { replace 0%Qc with (0 * T)%Qc by ring. apply Qcmult_lt_compat_r; assumption. }
  unfold Qcle in A. unfold Qclt in B. unfold T in A, B. to_Q. rewrite this_half in A.
  symmetry. apply Qfloor_unique.
  - change (inject_Z 0) with 0%Q. Lqa.lra.
  - change (inject_Z (0 + 1)) with 1%Q. Lqa.lra.
Qed.



(** *** Exponent notation *)

Lemma exponential_e (ds : list ascii) : In "e"%char (exponential ds).
Proof.
  unfold exponential. destruct (significant ds) as [|d [|d' rest]].
  - left. reflexivity.
  - right. left. reflexivity.
  - right. right. apply in_or_app. right. left. reflexivity.
Qed.

Lemma integerToString_e (k : Z) :
  (10 ^ 21 <= Z.abs k)%Z -> In "e"%char (integerToString k).
Proof.
  intros L. unfold integerToString, naturalToString.
  destruct (k <? 0)%Z eqn:N.
  - apply Z.ltb_lt in N. right.
    destruct (- k <? 10 ^ 21)%Z eqn:B; [apply Z.ltb_lt in B; lia | apply exponential_e].
  - apply Z.ltb_ge in N.
    destruct (k <? 10 ^ 21)%Z eqn:B; [apply Z.ltb_lt in B; lia | apply exponential_e].
Qed.

Lemma roundDecimal_integer (places : option nat) (k : Z) :
  roundDecimal (Rat (zq k)) places = Rat (zq k).
Proof.
  destruct places as [n|]; [|reflexivity].
  rewrite roundDecimal_value.
  assert (F : fraction (zq k) = 0%Qc).
  { unfold fraction. rewrite floor_zq. ring. }
  unfold tiny. rewrite F. change (Qc_ltb (Q2Qc 0) 0%Qc) with false. cbn [andb].
  f_equal. unfold halfUp.
  assert (E : (this (zq k) * inject_Z (ten n) + (1 # 2)
               == this (zq (k * ten n)) + (1 # 2))%Q).
  { unfold zq. cbn [this Q2Qc]. rewrite !Qred_correct, inject_Z_mult. reflexivity. }
  rewrite (Qfloor_comp _ _ E), floor_half. apply decimal_whole.
Qed.

Lemma floatToString_integer (places : option nat) (k : Z) :
  floatToString places (Rat (zq k)) = integerToString k.
Proof.
  unfold floatToString. rewrite roundDecimal_integer, round_zq.
  assert (E : (Rat (zq k) =? Rat (zq k))%js = true).
  { cbn [eqb rat_Number qeqb]. apply Qc_eqb_eq. reflexivity. }
  rewrite E, floor_zq. reflexivity.
Qed.

Lemma packFrom_holds (places : option nat) (ch : ascii) (v : rat) (args : list rat) :
  In v args -> In ch (floatToString places v) ->
  forall first, In ch (packFrom places first args).
Proof.
  intros I C. induction args as [|a args IH]; [destruct I|]. intros first.
  cbn [packFrom]. apply in_or_app. right. apply in_or_app.
  destruct I as [->|I]; [left; exact C | right; apply IH, I].
Qed.

(** The x coordinates of a command, which [toPathData] writes as they
    are. *)
Definition abscissas (c : Command) : list rat :=
  match c with
  | MoveTo x _ | LineTo x _ => [x]
  | QuadTo x1 _ x _ => [x1; x]
  | CurveTo x1 _ x2 _ x _ => [x1; x2; x]
  | Close => []
  end.

Lemma commandData_holds (o : OutputOptions) (base : rat) (c : Command) (ch : ascii) v :
  In v (abscissas c) -> In ch (floatToString (out_decimalPlaces o) v) ->
  In ch (commandData o base c).
Proof.
  intros I C. unfold commandData, packValues.
  destruct c; cbn [abscissas] in I; try destruct I; right;
    apply (packFrom_holds _ ch v); try exact C; cbn [In] in *; tauto.
Qed.

Lemma tokenize_rejects (places : option nat) (s : list ascii) (ch : ascii) :
  In ch s -> ParserFacts.accepted ch = false ->
  forall i t, exists m, tokenize places s i t = Throw m.
Proof.
  intros I A. induction s as [|c s IH]; [destruct I|]. intros i t. cbn [tokenize].
  destruct (tokenStep places t c) as [t'|] eqn:E; [|eexists; reflexivity].
  destruct I as [->|I]; [|apply IH, I].
  rewrite (ParserFacts.tokenStep_rejects _ _ _ A) in E. discriminate.
Qed.

(** A whole number of 10^21 or more is written in exponent notation, which
    [fromSVG] does not read: when a path has such a number as an x
    coordinate, [fromSVG] throws on the text that [toPathData] writes for
    it, with the optimization off and whatever the other options are. *)
Theorem large_numbers_are_not_read_back (p q : Path rat) (c : Command) (k : Z)
    (decimalPlaces : option nat) (flipY : option bool) (flipYBase : option rat)
    (options : PathOptions) :
  In c (commands p) -> In (Rat (zq k)) (abscissas c) -> (10 ^ 21 <= Z.abs k)%Z ->
  In "e"%char (floatToString decimalPlaces (Rat (zq k)))
  /\ exists m,
       fromSVG (toPathData (inr (mkOptions decimalPlaces (Some false) flipY flipYBase
                                    None None None)) p)
               options q
       = Throw m.
Proof.
  intros Ic Ik L.
  assert (E : forall places, In "e"%char (floatToString places (Rat (zq k)))).
  { intros places. rewrite floatToString_integer. apply integerToString_e, L. }
  split; [apply E|].
  unfold fromSVG, toPathData. rewrite list_ascii_of_string_of_list_ascii.
  unfold pathData.
  cbn [createSVGOutputOptions SVG.decimalPlaces SVG.optimize SVG.flipY SVG.flipYBase
       out_optimize assigned].
  match goal with
  | |- context [tokenize ?pl (flat_map (commandData ?o ?b) _) ?i ?t] =>
      assert (R : exists m, tokenize pl (flat_map (commandData o b) (commands p)) i t
                            = Throw m)
  end.
  { apply (tokenize_rejects _ _ "e"%char); [|reflexivity].
    apply in_flat_map. exists c. split; [exact Ic|].
    apply (commandData_holds _ _ _ _ _ Ik). apply E. }
  destruct R as [m T]. rewrite T. eexists. reflexivity.
Qed.

(** A line to x = 10^21. *)
Lemma large_numbers_are_not_read_back_witness :
  In "e"%char (floatToString None (Rat (zq (10 ^ 21))))
  /\ exists m,
       fromSVG (toPathData (inr (mkOptions None (Some false) None None None None None)) far)
               noOptions Path.new
       = Throw m.
Proof.
  apply (large_numbers_are_not_read_back far Path.new (LineTo (lit (10 ^ 21)) (lit 5))
           (10 ^ 21) None None None noOptions).
  - right. left. reflexivity.
  - left. reflexivity.
  - vm_compute. discriminate.
Defined.

(** *** The round trip without the flip *)

(** The options [{ decimalPlaces, optimize, flipY: false }]. *)
Definition straight (decimalPlaces : option nat) (optimize : option bool) : PathOptions :=
  mkOptions decimalPlaces optimize (Some false) None None None None.

Lemma commandData_straight (o : OutputOptions) (base : rat) (c : Command) :
  out_flipY o = false ->
  commandData o base c = letter c :: packValues (out_decimalPlaces o) (coordinates c).
Proof. intros F. unfold commandData. rewrite F. destruct c; reflexivity. Qed.

Lemma flip_twice (n : nat) (c : Command) :
  onGrid n c -> flipCommand (lit 0) (flipCommand (lit 0) c) = c.
Proof.
  assert (E : forall v, grid n v -> (lit 0 - (lit 0 - v))%js = v).
  { intros v [k ->]. cbn [sub rat_Number lift2 lit of_Z]. f_equal.
    change (Q2Qc (inject_Z 0)) with 0%Qc. ring. }
  intros G. unfold onGrid in G.
  destruct c; cbn [coordinates] in G;
    repeat match goal with
      | H : Forall _ (_ :: _) |- _ => apply Forall_cons in H as [? H]
      end;
    cbn [flipCommand]; rewrite ?E by assumption; reflexivity.
Qed.

Lemma closesOnce_flip (base : rat) (cs : list Command) :
  closesOnce (map (flipCommand base) cs) = closesOnce cs.
Proof.
  induction cs as [|c cs IH]; [reflexivity|].
  destruct c; cbn [map flipCommand closesOnce]; try exact IH.
  destruct cs as [|c' cs]; [reflexivity|].
  destruct c'; cbn [map flipCommand closesOnce] in *; try exact IH. reflexivity.
Qed.

Section Straight.
Variable n : nat.
Hypothesis Hn : (n <= 6)%nat.

Lemma place_straight (optimize : bool) (c : Command) :
  onGrid n c ->
  place (mkParsing (Some n) optimize false (lit 0) (lit 1) (lit 0) (lit 0)) (lit 0) c = c.
Proof.
  intros G. unfold onGrid in G.
  destruct c; cbn [coordinates] in G;
    repeat match goal with
      | H : Forall _ (_ :: _) |- _ => apply Forall_cons in H as [? H]
      end;
    cbn [place in_x in_y in_scale in_flipY flipped];
    rewrite ?(place_x n) by assumption; reflexivity.
Qed.

(** The text of the commands as they are, read from the start. *)
Lemma tokenize_straight (o : OutputOptions) (base : rat) (cs : list Command) :
  out_flipY o = false -> out_decimalPlaces o = Some n ->
  Forall (writable n) cs -> closesOnce cs = true ->
  exists t,
    tokenize (Some n) (flat_map (commandData o base) cs) 0 (mkTokenizer None [] [] [])
    = Ok t
    /\ applyCommand (Some n) t = mkTokenizer (commandType t) [] [] cs.
Proof.
  intros F P W Z.
  set (o' := mkOutput (Some n) (out_optimize o) true None).
  assert (G : Forall (onGrid n) cs).
  { eapply Forall_impl; [exact W|]. intros c. apply writable_onGrid. }
  assert (E : flat_map (commandData o base) cs
              = flat_map (commandData o' (lit 0)) (map (flipCommand (lit 0)) cs)).
  { clear W Z. induction G as [|c cs Gc _ IH]; [reflexivity|].
    cbn [map flat_map]. rewrite IH. f_equal.
    rewrite (commandData_straight _ _ _ F), P.
    rewrite (commandData_flipped o' _ _ eq_refl). cbn [out_decimalPlaces o'].
    rewrite (flip_twice n c Gc). destruct c; reflexivity. }
  assert (M : map (flipCommand (lit 0)) (map (flipCommand (lit 0)) cs) = cs).
  { clear W Z E. induction G as [|c cs Gc _ IH]; [reflexivity|].
    cbn [map]. rewrite IH, (flip_twice n c Gc). reflexivity. }
  destruct (tokenize_commands n Hn (lit 0) o' eq_refl eq_refl
              (map (flipCommand (lit 0)) cs)) as (t & T & A).
  - apply Forall_map. clear Z E M.
    induction W as [|c cs Wc _ IH]; constructor; [|apply IH; inversion G; assumption].
    cbn beta. inversion G as [|? ? Gc]. subst. rewrite (flip_twice n c Gc). exact Wc.
  - rewrite closesOnce_flip. exact Z.
  - exists t. rewrite E, T, A, M. split; reflexivity.
Qed.

End Straight.

(** Without the flip [fromSVG] reads back what [toPathData] writes: with
    [flipY: false] on both sides, the same [decimalPlaces] (at most 6) and
    the same [optimize], the commands come back coordinate for coordinate
    when every coordinate has at most [decimalPlaces] decimals and is below
    10^21 in absolute value, no close command follows a close command, and
    [optimizeCommands] has nothing to drop, if [optimize] is on. A number
    as the argument of [toPathData] stands for these options with
    [optimize] off. *)
Theorem round_trip_without_flip (decimalPlaces : option nat) (optimize : option bool)
    (p q : Path rat) :
  (assigned 2%nat decimalPlaces <= 6)%nat ->
  drawnOnGrid (assigned 2%nat decimalPlaces) (commands p) = true ->
  forallb (fun c => forallb below21 (coordinates c)) (commands p) = true ->
  closesOnce (commands p) = true ->
  (assigned true optimize = true -> optimizeCommands (commands p) = commands p) ->
  fromSVG (toPathData (inr (straight decimalPlaces optimize)) p)
          (straight decimalPlaces optimize) q
  = Ok (set_commands (commands p) q)
  /\ toPathData (inl (assigned 2%nat decimalPlaces)) p
     = toPathData (inr (straight decimalPlaces (Some false))) p.
Proof.
  intros Hn G W Z O. split; [|reflexivity].
  set (n := assigned 2%nat decimalPlaces) in *.
  apply drawnOnGrid_spec in G.
  assert (W' : Forall (writable n) (commands p)).
  { clear Z O. induction G as [|c cs Gc _ IH]; constructor.
    - cbn [forallb] in W. apply andb_true_iff in W as [W _].
      unfold onGrid, writable in *.
      induction Gc as [|v vs Gv _ IHv]; constructor.
      + cbn [forallb] in W. apply andb_true_iff in W as [W _].
        apply below21_plainNumber; assumption.
      + cbn [forallb] in W. apply andb_true_iff in W as [_ W]. apply IHv, W.
    - cbn [forallb] in W. apply andb_true_iff in W as [_ W]. apply IH, W. }
  unfold toPathData, fromSVG. rewrite list_ascii_of_string_of_list_ascii.
  unfold pathData.
  cbn [createSVGOutputOptions straight SVG.decimalPlaces SVG.optimize SVG.flipY
       SVG.flipYBase out_optimize out_flipY out_flipYBase assigned].
  fold n.
  assert (C : (if assigned true optimize
               then optimizeCommands (jsonCopy (commands p)) else commands p) = commands p).
  { destruct (assigned true optimize); [apply O|]; reflexivity. }
  cbv zeta. rewrite C.
  change (createSVGParsingOptions (straight decimalPlaces optimize))
    with (mkParsing (Some n) (assigned true optimize) false (lit 0) (lit 1) (lit 0) (lit 0)).
  cbn [in_decimalPlaces in_optimize in_flipY in_flipYBase].
  destruct (tokenize_straight n Hn
              (mkOutput (Some n) (assigned true optimize) false None) QNaN
              (commands p) eq_refl eq_refl W' Z) as (t & T & A).
  rewrite T. rewrite A. cbn [parsed].
  assert (C' : (if assigned true optimize
                then optimizeCommands (commands p) else commands p) = commands p).
  { destruct (assigned true optimize); [apply O|]; reflexivity. }
  rewrite C'. f_equal. f_equal.
  clear T A C C' W W' Z O. induction G as [|c cs Gc _ IH]; [reflexivity|].
  cbn [map]. rewrite IH, (place_straight n _ c Gc). reflexivity.
Qed.

(** The round trip of [leaf], with three decimal places and without the
    optimization. *)
Lemma round_trip_without_flip_witness :
  fromSVG (toPathData (inr (straight (Some 3%nat) (Some false))) leaf)
          (straight (Some 3%nat) (Some false)) Path.new
  = Ok (set_commands (commands leaf) Path.new)
  /\ toPathData (inl 3%nat) leaf
     = toPathData (inr (straight (Some 3%nat) (Some false))) leaf.
Proof.
  apply (round_trip_without_flip (Some 3%nat) (Some false) leaf Path.new).
  - cbn. lia.
  - vm_compute. reflexivity.
  - vm_compute. reflexivity.
  - reflexivity.
  - intros C. discriminate C.
Defined.

End TextFacts.

(** ** The round trip within the rounding tolerance *)

Module Tolerance.
Import Rat Path SVG BBox RoundTrip OrderFacts TextFacts.
Local Open Scope list_scope.

(** *** Binary fixed-point numbers *)

(** [v] is a multiple of 2^-19 and below 2^30 in absolute value. The sum
    of two such numbers and the difference of that sum and a third one are
    exact in binary64: they are multiples of 2^-19 below 2^32, which have 51
    binary digits. *)
Definition fixedPoint (v : rat) : bool :=
  match v with
  | Rat q =>
      Qc_eqb (zq (Qfloor (this q * inject_Z (2 ^ 19))%Q) / zq (2 ^ 19))%Qc q
      && Qc_ltb q (zq (2 ^ 30)) && Qc_ltb (zq (- 2 ^ 30)) q
  | QNaN => false
  end.

(** A multiple of 2^-19 below [bound]. *)
Definition dyadic (bound : Qc) (q : Qc) : Prop :=
  exists m : Z, q = (zq m / zq (2 ^ 19))%Qc /\ (- bound < q)%Qc /\ (q < bound)%Qc.

Lemma zq_two_neq : zq (2 ^ 19) <> 0%Qc.
Proof. intros C. apply (zq_inj _ 0) in C. discriminate. Qed.

Lemma zq_0 : zq 0 = 0%Qc.
Proof. reflexivity. Qed.

Lemma fixedPoint_dyadic v :
  fixedPoint v = true -> exists q, v = Rat q /\ dyadic (zq (2 ^ 30)) q.
Proof.
  destruct v as [|q]; [discriminate|]. cbn [fixedPoint]. intros E.
  apply andb_true_iff in E as [E U]. apply andb_true_iff in E as [E L].
  apply Qc_eqb_eq in E. apply Qc_ltb_lt in L, U.
  exists q. split; [reflexivity|]. eexists. split; [symmetry; exact E|].
  split; [|exact L]. rewrite <- zq_opp. exact U.
Qed.

Lemma dyadic_add a b x y : dyadic a x -> dyadic b y -> dyadic (a + b) (x + y).
Proof.
  intros (m & -> & L1 & U1) (k & -> & L2 & U2). exists (m + k)%Z. split.
  - rewrite zq_add. field. apply zq_two_neq.
  - set (u := (zq m / zq (2 ^ 19))%Qc) in *. set (v := (zq k / zq (2 ^ 19))%Qc) in *.
    clearbody u v. split; qc_lra.
Qed.

Lemma dyadic_sub a b x y : dyadic a x -> dyadic b y -> dyadic (a + b) (x - y).
Proof.
  intros (m & -> & L1 & U1) (k & -> & L2 & U2). exists (m - k)%Z. split.
  - rewrite zq_sub. field. apply zq_two_neq.
  - set (u := (zq m / zq (2 ^ 19))%Qc) in *. set (v := (zq k / zq (2 ^ 19))%Qc) in *.
    clearbody u v. split; qc_lra.
Qed.

(** The fractional part of a multiple of 2^-19 is 0 or at least 2^-19,
    which is more than 10^-6. *)
Lemma dyadic_not_tiny bound q : dyadic bound q -> tiny q = false.
Proof.
  intros (m & E & _). unfold tiny.
  destruct (Qc_ltb (Q2Qc 0) (fraction q)) eqn:P; [|reflexivity].
  destruct (Qc_ltb (fraction q) (decimal 1 6)) eqn:S; [|reflexivity].
  exfalso. apply Qc_ltb_lt in P, S.
  set (z := (m - Qfloor (this q) * 2 ^ 19)%Z).
  assert (F : fraction q = (zq z / zq (2 ^ 19))%Qc).
  { unfold fraction, z. rewrite zq_sub, zq_mul. rewrite E at 1. field. apply zq_two_neq. }
  rewrite F in P, S. change (Q2Qc 0) with 0%Qc in P.
  assert (T0 : (0 < zq (2 ^ 19))%Qc) by (apply (zq_lt 0); reflexivity).
  assert (Z1 : (0 < z)%Z).
  { apply zq_lt. rewrite zq_0.
    apply (Qcmult_lt_compat_r _ _ _ T0) in P.
    replace (0 * zq (2 ^ 19))%Qc with 0%Qc in P by ring.
    replace (zq z / zq (2 ^ 19) * zq (2 ^ 19))%Qc with (zq z) in P
      by (field; apply zq_two_neq).
    exact P. }
  assert (Z2 : (z * 1000000 < 2 ^ 19)%Z).
  { rewrite decimal_zq in S. change (ten 6) with 1000000%Z in S.
    assert (M0 : (0 < zq 1000000)%Qc) by (apply (zq_lt 0); reflexivity).
    apply (Qcmult_lt_compat_r _ _ _ T0) in S.
    apply (Qcmult_lt_compat_r _ _ _ M0) in S.
    replace (zq z / zq (2 ^ 19) * zq (2 ^ 19) * zq 1000000)%Qc
      with (zq (z * 1000000)) in S
      by (rewrite zq_mul; field; apply zq_two_neq).
    replace (zq 1 / zq 1000000 * zq (2 ^ 19) * zq 1000000)%Qc with (zq (2 ^ 19)) in S.
    - apply (proj1 (zq_lt _ _)) in S. exact S.
    - change (zq 1) with 1%Qc. field. intros C. apply (zq_inj _ 0) in C. discriminate. }
  lia.
Qed.

(** *** A number and its rounding *)

Lemma halfUp_mono (n : nat) (q1 q2 : Qc) :
  (q1 <= q2)%Qc -> (halfUp q1 n <= halfUp q2 n)%Qc.
Proof.
  intros L. unfold halfUp. pose proof (ten_pos n) as P.
  apply Qcnot_lt_le. intros C. apply decimal_lt in C.
  assert (M : (Qfloor (this q1 * inject_Z (ten n) + (1 # 2))
               <= Qfloor (this q2 * inject_Z (ten n) + (1 # 2)))%Z).
  { apply Qfloor_resp_le. apply Qplus_le_compat; [|apply Qle_refl].
    apply Qmult_le_compat_r; [exact L|].
    change 0%Q with (inject_Z 0). rewrite <- Zle_Qle. lia. }
  nia.
Qed.

Lemma halfUp_0 (n : nat) : halfUp 0%Qc n = 0%Qc.
Proof.
  unfold halfUp.
  replace (Qfloor (this 0%Qc * inject_Z (ten n) + (1 # 2))%Q) with 0%Z;
    [apply decimal_0|].
  symmetry. apply Qfloor_unique.
  - change (this 0%Qc) with 0%Q. change (inject_Z 0) with 0%Q. Lqa.lra.
  - change (this 0%Qc) with 0%Q. change (inject_Z (0 + 1)) with 1%Q. Lqa.lra.
Qed.

(** [halfUp] as a number of units of 10^-n. *)
Definition units (q : Qc) (n : nat) : Z := Qfloor (this q * inject_Z (ten n) + (1 # 2))%Q.

Lemma halfUp_units q n : halfUp q n = decimal (units q n) n.
Proof. reflexivity. Qed.

Lemma half_unit (n : nat) : (decimal 5 (S n) <= decimal 5 1)%Qc /\ (decimal 5 1 + decimal 5 1)%Qc = 1%Qc.
Proof. split; [apply decimal_5_le | apply Qc_is_canon; reflexivity]. Qed.

(** [Math.round(v) === rounded] on a number and on its rounding. *)
Lemma round_test (n : nat) (q : Qc) :
  Qc_eqb (zq (Qfloor (this q + (1 # 2))%Q)) (halfUp q n)
  = Qc_eqb (zq (Qfloor (this (halfUp q n) + (1 # 2))%Q)) (halfUp q n).
Proof.
  pose proof (ten_pos n) as P.
  destruct (halfUp_near q n) as [L U]. destruct (half_unit n) as [H5 H1].
  rewrite halfUp_units in *. set (K := units q n) in *.
  destruct (Z.eq_dec (K mod ten n) 0) as [D|D].
  - assert (E : K = (K / ten n * ten n)%Z).
    { pose proof (Z.div_mod K (ten n) ltac:(lia)). lia. }
    set (z := (K / ten n)%Z) in *. rewrite E, decimal_whole in *.
    rewrite floor_half.
    replace (Qfloor (this q + (1 # 2))%Q) with z; [reflexivity|].
    symmetry. apply Qfloor_unique.
    + assert (A : (zq z <= q + decimal 5 1)%Qc).
      { set (h := decimal 5 (S n)) in *. set (h1 := decimal 5 1) in *.
        set (zz := zq z) in *. clearbody h h1 zz. qc_lra. }
      unfold Qcle in A. unfold zq in A. to_Q. rewrite this_half in A. exact A.
    + assert (A : (q + decimal 5 1 < zq z + (decimal 5 1 + decimal 5 1))%Qc).
      { set (h := decimal 5 (S n)) in *. set (h1 := decimal 5 1) in *.
        set (zz := zq z) in *. clearbody h h1 zz. qc_lra. }
      rewrite H1 in A.
      unfold Qclt in A. unfold zq in A. to_Q. rewrite this_half in A.
      rewrite inject_Z_plus. exact A.
  - assert (N : forall a, Qc_eqb (zq a) (decimal K n) = false).
    { intros a. destruct (Qc_eqb (zq a) (decimal K n)) eqn:E; [|reflexivity].
      exfalso. apply Qc_eqb_eq in E. rewrite <- (decimal_whole a n) in E.
      apply decimal_inj in E. apply D. rewrite <- E. apply Z.mod_mul. lia. }
    rewrite !N. reflexivity.
Qed.

(** A number whose fractional part is not tiny is written as its rounding
    is. *)
Lemma floatToString_rounded (n : nat) (q : Qc) :
  (n <= 6)%nat -> tiny q = false ->
  floatToString (Some n) (Rat q) = floatToString (Some n) (Rat (halfUp q n)).
Proof.
  intros Hn Tq. unfold floatToString.
  rewrite (roundDecimal_value q n), Tq.
  assert (R : roundDecimal (Rat (halfUp q n)) (Some n) = Rat (halfUp q n))
    by (rewrite halfUp_units; apply roundDecimal_grid, Hn).
  rewrite R.
  assert (E : (round (Rat q) =? Rat (halfUp q n))%js
              = (round (Rat (halfUp q n)) =? Rat (halfUp q n))%js).
  { cbn [round eqb rat_Number qeqb of_Z]. apply round_test. }
  rewrite E. reflexivity.
Qed.

(** The number is not negative, or it is still negative when rounded: it
    is not a negative number that is written as 0. *)
Definition signKept (n : nat) (v : rat) : bool :=
  ((v >=? lit 0) || (roundDecimal v (Some n) <? lit 0))%js.

Lemma geb_rounded (n : nat) (q : Qc) :
  tiny q = false -> signKept n (Rat q) = true ->
  (Rat (halfUp q n) >=? lit 0)%js = (Rat q >=? lit 0)%js.
Proof.
  intros Tq S. unfold signKept in S. rewrite roundDecimal_value, Tq in S.
  unfold geb in *. cbn [leb ltb rat_Number qleb qltb lit of_Z] in *.
  change (Q2Qc (inject_Z 0)) with 0%Qc in *.
  destruct (Qc_leb 0 q) eqn:G.
  - apply Qc_leb_le in G. apply Qc_leb_le. rewrite <- (halfUp_0 n).
    apply halfUp_mono, G.
  - cbn [orb] in S. apply Qc_ltb_lt in S. rewrite Qc_leb_ltb.
    apply negb_false_iff, Qc_ltb_lt, S.
Qed.

(** What [packValues] needs of a number to write it as its rounding. *)
Definition steady (n : nat) (v : rat) : Prop :=
  exists q, v = Rat q /\ tiny q = false /\ signKept n v = true.

Lemma packFrom_rounded (n : nat) (vs : list rat) :
  (n <= 6)%nat -> Forall (steady n) vs ->
  forall first,
    packFrom (Some n) first vs
    = packFrom (Some n) first (map (fun v => roundDecimal v (Some n)) vs).
Proof.
  intros Hn F. induction F as [|v vs (q & -> & Tq & S) _ IH]; intros first; [reflexivity|].
  cbn [map packFrom]. rewrite IH, roundDecimal_value, Tq.
  rewrite (geb_rounded n q Tq S), (floatToString_rounded n q Hn Tq). reflexivity.
Qed.

(** The command with the numbers that are written for it. *)
Definition roundCommand (n : nat) (c : Command) : Command :=
  let r v := roundDecimal v (Some n) in
  match c with
  | MoveTo x y => MoveTo (r x) (r y)
  | LineTo x y => LineTo (r x) (r y)
  | QuadTo x1 y1 x y => QuadTo (r x1) (r y1) (r x) (r y)
  | CurveTo x1 y1 x2 y2 x y => CurveTo (r x1) (r y1) (r x2) (r y2) (r x) (r y)
  | Close => Close
  end.

Lemma coordinates_roundCommand n c :
  coordinates (roundCommand n c) = map (fun v => roundDecimal v (Some n)) (coordinates c).
Proof. destruct c; reflexivity. Qed.

Lemma letter_roundCommand n c : letter (roundCommand n c) = letter c.
Proof. destruct c; reflexivity. Qed.

(** The text of a command is the text of the rounded mirror image, written
    without a flip. *)
Lemma commandData_rounded (n : nat) (o o' : OutputOptions) (base base' : rat) (c : Command) :
  (n <= 6)%nat ->
  out_flipY o = true -> out_decimalPlaces o = Some n ->
  out_flipY o' = false -> out_decimalPlaces o' = Some n ->
  Forall (steady n) (coordinates (flipCommand base c)) ->
  commandData o base c = commandData o' base' (roundCommand n (flipCommand base c)).
Proof.
  intros Hn F P F' P' S.
  rewrite (commandData_flipped o base c F), (commandData_straight o' base' _ F'), P, P'.
  rewrite letter_roundCommand, coordinates_roundCommand. f_equal.
  - destruct c; reflexivity.
  - unfold packValues. apply packFrom_rounded; assumption.
Qed.

(** *** The bounding box of a path of lines *)

(** [a] and [b] are the least and the greatest of [ys]. *)
Definition spans (ys : list Qc) (a b : Qc) : Prop :=
  In a ys /\ In b ys /\ Forall (fun y => (a <= y)%Qc /\ (y <= b)%Qc) ys.

Lemma spans_unique ys a b a' b' : spans ys a b -> spans ys a' b' -> a = a' /\ b = b'.
Proof.
  intros (Ia & Ib & F) (Ia' & Ib' & F'). rewrite List.Forall_forall in F, F'.
  split; apply Qcle_antisym.
  - apply (F a' Ia'). - apply (F' a Ia). - apply (F' b Ib). - apply (F b' Ib').
Qed.

Lemma spans_map ys a b (f : Qc -> Qc) :
  (forall u v, (u <= v)%Qc -> (f v <= f u)%Qc) ->
  spans ys a b -> spans (map f ys) (f b) (f a).
Proof.
  intros M (Ia & Ib & F). rewrite List.Forall_forall in F.
  split; [apply in_map, Ib|]. split; [apply in_map, Ia|].
  rewrite List.Forall_forall. intros y Iy. apply in_map_iff in Iy as (u & <- & Iu).
  split; apply M, (F u Iu).
Qed.

(** The y coordinates of the moves and lines. *)
Definition height (c : Command) : list Qc :=
  match c with
  | MoveTo _ (Rat y) | LineTo _ (Rat y) => [y]
  | _ => []
  end.

Definition heights (cs : list Command) : list Qc := flat_map height cs.

(** Every coordinate is a number. *)
Definition numeric (c : Command) : Prop :=
  Forall (fun v => exists q, v = Rat q) (coordinates c).

(** The box in the loop of [getBoundingBox] after the y coordinates
    [seen]. *)
Definition boxOf (seen : list Qc) (bx : BoundingBox rat) : Prop :=
  (seen = [] /\ bx = BBox.new)
  \/ (exists xa xb a b, bx = mkBox (Rat xa) (Rat a) (Rat xb) (Rat b) /\ spans seen a b).

Lemma spans_snoc seen a b y :
  spans seen a b ->
  spans (seen ++ [y]) (if Qc_ltb y a then y else a) (if Qc_ltb b y then y else b).
Proof.
  intros (Ia & Ib & F).
  split; [|split].
  - destruct (Qc_ltb y a); apply in_or_app; [right; left; reflexivity | left; exact Ia].
  - destruct (Qc_ltb b y); apply in_or_app; [right; left; reflexivity | left; exact Ib].
  - apply Forall_app. split.
    + eapply Forall_impl; [exact F|]. cbn beta. intros u [L U].
      destruct (Qc_ltb y a) eqn:E1; destruct (Qc_ltb b y) eqn:E2;
        try apply Qc_ltb_lt in E1; try apply Qc_ltb_lt in E2; split; qc_lra.
    + apply List.Forall_cons; [|apply List.Forall_nil].
      assert (AB : (a <= b)%Qc).
      { rewrite List.Forall_forall in F. apply (F a Ia). }
      destruct (Qc_ltb y a) eqn:E1; destruct (Qc_ltb b y) eqn:E2;
        try apply Qc_ltb_lt in E1; try apply Qc_ltb_lt in E2;
        try apply Qc_ltb_ge in E1; try apply Qc_ltb_ge in E2; split; qc_lra.
Qed.

Lemma addPoint_boxOf seen bx x y :
  boxOf seen bx -> boxOf (seen ++ [y]) (addPoint (Some (Rat x)) (Some (Rat y)) bx).
Proof.
  intros [[-> ->]|(xa & xb & a & b & -> & S)]; right.
  - exists x, x, y, y. split.
    + unfold addPoint. change (BBox.new (T := rat)) with (mkBox QNaN QNaN QNaN QNaN).
      rewrite widenX_first by reflexivity. rewrite widenY_first by reflexivity. reflexivity.
    + split; [left; reflexivity|]. split; [left; reflexivity|].
      apply List.Forall_cons; [|apply List.Forall_nil]. split; apply Qcle_refl.
  - eexists _, _, _, _. split.
    + unfold addPoint. rewrite widenX_number, widenY_number. reflexivity.
    + apply spans_snoc, S.
Qed.

Lemma boundingStep_boxOf seen s c :
  polyline [c] = true -> numeric c -> boxOf seen (box s) ->
  boxOf (seen ++ height c) (box (boundingStep s c)).
Proof.
  intros P N B. unfold numeric in N.
  destruct c as [u v | u v | | |]; try discriminate; cbn [coordinates] in N.
  - apply Forall_cons in N as [[x ->] N]. apply Forall_cons in N as [[y ->] _].
    cbn [boundingStep box height]. apply addPoint_boxOf, B.
  - apply Forall_cons in N as [[x ->] N]. apply Forall_cons in N as [[y ->] _].
    cbn [boundingStep box height]. apply addPoint_boxOf, B.
  - cbn [boundingStep box height]. rewrite app_nil_r. exact B.
Qed.

Lemma fold_boundingStep_boxOf cs : forall seen s,
  polyline cs = true -> Forall numeric cs -> boxOf seen (box s) ->
  boxOf (seen ++ heights cs) (box (fold_left boundingStep cs s)).
Proof.
  induction cs as [|c cs IH]; intros seen s P N B.
  - cbn [heights flat_map fold_left]. rewrite app_nil_r. exact B.
  - cbn [polyline forallb] in P. apply andb_true_iff in P as [Pc P].
    apply Forall_cons in N as [Nc N]. cbn [fold_left heights flat_map].
    rewrite app_assoc. apply IH; [exact P | exact N |].
    apply boundingStep_boxOf; [|exact Nc | exact B].
    cbn [polyline forallb]. rewrite Pc. reflexivity.
Qed.

(** The [flipYBase] of a path of lines: the sum of the least and the
    greatest y coordinate, and 0 when there is no point. *)
Lemma polyline_base cs :
  polyline cs = true -> Forall numeric cs ->
  (heights cs = [] /\ baseOf cs = Rat 0%Qc)
  \/ (exists a b, spans (heights cs) a b /\ baseOf cs = Rat (a + b)%Qc).
Proof.
  intros P N. unfold baseOf, getBoundingBox.
  set (s0 := mkCursor (BBox.new (T := rat)) (lit 0) (lit 0) (lit 0) (lit 0)).
  assert (B0 : boxOf [] (box s0)) by (left; split; reflexivity).
  pose proof (fold_boundingStep_boxOf cs [] s0 P N B0) as B.
  cbn [app] in B. set (bx := box (fold_left boundingStep cs s0)) in *.
  destruct B as [[E ->]|(xa & xb & a & b & -> & S)].
  - left. split; [exact E|]. vm_compute. reflexivity.
  - right. exists a, b. split; [exact S|]. reflexivity.
Qed.

(** *** The round trip *)

(** Every coordinate is a binary fixed-point number. *)
Definition drawnInBinary (cs : list Command) : bool :=
  forallb (fun c => forallb fixedPoint (coordinates c)) cs.

(** No number that is written, an x coordinate or a difference
    [flipYBase - y], is a negative number that is written as 0. *)
Definition signsKept (n : nat) (cs : list Command) : bool :=
  forallb (fun c => forallb (signKept n) (coordinates (flipCommand (baseOf cs) c))) cs.

(** The commands with the numbers that [toPathData] writes for them,
    which are the commands that [fromSVG] reads. *)
Definition writtenCommands (n : nat) (cs : list Command) : list Command :=
  map (fun c => roundCommand n (flipCommand (baseOf cs) c)) cs.

(** [v] is a number less than [tolerance] away from the number [u]. *)
Definition near (tolerance : Qc) (u v : rat) : Prop :=
  match u, v with
  | Rat a, Rat b => (a - tolerance < b)%Qc /\ (b < a + tolerance)%Qc
  | _, _ => False
  end.

(** [c'] is the command [c] with every x coordinate less than 10^-n and
    every y coordinate less than 2 * 10^-n away. *)
Definition within (n : nat) (c c' : Command) : Prop :=
  match c, c' with
  | MoveTo x y, MoveTo x' y' | LineTo x y, LineTo x' y' =>
      near (decimal 1 n) x x' /\ near (decimal 2 n) y y'
  | QuadTo x1 y1 x y, QuadTo x1' y1' x' y' =>
      near (decimal 1 n) x1 x1' /\ near (decimal 2 n) y1 y1'
      /\ near (decimal 1 n) x x' /\ near (decimal 2 n) y y'
  | CurveTo x1 y1 x2 y2 x y, CurveTo x1' y1' x2' y2' x' y' =>
      near (decimal 1 n) x1 x1' /\ near (decimal 2 n) y1 y1'
      /\ near (decimal 1 n) x2 x2' /\ near (decimal 2 n) y2 y2'
      /\ near (decimal 1 n) x x' /\ near (decimal 2 n) y y'
  | Close, Close => True
  | _, _ => False
  end.

Lemma dyadic_weaken a b q : (a <= b)%Qc -> dyadic a q -> dyadic b q.
Proof. intros L (m & E & Lo & Hi). exists m. split; [exact E|]. clear E. split; qc_lra. Qed.

Lemma dyadic_0 : dyadic (zq (2 ^ 30)) 0%Qc.
Proof.
  exists 0%Z. split; [apply Qc_is_canon; reflexivity|]. split; reflexivity.
Qed.

(** The units of a number below 2^32 are below 10^21 * 10^n. *)
Lemma units_bound (n : nat) (q : Qc) :
  (- zq (2 ^ 32) < q)%Qc -> (q < zq (2 ^ 32))%Qc -> (Z.abs (units q n) < ten (21 + n))%Z.
Proof.
  intros L U. pose proof (ten_pos n) as P. unfold units.
  set (x := (this q * inject_Z (ten n) + (1 # 2))%Q).
  set (K := Qfloor x).
  assert (T0 : (0 < inject_Z (ten n))%Q).
  { change 0%Q with (inject_Z 0). rewrite <- Zlt_Qlt. exact P. }
  assert (U' : (this q * inject_Z (ten n) < inject_Z (2 ^ 32) * inject_Z (ten n))%Q).
  { apply Qmult_lt_compat_r; [exact T0|]. unfold Qclt in U. unfold zq in U. to_Q. exact U. }
  assert (L' : (- inject_Z (2 ^ 32) * inject_Z (ten n) < this q * inject_Z (ten n))%Q).
  { apply Qmult_lt_compat_r; [exact T0|]. unfold Qclt in L. unfold zq in L. to_Q. exact L. }
  assert (A : (K <= 2 ^ 32 * ten n)%Z).
  { unfold K. rewrite <- (floor_half (2 ^ 32 * ten n)). apply Qfloor_resp_le.
    unfold x, zq. cbn [this Q2Qc]. rewrite Qred_correct, inject_Z_mult. Lqa.lra. }
  assert (B : (- (2 ^ 32 * ten n) <= K)%Z).
  { unfold K. rewrite <- (floor_half (- (2 ^ 32 * ten n))). apply Qfloor_resp_le.
    unfold x, zq. cbn [this Q2Qc]. rewrite Qred_correct, inject_Z_opp, inject_Z_mult.
    Lqa.lra. }
  rewrite ten_add. change (ten 21) with (10 ^ 21)%Z. lia.
Qed.

(** What the hypotheses give for one number that is written. *)
Lemma written_number (n : nat) (q : Qc) :
  dyadic (zq (2 ^ 32)) q -> signKept n (Rat q) = true ->
  steady n (Rat q)
  /\ roundDecimal (Rat q) (Some n) = Rat (halfUp q n)
  /\ plainNumber n (Rat (halfUp q n)).
Proof.
  intros D S. pose proof (dyadic_not_tiny _ _ D) as Tq.
  split; [exists q; auto|]. split; [rewrite roundDecimal_value, Tq; reflexivity|].
  exists (units q n). split; [reflexivity|].
  destruct D as (_ & _ & L & U). apply units_bound; assumption.
Qed.

Lemma bound_31 : (zq (2 ^ 30) + zq (2 ^ 30))%Qc = zq (2 ^ 31).
Proof. apply Qc_is_canon. reflexivity. Qed.

Lemma bound_32 : (zq (2 ^ 30) <= zq (2 ^ 32))%Qc /\ (zq (2 ^ 31) + zq (2 ^ 30) <= zq (2 ^ 32))%Qc.
Proof. split; discriminate. Qed.

Lemma placed (q : Qc) : (lit 0 + Rat q * lit 1)%js = Rat q.
Proof.
  cbn [add mul rat_Number lift2 lit of_Z]. f_equal.
  change (Q2Qc (inject_Z 0)) with 0%Qc. change (Q2Qc (inject_Z 1)) with 1%Qc. ring.
Qed.

(** Half a unit of the last decimal place. *)
Lemma half_units (n : nat) :
  (0 < decimal 5 (S n))%Qc
  /\ (decimal 5 (S n) + decimal 5 (S n))%Qc = decimal 1 n
  /\ (decimal 5 (S n) + decimal 5 (S n) + decimal 5 (S n) + decimal 5 (S n))%Qc = decimal 2 n.
Proof.
  pose proof (ten_pos n) as P.
  assert (E : forall k, decimal (k * 10) (S n) = decimal k n).
  { intros k. rewrite !decimal_zq, ten_S, !zq_mul. field.
    split; [apply zq_ten_neq | intros C; apply (zq_inj _ 0) in C; discriminate]. }
  split; [|split].
  - rewrite <- (decimal_0 (S n)). apply decimal_lt. pose proof (ten_pos (S n)). lia.
  - rewrite decimal_add. apply (E 1%Z).
  - rewrite !decimal_add. apply (E 2%Z).
Qed.

Lemma closesOnce_map (g : Command -> Command) (cs : list Command) :
  (forall c, letter (g c) = letter c) -> closesOnce (map g cs) = closesOnce cs.
Proof.
  intros L.
  assert (K : forall c, match g c with Close => c = Close | _ => c <> Close end).
  { intros c. specialize (L c). destruct c; destruct (g _); try discriminate; congruence. }
  induction cs as [|c cs IH]; [reflexivity|].
  cbn [map]. pose proof (K c) as Kc.
  destruct (g c) eqn:Ec; try subst c;
    try (destruct c; try congruence; cbn [closesOnce]; exact IH).
  destruct cs as [|c' cs]; [reflexivity|].
  cbn [map] in *. pose proof (K c') as Kc'.
  destruct (g c') eqn:Ec'; try subst c';
    try (destruct c'; try congruence; cbn [closesOnce] in *; exact IH).
  reflexivity.
Qed.

Section RoundTrip.
Variable n : nat.
Hypothesis Hn : (n <= 6)%nat.

(** The [flipYBase] of the path. *)
Variable bq : Qc.
Hypothesis Dbase : dyadic (zq (2 ^ 31)) bq.

(** The number written for a y coordinate. *)
Definition mirrored (y : Qc) : Qc := halfUp (bq - y) n.

(** A move or a line between binary fixed-point numbers whose signs are
    kept, or a close command. *)
Definition sound (x y : Qc) : Prop :=
  dyadic (zq (2 ^ 30)) x /\ dyadic (zq (2 ^ 30)) y
  /\ signKept n (Rat x) = true /\ signKept n (Rat (bq - y)) = true.

Inductive drawn : Command -> Prop :=
| drawn_move x y : sound x y -> drawn (MoveTo (Rat x) (Rat y))
| drawn_line x y : sound x y -> drawn (LineTo (Rat x) (Rat y))
| drawn_close : drawn Close.

Lemma drawn_spec (c : Command) :
  polyline [c] = true ->
  forallb fixedPoint (coordinates c) = true ->
  forallb (signKept n) (coordinates (flipCommand (Rat bq) c)) = true ->
  drawn c.
Proof.
  intros P B S.
  destruct c as [u v | u v | | |]; try discriminate; [| |constructor];
    cbn [coordinates flipCommand forallb] in B, S;
    apply andb_true_iff in B as [Bu B]; apply andb_true_iff in B as [Bv _];
    apply andb_true_iff in S as [Su S]; apply andb_true_iff in S as [Sv _];
    apply fixedPoint_dyadic in Bu as (x & -> & Dx), Bv as (y & -> & Dy);
    constructor; repeat split; assumption.
Qed.

(** The command that is read for a command of the path. *)
Definition image (c : Command) : Command :=
  match c with
  | MoveTo (Rat x) (Rat y) => MoveTo (Rat (halfUp x n)) (Rat (mirrored y))
  | LineTo (Rat x) (Rat y) => LineTo (Rat (halfUp x n)) (Rat (mirrored y))
  | c => c
  end.

Lemma sound_numbers x y :
  sound x y ->
  dyadic (zq (2 ^ 32)) x /\ dyadic (zq (2 ^ 32)) (bq - y).
Proof.
  intros (Dx & Dy & _). destruct bound_32 as [B1 B2]. split.
  - apply (dyadic_weaken _ _ _ B1 Dx).
  - apply (dyadic_weaken _ _ _ B2). apply dyadic_sub; assumption.
Qed.

Lemma image_rounds c :
  drawn c -> roundCommand n (flipCommand (Rat bq) c) = image c.
Proof.
  intros [x y S | x y S |]; [| |reflexivity];
    destruct (sound_numbers x y S) as [Dx Dy]; destruct S as (_ & _ & Sx & Sy);
    destruct (written_number n x Dx Sx) as (_ & Rx & _);
    destruct (written_number n (bq - y) Dy Sy) as (_ & Ry & _);
    cbn [flipCommand roundCommand image]; rewrite Rx;
    change (Rat bq - Rat y)%js with (Rat (bq - y)); rewrite Ry; reflexivity.
Qed.

Lemma image_steady c :
  drawn c -> Forall (steady n) (coordinates (flipCommand (Rat bq) c)).
Proof.
  intros [x y S | x y S |]; [| |apply List.Forall_nil];
    destruct (sound_numbers x y S) as [Dx Dy]; destruct S as (_ & _ & Sx & Sy);
    destruct (written_number n x Dx Sx) as (Tx & _ & _);
    destruct (written_number n (bq - y) Dy Sy) as (Ty & _ & _);
    cbn [flipCommand coordinates];
    (apply List.Forall_cons; [exact Tx|]);
    (apply List.Forall_cons; [exact Ty|]); apply List.Forall_nil.
Qed.

Lemma image_writable c : drawn c -> writable n (image c).
Proof.
  intros [x y S | x y S |]; [| |apply List.Forall_nil];
    destruct (sound_numbers x y S) as [Dx Dy]; destruct S as (_ & _ & Sx & Sy);
    destruct (written_number n x Dx Sx) as (_ & _ & Px);
    destruct (written_number n (bq - y) Dy Sy) as (_ & _ & Py);
    unfold writable; cbn [image coordinates];
    (apply List.Forall_cons; [exact Px|]);
    (apply List.Forall_cons; [exact Py|]); apply List.Forall_nil.
Qed.

Lemma image_numeric c : drawn c -> numeric c /\ numeric (image c).
Proof.
  intros [x y S | x y S |]; unfold numeric; cbn [image coordinates];
    split; repeat (apply List.Forall_cons; [eexists; reflexivity|]); apply List.Forall_nil.
Qed.

Lemma image_letter c : letter (image c) = letter c.
Proof. destruct c as [[|x] [|y] | [|x] [|y] | | |]; reflexivity. Qed.

Lemma image_polyline c : drawn c -> polyline [image c] = true.
Proof. intros [x y S | x y S |]; reflexivity. Qed.

Lemma image_height c : drawn c -> height (image c) = map mirrored (height c).
Proof. intros [x y S | x y S |]; reflexivity. Qed.

Lemma images_heights cs :
  Forall drawn cs -> heights (map image cs) = map mirrored (heights cs).
Proof.
  unfold heights. induction 1 as [|c l Dc _ IH]; [reflexivity|].
  cbn [map flat_map]. rewrite map_app, IH, (image_height c Dc). reflexivity.
Qed.

Lemma images_polyline cs : Forall drawn cs -> polyline (map image cs) = true.
Proof.
  induction 1 as [|c l Dc _ IH]; [reflexivity|].
  pose proof (image_polyline c Dc) as P. unfold polyline in *.
  cbn [map forallb] in *. rewrite andb_true_r in P. rewrite P. exact IH.
Qed.

Lemma images_numeric cs :
  Forall drawn cs -> Forall numeric cs /\ Forall numeric (map image cs).
Proof.
  induction 1 as [|c l Dc _ [IH1 IH2]]; [split; apply List.Forall_nil|].
  destruct (image_numeric c Dc) as [N1 N2].
  split; cbn [map]; apply List.Forall_cons; assumption.
Qed.

Lemma images_writable cs : Forall drawn cs -> Forall (writable n) (map image cs).
Proof.
  induction 1 as [|c l Dc _ IH]; [apply List.Forall_nil|].
  cbn [map]. apply List.Forall_cons; [apply image_writable, Dc | exact IH].
Qed.

(** The text of the path is the text of its images written without a
    flip. *)
Lemma images_text cs (o o' : OutputOptions) (base' : rat) :
  Forall drawn cs ->
  out_flipY o = true -> out_decimalPlaces o = Some n ->
  out_flipY o' = false -> out_decimalPlaces o' = Some n ->
  flat_map (commandData o (Rat bq)) cs = flat_map (commandData o' base') (map image cs).
Proof.
  intros D F P F' P'. induction D as [|c l Dc _ IH]; [reflexivity|].
  cbn [map flat_map]. rewrite IH. f_equal.
  rewrite <- (image_rounds c Dc).
  apply (commandData_rounded n o o' (Rat bq) base' c Hn F P F' P'), image_steady, Dc.
Qed.

(** The [flipYBase] that [fromSVG] computes for the images. *)
Lemma images_base cs a b :
  Forall drawn cs ->
  spans (heights cs) a b -> bq = (a + b)%Qc ->
  baseOf (map image cs) = Rat (mirrored b + mirrored a)%Qc.
Proof.
  intros D S E.
  assert (M : forall u v, (u <= v)%Qc -> (mirrored v <= mirrored u)%Qc).
  { intros u v L. unfold mirrored. apply halfUp_mono. qc_lra. }
  pose proof (spans_map _ _ _ mirrored M S) as S'. rewrite <- (images_heights cs D) in S'.
  destruct (images_numeric cs D) as [_ N].
  destruct (polyline_base (map image cs) (images_polyline cs D) N)
    as [[E0 _]|(a' & b' & S2 & B)].
  - destruct S' as (I & _). rewrite E0 in I. destruct I.
  - destruct (spans_unique _ _ _ _ _ S2 S') as [-> ->]. exact B.
Qed.

(** What is read for a command lies within the tolerance. *)
Lemma image_within a b optimize c :
  bq = (a + b)%Qc -> drawn c ->
  within n c (place (defaultParsing n optimize) (Rat (mirrored b + mirrored a)%Qc) (image c)).
Proof.
  intros E D.
  destruct (half_units n) as (H0 & H1 & H2).
  assert (K : forall x y, sound x y ->
            near (decimal 1 n) (Rat x) (Rat (halfUp x n))
            /\ near (decimal 2 n) (Rat y)
                    (Rat (mirrored b + mirrored a - mirrored y)%Qc)).
  { intros x y _. clear D. unfold near, mirrored. rewrite E.
    destruct (halfUp_near x n) as [X1 X2].
    destruct (halfUp_near (a + b - b) n) as [B1 B2].
    destruct (halfUp_near (a + b - a) n) as [A1 A2].
    destruct (halfUp_near (a + b - y) n) as [Y1 Y2].
    rewrite <- H1, <- H2.
    set (h := decimal 5 (S n)) in *.
    set (rx := halfUp x n) in *. set (rb := halfUp (a + b - b) n) in *.
    set (ra := halfUp (a + b - a) n) in *. set (ry := halfUp (a + b - y) n) in *.
    clearbody h rx rb ra ry. repeat split; qc_lra. }
  destruct D as [x y S | x y S |]; [| |exact I];
    destruct (K x y S) as [Kx Ky];
    cbn [image place defaultParsing in_x in_y in_scale in_flipY flipped];
    change (Rat (mirrored b + mirrored a) - Rat (mirrored y))%js
      with (Rat (mirrored b + mirrored a - mirrored y));
    rewrite !placed; split; assumption.
Qed.

End RoundTrip.

Lemma heights_nil_drawn n bq cs c :
  Forall (drawn n bq) cs -> heights cs = [] -> In c cs -> c = Close.
Proof.
  intros F E I. unfold heights in E.
  induction F as [|d l Dd _ IH]; [destruct I|].
  cbn [flat_map] in E. apply app_eq_nil in E as [E1 E2].
  destruct I as [->|I]; [|apply IH; assumption].
  destruct Dd; [discriminate | discriminate | reflexivity].
Qed.

Lemma heights_dyadic cs y :
  drawnInBinary cs = true -> In y (heights cs) -> dyadic (zq (2 ^ 30)) y.
Proof.
  intros B Iy. unfold heights in Iy. apply in_flat_map in Iy as (c & Ic & Iy).
  unfold drawnInBinary in B. rewrite forallb_forall in B. specialize (B c Ic).
  destruct c as [u [|v] | u [|v] | | |]; cbn [height] in Iy; try destruct Iy as [<-|[]];
    try destruct Iy; cbn [coordinates forallb] in B;
    apply andb_true_iff in B as [_ B]; apply andb_true_iff in B as [B _];
    apply fixedPoint_dyadic in B as (q & [= <-] & D); exact D.
Qed.

Lemma drawnInBinary_numeric cs : drawnInBinary cs = true -> Forall numeric cs.
Proof.
  apply forallb_Forall. intros c. apply forallb_Forall. intros v F.
  apply fixedPoint_dyadic in F as (q & -> & _). eexists. reflexivity.
Qed.

Lemma drawn_all n bq cs :
  polyline cs = true -> drawnInBinary cs = true ->
  forallb (fun c => forallb (signKept n) (coordinates (flipCommand (Rat bq) c))) cs = true ->
  Forall (drawn n bq) cs.
Proof.
  induction cs as [|c cs IH]; intros P B S; [apply List.Forall_nil|].
  cbn [polyline drawnInBinary forallb] in P, B, S.
  apply andb_true_iff in P as [Pc P]. apply andb_true_iff in B as [Bc B].
  apply andb_true_iff in S as [Sc S].
  apply List.Forall_cons; [|apply IH; assumption].
  apply drawn_spec; [|exact Bc | exact Sc].
  cbn [polyline forallb]. rewrite Pc. reflexivity.
Qed.

Lemma writtenCommands_images n bq cs :
  dyadic (zq (2 ^ 31)) bq -> baseOf cs = Rat bq -> Forall (drawn n bq) cs ->
  writtenCommands n cs = map (image n bq) cs.
Proof.
  intros Db E D. unfold writtenCommands. rewrite E. clear E.
  induction D as [|c l Dc _ IH]; [reflexivity|].
  cbn [map]. rewrite IH, (image_rounds n bq Db c Dc). reflexivity.
Qed.

Lemma Forall2_images {A B} (R : A -> B -> Prop) (g : A -> B) (l : list A) :
  (forall a, In a l -> R a (g a)) -> Forall2 R l (map g l).
Proof.
  induction l as [|a l IH]; intros H; [constructor|].
  cbn [map]. constructor; [apply H; left; reflexivity|].
  apply IH. intros a' I. apply H. right. exact I.
Qed.

(** C6, amended. [fromSVG] on the text that [toPathData] writes, both
    with the default [flipY] and no [flipYBase], [scale], [x] or [y], and
    with the same [decimalPlaces] (at most 6) and [optimize], gives back the
    commands of the path, of the same types in the same order, with every
    x coordinate less than one unit and every y coordinate less than two
    units of the last decimal place away from the original, when
    - the path has moves, lines and close commands only,
    - every coordinate is a binary fixed-point number, a multiple of 2^-19
      below 2^30 in absolute value,
    - no number that is written, an x coordinate or a difference
      [y1 + y2 - y], is a negative number that rounds to 0,
    - no close command follows a close command, and
    - [optimizeCommands] has nothing to drop from the path and from the
      commands that are read, if [optimize] is on. *)
Theorem round_trip_within_the_tolerance (decimalPlaces : option nat)
    (optimize : option bool) (p q : Path rat) :
  (assigned 2%nat decimalPlaces <= 6)%nat ->
  polyline (commands p) = true ->
  drawnInBinary (commands p) = true ->
  signsKept (assigned 2%nat decimalPlaces) (commands p) = true ->
  closesOnce (commands p) = true ->
  (assigned true optimize = true ->
   optimizeCommands (commands p) = commands p
   /\ optimizeCommands (writtenCommands (assigned 2%nat decimalPlaces) (commands p))
      = writtenCommands (assigned 2%nat decimalPlaces) (commands p)) ->
  exists cs,
    fromSVG (toPathData (inr (plain decimalPlaces optimize)) p)
            (plain decimalPlaces optimize) q
    = Ok (set_commands cs q)
    /\ Forall2 (within (assigned 2%nat decimalPlaces)) (commands p) cs.
Proof.
  intros Hn P B S Z O.
  set (n := assigned 2%nat decimalPlaces) in *.
  pose proof (drawnInBinary_numeric _ B) as N.
  assert (Base : exists bq, baseOf (commands p) = Rat bq /\ dyadic (zq (2 ^ 31)) bq
                 /\ (heights (commands p) = []
                     \/ exists a b, spans (heights (commands p)) a b /\ bq = (a + b)%Qc)).
  { destruct (polyline_base (commands p) P N) as [[E0 Eb]|(a & b & Sp & Eb)].
    - exists 0%Qc. split; [exact Eb|]. split; [|left; exact E0].
      apply (dyadic_weaken (zq (2 ^ 30))); [discriminate | apply dyadic_0].
    - exists (a + b)%Qc. split; [exact Eb|]. split; [|right; eauto].
      rewrite <- bound_31. destruct Sp as (Ia & Ib & _).
      apply dyadic_add; apply (heights_dyadic (commands p)); assumption. }
  destruct Base as (bq & Eb & Db & Sp).
  unfold signsKept in S. rewrite Eb in S.
  pose proof (drawn_all n bq (commands p) P B S) as D.
  pose proof (writtenCommands_images n bq (commands p) Db Eb D) as W.
  set (o' := mkOutput (Some n) (assigned true optimize) false None).
  assert (O1 : assigned true optimize = true -> optimizeCommands (commands p) = commands p)
    by (intros E; apply O, E).
  unfold toPathData, fromSVG.
  rewrite list_ascii_of_string_of_list_ascii, (pathData_plain _ _ _ O1), Eb.
  fold n.
  rewrite (images_text n Hn bq Db (commands p)
             (mkOutput (Some n) (assigned true optimize) true None) o' QNaN D
             eq_refl eq_refl eq_refl eq_refl).
  change (createSVGParsingOptions (plain decimalPlaces optimize))
    with (defaultParsing n (assigned true optimize)).
  cbn [defaultParsing in_decimalPlaces in_optimize in_flipY in_flipYBase].
  assert (Z' : closesOnce (map (image n bq) (commands p)) = true).
  { rewrite closesOnce_map; [exact Z | apply image_letter]. }
  destruct (tokenize_straight n Hn o' QNaN (map (image n bq) (commands p)) eq_refl eq_refl
              (images_writable n bq Db (commands p) D) Z') as (t & T & A).
  rewrite T. cbv zeta. rewrite A. cbn [parsed plain SVG.flipYBase].
  assert (C : (if assigned true optimize
               then optimizeCommands (map (image n bq) (commands p))
               else map (image n bq) (commands p))
              = map (image n bq) (commands p)).
  { destruct (assigned true optimize) eqn:E; [|reflexivity].
    rewrite <- W. apply O. reflexivity. }
  rewrite C.
  fold (baseOf (map (image n bq) (commands p))).
  fold (defaultParsing n (assigned true optimize)).
  eexists. split; [reflexivity|].
  rewrite map_map. apply Forall2_images. intros c Ic.
  assert (Dc : drawn n bq c) by (rewrite List.Forall_forall in D; apply D, Ic).
  destruct Sp as [E0|(a & b & Sp & Ebq)].
  - rewrite (heights_nil_drawn n bq (commands p) c D E0 Ic). exact I.
  - rewrite (images_base n bq (commands p) a b D Sp Ebq).
    apply image_within; assumption.
Qed.

(** A path whose middle y coordinate lies half-way between the two
    others, written with no decimal places. *)
Definition steps : Path rat :=
  set_commands
    [MoveTo (lit 0) (Rat (decimal 5 1)); LineTo (lit 5) (Rat (decimal 15 1));
     LineTo (lit 9) (lit 1)]
    Path.new.

(** The y coordinate 1 comes back as 2: [flipYBase] is 2 and the numbers
    written are 1.5, 0.5 and 1, rounded to 2, 1 and 1; the [flipYBase] of
    what is read is 3. *)
Lemma y_moves_by_a_unit :
  toPathData (inr (plain (Some 0%nat) None)) steps = "M0 2L5 1L9 1"%string
  /\ fromSVG "M0 2L5 1L9 1" (plain (Some 0%nat) None) Path.new
     = Ok (set_commands
             [MoveTo (lit 0) (lit 1); LineTo (lit 5) (lit 2); LineTo (lit 9) (lit 2)]
             Path.new).
Proof. split; vm_compute; reflexivity. Qed.

(** A path of lines between binary fractions, none of them a multiple of
    0.01. *)
Definition kite : Path rat :=
  set_commands
    [MoveTo (Rat (decimal 125 3)) (Rat (decimal 25 2));
     LineTo (Rat (decimal 105 1)) (Rat (decimal 30625 4));
     LineTo (Rat (decimal 7375 3)) (Rat (decimal (-275) 2));
     LineTo (Rat (decimal (-4875) 3)) (Rat (decimal 15 1));
     Close]
    Path.new.

(** The round trip of [kite], with the default options. *)
Lemma round_trip_within_the_tolerance_witness :
  exists cs,
    fromSVG (toPathData (inr (plain None None)) kite) (plain None None) Path.new
    = Ok (set_commands cs Path.new)
    /\ Forall2 (within 2) (commands kite) cs.
Proof.
  apply (round_trip_within_the_tolerance None None kite Path.new).
  - cbn. lia.
  - reflexivity.
  - vm_compute. reflexivity.
  - vm_compute. reflexivity.
  - reflexivity.
  - intros _. split; vm_compute; reflexivity.
Defined.

End Tolerance.

(** ** optimizeCommands: what it keeps *)

Module OptimizeFacts.
Import Path.

Section Optimize.
Context {T : Type} `{Number T}.

(** A curve or a close command. *)
Definition kept (c : PathCommand T) : bool :=
  match c with
  | MoveTo _ _ | LineTo _ _ => false
  | _ => true
  end.

(** A command of the argument and what the result has for it: the command
    itself, or the move to the end of the line that it is. *)
Definition becomes (given result : PathCommand T) : Prop :=
  result = given \/ exists x y, given = LineTo x y /\ result = MoveTo x y.

(** What is left of a list of commands: the curves and the close commands,
    and of the moves and lines a part, in their order. *)
Definition leaves (after before : list (PathCommand T)) : Prop :=
  List.filter kept after = List.filter kept before
  /\ exists part, sublist part before /\ Forall2 becomes part after.

(** The commands that the loop holds, in the order of the result. *)
Definition held (s : Subpaths) : list (PathCommand T) :=
  List.concat (finished s ++ [subpath s]).

Lemma concat_snoc {A} (ls : list (list A)) (l : list A) :
  List.concat (ls ++ [l]) = List.concat ls ++ l.
Proof. rewrite concat_app. cbn [List.concat]. rewrite app_nil_r. reflexivity. Qed.

Lemma held_push (f : list (list (PathCommand T))) sp c u v :
  held (mkSubpaths f (sp ++ [c]) u v) = held (mkSubpaths f sp u v) ++ [c].
Proof. unfold held. cbn [finished subpath]. rewrite !concat_snoc, app_assoc. reflexivity. Qed.

Lemma becomes_refl c : becomes c c.
Proof. left. reflexivity. Qed.

Lemma becomes_trans a b c : becomes a b -> becomes b c -> becomes a c.
Proof.
  intros [->|(x & y & -> & ->)] [->|(x' & y' & E & ->)].
  - left. reflexivity.
  - right. eauto.
  - right. eauto.
  - discriminate.
Qed.

Lemma becomes_all l : Forall2 becomes l l.
Proof. induction l; constructor; [apply becomes_refl | assumption]. Qed.

Lemma sublist_Forall2 (part b c : list (PathCommand T)) :
  sublist part b -> Forall2 becomes c b ->
  exists part', sublist part' c /\ Forall2 becomes part' part.
Proof.
  intros S. revert c. induction S as [|x l1 l2 S IH|x l1 l2 S IH]; intros c F.
  - exists []. split; [apply sublist_nil_l | constructor].
  - apply Forall2_cons_inv_r in F as (y & c' & B & F & ->).
    destruct (IH _ F) as (p & Sp & Fp).
    exists (y :: p). split; [apply sublist_skip, Sp | constructor; assumption].
  - apply Forall2_cons_inv_r in F as (y & c' & B & F & ->).
    destruct (IH _ F) as (p & Sp & Fp).
    exists p. split; [apply sublist_cons, Sp | exact Fp].
Qed.

Lemma Forall2_becomes_trans (a b c : list (PathCommand T)) :
  Forall2 becomes a b -> Forall2 becomes b c -> Forall2 becomes a c.
Proof.
  intros F. revert c. induction F as [|x y l k B F IH]; intros c G.
  - apply Forall2_nil_inv_l in G as ->. constructor.
  - apply Forall2_cons_inv_l in G as (z & c' & B' & G & ->).
    constructor; [eapply becomes_trans; eassumption | apply IH, G].
Qed.

Lemma leaves_refl l : leaves l l.
Proof. split; [reflexivity|]. exists l. split; [reflexivity | apply becomes_all]. Qed.

Lemma leaves_drop_last l c : kept c = false -> leaves l (l ++ [c]).
Proof.
  intros K. split.
  - rewrite List.filter_app. cbn [List.filter]. rewrite K, app_nil_r. reflexivity.
  - exists l. split; [apply sublist_inserts_r; reflexivity | apply becomes_all].
Qed.

Lemma leaves_app_l pre a b : leaves a b -> leaves (pre ++ a) (pre ++ b).
Proof.
  intros [F (part & S & B)]. split.
  - rewrite !List.filter_app, F. reflexivity.
  - exists (pre ++ part). split.
    + apply sublist_app; [reflexivity | exact S].
    + apply Forall2_app; [apply becomes_all | exact B].
Qed.

Lemma leaves_snoc a b c : leaves a b -> leaves (a ++ [c]) (b ++ [c]).
Proof.
  intros [F (part & S & B)]. split.
  - rewrite !List.filter_app, F. reflexivity.
  - exists (part ++ [c]). split.
    + apply sublist_app; [exact S | reflexivity].
    + apply Forall2_app; [exact B | apply becomes_all].
Qed.

Lemma leaves_trans a b c : leaves a b -> leaves b c -> leaves a c.
Proof.
  intros [F (p1 & S1 & B1)] [F' (p2 & S2 & B2)]. split; [congruence|].
  destruct (sublist_Forall2 p1 b p2 S1 B2) as (p & Sp & Bp).
  exists p. split; [etransitivity; eassumption|].
  eapply Forall2_becomes_trans; eassumption.
Qed.

(** The subpath without its move, the line after it made the move. *)
Lemma leaves_shift (l : list (PathCommand T)) :
  is_M (l !! 0%nat) = true ->
  leaves match tail l with c :: rest => retype_M c :: rest | [] => [] end l.
Proof.
  destruct l as [|m l]; [discriminate|]. cbn [lookup list_lookup is_M tail].
  destruct m; try discriminate. intros _.
  destruct l as [|c rest]; split; cbn [List.filter kept].
  - reflexivity.
  - exists []. split; [apply sublist_nil_l | constructor].
  - destruct c; reflexivity.
  - exists (c :: rest). split; [apply sublist_cons; reflexivity|].
    constructor; [|apply becomes_all].
    destruct c; try apply becomes_refl. right. eauto.
Qed.

Lemma optimizeStep_leaves s cmd next :
  leaves (held (optimizeStep s cmd next)) (held s ++ [cmd]).
Proof.
  destruct s as [f sp u v]. unfold optimizeStep. cbn [finished subpath sx sy].
  destruct cmd as [x y | x y | | |].
  - rewrite held_push. apply leaves_refl.
  - repeat match goal with
      | |- context [if ?b then _ else _] => destruct b
      end; rewrite ?held_push;
      first [apply leaves_refl | apply leaves_drop_last; reflexivity].
  - rewrite held_push. apply leaves_refl.
  - rewrite held_push. apply leaves_refl.
  - set (pushed := sp ++ [Close]).
    set (closed := match sp !! 0%nat, sp !! 1%nat, last sp with
                   | Some f0, Some _, Some p =>
                       if is_M (sp !! 0%nat) && is_L (sp !! 1%nat) && is_L (last sp)
                          && field_eqb (cmd_x p) (cmd_x f0) && field_eqb (cmd_y p) (cmd_y f0)
                       then match tail pushed with
                            | c :: rest => retype_M c :: rest
                            | [] => []
                            end
                       else pushed
                   | _, _, _ => pushed
                   end).
    assert (C : leaves closed pushed).
    { unfold closed.
      destruct (sp !! 0%nat) as [f0|] eqn:E0; [|apply leaves_refl].
      destruct (sp !! 1%nat) as [f1|]; [|apply leaves_refl].
      destruct (last sp) as [p|]; [|apply leaves_refl].
      destruct (is_M (Some f0)) eqn:M; cbn [andb]; [|apply leaves_refl].
      match goal with |- context [if ?b then _ else _] => destruct b end;
        [|apply leaves_refl].
      apply leaves_shift. unfold pushed.
      rewrite lookup_app_l by (apply lookup_lt_Some in E0; exact E0).
      rewrite E0. exact M. }
    assert (E : held (mkSubpaths f sp u v) ++ [Close] = List.concat f ++ pushed).
    { unfold held. cbn [finished subpath]. rewrite concat_snoc, <- app_assoc. reflexivity. }
    rewrite E.
    destruct next as [n|]; unfold held; cbn [finished subpath].
    + rewrite !concat_snoc, app_nil_r. apply leaves_app_l, C.
    + rewrite concat_snoc. apply leaves_app_l, C.
Qed.

Lemma optimizeLoop_leaves cs : forall s done,
  leaves (held s) done -> leaves (held (optimizeLoop cs s)) (done ++ cs).
Proof.
  induction cs as [|c cs IH]; intros s done L; cbn [optimizeLoop].
  - rewrite app_nil_r. exact L.
  - replace (done ++ c :: cs) with ((done ++ [c]) ++ cs) by (rewrite <- app_assoc; reflexivity).
    apply IH. eapply leaves_trans; [apply optimizeStep_leaves|].
    apply leaves_snoc, L.
Qed.

(** [optimizeCommands] takes away moves and lines and nothing else. The
    curves and the close commands of the result are those of the argument,
    in their order. The result is a part of the argument, in its order, in
    which some lines have become the moves to their end points. So the
    result is not longer than the argument, and each of its commands is a
    command of the argument or the move to the end of a line of it. *)
Theorem optimizeCommands_drops_moves_and_lines (cs : list (PathCommand T)) :
  List.filter kept (optimizeCommands cs) = List.filter kept cs
  /\ (exists part, sublist part cs /\ Forall2 becomes part (optimizeCommands cs))
  /\ (List.length (optimizeCommands cs) <= List.length cs)%nat
  /\ (forall c, In c (optimizeCommands cs) ->
        In c cs \/ exists x y, c = MoveTo x y /\ In (LineTo x y) cs).
Proof.
  pose proof (optimizeLoop_leaves cs (mkSubpaths [] [] (lit 0) (lit 0)) []
                (leaves_refl _)) as [F (part & S & B)].
  change (held (optimizeLoop cs (mkSubpaths [] [] (lit 0) (lit 0))))
    with (optimizeCommands cs) in *.
  cbn [app] in *.
  split; [exact F|]. split; [exists part; split; assumption|]. split.
  - apply sublist_length in S. apply Forall2_length in B. lia.
  - intros c I.
    assert (D : exists d, In d part /\ becomes d c).
    { clear S F. induction B as [|d c' l k Bd B IH]; [destruct I|].
      destruct I as [<-|I].
      - exists d. split; [left; reflexivity | exact Bd].
      - destruct (IH I) as (d' & I' & B'). exists d'. split; [right|]; assumption. }
    destruct D as (d & I' & Bd).
    assert (Id : In d cs).
    { apply list_elem_of_In. eapply elem_of_sublist; [|exact S].
      apply list_elem_of_In, I'. }
    destruct Bd as [->|(x & y & -> & ->)]; [left; exact Id | right; eauto].
Qed.

End Optimize.
End OptimizeFacts.

(** ** getContours *)

Module ContourFacts.
Import Glyph.
Local Open Scope list_scope.

Section Contours.
Variable Point : Type.
Variable lastPointOfContour : Point -> bool.

(** A contour: points that are not the last of a contour, and one that
    is. *)
Definition contour (c : list Point) : Prop :=
  exists body pt,
    c = body ++ [pt] /\ lastPointOfContour pt = true
    /\ Forall (fun p => lastPointOfContour p = false) body.

(** What the loop has made of the points it has seen. *)
Definition cut (s : Contours Point) (seen : list Point) : Prop :=
  List.concat (contours _ s) ++ currentContour _ s = seen
  /\ Forall contour (contours _ s)
  /\ Forall (fun p => lastPointOfContour p = false) (currentContour _ s).

Lemma contourStep_cut s seen pt :
  cut s seen -> cut (contourStep _ lastPointOfContour s pt) (seen ++ [pt]).
Proof.
  intros (E & C & U). unfold contourStep.
  destruct (lastPointOfContour pt) eqn:F; unfold cut; cbn [contours currentContour].
  - split; [|split].
    + rewrite concat_app. cbn [List.concat]. rewrite !app_nil_r, <- E, app_assoc.
      reflexivity.
    + apply Forall_app. split; [exact C|]. constructor; [|constructor].
      exists (currentContour _ s), pt. auto.
    + constructor.
  - split; [|split].
    + rewrite <- E, app_assoc. reflexivity.
    + exact C.
    + apply Forall_app. split; [exact U|]. constructor; [exact F | constructor].
Qed.

Lemma fold_contourStep_cut pts : forall s seen,
  cut s seen -> cut (fold_left (contourStep _ lastPointOfContour) pts s) (seen ++ pts).
Proof.
  induction pts as [|pt pts IH]; intros s seen C; cbn [fold_left].
  - rewrite app_nil_r. exact C.
  - replace (seen ++ pt :: pts) with ((seen ++ [pt]) ++ pts)
      by (rewrite <- app_assoc; reflexivity).
    apply IH, contourStep_cut, C.
Qed.

(** [getContours] cuts the points after every point that is the last of a
    contour. When it returns, the contours put together are the points, in
    their order, and every contour ends with its only last point; it throws
    exactly when points are left over, that is when the last of the points
    is not the last of a contour. Transformed points take the place of the
    points of the glyph, and a glyph without points has no contours. *)
Theorem getContours_cuts_after_the_last_points (points : list Point) :
  match getContours _ lastPointOfContour (Some points) None with
  | Ok cs => List.concat cs = points /\ Forall contour cs
  | Throw m =>
      m = pointsLeft
      /\ exists pt, last points = Some pt /\ lastPointOfContour pt = false
  end
  /\ (forall own, getContours _ lastPointOfContour own (Some points)
                  = getContours _ lastPointOfContour (Some points) None)
  /\ getContours _ lastPointOfContour None None = Ok [].
Proof.
  split; [|split; [intros [own|]; reflexivity | reflexivity]].
  set (s := fold_left (contourStep _ lastPointOfContour) points (mkContours _ [] [])).
  change (getContours _ lastPointOfContour (Some points) None)
    with (match Check.argument (Nat.eqb (List.length (currentContour _ s)) 0) pointsLeft with
          | Ok _ => Ok (contours _ s)
          | Throw m => Throw m
          end).
  destruct (fold_contourStep_cut points (mkContours _ [] []) []) as (E & C & U).
  { repeat split; constructor. }
  fold s in E, C, U. cbn [app] in E.
  destruct (currentContour _ s) as [|pt rest] eqn:L.
  - cbn [List.length Nat.eqb Check.argument negb]. rewrite app_nil_r in E.
    split; assumption.
  - cbn [List.length Nat.eqb Check.argument negb Check.fail].
    split; [reflexivity|].
    destruct (exists_last (l := pt :: rest)) as (body & z & Ez); [discriminate|].
    exists z. rewrite <- E, Ez, app_assoc, last_snoc. split; [reflexivity|].
    rewrite Ez in U. apply Forall_app in U as [_ U]. inversion U. assumption.
Qed.

End Contours.
End ContourFacts.

(** ** binary64 satisfies the number laws *)

Module Binary64Laws.
Import Float64.

Lemma is_nan_SF (x : float) : PrimFloat.is_nan x = true <-> Prim2SF x = S754_nan.
Proof.
  unfold PrimFloat.is_nan. rewrite FloatAxioms.eqb_spec.
  destruct (Prim2SF x) as [s|s| |s m e] eqn:E; cbn.
  - destruct s; split; discriminate.
  - destruct s; split; discriminate.
  - split; reflexivity.
  - unfold SFeqb, SFcompare. rewrite Z.compare_refl, Pos.compare_cont_refl.
    destruct s; split; discriminate.
Qed.

Lemma is_nan_false (x : float) : PrimFloat.is_nan x = false <-> Prim2SF x <> S754_nan.
Proof.
  rewrite <- is_nan_SF. destruct (PrimFloat.is_nan x); split; congruence.
Qed.

#[global] Instance float_NumberLaws : NumberLaws float.
Proof.
  split.
  - reflexivity.
  - intros a b. cbn [ltb float_Number isNaN]. rewrite FloatAxioms.ltb_spec, !is_nan_false.
    unfold SFltb, SFcompare.
    destruct (Prim2SF a) as [[]|[]| |[] ? ?]; destruct (Prim2SF b) as [[]|[]| |[] ? ?];
      cbn; intros E; try discriminate; split; discriminate.
  - intros a b. cbn [add float_Number isNaN]. rewrite !is_nan_SF, FloatAxioms.add_spec.
    intros ->. reflexivity.
  - intros a b. cbn [add float_Number isNaN]. rewrite !is_nan_SF, FloatAxioms.add_spec.
    intros ->. unfold SF64add, SFadd. destruct (Prim2SF a) as [[]|[]| |[] ? ?]; reflexivity.
  - intros a b. cbn [mul float_Number isNaN]. rewrite !is_nan_SF, FloatAxioms.mul_spec.
    intros ->. reflexivity.
  - intros a b. cbn [mul float_Number isNaN]. rewrite !is_nan_SF, FloatAxioms.mul_spec.
    intros ->. unfold SF64mul, SFmul. destruct (Prim2SF a) as [[]|[]| |[] ? ?]; reflexivity.
Qed.
End Binary64Laws.

(** ** The bounding box of a path *)

Module PathBoxFacts.
Import BBox Path.

(** *** It is never empty *)

Section NeverEmpty.
Context {T : Type} `{NumberLaws T}.
Hypothesis zero_is_a_number : isNaN (lit 0) = false.

Lemma boundingStep_shape (s : Cursor) (c : PathCommand T) :
  (exists hx hy, BoxFacts.Shape (box s) hx hy) ->
  exists hx hy, BoxFacts.Shape (box (boundingStep s c)) hx hy.
Proof.
  intros (hx & hy & S). destruct c; cbn [boundingStep box]; do 2 eexists.
  - apply BoxFacts.addPoint_shape, S.
  - apply BoxFacts.addPoint_shape, S.
  - apply BoxFacts.addBezier_shape, S.
  - apply BoxFacts.addBezier_shape, S.
  - exact S.
Qed.

Lemma fold_boundingStep_shape (cs : list (PathCommand T)) : forall s,
  (exists hx hy, BoxFacts.Shape (box s) hx hy) ->
  exists hx hy, BoxFacts.Shape (box (fold_left boundingStep cs s)) hx hy.
Proof.
  induction cs as [|c cs IH]; intros s S; [exact S|].
  cbn [fold_left]. apply IH, boundingStep_shape, S.
Qed.

(** [getBoundingBox] returns a box that is not empty, whatever the commands
    are: on a path that gave one axis no number, the point (0, 0) is
    added. *)
Theorem getBoundingBox_is_never_empty (cs : list (PathCommand T)) :
  isEmpty (getBoundingBox cs) = false.
Proof.
  unfold getBoundingBox.
  set (s := fold_left boundingStep cs _).
  destruct (isEmpty (box s)) eqn:E; [|exact E].
  destruct (fold_boundingStep_shape cs (mkCursor BBox.new (lit 0) (lit 0) (lit 0) (lit 0)))
    as (hx & hy & S).
  { exists false, false. apply BoxFacts.new_shape. }
  fold s in S.
  apply (BoxFacts.addPoint_shape (Some (lit 0)) (Some (lit 0))) in S.
  rewrite (BoxFacts.shape_isEmpty _ _ _ S).
  cbn [BoxFacts.given]. unfold number. rewrite zero_is_a_number.
  rewrite !orb_true_r. reflexivity.
Qed.

End NeverEmpty.

(** In binary64, the box of a path whose only move goes to a point
    without a y coordinate. *)
Lemma getBoundingBox_is_never_empty_witness :
  isEmpty (getBoundingBox [MoveTo 3%float PrimFloat.nan; Close]) = false.
Proof.
  apply (getBoundingBox_is_never_empty (T := float)). reflexivity.
Defined.

(** *** It holds the outline, and nothing more *)

Import Real RealCurve RealBox.
Local Open Scope R_scope.

(** A command with the coordinates [R], as a command of the program. *)
Definition numbered (c : PathCommand R) : PathCommand real :=
  match c with
  | MoveTo x y => MoveTo (Fin x) (Fin y)
  | LineTo x y => LineTo (Fin x) (Fin y)
  | QuadTo x1 y1 x y => QuadTo (Fin x1) (Fin y1) (Fin x) (Fin y)
  | CurveTo x1 y1 x2 y2 x y =>
      CurveTo (Fin x1) (Fin y1) (Fin x2) (Fin y2) (Fin x) (Fin y)
  | Close => Close
  end.

(** The point at [t] of the straight line from [a] to [b]. *)
Definition line (a b t : R) : R := (1 - t) * a + t * b.

(** The points that one command draws, with the pen at [prev] and the
    subpath begun at [start]: the point of a move, the points of a line, of
    a quadratic and of a cubic curve from the pen to the end point, and the
    points of the line with which a close command returns to the start. *)
Definition drawnBy (prev start : R * R) (c : PathCommand R) (pt : R * R) : Prop :=
  match c with
  | MoveTo x y => pt = (x, y)
  | LineTo x y =>
      exists t, 0 <= t <= 1 /\ pt = (line (fst prev) x t, line (snd prev) y t)
  | QuadTo x1 y1 x y =>
      exists t, 0 <= t <= 1 /\ pt = (quad (fst prev) x1 x t, quad (snd prev) y1 y t)
  | CurveTo x1 y1 x2 y2 x y =>
      exists t, 0 <= t <= 1
                /\ pt = (cubic (fst prev) x1 x2 x t, cubic (snd prev) y1 y2 y t)
  | Close =>
      exists t, 0 <= t <= 1
                /\ pt = (line (fst prev) (fst start) t, line (snd prev) (snd start) t)
  end.

(** Where the command leaves the pen, and where the subpath began. *)
Definition penAfter (prev start : R * R) (c : PathCommand R) : (R * R) * (R * R) :=
  match c with
  | MoveTo x y => ((x, y), (x, y))
  | LineTo x y | QuadTo _ _ x y | CurveTo _ _ _ _ x y => ((x, y), start)
  | Close => (start, start)
  end.

(** The points that the commands draw. *)
Fixpoint outline (prev start : R * R) (cs : list (PathCommand R)) (pt : R * R) : Prop :=
  match cs with
  | [] => False
  | c :: rest =>
      drawnBy prev start c pt
      \/ outline (fst (penAfter prev start c)) (snd (penAfter prev start c)) rest pt
  end.

(** The box holds every point of [Q]. *)
Definition holds (Q : R * R -> Prop) (b : BoundingBox real) : Prop :=
  forall pt, Q pt -> spansX b (fst pt) /\ spansY b (snd pt).

(** Every side of the box goes through a point of [Q]. *)
Definition touches (Q : R * R -> Prop) (b : BoundingBox real) : Prop :=
  (forall v, x1 b = Fin v -> exists pt, Q pt /\ fst pt = v)
  /\ (forall v, x2 b = Fin v -> exists pt, Q pt /\ fst pt = v)
  /\ (forall v, y1 b = Fin v -> exists pt, Q pt /\ snd pt = v)
  /\ (forall v, y2 b = Fin v -> exists pt, Q pt /\ snd pt = v).

(** **** A box never loses a point *)

Lemma widenX_keeps b w v : spansX b v -> spansX (widenX w b) v.
Proof.
  destruct w as [|w]; [|apply widenX_spans_mono].
  intros (lo & hi & E1 & E2 & B). exists lo, hi.
  destruct b as [a1 c1 a2 c2]; cbn [x1 x2] in *; subst. split; [|split]; auto.
Qed.

Lemma widenY_keeps b w v : spansY b v -> spansY (widenY w b) v.
Proof.
  destruct w as [|w]; [|apply widenY_spans_mono].
  intros (lo & hi & E1 & E2 & B). exists lo, hi.
  destruct b as [a1 c1 a2 c2]; cbn [y1 y2] in *; subst. split; [|split]; auto.
Qed.

Lemma addPoint_keeps x y b u v :
  (spansX b u -> spansX (addPoint x y b) u) /\ (spansY b v -> spansY (addPoint x y b) v).
Proof.
  unfold addPoint. split; intros S; destruct x as [x|], y as [y|];
    auto using widenX_keeps, widenY_keeps, widenX_spansY, widenY_spansX.
Qed.

Lemma bezierPass_keeps (addV : real -> BoundingBox real -> BoundingBox real)
    (P : BoundingBox real -> Prop) v0 v1 v2 v3 b :
  (forall w b, P b -> P (addV w b)) -> P b -> P (bezierPass addV v0 v1 v2 v3 b).
Proof.
  intros A Pb. unfold bezierPass.
  repeat match goal with |- context [if ?c then _ else _] => destruct c end; auto.
Qed.

Lemma addBezier_keeps x0 y0 cx1 cy1 cx2 cy2 x y b u v :
  (spansX b u -> spansX (addBezier x0 y0 cx1 cy1 cx2 cy2 x y b) u)
  /\ (spansY b v -> spansY (addBezier x0 y0 cx1 cy1 cx2 cy2 x y b) v).
Proof.
  unfold addBezier. split; intros S.
  - do 2 (apply (bezierPass_keeps addY (fun b => spansX b u));
            [intros w b'; apply (proj1 (addPoint_keeps None (Some w) b' u u))|]).
    do 2 (apply (bezierPass_keeps addX (fun b => spansX b u));
            [intros w b'; apply (proj1 (addPoint_keeps (Some w) None b' u u))|]).
    do 2 apply (proj1 (addPoint_keeps _ _ _ u u)). exact S.
  - do 2 (apply (bezierPass_keeps addY (fun b => spansY b v));
            [intros w b'; apply (proj2 (addPoint_keeps None (Some w) b' v v))|]).
    do 2 (apply (bezierPass_keeps addX (fun b => spansY b v));
            [intros w b'; apply (proj2 (addPoint_keeps (Some w) None b' v v))|]).
    do 2 apply (proj2 (addPoint_keeps _ _ _ v v)). exact S.
Qed.

Lemma apply_keeps op b u v :
  (spansX b u -> spansX (apply b op) u) /\ (spansY b v -> spansY (apply b op) v).
Proof.
  destruct op; cbn [apply]; unfold addX, addY, addQuad;
    first [apply addPoint_keeps | apply addBezier_keeps].
Qed.



(** **** The loop of getBoundingBox *)

(** The state of the loop with the pen at [prev] and the subpath begun at
    [start]. *)
Definition cursor (bx : BoundingBox real) (prev start : R * R) : Cursor :=
  mkCursor bx (Fin (fst start)) (Fin (snd start)) (Fin (fst prev)) (Fin (snd prev)).

Lemma boundingStep_pen bx prev start c :
  boundingStep (cursor bx prev start) (numbered c) =
  cursor (box (boundingStep (cursor bx prev start) (numbered c)))
         (fst (penAfter prev start c)) (snd (penAfter prev start c)).
Proof. destruct c, prev, start; reflexivity. Qed.

Section Along.

(** What is known of the box when its commands so far have drawn [Q]. *)
Variable known : (R * R -> Prop) -> BoundingBox real -> Prop.

Hypothesis known_same : forall (Q Q' : R * R -> Prop) bx,
  (forall pt, Q pt <-> Q' pt) -> known Q bx -> known Q' bx.

Hypothesis known_step : forall (Q : R * R -> Prop) bx prev start c,
  Q prev -> Q start -> known Q bx ->
  known (fun pt => Q pt \/ drawnBy prev start c pt)
        (box (boundingStep (cursor bx prev start) (numbered c))).

Lemma pen_is_drawn (Q : R * R -> Prop) prev start c :
  Q prev -> Q start ->
  (Q (fst (penAfter prev start c)) \/ drawnBy prev start c (fst (penAfter prev start c)))
  /\ (Q (snd (penAfter prev start c)) \/ drawnBy prev start c (snd (penAfter prev start c))).
Proof.
  intros P S.
  assert (E : forall a b, (line a b 1, line a b 1) = (b, b)) by (intros; unfold line; f_equal; ring).
  destruct c as [x y | x y | x1' y1' x y | x1' y1' x2' y2' x y |];
    cbn [penAfter fst snd drawnBy].
  - split; right; reflexivity.
  - split; [right | left; exact S]. exists 1. split; [lra|]. unfold line. f_equal; ring.
  - split; [right | left; exact S]. exists 1. split; [lra|]. unfold quad. f_equal; ring.
  - split; [right | left; exact S]. exists 1. split; [lra|]. unfold cubic. f_equal; ring.
  - split; left; exact S.
Qed.

Lemma fold_known rest : forall (Q : R * R -> Prop) bx prev start,
  Q prev -> Q start -> known Q bx ->
  known (fun pt => Q pt \/ outline prev start rest pt)
        (box (fold_left boundingStep (map numbered rest) (cursor bx prev start))).
Proof.
  induction rest as [|c rest IH]; intros Q bx prev start P S K; cbn [map fold_left].
  - cbn [outline cursor box]. eapply known_same; [|exact K]. intros pt. tauto.
  - rewrite boundingStep_pen.
    destruct (pen_is_drawn Q prev start c P S) as [P' S'].
    pose proof (IH (fun pt => Q pt \/ drawnBy prev start c pt) _ _ _ P' S'
                  (known_step Q bx prev start c P S K)) as K'.
    eapply known_same; [|exact K'].
    intros pt. cbn [outline]. tauto.
Qed.

End Along.

(** **** The box holds what is drawn *)

Lemma spansX_line b u v t :
  spansX b u -> spansX b v -> 0 <= t <= 1 -> spansX b (line u v t).
Proof.
  intros (lo & hi & E1 & E2 & B) (lo' & hi' & E1' & E2' & B') T.
  rewrite E1 in E1'. rewrite E2 in E2'. injection E1' as <-. injection E2' as <-.
  exists lo, hi. split; [exact E1 | split; [exact E2|]]. unfold line. nra.
Qed.

Lemma spansY_line b u v t :
  spansY b u -> spansY b v -> 0 <= t <= 1 -> spansY b (line u v t).
Proof.
  intros (lo & hi & E1 & E2 & B) (lo' & hi' & E1' & E2' & B') T.
  rewrite E1 in E1'. rewrite E2 in E2'. injection E1' as <-. injection E2' as <-.
  exists lo, hi. split; [exact E1 | split; [exact E2|]]. unfold line. nra.
Qed.

Lemma addPoint_spans x y b :
  spansX (addPoint (Some (Fin x)) (Some (Fin y)) b) x
  /\ spansY (addPoint (Some (Fin x)) (Some (Fin y)) b) y.
Proof.
  unfold addPoint. split; [apply widenY_spansX, widenX_spans_new | apply widenY_spans_new].
Qed.

Lemma holds_same (Q Q' : R * R -> Prop) bx :
  (forall pt, Q pt <-> Q' pt) -> holds Q bx -> holds Q' bx.
Proof. intros E K pt I. apply K, E, I. Qed.

Lemma holds_step (Q : R * R -> Prop) bx prev start c :
  Q prev -> Q start -> holds Q bx ->
  holds (fun pt => Q pt \/ drawnBy prev start c pt)
        (box (boundingStep (cursor bx prev start) (numbered c))).
Proof.
  intros P S K.
  destruct c as [x y | x y | qx1 qy1 x y | cx1 cy1 cx2 cy2 x y |];
    cbn [numbered boundingStep cursor box prevX prevY startX startY];
    intros pt [I|I].
  - destruct (K pt I). split; apply addPoint_keeps; assumption.
  - cbn [drawnBy] in I. subst pt. apply addPoint_spans.
  - destruct (K pt I). split; apply addPoint_keeps; assumption.
  - destruct I as (t & T & ->). cbn [fst snd].
    destruct (K prev P) as [KX KY].
    destruct (addPoint_spans x y bx) as [NX NY].
    split; [apply spansX_line | apply spansY_line]; try assumption;
      apply addPoint_keeps; assumption.
  - destruct (K pt I). split; apply addBezier_keeps; assumption.
  - destruct I as (t & T & ->). cbn [fst snd]. apply addQuad_holds_arc, T.
  - destruct (K pt I). split; apply addBezier_keeps; assumption.
  - destruct I as (t & T & ->). cbn [fst snd]. apply addBezier_holds_arc, T.
  - apply K, I.
  - destruct I as (t & T & ->). cbn [fst snd].
    destruct (K prev P), (K start S).
    split; [apply spansX_line | apply spansY_line]; assumption.
Qed.

(** **** The sides of the box go through what is drawn *)

Lemma touches_same (Q Q' : R * R -> Prop) bx :
  (forall pt, Q pt <-> Q' pt) -> touches Q bx -> touches Q' bx.
Proof.
  intros E (A & B & C & D).
  repeat split; intros v F;
    [destruct (A v F) as (pt & I & G) | destruct (B v F) as (pt & I & G)
     | destruct (C v F) as (pt & I & G) | destruct (D v F) as (pt & I & G)];
    exists pt; split; try assumption; apply E, I.
Qed.

Lemma touches_more (Q Q' : R * R -> Prop) bx :
  (forall pt, Q pt -> Q' pt) -> touches Q bx -> touches Q' bx.
Proof.
  intros E (A & B & C & D).
  repeat split; intros v F;
    [destruct (A v F) as (pt & I & G) | destruct (B v F) as (pt & I & G)
     | destruct (C v F) as (pt & I & G) | destruct (D v F) as (pt & I & G)];
    exists pt; split; try assumption; apply E, I.
Qed.

Lemma widenX_touches (Q : R * R -> Prop) b w :
  (exists pt, Q pt /\ fst pt = w) -> touches Q b -> touches Q (widenX (Fin w) b).
Proof.
  intros W (A & B & C & D).
  destruct (BoxFacts.widenX_frame (Fin w) b) as [F1 F2].
  unfold touches. rewrite F1, F2. repeat split; try assumption; intros v E.
  - destruct b as [[|a1] c1 [|a2] c2]; unfold widenX in E; simpl in E;
      repeat match type of E with
        | context [Rlt_dec ?a ?b] => destruct (Rlt_dec a b); simpl in E
        end;
      injection E as <-; first [exact W | apply A; reflexivity].
  - destruct b as [[|a1] c1 [|a2] c2]; unfold widenX in E; simpl in E;
      repeat match type of E with
        | context [Rlt_dec ?a ?b] => destruct (Rlt_dec a b); simpl in E
        end;
      injection E as <-; first [exact W | apply B; reflexivity].
Qed.

Lemma widenY_touches (Q : R * R -> Prop) b w :
  (exists pt, Q pt /\ snd pt = w) -> touches Q b -> touches Q (widenY (Fin w) b).
Proof.
  intros W (A & B & C & D).
  destruct (BoxFacts.widenY_frame (Fin w) b) as [F1 F2].
  unfold touches. rewrite F1, F2. repeat split; try assumption; intros v E.
  - destruct b as [a1 [|c1] a2 [|c2]]; unfold widenY in E; simpl in E;
      repeat match type of E with
        | context [Rlt_dec ?a ?b] => destruct (Rlt_dec a b); simpl in E
        end;
      injection E as <-; first [exact W | apply C; reflexivity].
  - destruct b as [a1 [|c1] a2 [|c2]]; unfold widenY in E; simpl in E;
      repeat match type of E with
        | context [Rlt_dec ?a ?b] => destruct (Rlt_dec a b); simpl in E
        end;
      injection E as <-; first [exact W | apply D; reflexivity].
Qed.

Lemma addPoint_touches (Q : R * R -> Prop) b x y :
  Q (x, y) -> touches Q b -> touches Q (addPoint (Some (Fin x)) (Some (Fin y)) b).
Proof.
  intros I K. unfold addPoint.
  apply widenY_touches; [exists (x, y); split; [exact I | reflexivity]|].
  apply widenX_touches; [exists (x, y); split; [exact I | reflexivity]|]. exact K.
Qed.

Local Arguments derive : simpl never.

(** A pass of [addBezier] adds values of the cubic at parameters strictly
    between 0 and 1, and nothing else. *)
Lemma bezierPass_inside (addV : real -> BoundingBox real -> BoundingBox real)
    (P : BoundingBox real -> Prop) v0 v1 v2 v3 b :
  (forall r b, 0 < r < 1 -> P b -> P (addV (Fin (cubic v0 v1 v2 v3 r)) b)) ->
  P b -> P (bezierPass addV (Fin v0) (Fin v1) (Fin v2) (Fin v3) b).
Proof.
  intros A Pb. unfold bezierPass. simpl.
  repeat match goal with
  | |- context [Req_dec_T ?a ?b] => destruct (Req_dec_T a b); simpl
  | |- context [Rlt_dec ?a ?b] => destruct (Rlt_dec a b); simpl
  end; rewrite ?derive_real; try exact Pb;
  repeat (apply A; [lra|]); exact Pb.
Qed.

Lemma addBezier_touches (Q : R * R -> Prop) b x0 y0 cx1 cy1 cx2 cy2 x y :
  (forall t, 0 <= t <= 1 -> Q (cubic x0 cx1 cx2 x t, cubic y0 cy1 cy2 y t)) ->
  touches Q b ->
  touches Q (addBezier (Fin x0) (Fin y0) (Fin cx1) (Fin cy1) (Fin cx2) (Fin cy2)
               (Fin x) (Fin y) b).
Proof.
  intros I K. unfold addBezier.
  assert (I0 : Q (x0, y0)).
  { replace (x0, y0) with (cubic x0 cx1 cx2 x 0, cubic y0 cy1 cy2 y 0)
      by (unfold cubic; f_equal; ring). apply I. lra. }
  assert (I1 : Q (x, y)).
  { replace (x, y) with (cubic x0 cx1 cx2 x 1, cubic y0 cy1 cy2 y 1)
      by (unfold cubic; f_equal; ring). apply I. lra. }
  do 2 (apply (bezierPass_inside addY (touches Q));
          [intros r b' R K'; apply widenY_touches; [|exact K'];
           eexists; split; [apply (I r); lra | reflexivity]|]).
  do 2 (apply (bezierPass_inside addX (touches Q));
          [intros r b' R K'; apply widenX_touches; [|exact K'];
           eexists; split; [apply (I r); lra | reflexivity]|]).
  apply addPoint_touches; [exact I1|]. apply addPoint_touches; [exact I0 | exact K].
Qed.

Lemma quad_as_cubic v0 v1 v2 t :
  quad v0 v1 v2 t =
  cubic v0 (v0 + 2 / 3 * (v1 - v0)) (v0 + 2 / 3 * (v1 - v0) + 1 / 3 * (v2 - v0)) v2 t.
Proof. unfold quad, cubic. field. Qed.

Lemma addQuad_touches (Q : R * R -> Prop) b x0 y0 qx1 qy1 x y :
  (forall t, 0 <= t <= 1 -> Q (quad x0 qx1 x t, quad y0 qy1 y t)) ->
  touches Q b ->
  touches Q (addQuad (Fin x0) (Fin y0) (Fin qx1) (Fin qy1) (Fin x) (Fin y) b).
Proof.
  intros I K. unfold addQuad. simpl.
  destruct (Req_dec_T 3 0) as [E|_]; [lra|].
  apply addBezier_touches; [|exact K].
  intros t T. rewrite <- !quad_as_cubic. apply I, T.
Qed.

Lemma touches_step (Q : R * R -> Prop) bx prev start c :
  Q prev -> Q start -> touches Q bx ->
  touches (fun pt => Q pt \/ drawnBy prev start c pt)
          (box (boundingStep (cursor bx prev start) (numbered c))).
Proof.
  intros P S K.
  assert (K' : touches (fun pt => Q pt \/ drawnBy prev start c pt) bx).
  { eapply touches_more; [|exact K]. intros pt I. left. exact I. }
  destruct c as [x y | x y | qx1 qy1 x y | cx1 cy1 cx2 cy2 x y |];
    cbn [numbered boundingStep cursor box prevX prevY startX startY].
  - apply addPoint_touches; [|exact K']. right. reflexivity.
  - apply addPoint_touches; [|exact K']. right. exists 1. split; [lra|].
    unfold line. f_equal; ring.
  - apply addQuad_touches; [|exact K']. intros t T. right. exists t. split; [exact T | reflexivity].
  - apply addBezier_touches; [|exact K']. intros t T. right. exists t.
    split; [exact T | reflexivity].
  - exact K'.
Qed.

(** **** The smallest box *)

(** In exact arithmetic the bounding box of a path that begins with a move
    is the smallest box that holds what the path draws: its four fields are
    numbers, every point of the outline lies between them, and each of the
    four sides goes through a point of the outline. *)
Theorem getBoundingBox_is_the_smallest_box (x y : R) (rest : list (PathCommand R)) :
  exists lo_x lo_y hi_x hi_y,
    getBoundingBox (map numbered (MoveTo x y :: rest))
    = mkBox (Fin lo_x) (Fin lo_y) (Fin hi_x) (Fin hi_y)
    /\ (forall pt, outline (0, 0) (0, 0) (MoveTo x y :: rest) pt ->
          lo_x <= fst pt <= hi_x /\ lo_y <= snd pt <= hi_y)
    /\ (exists pt, outline (0, 0) (0, 0) (MoveTo x y :: rest) pt /\ fst pt = lo_x)
    /\ (exists pt, outline (0, 0) (0, 0) (MoveTo x y :: rest) pt /\ fst pt = hi_x)
    /\ (exists pt, outline (0, 0) (0, 0) (MoveTo x y :: rest) pt /\ snd pt = lo_y)
    /\ (exists pt, outline (0, 0) (0, 0) (MoveTo x y :: rest) pt /\ snd pt = hi_y).
Proof.
  unfold getBoundingBox. cbn [map fold_left numbered].
  change (boundingStep _ (MoveTo (Fin x) (Fin y)))
    with (cursor (addPoint (Some (Fin x)) (Some (Fin y)) BBox.new) (x, y) (x, y)).
  set (b1 := addPoint (Some (Fin x)) (Some (Fin y)) BBox.new).
  set (Q1 := fun pt : R * R => pt = (x, y)).
  assert (H1 : holds Q1 b1).
  { intros pt ->. apply addPoint_spans. }
  assert (T1 : touches Q1 b1).
  { apply addPoint_touches; [reflexivity|].
    repeat split; intros v E; discriminate. }
  pose proof (fold_known holds holds_same holds_step rest Q1 b1 (x, y) (x, y)
                eq_refl eq_refl H1) as Hf.
  pose proof (fold_known touches touches_same touches_step rest Q1 b1 (x, y) (x, y)
                eq_refl eq_refl T1) as Tf.
  set (bx := box (fold_left boundingStep (map numbered rest) (cursor b1 (x, y) (x, y)))) in *.
  assert (O : forall pt, outline (0, 0) (0, 0) (MoveTo x y :: rest) pt
                         <-> Q1 pt \/ outline (x, y) (x, y) rest pt).
  { intros pt. cbn [outline drawnBy penAfter fst snd]. reflexivity. }
  destruct (Hf (x, y) (or_introl eq_refl))
    as [(lo_x & hi_x & EX1 & EX2 & _) (lo_y & hi_y & EY1 & EY2 & _)].
  assert (E : bx = mkBox (Fin lo_x) (Fin lo_y) (Fin hi_x) (Fin hi_y)).
  { destruct bx; cbn [x1 x2 y1 y2] in *; subst; reflexivity. }
  rewrite E in *. cbn [isEmpty x1 x2 y1 y2 isNaN real_Number orb].
  exists lo_x, lo_y, hi_x, hi_y. split; [reflexivity|].
  destruct Tf as (A & B & C & D).
  split; [|split; [|split; [|split]]].
  - intros pt I. apply O in I.
    destruct (Hf pt I) as [(l & h & F1 & F2 & BX) (l' & h' & G1 & G2 & BY)].
    cbn [x1 x2 y1 y2] in *.
    injection F1 as <-. injection F2 as <-. injection G1 as <-. injection G2 as <-.
    split; assumption.
  - destruct (A lo_x eq_refl) as (pt & I & F). exists pt. split; [apply O, I | exact F].
  - destruct (B hi_x eq_refl) as (pt & I & F). exists pt. split; [apply O, I | exact F].
  - destruct (C lo_y eq_refl) as (pt & I & F). exists pt. split; [apply O, I | exact F].
  - destruct (D hi_y eq_refl) as (pt & I & F). exists pt. split; [apply O, I | exact F].
Qed.

End PathBoxFacts.

(** ** extend *)

Module ExtendFacts.
Import Rat BBox Path RoundTrip OrderFacts.

Lemma commands_push {T} (c : PathCommand T) (p : Path T) :
  commands (push c p) = commands p ++ [c].
Proof. reflexivity. Qed.

(** The commands that [extend] appends for a box. *)
Definition rectangle {T} (b : BoundingBox T) : list (PathCommand T) :=
  [MoveTo (x1 b) (y1 b); LineTo (x2 b) (y1 b); LineTo (x2 b) (y2 b);
   LineTo (x1 b) (y2 b); Close].

(** What [extend] appends for each kind of argument. *)
Definition appended {T} (e : Extension (T := T)) : list (PathCommand T) :=
  match e with
  | OfCommands cs => cs
  | OfPath q => commands q
  | OfBox b => rectangle b
  | OfObject (Some cs) => cs
  | OfObject None => []
  end.

Lemma extendWith_appends {T} `{Number T} (e : Extension (T := T)) (p : Path T) :
  extendWith e p = set_commands (commands p ++ appended e) p.
Proof.
  assert (A : forall (cs : list (PathCommand T)) q, extend cs q = set_commands (commands q ++ cs) q).
  { induction cs as [|c cs IH]; intros q; cbn [extend fold_left].
    - rewrite app_nil_r. destruct q; reflexivity.
    - change (fold_left (fun p c => push c p) cs (push c q)) with (extend cs (push c q)).
      rewrite IH. destruct q; unfold push, set_commands.
      cbn [commands Path.fill Path.stroke Path.strokeWidth Path.unitsPerEm
           Path._layers Path._image].
      rewrite <- app_assoc. reflexivity. }
  destruct e as [cs | q | b | [cs|]]; cbn [extendWith appended]; rewrite ?A; try reflexivity.
  - unfold close, lineTo, moveTo, rectangle, push, set_commands. destruct p.
    cbn [commands Path.fill Path.stroke Path.strokeWidth Path.unitsPerEm
         Path._layers Path._image].
    rewrite <- !app_assoc. reflexivity.
  - destruct p; cbn [set_commands commands]. rewrite app_nil_r. reflexivity.
Qed.

(** [extend] with a box draws the box: the commands appended are the move
    to (x1, y1), the lines to (x2, y1), (x2, y2) and (x1, y2) and a close
    command, whatever the path held, and the bounding box of a new path
    extended by a box whose fields are numbers with [x1 <= x2] and
    [y1 <= y2] is that box. *)
Theorem extend_draws_the_box (a1 c1 a2 c2 : Qc) (p : Path rat) :
  (a1 <= a2)%Qc -> (c1 <= c2)%Qc ->
  let b := mkBox (Rat a1) (Rat c1) (Rat a2) (Rat c2) in
  commands (extendWith (OfBox b) p)
  = commands p ++ [MoveTo (Rat a1) (Rat c1); LineTo (Rat a2) (Rat c1);
                   LineTo (Rat a2) (Rat c2); LineTo (Rat a1) (Rat c2); Close]
  /\ getBoundingBox (commands (extendWith (OfBox b) Path.new)) = b.
Proof.
  intros X Y b. rewrite !extendWith_appends. split; [reflexivity|].
  cbn [set_commands commands Path.new app appended rectangle b x1 x2 y1 y2].
  unfold getBoundingBox, rectangle, b. cbn [x1 x2 y1 y2].
  change (BBox.new (T := rat)) with (mkBox QNaN QNaN QNaN QNaN).
  cbn [fold_left boundingStep box addPoint].
  rewrite (widenX_first a1 QNaN QNaN QNaN QNaN eq_refl).
  rewrite (widenY_first c1 (Rat a1) QNaN (Rat a1) QNaN eq_refl).
  repeat first [rewrite widenX_number | rewrite widenY_number].
  cbn [isEmpty x1 x2 y1 y2 isNaN rat_Number orb].
  repeat match goal with
    | |- context [Qc_ltb ?u ?v] =>
        lazymatch u with
        | context [if _ then _ else _] => fail
        | _ => lazymatch v with
               | context [if _ then _ else _] => fail
               | _ => destruct (Qc_ltb u v) eqn:?
               end
        end
    end;
  repeat match goal with
    | H : Qc_ltb _ _ = true |- _ => apply Qc_ltb_lt in H
    | H : Qc_ltb _ _ = false |- _ => apply Qc_ltb_ge in H
    end;
  try (exfalso; qc_lra);
  repeat f_equal; try reflexivity; apply Qcle_antisym; qc_lra.
Qed.

(** The box from (1, 2) to (3, 5). *)
Lemma extend_draws_the_box_witness :
  commands (extendWith (OfBox (mkBox (lit 1) (lit 2) (lit 3) (lit 5))) (Path.new (T := rat)))
  = commands (Path.new (T := rat))
    ++ [MoveTo (lit 1) (lit 2); LineTo (lit 3) (lit 2);
        LineTo (lit 3) (lit 5); LineTo (lit 1) (lit 5); Close]
  /\ getBoundingBox (commands (extendWith (OfBox (mkBox (lit 1) (lit 2) (lit 3) (lit 5)))
                                 (Path.new (T := rat))))
     = mkBox (lit 1) (lit 2) (lit 3) (lit 5).
Proof.
  apply (extend_draws_the_box (Q2Qc (inject_Z 1)) (Q2Qc (inject_Z 2))
           (Q2Qc (inject_Z 3)) (Q2Qc (inject_Z 5)) Path.new);
    vm_compute; discriminate.
Defined.

End ExtendFacts.

(** ** GlyphSet: the constructor and the iterator *)

Module GlyphSetFacts.
Import Path Glyph.
Local Open Scope list_scope.

Section Constructor.
Context {T : Type} `{Number T}.
Variable World : Type.

Abbreviation Heap := (gmap GlyphSet.loc (Glyph T World)).

(** A glyph whose path is there, or whose producer returns a path in
    whatever world it is called. *)
Definition returns (g : Glyph T World) : Prop :=
  match _path g with
  | Resolved _ => True
  | Producer f => forall w, exists p w', f w = (Ok (Resolved p), w')
  end.

(** A glyph whose path is there and has [unitsPerEm] as its
    [unitsPerEm]. *)
Definition stamped (unitsPerEm : option T) (g : Glyph T World) : Prop :=
  exists p, _path g = Resolved p /\ Path.unitsPerEm p = unitsPerEm.

Lemma stamped_returns u g : stamped u g -> returns g.
Proof. intros (p & E & _). unfold returns. rewrite E. exact I. Qed.

(** [stamp] on a glyph that returns. *)
Lemma stamp_returns u l (h : Heap) w g :
  h !! l = Some g -> returns g ->
  exists g' w', GlyphSet.stamp World u l h w = (Ok tt, <[l := g']> h, w') /\ stamped u g'.
Proof.
  intros L R. unfold GlyphSet.stamp, GlyphSet.Heap. rewrite L. unfold returns in R.
  unfold readPath. cbn [glyph world].
  destruct (_path g) as [f|p] eqn:E.
  - destruct (R w) as (p & w' & F). rewrite F.
    destruct (GlyphFacts.inheritUnitsPerEm_path World g p) as [p' ->].
    eexists _, _. split; [reflexivity|]. eexists. split; reflexivity.
  - eexists _, _. split; [reflexivity|]. eexists. split; reflexivity.
Qed.

(** The glyphs at [ls] are in the heap and return. *)
Definition ready (ls : list GlyphSet.loc) (h : Heap) : Prop :=
  Forall (fun l => exists g, h !! l = Some g /\ returns g) ls.

Lemma ready_insert ls (h : Heap) l g :
  returns g -> ready ls h -> ready ls (<[l := g]> h).
Proof.
  intros R F. unfold ready in *. eapply Forall_impl; [exact F|]. cbn beta.
  intros k (gk & L & Rk).
  destruct (decide (l = k)) as [->|N].
  - exists g. rewrite lookup_insert_eq. auto.
  - exists gk. rewrite lookup_insert_ne by exact N. auto.
Qed.

(** What the loop of the constructor leaves: the entries, and a heap in
    which the glyphs of the array are stamped and the others are as they
    were. *)
Lemma fill_ready u (gs : list GlyphSet.loc) : forall i entries (h : Heap) w,
  ready gs h ->
  exists entries' h' w',
    GlyphSet.fill World u i gs entries h w = (Ok entries', h', w')
    /\ (forall k, entries' !! k =
                  if decide (i <= k < i + List.length gs)%nat
                  then GlyphSet.Loaded T World <$> gs !! (k - i)%nat
                  else entries !! k)
    /\ (forall l, In l gs -> exists g, h' !! l = Some g /\ stamped u g)
    /\ (forall l, ~ In l gs -> h' !! l = h !! l)
    /\ (forall l g, h !! l = Some g -> stamped u g ->
          exists g', h' !! l = Some g' /\ stamped u g').
Proof.
  induction gs as [|l gs IH]; intros i entries h w R.
  - exists entries, h, w. split; [reflexivity|]. split; [|split; [|split]].
    + intros k. cbn [List.length]. destruct (decide _) as [D|D]; [lia | reflexivity].
    + intros l [].
    + reflexivity.
    + intros l g L Sl. eauto.
  - apply Forall_cons in R as [(g & L & Rg) R].
    destruct (stamp_returns u l h w g L Rg) as (g' & w1 & E & Sg).
    pose proof (stamped_returns u g' Sg) as Rg'.
    destruct (IH (S i) (<[i := GlyphSet.Loaded T World l]> entries) (<[l := g']> h) w1
                (ready_insert gs h l g' Rg' R))
      as (entries' & h' & w' & F & En & St & Ot & Ke).
    exists entries', h', w'. cbn [GlyphSet.fill]. rewrite E.
    split; [exact F|]. split; [|split; [|split]].
    + intros k. rewrite En. cbn [List.length].
      destruct (decide (S i <= k < S i + List.length gs)%nat) as [D|D].
      * destruct (decide (i <= k < i + S (List.length gs))%nat) as [D'|D']; [|lia].
        replace (k - i)%nat with (S (k - S i)) by lia. reflexivity.
      * destruct (decide (i <= k < i + S (List.length gs))%nat) as [D'|D'].
        -- assert (k = i) as -> by lia. rewrite lookup_insert_eq.
           replace (i - i)%nat with 0%nat by lia. reflexivity.
        -- rewrite lookup_insert_ne by lia. reflexivity.
    + intros k [<-|I]; [|apply St, I].
      apply (Ke l g'); [apply lookup_insert_eq | exact Sg].
    + intros k N. rewrite Ot by (intros I; apply N; right; exact I).
      apply lookup_insert_ne. intros ->. apply N. left. reflexivity.
    + intros k gk Lk Sk. destruct (decide (l = k)) as [->|N].
      * apply (Ke k g'); [apply lookup_insert_eq | exact Sg].
      * apply (Ke k gk); [rewrite lookup_insert_ne by exact N; exact Lk | exact Sk].
Qed.

(** A loop over a set whose entries are the glyphs of [gs]. *)
Lemma iterate_loaded font (gs : list GlyphSet.loc) (s : GlyphSet.State T World) :
  GlyphSet.length _ _ (GlyphSet.set _ _ s) = List.length gs ->
  (forall k g, gs !! k = Some g ->
     GlyphSet.glyphs _ _ (GlyphSet.set _ _ s) !! k = Some (GlyphSet.Loaded T World g)) ->
  forall fuel n, (List.length gs - n < fuel)%nat ->
    GlyphSet.iterate World font fuel n s = (Some (Ok (map Some (drop n gs))), s).
Proof.
  intros Len En. induction fuel as [|fuel IH]; intros n F.
  - lia.
  - cbn [GlyphSet.iterate]. unfold GlyphSet.next. rewrite Len.
    destruct (List.length gs <=? n)%nat eqn:D.
    + apply Nat.leb_le in D. rewrite drop_ge by lia. reflexivity.
    + apply Nat.leb_gt in D.
      destruct (lookup_lt_is_Some_2 gs n D) as [g G].
      rewrite (GlyphFacts.get_loaded T World font n s g (En n g G)).
      rewrite IH by lia. rewrite (drop_S gs g n G). reflexivity.
Qed.

(** [new GlyphSet(font, glyphs)] on an array of glyph objects whose paths
    are there or whose producers return a path: the set has the glyphs at
    their indices and the length of the array; every glyph of the array has
    its path in place, producers called, with the [unitsPerEm] of the font;
    no other glyph object is touched; and a loop [for (const glyph of set)]
    yields the glyphs of the array in their order and changes nothing. With
    an argument that is no array the set is empty and the loop yields
    nothing. *)
Theorem new_holds_the_glyphs (unitsPerEm : option T) (gs : list GlyphSet.loc)
    (h : Heap) (w : World) :
  ready gs h ->
  (exists set h' w',
     GlyphSet.new World unitsPerEm (Some gs) h w = (Ok set, h', w')
     /\ GlyphSet.length _ _ set = List.length gs
     /\ (forall k, GlyphSet.glyphs _ _ set !! k = GlyphSet.Loaded T World <$> gs !! k)
     /\ (forall l, In l gs -> exists g, h' !! l = Some g /\ stamped unitsPerEm g)
     /\ (forall l, ~ In l gs -> h' !! l = h !! l)
     /\ forall font,
          GlyphSet.iterate World font (S (List.length gs)) 0 (GlyphSet.mkState _ _ set h')
          = (Some (Ok (map Some gs)), GlyphSet.mkState _ _ set h'))
  /\ (forall font,
        GlyphSet.new World unitsPerEm None h w = (Ok (GlyphSet.mkGlyphs _ _ ∅ 0), h, w)
        /\ GlyphSet.iterate World font 1 0
             (GlyphSet.mkState _ _ (GlyphSet.mkGlyphs _ _ ∅ 0) h)
           = (Some (Ok []), GlyphSet.mkState _ _ (GlyphSet.mkGlyphs _ _ ∅ 0) h)).
Proof.
  intros R. split; [|intros font; split; reflexivity].
  destruct (fill_ready unitsPerEm gs 0 ∅ h w R) as (entries & h' & w' & F & En & St & Ot & _).
  assert (E : forall k, entries !! k = GlyphSet.Loaded T World <$> gs !! k).
  { intros k. rewrite En. replace (k - 0)%nat with k by lia.
    destruct (decide (0 <= k < 0 + List.length gs)%nat) as [D|D]; [reflexivity|].
    rewrite lookup_empty, lookup_ge_None_2 by lia. reflexivity. }
  exists (GlyphSet.mkGlyphs _ _ entries (List.length gs)), h', w'.
  unfold GlyphSet.new. rewrite F.
  split; [reflexivity|]. split; [reflexivity|]. split; [exact E|].
  split; [exact St|]. split; [exact Ot|].
  intros font.
  rewrite (iterate_loaded font gs); [rewrite drop_0; reflexivity | reflexivity | | lia].
  intros k g G. cbn [GlyphSet.set GlyphSet.glyphs]. rewrite E, G. reflexivity.
Qed.

End Constructor.

(** Two glyph objects in binary64, the second with a producer that has not
    been called, and the set built from them. *)
Definition plainGlyph : Glyph float unit := GlyphFacts.blank (Resolved Path.new).

Definition lazyGlyph : Glyph float unit :=
  GlyphFacts.blank (Producer (fun w => (Ok (Resolved Path.new), w))).

Definition twoGlyphs : gmap GlyphSet.loc (Glyph float unit) := <[1%nat := lazyGlyph]> (<[0%nat := plainGlyph]> ∅).

Lemma new_holds_the_glyphs_witness :
  (exists set h' w',
     GlyphSet.new unit (Some 2048%float) (Some [0%nat; 1%nat]) twoGlyphs tt = (Ok set, h', w')
     /\ GlyphSet.length _ _ set = 2%nat
     /\ (forall k, GlyphSet.glyphs _ _ set !! k
                   = GlyphSet.Loaded float unit <$> [0%nat; 1%nat] !! k)
     /\ (forall l, In l [0%nat; 1%nat] ->
           exists g, h' !! l = Some g /\ stamped unit (Some 2048%float) g)
     /\ (forall l, ~ In l [0%nat; 1%nat] -> h' !! l = twoGlyphs !! l)
     /\ forall font,
          GlyphSet.iterate unit font 3 0 (GlyphSet.mkState _ _ set h')
          = (Some (Ok [Some 0%nat; Some 1%nat]), GlyphSet.mkState _ _ set h'))
  /\ (forall font,
        GlyphSet.new unit (Some 2048%float) None twoGlyphs tt
        = (Ok (GlyphSet.mkGlyphs _ _ ∅ 0), twoGlyphs, tt)
        /\ GlyphSet.iterate unit font 1 0
             (GlyphSet.mkState _ _ (GlyphSet.mkGlyphs _ _ ∅ 0) twoGlyphs)
           = (Some (Ok []), GlyphSet.mkState _ _ (GlyphSet.mkGlyphs _ _ ∅ 0) twoGlyphs)).
Proof.
  apply (new_holds_the_glyphs unit (Some 2048%float) [0%nat; 1%nat] twoGlyphs tt).
  repeat apply List.Forall_cons; [| |apply List.Forall_nil].
  - exists plainGlyph. split; [reflexivity | exact I].
  - exists lazyGlyph. split; [reflexivity|]. intros w. eexists _, _. reflexivity.
Defined.

End GlyphSetFacts.
